(** * Poisson matrix factorisation with batch inference (pmf.py, hpmf.py)

    A shallow embedding of [PoissonMF] and [HPoissonMF]: the bilinear kernel
    [_inner], [_compute_expectations], the user and item updates with their
    category masks, the convergence loop [_update] and [fit].

    Numbers are IEEE 754 binary64 values (Rocq's primitive floats), so NaN,
    the infinities, signed zeros, underflow and rounding behave as they do
    for a Python float.  Arrays that the source stores as float32 are kept
    at binary64 precision here, with one exception: the result buffer of
    [_inner], which the C loop writes entry by entry, rounds every value
    stored into it to float32.  Arrays are values: the only in-place writes
    of the source ([self.gamma_b[mask] = ...]) hit arrays that no other name
    refers to, and [A[mask]] copies, so no claim depends on aliasing. *)

From Stdlib Require Import ZArith List Bool String Lia.
From Stdlib Require Import Floats.
Import ListNotations.

Local Open Scope Z_scope.
Local Open Scope float_scope.
Local Open Scope string_scope.
Local Open Scope list_scope.

Set Implicit Arguments.
Set Warnings "-inexact-float".

(** ** Exceptions and the state-and-exception monad *)

Inductive exn : Type :=
| NameError (var : string)          (* includes UnboundLocalError *)
| TypeError (what : string)         (* an operation applied to None *)
| ValueError (what : string)        (* shapes that do not fit *)
| IndexError (what : string)        (* a mask of the wrong shape *)
| AttributeError (what : string)    (* [False.astype], [None.shape] *)
| KeyError (key : string)           (* a key a dict does not hold *)
| MemoryFault (what : string)       (* a read outside a buffer in the C loop *)
| Exception (msg : string).         (* [raise Exception(msg)] *)

Inductive outcome (S A : Type) : Type :=
| Ok (a : A) (s : S)
| Raise (e : exn) (s : S).

Arguments Ok {S A} a s.
Arguments Raise {S A} e s.

Definition M (S A : Type) : Type := S -> outcome S A.

Definition ret {S A} (a : A) : M S A := fun s => Ok a s.

Definition bind {S A B} (c : M S A) (k : A -> M S B) : M S B :=
  fun s => match c s with
           | Ok a s' => k a s'
           | Raise e s' => Raise e s'
           end.

Definition raise {S A} (e : exn) : M S A := fun s => Raise e s.
Definition get {S} : M S S := fun s => Ok s s.
Definition gets {S A} (f : S -> A) : M S A := fun s => Ok (f s) s.
Definition modify {S} (f : S -> S) : M S unit := fun s => Ok tt (f s).

(** A pure computation that may raise. *)
Definition res (A : Type) : Type := (exn + A)%type.

Definition lift {S A} (r : res A) : M S A :=
  fun s => match r with inl e => Raise e s | inr a => Ok a s end.

Definition rbind {A B} (r : res A) (k : A -> res B) : res B :=
  match r with inl e => inl e | inr a => k a end.

Definition of_option {A} (e : exn) (o : option A) : res A :=
  match o with Some a => inr a | None => inl e end.

Declare Scope monad_scope.
Delimit Scope monad_scope with monad.
Notation "x <- c ;; k" := (bind c (fun x => k))
  (at level 61, c at next level, right associativity) : monad_scope.
Notation "c ;; k" := (bind c (fun _ => k))
  (at level 61, right associativity) : monad_scope.
Notation "x <~ r ;; k" := (rbind r (fun x => k))
  (at level 61, r at next level, right associativity) : monad_scope.

Definition state_of {S A} (o : outcome S A) : S :=
  match o with Ok _ s => s | Raise _ s => s end.

(** [for i in xrange(n)] with [break]: the body receives the local
    variables of the enclosing function and returns them, with [true] when
    it leaves the loop by [break]. *)
Fixpoint for_each {S I L} (body : I -> L -> M S (L * bool)) (idxs : list I)
    (l : L) : M S L :=
  match idxs with
  | [] => ret l
  | i :: rest =>
      bind (body i l) (fun r =>
        if snd r then ret (fst r) else for_each body rest (fst r))
  end.

Definition xrange (n : Z) : list Z := map Z.of_nat (seq 0 (Z.to_nat n)).

(** ** A small model of the numpy and scipy operations the source uses *)

Module Np.

Definition vec := list float.
Definition mat := list (list float).      (* the rows of a 2-D array *)
Definition mask := list (list bool).

(** An array value: a scalar (a Python float or a 0-d array), a 1-D or a
    2-D array. *)
Inductive ndarray : Type :=
| Scalar (x : float)
| Vec (v : vec)
| Mat (m : mat).

(** What the library computes and the repository takes as given:
    [np.exp], [np.log], [scipy.special.psi] on one number, and the stream of
    [np.random.gamma] draws ([random_gamma d shape scale i]: sample [i] of
    draw number [d] of the global generator). *)
Record numpy : Type := {
  np_exp : float -> float;
  np_log : float -> float;
  special_psi : float -> float;
  random_gamma : nat -> float -> float -> nat -> float
}.

Definition ncols (m : mat) : nat := List.length (hd [] m).
Definition nrows (m : mat) : nat := List.length m.

(** The buffer of a C-contiguous array. *)
Definition ravel (a : ndarray) : vec :=
  match a with
  | Scalar x => [x]
  | Vec v => v
  | Mat m => List.concat m
  end.

Fixpoint mapM {A B} (f : A -> option B) (l : list A) : option (list B) :=
  match l with
  | [] => Some []
  | x :: r =>
      match f x, mapM f r with
      | Some y, Some ys => Some (y :: ys)
      | _, _ => None
      end
  end.

Fixpoint mapM2 {A B} (f : A -> A -> option B) (l1 l2 : list A)
  : option (list B) :=
  match l1, l2 with
  | x :: r1, y :: r2 =>
      match f x y, mapM2 f r1 r2 with
      | Some z, Some zs => Some (z :: zs)
      | _, _ => None
      end
  | _, _ => Some []
  end.

(** Broadcasting along one axis: equal lengths pair up, an axis of length 1
    is stretched, anything else does not broadcast. *)
Definition bcast {A B} (g : A -> A -> option B) (l1 l2 : list A)
  : option (list B) :=
  if Nat.eqb (List.length l1) (List.length l2) then mapM2 g l1 l2
  else match l1, l2 with
       | [x], _ => mapM (g x) l2
       | _, [y] => mapM (fun x => g x y) l1
       | _, _ => None
       end.

Definition bcast0 (f : float -> float -> float) (x y : float)
  : option float := Some (f x y).

Definition bcast_error : exn :=
  ValueError "operands could not be broadcast together".

(** An elementwise binary operation with numpy's broadcasting. *)
Definition bop (f : float -> float -> float) (a b : ndarray) : res ndarray :=
  match a, b with
  | Scalar x, Scalar y => inr (Scalar (f x y))
  | Scalar x, Vec v => inr (Vec (map (f x) v))
  | Scalar x, Mat m => inr (Mat (map (map (f x)) m))
  | Vec v, Scalar y => inr (Vec (map (fun x => f x y) v))
  | Mat m, Scalar y => inr (Mat (map (map (fun x => f x y)) m))
  | Vec v, Vec w => of_option bcast_error (option_map Vec (bcast (bcast0 f) v w))
  | Vec v, Mat m =>
      of_option bcast_error (option_map Mat (bcast (bcast (bcast0 f)) [v] m))
  | Mat m, Vec w =>
      of_option bcast_error (option_map Mat (bcast (bcast (bcast0 f)) m [w]))
  | Mat m, Mat n =>
      of_option bcast_error (option_map Mat (bcast (bcast (bcast0 f)) m n))
  end.

Definition add := bop PrimFloat.add.
Definition sub := bop PrimFloat.sub.
Definition mul := bop PrimFloat.mul.
Definition div := bop PrimFloat.div.

(** An elementwise unary function (a ufunc). *)
Definition umap (f : float -> float) (a : ndarray) : ndarray :=
  match a with
  | Scalar x => Scalar (f x)
  | Vec v => Vec (map f v)
  | Mat m => Mat (map (map f) m)
  end.

(** Attributes and arguments that may hold [None] (or [False]). *)
Definition pyarr := option ndarray.

(** A ufunc applied to [None] raises. *)
Definition ufunc (name : string) (f : float -> float) (a : pyarr)
  : res ndarray :=
  match a with
  | Some x => inr (umap f x)
  | None => inl (TypeError name)
  end.

Definition transpose_mat (m : mat) : mat :=
  map (fun j => map (fun r => nth j r 0%float) m) (seq 0 (ncols m)).

(** [a.T]; [None] has no such attribute. *)
Definition T (a : pyarr) : res ndarray :=
  match a with
  | None => inl (AttributeError "T")
  | Some (Mat m) => inr (Mat (transpose_mat m))
  | Some x => inr x
  end.

Definition fsum (l : vec) : float := fold_left PrimFloat.add l 0%float.

(** [np.sum(a, axis=0)], [np.sum(a, axis=1)] and their [keepdims=True]
    forms; summation runs in index order. *)
Definition sum_axis0 (a : pyarr) : res ndarray :=
  match a with
  | Some (Mat m) => inr (Vec (map fsum (transpose_mat m)))
  | Some (Vec v) => inr (Scalar (fsum v))
  | _ => inl (ValueError "axis 0 is out of bounds")
  end.

Definition sum_axis0_keepdims (a : pyarr) : res ndarray :=
  match a with
  | Some (Mat m) => inr (Mat [map fsum (transpose_mat m)])
  | Some (Vec v) => inr (Vec [fsum v])
  | _ => inl (ValueError "axis 0 is out of bounds")
  end.

Definition sum_axis1 (a : pyarr) : res ndarray :=
  match a with
  | Some (Mat m) => inr (Vec (map fsum m))
  | _ => inl (ValueError "axis 1 is out of bounds")
  end.

Definition sum_axis1_keepdims (a : pyarr) : res ndarray :=
  match a with
  | Some (Mat m) => inr (Mat (map (fun r => [fsum r]) m))
  | _ => inl (ValueError "axis 1 is out of bounds")
  end.

(** [np.mean] of a 1-D array; the mean of no numbers is [0/0], a NaN. *)
Definition mean (v : vec) : float :=
  (fsum v / PrimFloat.of_uint63 (Uint63.of_Z (Z.of_nat (List.length v))))%float.

(** *** Boolean masks *)

Fixpoint map2 {A B C} (f : A -> B -> C) (l1 : list A) (l2 : list B) : list C :=
  match l1, l2 with
  | x :: r1, y :: r2 => f x y :: map2 f r1 r2
  | _, _ => []
  end.

Fixpoint same_len2 {A B} (l1 : list (list A)) (l2 : list (list B)) : bool :=
  match l1, l2 with
  | [], [] => true
  | r1 :: t1, r2 :: t2 =>
      Nat.eqb (List.length r1) (List.length r2) && same_len2 t1 t2
  | _, _ => false
  end.

(** [beta.astype(bool)]: nonzero is [True] (a NaN is nonzero). *)
Definition astype_bool (m : mat) : mask :=
  map (map (fun x => negb (x =? 0)%float)) m.

Definition logical_not (k : mask) : mask := map (map negb) k.

Fixpoint select_row (r : vec) (k : list bool) : vec :=
  match r, k with
  | x :: r', b :: k' => if b then x :: select_row r' k' else select_row r' k'
  | _, _ => []
  end.

Definition mask_error : exn :=
  IndexError "boolean index did not match indexed array".

(** [a[k]] for a 2-D boolean [k]: a fresh 1-D array of the selected
    entries, in row-major order. *)
Definition select (a : pyarr) (k : mask) : res vec :=
  match a with
  | None => inl (TypeError "NoneType is not subscriptable")
  | Some (Mat m) =>
      if same_len2 m k then inr (List.concat (map2 select_row m k))
      else inl mask_error
  | Some _ => inl mask_error
  end.

(** [a[k] = x] for a number [x]. *)
Definition assign_scalar (a : pyarr) (k : mask) (x : float) : res ndarray :=
  match a with
  | None => inl (TypeError "NoneType does not support item assignment")
  | Some (Mat m) =>
      if same_len2 m k
      then inr (Mat (map2 (map2 (fun y (b : bool) => if b then x else y)) m k))
      else inl mask_error
  | Some _ => inl mask_error
  end.

Definition count_true (k : mask) : nat :=
  List.length (filter (fun b : bool => b) (List.concat k)).

(** One row of [a[k] = v]: the selected cells take the next values of [v]. *)
Fixpoint fill_row (r : vec) (k : list bool) (v : vec) : vec * vec :=
  match r, k with
  | x :: r', b :: k' =>
      if b then
        match v with
        | y :: v' => let (row, rest) := fill_row r' k' v' in (y :: row, rest)
        | [] => let (row, rest) := fill_row r' k' [] in (x :: row, rest)
        end
      else let (row, rest) := fill_row r' k' v in (x :: row, rest)
  | _, _ => ([], v)
  end.

Fixpoint fill (m : mat) (k : mask) (v : vec) : mat :=
  match m, k with
  | r :: m', kr :: k' =>
      let (row, rest) := fill_row r kr v in row :: fill m' k' rest
  | _, _ => []
  end.

(** [a[k] = v] for a 1-D array [v]: as many values as selected cells, or a
    single value for all of them. *)
Definition assign_vec (a : pyarr) (k : mask) (v : vec) : res ndarray :=
  match a with
  | None => inl (TypeError "NoneType does not support item assignment")
  | Some (Mat m) =>
      if same_len2 m k then
        if Nat.eqb (List.length v) (count_true k) then inr (Mat (fill m k v))
        else match v with
             | [x] => inr (Mat (map2 (map2 (fun y (b : bool) => if b then x else y)) m k))
             | _ => inl (ValueError "cannot assign the input values to the mask")
             end
      else inl mask_error
  | Some _ => inl mask_error
  end.

(** *** Shapes, [np.repeat], [np.reshape] *)

Definition shape (a : pyarr) : res (list nat) :=
  match a with
  | None => inl (AttributeError "shape")
  | Some (Scalar _) => inr []
  | Some (Vec v) => inr [List.length v]
  | Some (Mat m) => inr [nrows m; ncols m]
  end.

Definition shape0 (a : pyarr) : res nat :=
  (sh <~ shape a ;;
   match sh with
   | n :: _ => inr n
   | [] => inl (IndexError "tuple index out of range")
   end)%monad.

(** [np.repeat(a, n, axis=0)] of a 1-D array: each entry [n] times. *)
Definition repeat0 (a : ndarray) (n : nat) : res vec :=
  match a with
  | Vec v => inr (flat_map (fun x => repeat x n) v)
  | Scalar _ => inl (ValueError "axis 0 is out of bounds")
  | Mat _ => inl (ValueError "repeat of a 2-D array is not modelled")
  end.

Fixpoint chunk (k nr : nat) (v : vec) : mat :=
  match nr with
  | O => []
  | S nr' => firstn k v :: chunk k nr' (skipn k v)
  end.

Definition reshape (v : vec) (sh : list nat) : res ndarray :=
  match sh with
  | [n] => if Nat.eqb (List.length v) n then inr (Vec v)
           else inl (ValueError "cannot reshape")
  | [i; k] => if Nat.eqb (List.length v) (i * k) then inr (Mat (chunk k i v))
              else inl (ValueError "cannot reshape")
  | _ => inl (ValueError "cannot reshape")
  end.

(** *** Sparse matrices *)

(** [sparse.csr_matrix((vals, (rows, cols)), shape=sh)]: the stored
    entries in the order given. *)
Record csr : Type := {
  csr_shape : nat * nat;
  csr_entries : list (Z * Z * float)
}.

Definition in_range (n : nat) (z : Z) : bool :=
  (0 <=? z)%Z && (z <? Z.of_nat n)%Z.

Definition csr_matrix (vals : vec) (rows cols : list Z) (sh : nat * nat)
  : res csr :=
  if Nat.eqb (List.length vals) (List.length rows)
     && Nat.eqb (List.length rows) (List.length cols)
  then
    if forallb (in_range (fst sh)) rows && forallb (in_range (snd sh)) cols
    then inr {| csr_shape := sh;
                csr_entries := combine (combine rows cols) vals |}
    else inl (ValueError "index exceeds matrix dimensions")
  else inl (ValueError "row, column, and data arrays must be the same length").

Definition transpose (s : csr) : csr :=
  {| csr_shape := (snd (csr_shape s), fst (csr_shape s));
     csr_entries := map (fun e => (snd (fst e), fst (fst e), snd e))
                        (csr_entries s) |}.

Definition axpy (v : float) (x acc : vec) : vec :=
  map2 (fun a xi => (a + v * xi)%float) acc x.

(** Row [i] of [s.dot(d)]: the stored entries of that row, in order. *)
Definition dot_row (s : csr) (d : mat) (i : nat) : vec :=
  fold_left
    (fun acc e =>
       if (fst (fst e) =? Z.of_nat i)%Z
       then axpy (snd e) (nth (Z.to_nat (snd (fst e))) d []) acc
       else acc)
    (csr_entries s) (repeat 0%float (ncols d)).

(** [s.dot(d)] for a dense 2-D [d]. *)
Definition dot (s : csr) (d : ndarray) : res ndarray :=
  match d with
  | Mat m =>
      if Nat.eqb (nrows m) (snd (csr_shape s))
      then inr (Mat (map (dot_row s m) (seq 0 (fst (csr_shape s)))))
      else inl (ValueError "dimension mismatch")
  | _ => inl (ValueError "dimension mismatch")
  end.

End Np.

Import Np.
Local Open Scope monad_scope.

(** ** The module-level functions of pmf.py and hpmf.py (identical in both) *)

Definition oob : exn := MemoryFault "read outside the buffer".

(** [buf[z]] in the C loop: a read outside the buffer is undefined in C and
    is a fault here. *)
Definition flat_get (buf : vec) (z : Z) : res float :=
  if (z <? 0)%Z then inl oob else of_option oob (nth_error buf (Z.to_nat z)).

(** A store into a float32 buffer ([data = np.empty(n_ratings,
    dtype=np.float32)]): the value is rounded to the nearest number with a
    24-bit significand, ties to even, with float32's subnormals, and to an
    infinity beyond float32's range; NaN, the infinities and the zeros are
    stored as they are. *)
Definition float32 (x : float) : float :=
  SF2Prim (match Prim2SF x with
           | S754_finite s m e => binary_round 24 128 s m e
           | sf => sf
           end).

(** The inner loop over [j]: [data[i] += beta[rows[i] * n_components + j] *
    theta[j * n_users + cols[i]]], starting from [data[i] = 0.0].  [data[i]]
    lives in the float32 buffer, so every partial sum is rounded to float32
    when it is stored; the entries of [beta] and [theta] are the binary64
    numbers of this model, and the product and the sum are formed in
    binary64 before the store. *)
Definition inner_cell (beta theta : vec) (n_components n_users : Z) (r c : Z)
  : res float :=
  fold_left
    (fun acc j =>
       a <~ acc ;;
       x <~ flat_get beta (r * n_components + j) ;;
       y <~ flat_get theta (j * n_users + c) ;;
       inr (float32 (a + x * y)%float))
    (xrange n_components) (inr (float32 0%float)).

(** The outer loop over [i < n_ratings = rows.size]. *)
Fixpoint inner_loop (beta theta : vec) (n_components n_users : Z)
    (rows cols : list Z) : res vec :=
  match rows with
  | [] => inr []
  | r :: rows' =>
      match cols with
      | [] => inl oob
      | c :: cols' =>
          x <~ inner_cell beta theta n_components n_users r c ;;
          xs <~ inner_loop beta theta n_components n_users rows' cols' ;;
          inr (x :: xs)
      end
  end.

(** [_inner(beta, theta, rows, cols)]: [theta.shape] must unpack into two
    numbers; both arrays are read through their flat buffers. *)
Definition _inner (beta theta : pyarr) (rows cols : list Z) : res vec :=
  match theta with
  | None => inl (AttributeError "shape")
  | Some (Mat t) =>
      match beta with
      | None => inl (TypeError "beta is not an array")
      | Some b =>
          inner_loop (ravel b) (ravel (Mat t))
                     (Z.of_nat (nrows t)) (Z.of_nat (ncols t)) rows cols
      end
  | Some _ => inl (ValueError "need more than 1 value to unpack")
  end.

Definition need (what : string) (a : pyarr) : res ndarray :=
  of_option (TypeError what) a.

Section WithNumpy.

Variable np : numpy.

Definition exp := ufunc "exp" (np_exp np).
Definition log := ufunc "log" (np_log np).
Definition psi := ufunc "psi" (special_psi np).

(** [_compute_expectations(alpha, beta)]:
    [(alpha / beta, special.psi(alpha) - np.log(beta))]. *)
Definition _compute_expectations (alpha beta : pyarr)
  : res (ndarray * ndarray) :=
  a <~ need "unsupported operand type(s) for /" alpha ;;
  b <~ need "unsupported operand type(s) for /" beta ;;
  mean <~ Np.div a b ;;
  p <~ psi alpha ;;
  l <~ log beta ;;
  log_mean <~ Np.sub p l ;;
  inr (mean, log_mean).

End WithNumpy.

(** ** Observation points

    The state a method runs in is the object together with a record of what
    the run did: the evaluations of the held-out log-likelihood, the calls
    of the updates, the clamping and the reloading of the item parameters,
    each with a copy of the object at that point.  The record is ghost
    state: no method reads it.  The newest entry comes first. *)

Inductive label : Type :=
| LUsers                                   (* [_update_users] returned *)
| LItems (update : string)                 (* [_update_items] returned *)
| LEval (update : string) (i : Z) (old_pll pred_ll : float)
                                           (* [pred_ll] was computed *)
| LClamp (update : string) (i : Z)         (* a mask subset was set to 1e-5 *)
| LRestore (update : string) (i : Z)       (* the cached values were put back *)
| LStop (update : string) (i : Z).         (* the tolerance test left the loop *)

Record world (Obj : Type) : Type := {
  self : Obj;
  trace : list (label * Obj)
}.

Arguments self {Obj} w.
Arguments trace {Obj} w.

Definition observe {Obj} (l : label) : M (world Obj) unit :=
  modify (fun w => {| self := self w; trace := (l, self w) :: trace w |}).

Definition getattr {Obj A} (f : Obj -> A) : M (world Obj) A :=
  gets (fun w => f (self w)).

Definition setattr {Obj} (f : Obj -> Obj) : M (world Obj) unit :=
  modify (fun w => {| self := f (self w); trace := trace w |}).

(** The sparse training matrix [X] ([X.shape], [X.data]) with its index
    arrays, and the held-out triples [vad]. *)
Record sparse : Type := { X_shape : nat * nat; X_data : vec }.

Record held_out : Type := {
  X_new : vec; rows_new : list Z; cols_new : list Z
}.

Definition streq (s t : string) : bool := String.eqb s t.
Definition is_str (o : option string) (t : string) : bool :=
  match o with Some s => String.eqb s t | None => false end.
Definition is_ndarray {A} (o : option A) : bool :=
  match o with Some _ => true | None => false end.

Definition as_pyarr (o : option mat) : pyarr := option_map Mat o.

Definition small_num : float := 1e-5%float.

(** Both [_update] loops end an iteration with
    [improvement = (pred_ll - old_pll) / abs(old_pll)] and the test
    [improvement < self.tol and i > self.min_iter]. *)
Definition improvement (pred_ll old_pll : float) : float :=
  ((pred_ll - old_pll) / abs old_pll)%float.

Definition tol_stop (tol : float) (min_iter i : Z) (pred_ll old_pll : float)
  : bool :=
  (improvement pred_ll old_pll <? tol)%float && (min_iter <? i)%Z.

(** An [r x c] array filled, row by row, with the samples of one draw. *)
Definition sample_matrix (sample : nat -> float) (r c : nat) : mat :=
  map (fun i => map (fun j => sample (i * c + j)%nat) (seq 0 c)) (seq 0 r).

(** ** PoissonMF (pmf.py) *)

Module PMF.

(** The attributes of a [PoissonMF] object.  [rng] counts the draws taken
    from numpy's global generator. *)
Record PoissonMF : Type := {
  n_components : nat;
  max_iter : Z;
  min_iter : Z;
  tol : float;
  smoothness : float;
  items_init_scale : float;
  max_iter_fixed : Z;
  a : float;
  b : float;
  c : float;
  d : float;
  n_users : nat;
  gamma_t : pyarr;
  rho_t : pyarr;
  Et : pyarr;
  Elogt : pyarr;
  gamma_b : pyarr;
  rho_b : pyarr;
  Eb : pyarr;
  Elogb : pyarr;
  rng : nat
}.

Definition set_n_users (v_n_users : nat) (o : PoissonMF) : PoissonMF :=
  {| n_components := n_components o;
     max_iter := max_iter o;
     min_iter := min_iter o;
     tol := tol o;
     smoothness := smoothness o;
     items_init_scale := items_init_scale o;
     max_iter_fixed := max_iter_fixed o;
     a := a o;
     b := b o;
     c := c o;
     d := d o;
     n_users := v_n_users;
     gamma_t := gamma_t o;
     rho_t := rho_t o;
     Et := Et o;
     Elogt := Elogt o;
     gamma_b := gamma_b o;
     rho_b := rho_b o;
     Eb := Eb o;
     Elogb := Elogb o;
     rng := rng o |}.

Definition set_rng (v_rng : nat) (o : PoissonMF) : PoissonMF :=
  {| n_components := n_components o;
     max_iter := max_iter o;
     min_iter := min_iter o;
     tol := tol o;
     smoothness := smoothness o;
     items_init_scale := items_init_scale o;
     max_iter_fixed := max_iter_fixed o;
     a := a o;
     b := b o;
     c := c o;
     d := d o;
     n_users := n_users o;
     gamma_t := gamma_t o;
     rho_t := rho_t o;
     Et := Et o;
     Elogt := Elogt o;
     gamma_b := gamma_b o;
     rho_b := rho_b o;
     Eb := Eb o;
     Elogb := Elogb o;
     rng := v_rng |}.

Definition set_gamma_t (v_gamma_t : pyarr) (o : PoissonMF) : PoissonMF :=
  {| n_components := n_components o;
     max_iter := max_iter o;
     min_iter := min_iter o;
     tol := tol o;
     smoothness := smoothness o;
     items_init_scale := items_init_scale o;
     max_iter_fixed := max_iter_fixed o;
     a := a o;
     b := b o;
     c := c o;
     d := d o;
     n_users := n_users o;
     gamma_t := v_gamma_t;
     rho_t := rho_t o;
     Et := Et o;
     Elogt := Elogt o;
     gamma_b := gamma_b o;
     rho_b := rho_b o;
     Eb := Eb o;
     Elogb := Elogb o;
     rng := rng o |}.

Definition set_rho_t (v_rho_t : pyarr) (o : PoissonMF) : PoissonMF :=
  {| n_components := n_components o;
     max_iter := max_iter o;
     min_iter := min_iter o;
     tol := tol o;
     smoothness := smoothness o;
     items_init_scale := items_init_scale o;
     max_iter_fixed := max_iter_fixed o;
     a := a o;
     b := b o;
     c := c o;
     d := d o;
     n_users := n_users o;
     gamma_t := gamma_t o;
     rho_t := v_rho_t;
     Et := Et o;
     Elogt := Elogt o;
     gamma_b := gamma_b o;
     rho_b := rho_b o;
     Eb := Eb o;
     Elogb := Elogb o;
     rng := rng o |}.

Definition set_Et (v_Et : pyarr) (o : PoissonMF) : PoissonMF :=
  {| n_components := n_components o;
     max_iter := max_iter o;
     min_iter := min_iter o;
     tol := tol o;
     smoothness := smoothness o;
     items_init_scale := items_init_scale o;
     max_iter_fixed := max_iter_fixed o;
     a := a o;
     b := b o;
     c := c o;
     d := d o;
     n_users := n_users o;
     gamma_t := gamma_t o;
     rho_t := rho_t o;
     Et := v_Et;
     Elogt := Elogt o;
     gamma_b := gamma_b o;
     rho_b := rho_b o;
     Eb := Eb o;
     Elogb := Elogb o;
     rng := rng o |}.

Definition set_Elogt (v_Elogt : pyarr) (o : PoissonMF) : PoissonMF :=
  {| n_components := n_components o;
     max_iter := max_iter o;
     min_iter := min_iter o;
     tol := tol o;
     smoothness := smoothness o;
     items_init_scale := items_init_scale o;
     max_iter_fixed := max_iter_fixed o;
     a := a o;
     b := b o;
     c := c o;
     d := d o;
     n_users := n_users o;
     gamma_t := gamma_t o;
     rho_t := rho_t o;
     Et := Et o;
     Elogt := v_Elogt;
     gamma_b := gamma_b o;
     rho_b := rho_b o;
     Eb := Eb o;
     Elogb := Elogb o;
     rng := rng o |}.

Definition set_gamma_b (v_gamma_b : pyarr) (o : PoissonMF) : PoissonMF :=
  {| n_components := n_components o;
     max_iter := max_iter o;
     min_iter := min_iter o;
     tol := tol o;
     smoothness := smoothness o;
     items_init_scale := items_init_scale o;
     max_iter_fixed := max_iter_fixed o;
     a := a o;
     b := b o;
     c := c o;
     d := d o;
     n_users := n_users o;
     gamma_t := gamma_t o;
     rho_t := rho_t o;
     Et := Et o;
     Elogt := Elogt o;
     gamma_b := v_gamma_b;
     rho_b := rho_b o;
     Eb := Eb o;
     Elogb := Elogb o;
     rng := rng o |}.

Definition set_rho_b (v_rho_b : pyarr) (o : PoissonMF) : PoissonMF :=
  {| n_components := n_components o;
     max_iter := max_iter o;
     min_iter := min_iter o;
     tol := tol o;
     smoothness := smoothness o;
     items_init_scale := items_init_scale o;
     max_iter_fixed := max_iter_fixed o;
     a := a o;
     b := b o;
     c := c o;
     d := d o;
     n_users := n_users o;
     gamma_t := gamma_t o;
     rho_t := rho_t o;
     Et := Et o;
     Elogt := Elogt o;
     gamma_b := gamma_b o;
     rho_b := v_rho_b;
     Eb := Eb o;
     Elogb := Elogb o;
     rng := rng o |}.

Definition set_Eb (v_Eb : pyarr) (o : PoissonMF) : PoissonMF :=
  {| n_components := n_components o;
     max_iter := max_iter o;
     min_iter := min_iter o;
     tol := tol o;
     smoothness := smoothness o;
     items_init_scale := items_init_scale o;
     max_iter_fixed := max_iter_fixed o;
     a := a o;
     b := b o;
     c := c o;
     d := d o;
     n_users := n_users o;
     gamma_t := gamma_t o;
     rho_t := rho_t o;
     Et := Et o;
     Elogt := Elogt o;
     gamma_b := gamma_b o;
     rho_b := rho_b o;
     Eb := v_Eb;
     Elogb := Elogb o;
     rng := rng o |}.

Definition set_Elogb (v_Elogb : pyarr) (o : PoissonMF) : PoissonMF :=
  {| n_components := n_components o;
     max_iter := max_iter o;
     min_iter := min_iter o;
     tol := tol o;
     smoothness := smoothness o;
     items_init_scale := items_init_scale o;
     max_iter_fixed := max_iter_fixed o;
     a := a o;
     b := b o;
     c := c o;
     d := d o;
     n_users := n_users o;
     gamma_t := gamma_t o;
     rho_t := rho_t o;
     Et := Et o;
     Elogt := Elogt o;
     gamma_b := gamma_b o;
     rho_b := rho_b o;
     Eb := Eb o;
     Elogb := v_Elogb;
     rng := rng o |}.

(** The keyword arguments of [_update] with their defaults. *)
Record opts : Type := {
  beta : option mat;
  theta : option mat;
  observed_user_preferences : bool;
  categorywise : bool;
  item_fit_type : string;
  user_fit_type : string;
  update : string;
  zero_untrained_components : bool;
  initialize_users : string;
  only_update : option string
}.

Definition default_opts : opts :=
  {| beta := None; theta := None; observed_user_preferences := false;
     categorywise := false; item_fit_type := "default";
     user_fit_type := "default"; update := "default";
     zero_untrained_components := false; initialize_users := "none";
     only_update := None |}.

Definition W := world PoissonMF.

Section Methods.

Variable np : numpy.

(** [scale * np.random.gamma(smoothness, 1. / smoothness, size=(r, c))]. *)
Definition draw (scale : float) (r c : nat) : M W ndarray :=
  o <- getattr (fun o => o) ;;
  setattr (set_rng (S (rng o))) ;;
  ret (Mat (sample_matrix
              (fun i => (scale * random_gamma np (rng o) (smoothness o)
                                             (1 / smoothness o) i)%float)
              r c)).

Definition _init_users (n_users : nat) (theta : option mat) : M W unit :=
  match theta with
  | Some t =>
      setattr (set_Et (Some (Mat t))) ;;
      setattr (set_Elogt None) ;;
      setattr (set_gamma_t None) ;;
      setattr (set_rho_t None)
  | None =>
      o <- getattr (fun o => o) ;;
      g <- draw (smoothness o) (n_components o) n_users ;;
      setattr (set_gamma_t (Some g)) ;;
      r <- draw (smoothness o) (n_components o) n_users ;;
      setattr (set_rho_t (Some r)) ;;
      e <- lift (_compute_expectations np (Some g) (Some r)) ;;
      setattr (set_Et (Some (fst e))) ;;
      setattr (set_Elogt (Some (snd e)))
  end.

Definition _init_items (n_items : nat) (beta : option mat)
    (categorywise : bool) : M W unit :=
  match beta, categorywise with
  | Some bm, false =>
      setattr (set_Eb (Some (Mat bm))) ;;
      setattr (set_Elogb None) ;;
      setattr (set_gamma_b None) ;;
      setattr (set_rho_b None)
  | _, _ =>
      o <- getattr (fun o => o) ;;
      g <- draw (items_init_scale o * smoothness o)%float
                n_items (n_components o) ;;
      setattr (set_gamma_b (Some g)) ;;
      r <- draw (items_init_scale o * smoothness o)%float
                n_items (n_components o) ;;
      setattr (set_rho_b (Some r)) ;;
      e <- lift (_compute_expectations np (Some g) (Some r)) ;;
      setattr (set_Eb (Some (fst e))) ;;
      setattr (set_Elogb (Some (snd e)))
  end.

(** [_xexplog]: which pair of matrices the kernel is applied to. *)
Definition _xexplog (rows cols : list Z) (beta : option mat)
    (observed_item_attributes observed_user_preferences : bool) : M W vec :=
  o <- getattr (fun o => o) ;;
  if is_ndarray beta && observed_item_attributes then
    t <- lift (exp np (Elogt o)) ;;
    lift (_inner (Eb o) (Some t) rows cols)
  else if observed_user_preferences then
    e <- lift (exp np (Elogb o)) ;;
    lift (_inner (Some e) (Et o) rows cols)
  else
    e <- lift (exp np (Elogb o)) ;;
    t <- lift (exp np (Elogt o)) ;;
    lift (_inner (Some e) (Some t) rows cols).

(** [sparse.csr_matrix((X.data / xexplog, (rows, cols)), shape=X.shape)]. *)
Definition ratio_matrix (X : sparse) (rows cols : list Z) (xexplog : vec)
  : res csr :=
  q <~ Np.div (Vec (X_data X)) (Vec xexplog) ;;
  csr_matrix (ravel q) rows cols (X_shape X).

Definition _update_users (X : sparse) (rows cols : list Z)
    (beta theta : option mat)
    (observed_user_preferences observed_item_attributes : bool)
    (only_update : option string) : M W unit :=
  xexplog <- _xexplog rows cols beta false observed_user_preferences ;;
  ratio <- lift (ratio_matrix X rows cols xexplog) ;;
  let ratioT := transpose ratio in
  o <- getattr (fun o => o) ;;
  expLogElogt <-
    (if observed_user_preferences
     then lift (need "unsupported operand type(s) for *" (Et o))
     else lift (exp np (Elogt o))) ;;
  g <- lift (if is_ndarray beta || is_str only_update "users" then
               eb <~ need "dot" (Eb o) ;;
               p <~ dot ratioT eb ;;
               pT <~ T (Some p) ;;
               q <~ Np.mul expLogElogt pT ;;
               Np.add (Scalar (a o)) q
             else
               e <~ exp np (Elogb o) ;;
               p <~ dot ratioT e ;;
               pT <~ T (Some p) ;;
               q <~ Np.mul expLogElogt pT ;;
               Np.add (Scalar (a o)) q) ;;
  setattr (set_gamma_t (Some g)) ;;
  r <- lift (s <~ sum_axis0_keepdims (Eb o) ;;
             sT <~ T (Some s) ;;
             Np.add (Scalar (b o)) sT) ;;
  setattr (set_rho_t (Some r)) ;;
  e <- lift (_compute_expectations np (Some g) (Some r)) ;;
  setattr (set_Et (Some (fst e))) ;;
  setattr (set_Elogt (Some (snd e))) ;;
  observe LUsers.

(** The masked assignment of [_update_items]:
    [self.gamma_b[k] = gamma_b_updated[k]] and
    [self.rho_b[k] = rho_b_updated_reshaped[k]]. *)
Definition assign_masked (k : Np.mask) (gamma_b_updated rho_b_updated : ndarray)
  : M W unit :=
  o <- getattr (fun o => o) ;;
  gv <- lift (select (Some gamma_b_updated) k) ;;
  g <- lift (assign_vec (gamma_b o) k gv) ;;
  setattr (set_gamma_b (Some g)) ;;
  rv <- lift (select (Some rho_b_updated) k) ;;
  r <- lift (assign_vec (rho_b o) k rv) ;;
  setattr (set_rho_b (Some r)).

(** The values the masked branch of [_update_items] computes before it
    assigns: [gamma_b_updated] and [rho_b_updated_reshaped]. *)
Definition gamma_b_updated (ratio : csr) (observed_user_preferences : bool)
    (o : PoissonMF) : res ndarray :=
  e <~ exp np (Elogb o) ;;
  t <~ (if observed_user_preferences then T (Et o)
        else (tT <~ T (Elogt o) ;; exp np (Some tT))) ;;
  p <~ dot ratio t ;;
  q <~ Np.mul e p ;;
  Np.add (Scalar (c o)) q.

Definition rho_b_updated_reshaped (o : PoissonMF) : res ndarray :=
  s <~ sum_axis1 (Et o) ;;
  rho_b_updated <~ Np.add (Scalar (d o)) s ;;
  n <~ shape0 (rho_b o) ;;
  rep <~ repeat0 rho_b_updated n ;;
  sh <~ shape (rho_b o) ;;
  reshape rep sh.

Definition _update_items (X : sparse) (rows cols : list Z)
    (beta : option mat) (categorywise observed_user_preferences : bool)
    (update : string) : M W unit :=
  xexplog <- _xexplog rows cols None false observed_user_preferences ;;
  ratio <- lift (ratio_matrix X rows cols xexplog) ;;
  o <- getattr (fun o => o) ;;
  (match beta with
   | Some bm =>
       if categorywise && negb (streq update "default") then
         let beta_bool := astype_bool bm in
         gamma_b_updated <-
           lift (gamma_b_updated ratio observed_user_preferences o) ;;
         rho_b_updated_reshaped <- lift (rho_b_updated_reshaped o) ;;
         if streq update "in_category" then
           assign_masked beta_bool gamma_b_updated rho_b_updated_reshaped
         else if streq update "out_category" then
           assign_masked (logical_not beta_bool)
                         gamma_b_updated rho_b_updated_reshaped
         else ret tt
       else
         g <- lift (e <~ exp np (Elogb o) ;;
                    tT <~ T (Elogt o) ;;
                    t <~ exp np (Some tT) ;;
                    p <~ dot ratio t ;;
                    q <~ Np.mul e p ;;
                    Np.add (Scalar (c o)) q) ;;
         setattr (set_gamma_b (Some g)) ;;
         r <- lift (s <~ sum_axis1 (Et o) ;; Np.add (Scalar (d o)) s) ;;
         setattr (set_rho_b (Some r))
   | None =>
       g <- lift (e <~ exp np (Elogb o) ;;
                  tT <~ T (Elogt o) ;;
                  t <~ exp np (Some tT) ;;
                  p <~ dot ratio t ;;
                  q <~ Np.mul e p ;;
                  Np.add (Scalar (c o)) q) ;;
       setattr (set_gamma_b (Some g)) ;;
       r <- lift (s <~ sum_axis1 (Et o) ;; Np.add (Scalar (d o)) s) ;;
       setattr (set_rho_b (Some r))
   end) ;;
  o' <- getattr (fun o => o) ;;
  e <- lift (_compute_expectations np (gamma_b o') (rho_b o')) ;;
  setattr (set_Eb (Some (fst e))) ;;
  setattr (set_Elogb (Some (snd e))) ;;
  observe (LItems update).

(** [pred_loglikeli]: [np.mean(X_new * np.log(X_pred) - X_pred)] on the raw
    expectations. *)
Definition pred_loglikeli (vad : held_out) : M W float :=
  o <- getattr (fun o => o) ;;
  X_pred <- lift (_inner (Eb o) (Et o) (rows_new vad) (cols_new vad)) ;;
  lift (l <~ log np (Some (Vec X_pred)) ;;
        xl <~ Np.mul (Vec (X_new vad)) l ;;
        df <~ Np.sub xl (Vec X_pred) ;;
        inr (mean (ravel df))).

(** [best_pll_dict]: the key [pred_ll] is always there, the snapshot keys
    once an evaluation has beaten it. *)
Record best : Type := {
  d_pred_ll : float;
  d_best_Eb : option pyarr;
  d_best_Elogb : option pyarr;
  d_best_Et : option pyarr;
  d_best_Elogt : option pyarr
}.

(** The local variables of [_update]; [None] is a name not bound yet. *)
Record locals : Type := {
  old_pll : float;
  pred_ll : option float;
  best_pll_dict : best;
  beta_bool : option Np.mask;
  beta_bool_not : option Np.mask;
  gamma_b_out_category : option vec;
  rho_b_out_category : option vec;
  gamma_b_in_category : option vec;
  rho_b_in_category : option vec
}.

Definition init_locals : locals :=
  {| old_pll := neg_infinity; pred_ll := None;
     best_pll_dict := {| d_pred_ll := neg_infinity; d_best_Eb := None;
                         d_best_Elogb := None; d_best_Et := None;
                         d_best_Elogt := None |};
     beta_bool := None; beta_bool_not := None;
     gamma_b_out_category := None; rho_b_out_category := None;
     gamma_b_in_category := None; rho_b_in_category := None |}.

Definition local {A} (name : string) (v : option A) : M W A :=
  lift (of_option (NameError name) v).

(** Lines 235-265: the user side of one iteration. *)
Definition users_part (X : sparse) (rows cols : list Z) (o : opts) (i : Z)
  : M W unit :=
  if is_str (only_update o) "items"
     || (observed_user_preferences o && negb (streq (update o) "default"))
  then ret tt
  else if is_str (only_update o) "users" then
    if streq (initialize_users o) "default" then
      (if (i =? 0)%Z
       then n <- getattr n_users ;; _init_users n None
       else ret tt) ;;
      _update_users X rows cols None None false false (only_update o)
    else if streq (initialize_users o) "trained" then
      (if (i =? 0)%Z
       then _update_users X rows cols (beta o) (theta o) true false
                          (only_update o)
       else ret tt) ;;
      (if (0 <? i)%Z
       then _update_users X rows cols (beta o) (theta o) false false
                          (only_update o)
       else ret tt)
    else if streq (initialize_users o) "none" then
      _update_users X rows cols None None false false (only_update o)
    else ret tt
  else _update_users X rows cols (beta o) None false false None.

(** Lines 272-289: cache one mask subset of [gamma_b], [rho_b] and set it
    to [small_num]. *)
Definition clamp (o : opts) (i : Z) (l : locals) : M W locals :=
  bm <- lift (of_option (AttributeError "astype") (beta o)) ;;
  let bb := astype_bool bm in
  let bbn := logical_not bb in
  if streq (item_fit_type o) "converge_in_category_first" then
    s <- getattr (fun s => s) ;;
    gc <- lift (select (gamma_b s) bbn) ;;
    rc <- lift (select (rho_b s) bbn) ;;
    g <- lift (assign_scalar (gamma_b s) bbn small_num) ;;
    setattr (set_gamma_b (Some g)) ;;
    r <- lift (assign_scalar (rho_b s) bbn small_num) ;;
    setattr (set_rho_b (Some r)) ;;
    observe (LClamp (update o) i) ;;
    ret {| old_pll := old_pll l; pred_ll := pred_ll l;
           best_pll_dict := best_pll_dict l;
           beta_bool := Some bb; beta_bool_not := Some bbn;
           gamma_b_out_category := Some gc; rho_b_out_category := Some rc;
           gamma_b_in_category := gamma_b_in_category l;
           rho_b_in_category := rho_b_in_category l |}
  else if streq (item_fit_type o) "converge_out_category_first" then
    s <- getattr (fun s => s) ;;
    gc <- lift (select (gamma_b s) bb) ;;
    rc <- lift (select (rho_b s) bb) ;;
    g <- lift (assign_scalar (gamma_b s) bb small_num) ;;
    setattr (set_gamma_b (Some g)) ;;
    r <- lift (assign_scalar (rho_b s) bb small_num) ;;
    setattr (set_rho_b (Some r)) ;;
    observe (LClamp (update o) i) ;;
    ret {| old_pll := old_pll l; pred_ll := pred_ll l;
           best_pll_dict := best_pll_dict l;
           beta_bool := Some bb; beta_bool_not := Some bbn;
           gamma_b_out_category := gamma_b_out_category l;
           rho_b_out_category := rho_b_out_category l;
           gamma_b_in_category := Some gc; rho_b_in_category := Some rc |}
  else
    ret {| old_pll := old_pll l; pred_ll := pred_ll l;
           best_pll_dict := best_pll_dict l;
           beta_bool := Some bb; beta_bool_not := Some bbn;
           gamma_b_out_category := gamma_b_out_category l;
           rho_b_out_category := rho_b_out_category l;
           gamma_b_in_category := gamma_b_in_category l;
           rho_b_in_category := rho_b_in_category l |}.

(** Lines 267-326: the item side of one iteration. *)
Definition items_part (X : sparse) (rows cols : list Z) (o : opts) (i : Z)
    (l : locals) : M W locals :=
  if (is_ndarray (beta o) && negb (categorywise o))
     || streq (update o) "users" || is_str (only_update o) "users"
  then ret l
  else if negb (streq (item_fit_type o) "default") then
    l1 <- (if zero_untrained_components o && (i =? 0)%Z
              && streq (update o) "default"
           then clamp o i l else ret l) ;;
    (if is_ndarray (beta o) && categorywise o
        && streq (item_fit_type o) "alternating_updates" then
       if (i mod 2 =? 0)%Z then
         _update_items X rows cols (beta o) (categorywise o)
                       (observed_user_preferences o) "in_category"
       else
         _update_items X rows cols (beta o) (categorywise o)
                       (observed_user_preferences o) "out_category"
     else if is_ndarray (beta o) && categorywise o
        && streq (item_fit_type o) "converge_in_category_first" then
       if streq (update o) "default" then
         _update_items X rows cols (beta o) (categorywise o)
                       (observed_user_preferences o) "in_category"
       else
         _update_items X rows cols (beta o) (categorywise o)
                       (observed_user_preferences o) (update o)
     else if is_ndarray (beta o) && categorywise o
        && streq (item_fit_type o) "converge_out_category_first" then
       if streq (update o) "default" then
         _update_items X rows cols (beta o) (categorywise o)
                       (observed_user_preferences o) "out_category"
       else
         _update_items X rows cols (beta o) (categorywise o)
                       (observed_user_preferences o) (update o)
     else ret tt) ;;
    ret l1
  else
    _update_items X rows cols None false false "default" ;;
    ret l.

(** Lines 332-339: remember the best evaluation and the factors it saw. *)
Definition record_best (s : PoissonMF) (p : float) (l : locals) : locals :=
  {| old_pll := old_pll l; pred_ll := Some p;
     best_pll_dict :=
       if (d_pred_ll (best_pll_dict l) <? p)%float
       then {| d_pred_ll := p; d_best_Eb := Some (Eb s);
               d_best_Elogb := Some (Elogb s); d_best_Et := Some (Et s);
               d_best_Elogt := Some (Elogt s) |}
       else best_pll_dict l;
     beta_bool := beta_bool l; beta_bool_not := beta_bool_not l;
     gamma_b_out_category := gamma_b_out_category l;
     rho_b_out_category := rho_b_out_category l;
     gamma_b_in_category := gamma_b_in_category l;
     rho_b_in_category := rho_b_in_category l |}.

Definition set_old_pll (p : float) (l : locals) : locals :=
  {| old_pll := p; pred_ll := pred_ll l;
     best_pll_dict := best_pll_dict l;
     beta_bool := beta_bool l; beta_bool_not := beta_bool_not l;
     gamma_b_out_category := gamma_b_out_category l;
     rho_b_out_category := rho_b_out_category l;
     gamma_b_in_category := gamma_b_in_category l;
     rho_b_in_category := rho_b_in_category l |}.

(** [self.gamma_b[k] = gv; self.rho_b[k] = rv] with the cached values. *)
Definition restore (o : opts) (i : Z) (gname rname kname : string)
    (gv rv : option vec) (k : option Np.mask) : M W unit :=
  g <- local gname gv ;;
  km <- local kname k ;;
  s <- getattr (fun s => s) ;;
  g' <- lift (assign_vec (gamma_b s) km g) ;;
  setattr (set_gamma_b (Some g')) ;;
  r <- local rname rv ;;
  s' <- getattr (fun s => s) ;;
  r' <- lift (assign_vec (rho_b s') km r) ;;
  setattr (set_rho_b (Some r')) ;;
  observe (LRestore (update o) i).

(** The keyword arguments of the recursive call: everything not passed
    takes its default. *)
Definition second_phase (o : opts) (update : string) : opts :=
  {| beta := beta o; theta := None;
     observed_user_preferences := observed_user_preferences o;
     categorywise := categorywise o; item_fit_type := item_fit_type o;
     user_fit_type := "default"; update := update;
     zero_untrained_components := false; initialize_users := "none";
     only_update := None |}.

Section Update.

(** What the call [self._update(...)] inside [_update] runs. *)
Variable recur :
  sparse -> list Z -> list Z -> held_out -> opts -> M W (float * best).

(** Lines 345-367: what follows convergence, before [break]. *)
Definition converged_part (X : sparse) (rows cols : list Z) (vad : held_out)
    (o : opts) (i : Z) (l : locals) : M W unit :=
  if streq (update o) "default" && negb (streq (item_fit_type o) "default")
  then
    (if streq (item_fit_type o) "converge_in_category_first" then
       (if zero_untrained_components o
        then restore o i "gamma_b_out_category" "rho_b_out_category"
                     "beta_bool_not" (gamma_b_out_category l)
                     (rho_b_out_category l) (beta_bool_not l)
        else ret tt) ;;
       recur X rows cols vad (second_phase o "out_category") ;;
       ret tt
     else ret tt) ;;
    (if streq (item_fit_type o) "converge_out_category_first" then
       (if zero_untrained_components o
        then restore o i "gamma_b_in_category" "rho_b_in_category"
                     "beta_bool" (gamma_b_in_category l)
                     (rho_b_in_category l) (beta_bool l)
        else ret tt) ;;
       recur X rows cols vad (second_phase o "in_category") ;;
       ret tt
     else ret tt)
  else ret tt.

(** One pass through the body of the [for] loop; [true] is [break]. *)
Definition iteration (X : sparse) (rows cols : list Z) (vad : held_out)
    (o : opts) (i : Z) (l : locals) : M W (locals * bool) :=
  users_part X rows cols o i ;;
  l1 <- items_part X rows cols o i l ;;
  p <- pred_loglikeli vad ;;
  observe (LEval (update o) i (old_pll l1) p) ;;
  if is_nan p then raise (Exception "nan in predictive ll")
  else
    s <- getattr (fun s => s) ;;
    let l2 := record_best s p l1 in
    if tol_stop (tol s) (min_iter s) i p (old_pll l2) then
      observe (LStop (update o) i) ;;
      converged_part X rows cols vad o i l2 ;;
      ret (l2, true)
    else ret (set_old_pll p l2, false).

Definition _update_body (X : sparse) (rows cols : list Z) (vad : held_out)
    (o : opts) : M W (float * best) :=
  n <- getattr max_iter ;;
  l <- for_each (iteration X rows cols vad o) (xrange n) init_locals ;;
  p <- local "pred_ll" (pred_ll l) ;;
  ret (p, best_pll_dict l).

End Update.

(** [_update] calls itself only from a run with [update == 'default'], and
    then with another [update]: the call never nests deeper than that, and
    two levels of the body are the whole function (see
    [_update_unfold]). *)
Definition _update_leaf :=
  _update_body (fun _ _ _ _ _ => raise (Exception "recursion below the second level")).

Definition _update := _update_body _update_leaf.

(** The local variables of [fit]. *)
Record fit_locals : Type := {
  f_observed_user_preferences : option bool;
  f_only_update : option string;
  f_initialize_users : option string;
  f_best_validation_ll : float;
  f_best_Eb : option pyarr;
  f_best_Et : option pyarr
}.

Definition key (name : string) (v : option pyarr) : M W pyarr :=
  lift (of_option (KeyError name) v).

(** Lines 140-178: one round of the separate-convergence loop. *)
Definition round (X : sparse) (rows cols : list Z) (vad : held_out)
    (beta theta : option mat) (categorywise : bool)
    (item_fit_type user_fit_type : string) (zero_untrained_components : bool)
    (switch_idx : Z) (fl : fit_locals) : M W (fit_locals * bool) :=
  let fl1 :=
    if streq user_fit_type "converge_separately" then
      {| f_observed_user_preferences := f_observed_user_preferences fl;
         f_only_update :=
           Some (if (switch_idx mod 2 =? 0)%Z then "items" else "users");
         f_initialize_users :=
           Some (if (switch_idx =? 1)%Z then "default" else "none");
         f_best_validation_ll := f_best_validation_ll fl;
         f_best_Eb := f_best_Eb fl; f_best_Et := f_best_Et fl |}
    else fl in
  ou <- local "only_update" (f_only_update fl1) ;;
  oup <- local "observed_user_preferences"
               (f_observed_user_preferences fl1) ;;
  iu <- local "initialize_users" (f_initialize_users fl1) ;;
  r <- _update X rows cols vad
         {| beta := beta; theta := theta; observed_user_preferences := oup;
            categorywise := categorywise; item_fit_type := item_fit_type;
            user_fit_type := user_fit_type; update := "default";
            zero_untrained_components := zero_untrained_components;
            initialize_users := iu; only_update := Some ou |} ;;
  let validation_ll := d_pred_ll (snd r) in
  eb <- key "best_Eb" (d_best_Eb (snd r)) ;;
  setattr (set_Eb eb) ;;
  et <- key "best_Et" (d_best_Et (snd r)) ;;
  setattr (set_Et et) ;;
  elb <- key "best_Elogb" (d_best_Elogb (snd r)) ;;
  setattr (set_Elogb elb) ;;
  elt <- key "best_Elogt" (d_best_Elogt (snd r)) ;;
  setattr (set_Elogt elt) ;;
  s <- getattr (fun s => s) ;;
  if (f_best_validation_ll fl1 <? validation_ll)%float then
    ret ({| f_observed_user_preferences := f_observed_user_preferences fl1;
            f_only_update := f_only_update fl1;
            f_initialize_users := f_initialize_users fl1;
            f_best_validation_ll := validation_ll;
            f_best_Eb := Some (Eb s); f_best_Et := Some (Et s) |}, false)
  else ret (fl1, false).

Definition fit (X : sparse) (rows cols : list Z) (vad : held_out)
    (beta theta : option mat) (categorywise : bool)
    (item_fit_type user_fit_type : string) (zero_untrained_components : bool)
  : M W unit :=
  let n_items := fst (X_shape X) in
  let n_users := snd (X_shape X) in
  setattr (set_n_users n_users) ;;
  let oup := if is_ndarray theta then Some true else None in
  _init_items n_items beta categorywise ;;
  _init_users n_users theta ;;
  if negb (streq user_fit_type "default") then
    n <- getattr max_iter_fixed ;;
    fl <- for_each (round X rows cols vad beta theta categorywise
                          item_fit_type user_fit_type
                          zero_untrained_components)
                   (xrange n)
                   {| f_observed_user_preferences := oup;
                      f_only_update := None; f_initialize_users := None;
                      f_best_validation_ll := neg_infinity;
                      f_best_Eb := None; f_best_Et := None |} ;;
    be <- local "best_Eb" (f_best_Eb fl) ;;
    setattr (set_Eb be) ;;
    bt <- local "best_Et" (f_best_Et fl) ;;
    setattr (set_Et bt)
  else
    _update X rows cols vad
      {| beta := beta; theta := None; observed_user_preferences := false;
         categorywise := categorywise; item_fit_type := item_fit_type;
         user_fit_type := user_fit_type; update := "default";
         zero_untrained_components := zero_untrained_components;
         initialize_users := "none"; only_update := None |} ;;
    ret tt.

End Methods.

(** [__init__] with [_parse_args]: the attributes before any [fit]. *)
Definition __init__ (n_components : nat) (max_iter min_iter : Z)
    (tol smoothness items_init_scale a b c d : float) : PoissonMF :=
  {| n_components := n_components; max_iter := max_iter;
     min_iter := min_iter; tol := tol; smoothness := smoothness;
     items_init_scale := items_init_scale; max_iter_fixed := 10;
     a := a; b := b; c := c; d := d; n_users := 0;
     gamma_t := None; rho_t := None; Et := None; Elogt := None;
     gamma_b := None; rho_b := None; Eb := None; Elogb := None;
     rng := 0 |}.

End PMF.

(** ** HPoissonMF (hpmf.py) *)

Module HPMF.

Record HPoissonMF : Type := {
  n_components : nat;
  max_iter : Z;
  min_iter : Z;
  tol : float;
  smoothness : float;
  a : float;
  c : float;
  a_ksi : float;
  b_ksi : float;
  c_eta : float;
  d_eta : float;
  gamma_t : pyarr;
  rho_t : pyarr;
  Et : pyarr;
  Elogt : pyarr;
  gamma_ksi : pyarr;
  rho_ksi : pyarr;
  Eksi : pyarr;
  gamma_b : pyarr;
  rho_b : pyarr;
  Eb : pyarr;
  Elogb : pyarr;
  gamma_eta : pyarr;
  rho_eta : pyarr;
  Eeta : pyarr;
  rng : nat
}.

Definition set_gamma_t (v_gamma_t : pyarr) (o : HPoissonMF) : HPoissonMF :=
  {| n_components := n_components o;
     max_iter := max_iter o;
     min_iter := min_iter o;
     tol := tol o;
     smoothness := smoothness o;
     a := a o;
     c := c o;
     a_ksi := a_ksi o;
     b_ksi := b_ksi o;
     c_eta := c_eta o;
     d_eta := d_eta o;
     gamma_t := v_gamma_t;
     rho_t := rho_t o;
     Et := Et o;
     Elogt := Elogt o;
     gamma_ksi := gamma_ksi o;
     rho_ksi := rho_ksi o;
     Eksi := Eksi o;
     gamma_b := gamma_b o;
     rho_b := rho_b o;
     Eb := Eb o;
     Elogb := Elogb o;
     gamma_eta := gamma_eta o;
     rho_eta := rho_eta o;
     Eeta := Eeta o;
     rng := rng o |}.

Definition set_rho_t (v_rho_t : pyarr) (o : HPoissonMF) : HPoissonMF :=
  {| n_components := n_components o;
     max_iter := max_iter o;
     min_iter := min_iter o;
     tol := tol o;
     smoothness := smoothness o;
     a := a o;
     c := c o;
     a_ksi := a_ksi o;
     b_ksi := b_ksi o;
     c_eta := c_eta o;
     d_eta := d_eta o;
     gamma_t := gamma_t o;
     rho_t := v_rho_t;
     Et := Et o;
     Elogt := Elogt o;
     gamma_ksi := gamma_ksi o;
     rho_ksi := rho_ksi o;
     Eksi := Eksi o;
     gamma_b := gamma_b o;
     rho_b := rho_b o;
     Eb := Eb o;
     Elogb := Elogb o;
     gamma_eta := gamma_eta o;
     rho_eta := rho_eta o;
     Eeta := Eeta o;
     rng := rng o |}.

Definition set_Et (v_Et : pyarr) (o : HPoissonMF) : HPoissonMF :=
  {| n_components := n_components o;
     max_iter := max_iter o;
     min_iter := min_iter o;
     tol := tol o;
     smoothness := smoothness o;
     a := a o;
     c := c o;
     a_ksi := a_ksi o;
     b_ksi := b_ksi o;
     c_eta := c_eta o;
     d_eta := d_eta o;
     gamma_t := gamma_t o;
     rho_t := rho_t o;
     Et := v_Et;
     Elogt := Elogt o;
     gamma_ksi := gamma_ksi o;
     rho_ksi := rho_ksi o;
     Eksi := Eksi o;
     gamma_b := gamma_b o;
     rho_b := rho_b o;
     Eb := Eb o;
     Elogb := Elogb o;
     gamma_eta := gamma_eta o;
     rho_eta := rho_eta o;
     Eeta := Eeta o;
     rng := rng o |}.

Definition set_Elogt (v_Elogt : pyarr) (o : HPoissonMF) : HPoissonMF :=
  {| n_components := n_components o;
     max_iter := max_iter o;
     min_iter := min_iter o;
     tol := tol o;
     smoothness := smoothness o;
     a := a o;
     c := c o;
     a_ksi := a_ksi o;
     b_ksi := b_ksi o;
     c_eta := c_eta o;
     d_eta := d_eta o;
     gamma_t := gamma_t o;
     rho_t := rho_t o;
     Et := Et o;
     Elogt := v_Elogt;
     gamma_ksi := gamma_ksi o;
     rho_ksi := rho_ksi o;
     Eksi := Eksi o;
     gamma_b := gamma_b o;
     rho_b := rho_b o;
     Eb := Eb o;
     Elogb := Elogb o;
     gamma_eta := gamma_eta o;
     rho_eta := rho_eta o;
     Eeta := Eeta o;
     rng := rng o |}.

Definition set_gamma_ksi (v_gamma_ksi : pyarr) (o : HPoissonMF) : HPoissonMF :=
  {| n_components := n_components o;
     max_iter := max_iter o;
     min_iter := min_iter o;
     tol := tol o;
     smoothness := smoothness o;
     a := a o;
     c := c o;
     a_ksi := a_ksi o;
     b_ksi := b_ksi o;
     c_eta := c_eta o;
     d_eta := d_eta o;
     gamma_t := gamma_t o;
     rho_t := rho_t o;
     Et := Et o;
     Elogt := Elogt o;
     gamma_ksi := v_gamma_ksi;
     rho_ksi := rho_ksi o;
     Eksi := Eksi o;
     gamma_b := gamma_b o;
     rho_b := rho_b o;
     Eb := Eb o;
     Elogb := Elogb o;
     gamma_eta := gamma_eta o;
     rho_eta := rho_eta o;
     Eeta := Eeta o;
     rng := rng o |}.

Definition set_rho_ksi (v_rho_ksi : pyarr) (o : HPoissonMF) : HPoissonMF :=
  {| n_components := n_components o;
     max_iter := max_iter o;
     min_iter := min_iter o;
     tol := tol o;
     smoothness := smoothness o;
     a := a o;
     c := c o;
     a_ksi := a_ksi o;
     b_ksi := b_ksi o;
     c_eta := c_eta o;
     d_eta := d_eta o;
     gamma_t := gamma_t o;
     rho_t := rho_t o;
     Et := Et o;
     Elogt := Elogt o;
     gamma_ksi := gamma_ksi o;
     rho_ksi := v_rho_ksi;
     Eksi := Eksi o;
     gamma_b := gamma_b o;
     rho_b := rho_b o;
     Eb := Eb o;
     Elogb := Elogb o;
     gamma_eta := gamma_eta o;
     rho_eta := rho_eta o;
     Eeta := Eeta o;
     rng := rng o |}.

Definition set_Eksi (v_Eksi : pyarr) (o : HPoissonMF) : HPoissonMF :=
  {| n_components := n_components o;
     max_iter := max_iter o;
     min_iter := min_iter o;
     tol := tol o;
     smoothness := smoothness o;
     a := a o;
     c := c o;
     a_ksi := a_ksi o;
     b_ksi := b_ksi o;
     c_eta := c_eta o;
     d_eta := d_eta o;
     gamma_t := gamma_t o;
     rho_t := rho_t o;
     Et := Et o;
     Elogt := Elogt o;
     gamma_ksi := gamma_ksi o;
     rho_ksi := rho_ksi o;
     Eksi := v_Eksi;
     gamma_b := gamma_b o;
     rho_b := rho_b o;
     Eb := Eb o;
     Elogb := Elogb o;
     gamma_eta := gamma_eta o;
     rho_eta := rho_eta o;
     Eeta := Eeta o;
     rng := rng o |}.

Definition set_gamma_b (v_gamma_b : pyarr) (o : HPoissonMF) : HPoissonMF :=
  {| n_components := n_components o;
     max_iter := max_iter o;
     min_iter := min_iter o;
     tol := tol o;
     smoothness := smoothness o;
     a := a o;
     c := c o;
     a_ksi := a_ksi o;
     b_ksi := b_ksi o;
     c_eta := c_eta o;
     d_eta := d_eta o;
     gamma_t := gamma_t o;
     rho_t := rho_t o;
     Et := Et o;
     Elogt := Elogt o;
     gamma_ksi := gamma_ksi o;
     rho_ksi := rho_ksi o;
     Eksi := Eksi o;
     gamma_b := v_gamma_b;
     rho_b := rho_b o;
     Eb := Eb o;
     Elogb := Elogb o;
     gamma_eta := gamma_eta o;
     rho_eta := rho_eta o;
     Eeta := Eeta o;
     rng := rng o |}.

Definition set_rho_b (v_rho_b : pyarr) (o : HPoissonMF) : HPoissonMF :=
  {| n_components := n_components o;
     max_iter := max_iter o;
     min_iter := min_iter o;
     tol := tol o;
     smoothness := smoothness o;
     a := a o;
     c := c o;
     a_ksi := a_ksi o;
     b_ksi := b_ksi o;
     c_eta := c_eta o;
     d_eta := d_eta o;
     gamma_t := gamma_t o;
     rho_t := rho_t o;
     Et := Et o;
     Elogt := Elogt o;
     gamma_ksi := gamma_ksi o;
     rho_ksi := rho_ksi o;
     Eksi := Eksi o;
     gamma_b := gamma_b o;
     rho_b := v_rho_b;
     Eb := Eb o;
     Elogb := Elogb o;
     gamma_eta := gamma_eta o;
     rho_eta := rho_eta o;
     Eeta := Eeta o;
     rng := rng o |}.

Definition set_Eb (v_Eb : pyarr) (o : HPoissonMF) : HPoissonMF :=
  {| n_components := n_components o;
     max_iter := max_iter o;
     min_iter := min_iter o;
     tol := tol o;
     smoothness := smoothness o;
     a := a o;
     c := c o;
     a_ksi := a_ksi o;
     b_ksi := b_ksi o;
     c_eta := c_eta o;
     d_eta := d_eta o;
     gamma_t := gamma_t o;
     rho_t := rho_t o;
     Et := Et o;
     Elogt := Elogt o;
     gamma_ksi := gamma_ksi o;
     rho_ksi := rho_ksi o;
     Eksi := Eksi o;
     gamma_b := gamma_b o;
     rho_b := rho_b o;
     Eb := v_Eb;
     Elogb := Elogb o;
     gamma_eta := gamma_eta o;
     rho_eta := rho_eta o;
     Eeta := Eeta o;
     rng := rng o |}.

Definition set_Elogb (v_Elogb : pyarr) (o : HPoissonMF) : HPoissonMF :=
  {| n_components := n_components o;
     max_iter := max_iter o;
     min_iter := min_iter o;
     tol := tol o;
     smoothness := smoothness o;
     a := a o;
     c := c o;
     a_ksi := a_ksi o;
     b_ksi := b_ksi o;
     c_eta := c_eta o;
     d_eta := d_eta o;
     gamma_t := gamma_t o;
     rho_t := rho_t o;
     Et := Et o;
     Elogt := Elogt o;
     gamma_ksi := gamma_ksi o;
     rho_ksi := rho_ksi o;
     Eksi := Eksi o;
     gamma_b := gamma_b o;
     rho_b := rho_b o;
     Eb := Eb o;
     Elogb := v_Elogb;
     gamma_eta := gamma_eta o;
     rho_eta := rho_eta o;
     Eeta := Eeta o;
     rng := rng o |}.

Definition set_gamma_eta (v_gamma_eta : pyarr) (o : HPoissonMF) : HPoissonMF :=
  {| n_components := n_components o;
     max_iter := max_iter o;
     min_iter := min_iter o;
     tol := tol o;
     smoothness := smoothness o;
     a := a o;
     c := c o;
     a_ksi := a_ksi o;
     b_ksi := b_ksi o;
     c_eta := c_eta o;
     d_eta := d_eta o;
     gamma_t := gamma_t o;
     rho_t := rho_t o;
     Et := Et o;
     Elogt := Elogt o;
     gamma_ksi := gamma_ksi o;
     rho_ksi := rho_ksi o;
     Eksi := Eksi o;
     gamma_b := gamma_b o;
     rho_b := rho_b o;
     Eb := Eb o;
     Elogb := Elogb o;
     gamma_eta := v_gamma_eta;
     rho_eta := rho_eta o;
     Eeta := Eeta o;
     rng := rng o |}.

Definition set_rho_eta (v_rho_eta : pyarr) (o : HPoissonMF) : HPoissonMF :=
  {| n_components := n_components o;
     max_iter := max_iter o;
     min_iter := min_iter o;
     tol := tol o;
     smoothness := smoothness o;
     a := a o;
     c := c o;
     a_ksi := a_ksi o;
     b_ksi := b_ksi o;
     c_eta := c_eta o;
     d_eta := d_eta o;
     gamma_t := gamma_t o;
     rho_t := rho_t o;
     Et := Et o;
     Elogt := Elogt o;
     gamma_ksi := gamma_ksi o;
     rho_ksi := rho_ksi o;
     Eksi := Eksi o;
     gamma_b := gamma_b o;
     rho_b := rho_b o;
     Eb := Eb o;
     Elogb := Elogb o;
     gamma_eta := gamma_eta o;
     rho_eta := v_rho_eta;
     Eeta := Eeta o;
     rng := rng o |}.

Definition set_Eeta (v_Eeta : pyarr) (o : HPoissonMF) : HPoissonMF :=
  {| n_components := n_components o;
     max_iter := max_iter o;
     min_iter := min_iter o;
     tol := tol o;
     smoothness := smoothness o;
     a := a o;
     c := c o;
     a_ksi := a_ksi o;
     b_ksi := b_ksi o;
     c_eta := c_eta o;
     d_eta := d_eta o;
     gamma_t := gamma_t o;
     rho_t := rho_t o;
     Et := Et o;
     Elogt := Elogt o;
     gamma_ksi := gamma_ksi o;
     rho_ksi := rho_ksi o;
     Eksi := Eksi o;
     gamma_b := gamma_b o;
     rho_b := rho_b o;
     Eb := Eb o;
     Elogb := Elogb o;
     gamma_eta := gamma_eta o;
     rho_eta := rho_eta o;
     Eeta := v_Eeta;
     rng := rng o |}.

Definition set_rng (v_rng : nat) (o : HPoissonMF) : HPoissonMF :=
  {| n_components := n_components o;
     max_iter := max_iter o;
     min_iter := min_iter o;
     tol := tol o;
     smoothness := smoothness o;
     a := a o;
     c := c o;
     a_ksi := a_ksi o;
     b_ksi := b_ksi o;
     c_eta := c_eta o;
     d_eta := d_eta o;
     gamma_t := gamma_t o;
     rho_t := rho_t o;
     Et := Et o;
     Elogt := Elogt o;
     gamma_ksi := gamma_ksi o;
     rho_ksi := rho_ksi o;
     Eksi := Eksi o;
     gamma_b := gamma_b o;
     rho_b := rho_b o;
     Eb := Eb o;
     Elogb := Elogb o;
     gamma_eta := gamma_eta o;
     rho_eta := rho_eta o;
     Eeta := Eeta o;
     rng := v_rng |}.

(** The keyword arguments of [_update] with their defaults. *)
Record opts : Type := {
  beta : option mat;
  categorywise : bool;
  item_fit_type : string;
  update : string;
  zero_untrained_components : bool
}.

Definition W := world HPoissonMF.

Definition float_of_nat (n : nat) : float :=
  PrimFloat.of_uint63 (Uint63.of_Z (Z.of_nat n)).

Section Methods.

Variable np : numpy.

Definition draw (r c : nat) : M W mat :=
  o <- getattr (fun o => o) ;;
  setattr (set_rng (S (rng o))) ;;
  ret (sample_matrix
         (fun i => (smoothness o * random_gamma np (rng o) (smoothness o)
                                                (1 / smoothness o) i)%float)
         r c).

Definition _init_users (n_users : nat) : M W unit :=
  o <- getattr (fun o => o) ;;
  g <- draw (n_components o) n_users ;;
  setattr (set_gamma_t (Some (Mat g))) ;;
  r <- draw (n_components o) n_users ;;
  setattr (set_rho_t (Some (Mat r))) ;;
  e <- lift (_compute_expectations np (Some (Mat g)) (Some (Mat r))) ;;
  setattr (set_Et (Some (fst e))) ;;
  setattr (set_Elogt (Some (snd e))) ;;
  gk <- draw 1 n_users ;;
  setattr (set_gamma_ksi (Some (Vec (List.concat gk)))) ;;
  rk <- draw 1 n_users ;;
  setattr (set_rho_ksi (Some (Vec (List.concat rk)))) ;;
  ek <- lift (_compute_expectations np (Some (Vec (List.concat gk)))
                                    (Some (Vec (List.concat rk)))) ;;
  setattr (set_Eksi (Some (fst ek))).

Definition _init_items (n_items : nat) (beta : option mat) : M W unit :=
  match beta with
  | Some bm =>
      setattr (set_Eb (Some (Mat bm))) ;;
      setattr (set_Elogb None) ;;
      setattr (set_gamma_b None) ;;
      setattr (set_rho_b None) ;;
      setattr (set_Eeta None) ;;
      setattr (set_gamma_eta None) ;;
      setattr (set_rho_eta None)
  | None =>
      o <- getattr (fun o => o) ;;
      g <- draw n_items (n_components o) ;;
      setattr (set_gamma_b (Some (Mat g))) ;;
      r <- draw n_items (n_components o) ;;
      setattr (set_rho_b (Some (Mat r))) ;;
      e <- lift (_compute_expectations np (Some (Mat g)) (Some (Mat r))) ;;
      setattr (set_Eb (Some (fst e))) ;;
      setattr (set_Elogb (Some (snd e))) ;;
      ge <- draw n_items 1 ;;
      setattr (set_gamma_eta (Some (Mat ge))) ;;
      re <- draw n_items 1 ;;
      setattr (set_rho_eta (Some (Mat re))) ;;
      ee <- lift (_compute_expectations np (Some (Mat ge)) (Some (Mat re))) ;;
      setattr (set_Eeta (Some (fst ee)))
  end.

Definition _xexplog (rows cols : list Z) (beta : option mat) : M W vec :=
  o <- getattr (fun o => o) ;;
  if is_ndarray beta then
    t <- lift (exp np (Elogt o)) ;;
    lift (_inner (Eb o) (Some t) rows cols)
  else
    e <- lift (exp np (Elogb o)) ;;
    t <- lift (exp np (Elogt o)) ;;
    lift (_inner (Some e) (Some t) rows cols).

Definition ratio_matrix (X : sparse) (rows cols : list Z) (xexplog : vec)
  : res csr :=
  q <~ Np.div (Vec (X_data X)) (Vec xexplog) ;;
  csr_matrix (ravel q) rows cols (X_shape X).

Definition _update_users (X : sparse) (rows cols : list Z)
    (beta : option mat) (categorywise : bool) : M W unit :=
  xexplog <- _xexplog rows cols beta ;;
  ratio <- lift (ratio_matrix X rows cols xexplog) ;;
  let ratioT := transpose ratio in
  o <- getattr (fun o => o) ;;
  g <- lift (if is_ndarray beta && negb categorywise then
               t <~ exp np (Elogt o) ;;
               eb <~ need "dot" (Eb o) ;;
               p <~ dot ratioT eb ;;
               pT <~ T (Some p) ;;
               q <~ Np.mul t pT ;;
               Np.add (Scalar (a o)) q
             else
               t <~ exp np (Elogt o) ;;
               e <~ exp np (Elogb o) ;;
               p <~ dot ratioT e ;;
               pT <~ T (Some p) ;;
               q <~ Np.mul t pT ;;
               Np.add (Scalar (a o)) q) ;;
  setattr (set_gamma_t (Some g)) ;;
  r <- lift (k <~ need "unsupported operand type(s) for +" (Eksi o) ;;
             s <~ sum_axis0_keepdims (Eb o) ;;
             sT <~ T (Some s) ;;
             Np.add k sT) ;;
  setattr (set_rho_t (Some r)) ;;
  e <- lift (_compute_expectations np (Some g) (Some r)) ;;
  setattr (set_Et (Some (fst e))) ;;
  setattr (set_Elogt (Some (snd e))) ;;
  let gk := Scalar (a_ksi o + float_of_nat (n_components o) * a o)%float in
  setattr (set_gamma_ksi (Some gk)) ;;
  rk <- lift (s <~ sum_axis0 (Some (fst e)) ;; Np.add (Scalar (b_ksi o)) s) ;;
  setattr (set_rho_ksi (Some rk)) ;;
  ek <- lift (_compute_expectations np (Some gk) (Some rk)) ;;
  setattr (set_Eksi (Some (fst ek))) ;;
  observe LUsers.

Definition assign_masked (k : Np.mask) (gamma_b_updated rho_b_updated : ndarray)
  : M W unit :=
  o <- getattr (fun o => o) ;;
  gv <- lift (select (Some gamma_b_updated) k) ;;
  g <- lift (assign_vec (gamma_b o) k gv) ;;
  setattr (set_gamma_b (Some g)) ;;
  rv <- lift (select (Some rho_b_updated) k) ;;
  r <- lift (assign_vec (rho_b o) k rv) ;;
  setattr (set_rho_b (Some r)).

(** The values the masked branch of [_update_items] computes before it
    assigns. *)
Definition gamma_b_updated (ratio : csr) (o : HPoissonMF) : res ndarray :=
  e <~ exp np (Elogb o) ;;
  tT <~ T (Elogt o) ;;
  t <~ exp np (Some tT) ;;
  p <~ dot ratio t ;;
  q <~ Np.mul e p ;;
  Np.add (Scalar (c o)) q.

Definition rho_b_updated (o : HPoissonMF) : res ndarray :=
  h <~ need "unsupported operand type(s) for +" (Eeta o) ;;
  s <~ sum_axis1 (Et o) ;;
  Np.add h s.

Definition _update_items (X : sparse) (rows cols : list Z)
    (beta : option mat) (categorywise : bool) (update : string) : M W unit :=
  xexplog <- _xexplog rows cols None ;;
  ratio <- lift (ratio_matrix X rows cols xexplog) ;;
  o <- getattr (fun o => o) ;;
  (if is_ndarray beta && categorywise then
     bm <- lift (of_option (AttributeError "astype") beta) ;;
     let beta_bool := astype_bool bm in
     gamma_b_updated <- lift (gamma_b_updated ratio o) ;;
     rho_b_updated <- lift (rho_b_updated o) ;;
     if streq update "in_category" then
       assign_masked beta_bool gamma_b_updated rho_b_updated
     else if streq update "out_category" then
       assign_masked (logical_not beta_bool) gamma_b_updated rho_b_updated
     else ret tt
   else
     g <- lift (e <~ exp np (Elogb o) ;;
                tT <~ T (Elogt o) ;;
                t <~ exp np (Some tT) ;;
                p <~ dot ratio t ;;
                q <~ Np.mul e p ;;
                Np.add (Scalar (c o)) q) ;;
     setattr (set_gamma_b (Some g)) ;;
     r <- lift (h <~ need "unsupported operand type(s) for +" (Eeta o) ;;
                s <~ sum_axis1 (Et o) ;;
                Np.add h s) ;;
     setattr (set_rho_b (Some r))) ;;
  o' <- getattr (fun o => o) ;;
  e <- lift (_compute_expectations np (gamma_b o') (rho_b o')) ;;
  setattr (set_Eb (Some (fst e))) ;;
  setattr (set_Elogb (Some (snd e))) ;;
  let ge := Scalar (c_eta o + float_of_nat (n_components o) * c o)%float in
  setattr (set_gamma_eta (Some ge)) ;;
  re <- lift (s <~ sum_axis1_keepdims (Some (fst e)) ;;
              Np.add (Scalar (d_eta o)) s) ;;
  setattr (set_rho_eta (Some re)) ;;
  ee <- lift (_compute_expectations np (Some ge) (Some re)) ;;
  setattr (set_Eeta (Some (fst ee))) ;;
  observe (LItems update).

Definition pred_loglikeli (vad : held_out) : M W float :=
  o <- getattr (fun o => o) ;;
  X_pred <- lift (_inner (Eb o) (Et o) (rows_new vad) (cols_new vad)) ;;
  lift (l <~ log np (Some (Vec X_pred)) ;;
        xl <~ Np.mul (Vec (X_new vad)) l ;;
        df <~ Np.sub xl (Vec X_pred) ;;
        inr (mean (ravel df))).

(** The local variables of [_update]; [None] is a name not bound yet. *)
Record locals : Type := {
  old_pll : float;
  beta_bool : option Np.mask;
  beta_bool_not : option Np.mask;
  gamma_b_out_category : option vec;
  rho_b_out_category : option vec;
  gamma_b_in_category : option vec;
  rho_b_in_category : option vec
}.

Definition init_locals : locals :=
  {| old_pll := neg_infinity; beta_bool := None; beta_bool_not := None;
     gamma_b_out_category := None; rho_b_out_category := None;
     gamma_b_in_category := None; rho_b_in_category := None |}.

Definition local {A} (name : string) (v : option A) : M W A :=
  lift (of_option (NameError name) v).

(** Lines 186-203: cache one mask subset of [gamma_b], [rho_b] and set it
    to [small_num]. *)
Definition clamp (o : opts) (i : Z) (l : locals) : M W locals :=
  bm <- lift (of_option (AttributeError "astype") (beta o)) ;;
  let bb := astype_bool bm in
  let bbn := logical_not bb in
  if streq (item_fit_type o) "converge_in_category_first" then
    s <- getattr (fun s => s) ;;
    gc <- lift (select (gamma_b s) bbn) ;;
    rc <- lift (select (rho_b s) bbn) ;;
    g <- lift (assign_scalar (gamma_b s) bbn small_num) ;;
    setattr (set_gamma_b (Some g)) ;;
    r <- lift (assign_scalar (rho_b s) bbn small_num) ;;
    setattr (set_rho_b (Some r)) ;;
    observe (LClamp (update o) i) ;;
    ret {| old_pll := old_pll l;
           beta_bool := Some bb; beta_bool_not := Some bbn;
           gamma_b_out_category := Some gc; rho_b_out_category := Some rc;
           gamma_b_in_category := gamma_b_in_category l;
           rho_b_in_category := rho_b_in_category l |}
  else if streq (item_fit_type o) "converge_out_category_first" then
    s <- getattr (fun s => s) ;;
    gc <- lift (select (gamma_b s) bb) ;;
    rc <- lift (select (rho_b s) bb) ;;
    g <- lift (assign_scalar (gamma_b s) bb small_num) ;;
    setattr (set_gamma_b (Some g)) ;;
    r <- lift (assign_scalar (rho_b s) bb small_num) ;;
    setattr (set_rho_b (Some r)) ;;
    observe (LClamp (update o) i) ;;
    ret {| old_pll := old_pll l;
           beta_bool := Some bb; beta_bool_not := Some bbn;
           gamma_b_out_category := gamma_b_out_category l;
           rho_b_out_category := rho_b_out_category l;
           gamma_b_in_category := Some gc; rho_b_in_category := Some rc |}
  else
    ret {| old_pll := old_pll l;
           beta_bool := Some bb; beta_bool_not := Some bbn;
           gamma_b_out_category := gamma_b_out_category l;
           rho_b_out_category := rho_b_out_category l;
           gamma_b_in_category := gamma_b_in_category l;
           rho_b_in_category := rho_b_in_category l |}.

(** Lines 183-234: the item side of one iteration. *)
Definition items_part (X : sparse) (rows cols : list Z) (o : opts) (i : Z)
    (l : locals) : M W locals :=
  if is_ndarray (beta o) && negb (categorywise o) then ret l
  else if negb (streq (item_fit_type o) "default") then
    l1 <- (if zero_untrained_components o && (i =? 1)%Z
              && streq (update o) "default"
           then clamp o i l else ret l) ;;
    (if is_ndarray (beta o) && categorywise o
        && streq (item_fit_type o) "alternating_updates" then
       if (i mod 2 =? 0)%Z then
         _update_items X rows cols (beta o) (categorywise o) "in_category"
       else
         _update_items X rows cols (beta o) (categorywise o) "out_category"
     else if is_ndarray (beta o) && categorywise o
        && streq (item_fit_type o) "converge_in_category_first" then
       if streq (update o) "default" then
         _update_items X rows cols (beta o) (categorywise o) "in_category"
       else
         _update_items X rows cols (beta o) (categorywise o) (update o)
     else if is_ndarray (beta o) && categorywise o
        && streq (item_fit_type o) "converge_out_category_first" then
       if streq (update o) "default" then
         _update_items X rows cols (beta o) (categorywise o) "out_category"
       else
         _update_items X rows cols (beta o) (categorywise o) (update o)
     else ret tt) ;;
    ret l1
  else
    _update_items X rows cols None false "default" ;;
    ret l.

Definition set_old_pll (p : float) (l : locals) : locals :=
  {| old_pll := p;
     beta_bool := beta_bool l; beta_bool_not := beta_bool_not l;
     gamma_b_out_category := gamma_b_out_category l;
     rho_b_out_category := rho_b_out_category l;
     gamma_b_in_category := gamma_b_in_category l;
     rho_b_in_category := rho_b_in_category l |}.

Definition restore (o : opts) (i : Z) (gname rname kname : string)
    (gv rv : option vec) (k : option Np.mask) : M W unit :=
  g <- local gname gv ;;
  km <- local kname k ;;
  s <- getattr (fun s => s) ;;
  g' <- lift (assign_vec (gamma_b s) km g) ;;
  setattr (set_gamma_b (Some g')) ;;
  r <- local rname rv ;;
  s' <- getattr (fun s => s) ;;
  r' <- lift (assign_vec (rho_b s') km r) ;;
  setattr (set_rho_b (Some r')) ;;
  observe (LRestore (update o) i).

Definition second_phase (o : opts) (update : string) : opts :=
  {| beta := beta o; categorywise := categorywise o;
     item_fit_type := item_fit_type o; update := update;
     zero_untrained_components := false |}.

Section Update.

Variable recur :
  sparse -> list Z -> list Z -> held_out -> opts -> M W unit.

(** Lines 245-265: what follows convergence, before [break]. *)
Definition converged_part (X : sparse) (rows cols : list Z) (vad : held_out)
    (o : opts) (i : Z) (l : locals) : M W unit :=
  if streq (update o) "default" && negb (streq (item_fit_type o) "default")
  then
    (if streq (item_fit_type o) "converge_in_category_first" then
       (if zero_untrained_components o
        then restore o i "gamma_b_out_category" "rho_b_out_category"
                     "beta_bool_not" (gamma_b_out_category l)
                     (rho_b_out_category l) (beta_bool_not l)
        else ret tt) ;;
       recur X rows cols vad (second_phase o "out_category")
     else ret tt) ;;
    (if streq (item_fit_type o) "converge_out_category_first" then
       (if zero_untrained_components o
        then restore o i "gamma_b_in_category" "rho_b_in_category"
                     "beta_bool" (gamma_b_in_category l)
                     (rho_b_in_category l) (beta_bool l)
        else ret tt) ;;
       recur X rows cols vad (second_phase o "in_category")
     else ret tt)
  else ret tt.

Definition iteration (X : sparse) (rows cols : list Z) (vad : held_out)
    (o : opts) (i : Z) (l : locals) : M W (locals * bool) :=
  _update_users X rows cols (beta o) false ;;
  l1 <- items_part X rows cols o i l ;;
  p <- pred_loglikeli vad ;;
  observe (LEval (update o) i (old_pll l1) p) ;;
  if is_nan p then raise (Exception "nan in predictive ll")
  else
    s <- getattr (fun s => s) ;;
    if tol_stop (tol s) (min_iter s) i p (old_pll l1) then
      observe (LStop (update o) i) ;;
      converged_part X rows cols vad o i l1 ;;
      ret (l1, true)
    else ret (set_old_pll p l1, false).

Definition _update_body (X : sparse) (rows cols : list Z) (vad : held_out)
    (o : opts) : M W unit :=
  n <- getattr max_iter ;;
  for_each (iteration X rows cols vad o) (xrange n) init_locals ;;
  ret tt.

End Update.

Definition _update_leaf :=
  _update_body (fun _ _ _ _ _ => raise (Exception "recursion below the second level")).

Definition _update := _update_body _update_leaf.

Definition fit (X : sparse) (rows cols : list Z) (vad : held_out)
    (beta theta : option mat) (categorywise : bool)
    (item_fit_type : string) (zero_untrained_components : bool)
  : M W unit :=
  let n_items := fst (X_shape X) in
  let n_users := snd (X_shape X) in
  _init_items n_items beta ;;
  _init_users n_users ;;
  _update X rows cols vad
    {| beta := beta; categorywise := categorywise;
       item_fit_type := item_fit_type; update := "default";
       zero_untrained_components := zero_untrained_components |}.

End Methods.

(** [__init__] with [_parse_args]. *)
Definition __init__ (n_components : nat) (max_iter min_iter : Z)
    (tol smoothness a c a_ksi b_ksi c_eta d_eta : float) : HPoissonMF :=
  {| n_components := n_components; max_iter := max_iter;
     min_iter := min_iter; tol := tol; smoothness := smoothness;
     a := a; c := c; a_ksi := a_ksi; b_ksi := b_ksi;
     c_eta := c_eta; d_eta := d_eta;
     gamma_t := None; rho_t := None; Et := None; Elogt := None;
     gamma_ksi := None; rho_ksi := None; Eksi := None;
     gamma_b := None; rho_b := None; Eb := None; Elogb := None;
     gamma_eta := None; rho_eta := None; Eeta := None; rng := 0 |}.

End HPMF.

(** ** Reference numerics for the worked examples

    The theorems below hold for every [numpy] record.  The worked examples
    need one to compute with: [exp], [log] and the digamma function by
    argument reduction and series, exact on the IEEE special cases
    ([log 0 = -inf], [exp (-inf) = 0], NaN in, NaN out) and accurate to
    about a dozen digits elsewhere, and a fixed stream of draws around
    [shape * scale]. *)

Module Ref.

Definition ln2 : float := 0.6931471805599453%float.

Definition float_of_Z (z : Z) : float :=
  if (z <? 0)%Z then (- PrimFloat.of_uint63 (Uint63.of_Z (- z)))%float
  else PrimFloat.of_uint63 (Uint63.of_Z z).

Definition floorZ (x : float) : Z :=
  match Prim2SF x with
  | S754_finite s m e =>
      if (0 <=? e)%Z then
        if s then (- (Zpos m * 2 ^ e))%Z else (Zpos m * 2 ^ e)%Z
      else
        let dn := (2 ^ (- e))%Z in
        if s then (- ((Zpos m + dn - 1) / dn))%Z else (Zpos m / dn)%Z
  | _ => 0%Z
  end.

Definition horner (cs : list float) (x : float) : float :=
  fold_right (fun cf acc => (cf + x * acc)%float) 0%float cs.

Definition exp (x : float) : float :=
  if is_nan x then nan
  else if (709.782712893384 <? x)%float then infinity
  else if (x <? -745.2)%float then 0%float
  else
    let k := floorZ (x / ln2 + 0.5)%float in
    let r := (x - float_of_Z k * ln2)%float in
    Z.ldexp
      (fold_right (fun n acc => (1 + r / float_of_Z n * acc)%float) 1%float
                  (map Z.of_nat (seq 1 18)))
      k.

Definition log (x : float) : float :=
  if is_nan x then nan
  else if (x <? 0)%float then nan
  else if (x =? 0)%float then neg_infinity
  else if (x =? infinity)%float then infinity
  else
    let (m, e) := Z.frexp x in
    let (m', e') := if (m <? 0.7071067811865476)%float
                    then ((m * 2)%float, (e - 1)%Z) else (m, e) in
    let s := ((m' - 1) / (m' + 1))%float in
    (2 * s * horner (map (fun n => (1 / float_of_Z (2 * Z.of_nat n + 1))%float)
                         (seq 0 14)) (s * s)
     + float_of_Z e' * ln2)%float.

Definition psi_tail (x : float) : float :=
  let y := (1 / (x * x))%float in
  (log x - 1 / (2 * x)
   - y * horner [ (1/12)%float; (-1/120)%float; (1/252)%float;
                  (-1/240)%float; (1/132)%float ] y)%float.

Fixpoint psi_up (fuel : nat) (x acc : float) : float :=
  match fuel with
  | O => (acc + psi_tail x)%float
  | S f => if (10 <=? x)%float then (acc + psi_tail x)%float
           else psi_up f (x + 1)%float (acc - 1 / x)%float
  end.

Definition psi (x : float) : float :=
  if is_nan x then nan
  else if (x =? 0)%float then neg_infinity
  else if (x <? 0)%float then nan
  else if (x =? infinity)%float then infinity
  else psi_up 10 x 0%float.

(** Draw number [d]: values within ten percent of [shape * scale]. *)
Definition gamma (d : nat) (shape scale : float) (j : nat) : float :=
  (shape * scale
   * (1 + float_of_Z (Z.of_nat ((17 * d + 5 * j) mod 21) - 10) / 100))%float.

Definition np : numpy :=
  {| np_exp := exp; np_log := log; special_psi := psi;
     random_gamma := gamma |}.

End Ref.

(** ** Data of the worked examples *)

Module Ex.

(** Three items, three users, two components; three training counts and
    two held-out counts. *)
Definition X : sparse := {| X_shape := (3, 3)%nat; X_data := [5; 3; 4]%float |}.
Definition rows : list Z := [0; 1; 2]%Z.
Definition cols : list Z := [0; 1; 2]%Z.
Definition vad : held_out :=
  {| X_new := [1; 2]%float; rows_new := [0; 1]%Z; cols_new := [1; 2]%Z |}.

(** A category mask over the item factors. *)
Definition mask : mat := [[1; 0]; [0; 1]; [1; 1]]%float.

(** An observed item matrix whose first item has no attribute, with
    training counts for the other two items and a held-out count for the
    first. *)
Definition beta0 : mat := [[0; 0]; [1; 2]; [2; 1]]%float.
Definition X0 : sparse := {| X_shape := (3, 3)%nat; X_data := [5; 3; 4]%float |}.
Definition rows0 : list Z := [1; 1; 2]%Z.
Definition cols0 : list Z := [0; 1; 2]%Z.
Definition vad0 : held_out :=
  {| X_new := [1]%float; rows_new := [0]%Z; cols_new := [1]%Z |}.

Definition pmf (max_iter : Z) : PMF.W :=
  {| self := PMF.__init__ 2 max_iter 1 0.0001 100 1 0.1 0.1 0.1 0.1;
     trace := [] |}.

Definition hpmf (max_iter : Z) : HPMF.W :=
  {| self := HPMF.__init__ 2 max_iter 1 0.0001 100 0.1 0.1 0.1 0.1 0.1 0.1;
     trace := [] |}.

Definition labels {Obj} (w : world Obj) : list label := map fst (trace w).

Definition matrix_of (a : pyarr) : mat :=
  match a with Some (Mat m) => m | _ => [] end.

(** The objects after the initialisation of a category-wise fit. *)
Definition pmf_ready : PMF.W :=
  state_of (bind (PMF._init_items Ref.np 3 (Some mask) true)
                 (fun _ => PMF._init_users Ref.np 3 None) (pmf 50)).

Definition hpmf_ready : HPMF.W :=
  state_of (bind (HPMF._init_items Ref.np 3 None)
                 (fun _ => HPMF._init_users Ref.np 3) (hpmf 50)).

End Ex.

(** * Vocabulary of the statements *)

(** [m[i, j]] by 2-D indexing. *)
Definition entry (m : mat) (i j : nat) : float :=
  nth j (nth i m []) 0%float.

(** [m] has [n] rows of [k] entries each. *)
Definition rect (m : mat) (n k : nat) : Prop :=
  List.length m = n /\ Forall (fun r => List.length r = k) m.




(** [k[i, j]] of a mask. *)
Definition mask_at (k : Np.mask) (i j : nat) : bool :=
  nth j (nth i k []) false.

(** Entry by entry: [u] where the mask holds, [m] elsewhere. *)
Fixpoint merge_row (r : vec) (kr : list bool) (ur : vec) : vec :=
  match r, kr, ur with
  | x :: r', b :: k', y :: u' => (if b then y else x) :: merge_row r' k' u'
  | _, _, _ => []
  end.

Fixpoint merge (m : mat) (k : Np.mask) (u : mat) : mat :=
  match m, k, u with
  | r :: m', kr :: k', ur :: u' => merge_row r kr ur :: merge m' k' u'
  | _, _, _ => []
  end.

(** Every entry of a matrix is a positive number. *)
Definition positive (m : mat) : Prop :=
  Forall (Forall (fun x => (0 <? x)%float = true)) m.

(** ** Reading the record of a run

    The evaluations and the tolerance stops are the control events of a
    run; the other entries are neutral. *)

Definition neutral (l : label) : bool :=
  match l with
  | LEval _ _ _ _ | LStop _ _ => false
  | _ => true
  end.

Definition not_stop (l : label) : Prop :=
  match l with LStop _ _ => False | _ => True end.

Definition first_from_inf (l : label) : Prop :=
  match l with
  | LEval _ i old _ => i = 0%Z -> old = neg_infinity
  | _ => True
  end.

Section Record_of_run.

Context {Obj : Type}.
Variable tol_of : Obj -> float.
Variable min_iter_of : Obj -> Z.

(** What may come right after the record [older]: nothing after an
    evaluation that gave a NaN; the stop of that iteration, and only it,
    after an evaluation that passes the tolerance test; anything but a stop
    otherwise. *)
Definition follows (l : label) (older : list (label * Obj)) : Prop :=
  match older with
  | (LEval u i old p, o) :: _ =>
      if is_nan p then False
      else if tol_stop (tol_of o) (min_iter_of o) i p old then l = LStop u i
      else not_stop l
  | _ => not_stop l
  end.

(** A record (newest entry first) in which every entry follows the ones
    before it, and every first iteration measures against [-inf]. *)
Fixpoint Good (tr : list (label * Obj)) : Prop :=
  match tr with
  | [] => True
  | ev :: older =>
      follows (fst ev) older /\ first_from_inf (fst ev) /\ Good older
  end.

(** Nothing is pending: the newest entry is not an evaluation that gave a
    NaN or that passes the tolerance test. *)
Definition settled (tr : list (label * Obj)) : Prop :=
  match tr with
  | (LEval u i old p, o) :: _ =>
      is_nan p = false
      /\ tol_stop (tol_of o) (min_iter_of o) i p old = false
  | _ => True
  end.

Definition nan_head (tr : list (label * Obj)) : Prop :=
  match tr with
  | (LEval _ _ _ p, _) :: _ => is_nan p = true
  | _ => False
  end.

End Record_of_run.

(** [w'] continues [w] by neutral entries only. *)
Definition quiet {Obj} (w w' : world Obj) : Prop :=
  exists new, trace w' = new ++ trace w
              /\ Forall (fun ev => neutral (fst ev) = true) new.

Definition nan_error : exn := Exception "nan in predictive ll".

Section Good_worlds.

Context {Obj : Type}.
Variable tol_of : Obj -> float.
Variable min_iter_of : Obj -> Z.

(** The record of a state between two steps of a run, and of a state an
    exception [e] left behind: a pending NaN evaluation goes with the
    exception [nan_error] and with no other. *)
Definition GoodW (w : world Obj) : Prop :=
  Good tol_of min_iter_of (trace w) /\ settled tol_of min_iter_of (trace w).

Definition GoodE (e : exn) (w : world Obj) : Prop :=
  Good tol_of min_iter_of (trace w)
  /\ (settled tol_of min_iter_of (trace w)
      \/ (nan_head (trace w) /\ e = nan_error)).

End Good_worlds.

(** The iteration numbers of the evaluations of the loop run with
    [update = u], newest first. *)
Definition evals {Obj} (u : string) (tr : list (label * Obj)) : list Z :=
  flat_map (fun ev => match fst ev with
                      | LEval u' i _ _ => if streq u' u then [i] else []
                      | _ => []
                      end) tr.

Definition tag_is (u : string) (l : label) : Prop :=
  match l with
  | LEval u' _ _ _ | LStop u' _ => u' = u
  | _ => True
  end.

(** [w'] continues [w], and its evaluations and stops all belong to the
    loop run with [update = u]. *)
Definition tagged {Obj} (u : string) (w w' : world Obj) : Prop :=
  exists new, trace w' = new ++ trace w
              /\ Forall (fun ev => tag_is u (fst ev)) new.

(** [w'] continues [w] with no evaluation of the loop run with
    [update = u]. *)
Definition same_evals {Obj} (u : string) (w w' : world Obj) : Prop :=
  exists new, trace w' = new ++ trace w /\ evals u new = [].

Definition nan_eval (l : label) : bool :=
  match l with LEval _ _ _ p => is_nan p | _ => false end.

(** C1 on an outcome: a run that returns has evaluated no NaN; a run that
    raised has at most one NaN evaluation, its newest entry, and then the
    exception is [Exception('nan in predictive ll')]. *)
Definition nan_aborts {Obj A} (r : outcome (world Obj) A) : Prop :=
  match r with
  | Ok _ w => Forall (fun ev => nan_eval (fst ev) = false) (trace w)
  | Raise e w =>
      forall newer ev older,
        trace w = newer ++ ev :: older -> nan_eval (fst ev) = true ->
        newer = [] /\ e = nan_error
  end.



(** The mask subset an [update] mode selects. *)
Definition selected (update : string) (beta : mat) : Np.mask :=
  if streq update "in_category" then astype_bool beta
  else logical_not (astype_bool beta).

(** [m'] agrees with [m] outside the mask [k], and with [u] inside it. *)
Definition same_outside (k : Np.mask) (m m' : mat) : Prop :=
  forall i j, mask_at k i j = false -> entry m' i j = entry m i j.

Definition same_inside (k : Np.mask) (u m' : mat) : Prop :=
  forall i j, mask_at k i j = true -> entry m' i j = entry u i j.

(** A property of the object that holds now and held at every entry of
    the record. *)
Definition always {Obj} (P : Obj -> Prop) (w : world Obj) : Prop :=
  P (self w) /\ Forall (fun ev => P (snd ev)) (trace w).

(** [keeps I]: a run that starts in [I] ends in [I]. *)
Definition keeps {S} (I : S -> Prop) (s s' : S) : Prop := I s -> I s'.

(** No item update has returned on the record. *)
Definition item_update_free {Obj} (w : world Obj) : Prop :=
  Forall (fun ev => match fst ev with LItems _ => False | _ => True end)
         (trace w).

(** The item side is the observed matrix [bm]: no shape, no rate, no
    log-expectation. *)
Definition pmf_fixed_items (bm : mat) (o : PMF.PoissonMF) : Prop :=
  PMF.Eb o = Some (Mat bm) /\ PMF.Elogb o = None
  /\ PMF.gamma_b o = None /\ PMF.rho_b o = None.

Definition hpmf_fixed_items (bm : mat) (o : HPMF.HPoissonMF) : Prop :=
  HPMF.Eb o = Some (Mat bm) /\ HPMF.Elogb o = None
  /\ HPMF.gamma_b o = None /\ HPMF.rho_b o = None.

(** [E] and [Elog] are what [_compute_expectations] returns on [shape]
    and [rate]. *)
Definition expectations_of (np : numpy) (shape rate E Elog : pyarr) : Prop :=
  exists e, _compute_expectations np shape rate = inr e
            /\ E = Some (fst e) /\ Elog = Some (snd e).

Definition pmf_users_ok (np : numpy) (o : PMF.PoissonMF) : Prop :=
  expectations_of np (PMF.gamma_t o) (PMF.rho_t o) (PMF.Et o) (PMF.Elogt o).

Definition pmf_items_ok (np : numpy) (o : PMF.PoissonMF) : Prop :=
  expectations_of np (PMF.gamma_b o) (PMF.rho_b o) (PMF.Eb o) (PMF.Elogb o).

Definition hpmf_users_ok (np : numpy) (o : HPMF.HPoissonMF) : Prop :=
  expectations_of np (HPMF.gamma_t o) (HPMF.rho_t o)
                  (HPMF.Et o) (HPMF.Elogt o).

Definition hpmf_items_ok (np : numpy) (o : HPMF.HPoissonMF) : Prop :=
  expectations_of np (HPMF.gamma_b o) (HPMF.rho_b o)
                  (HPMF.Eb o) (HPMF.Elogb o).

(** Both sides of the object are as [_compute_expectations] leaves them. *)
Definition pmf_consistent (np : numpy) (o : PMF.PoissonMF) : Prop :=
  pmf_users_ok np o /\ pmf_items_ok np o.

Definition hpmf_consistent (np : numpy) (o : HPMF.HPoissonMF) : Prop :=
  hpmf_users_ok np o /\ hpmf_items_ok np o.

(** One side of [o'] is the same side of [o]. *)
Definition pmf_users_same (o o' : PMF.PoissonMF) : Prop :=
  PMF.gamma_t o' = PMF.gamma_t o /\ PMF.rho_t o' = PMF.rho_t o
  /\ PMF.Et o' = PMF.Et o /\ PMF.Elogt o' = PMF.Elogt o.

Definition pmf_items_same (o o' : PMF.PoissonMF) : Prop :=
  PMF.gamma_b o' = PMF.gamma_b o /\ PMF.rho_b o' = PMF.rho_b o
  /\ PMF.Eb o' = PMF.Eb o /\ PMF.Elogb o' = PMF.Elogb o.

Definition hpmf_users_same (o o' : HPMF.HPoissonMF) : Prop :=
  HPMF.gamma_t o' = HPMF.gamma_t o /\ HPMF.rho_t o' = HPMF.rho_t o
  /\ HPMF.Et o' = HPMF.Et o /\ HPMF.Elogt o' = HPMF.Elogt o.

Definition hpmf_items_same (o o' : HPMF.HPoissonMF) : Prop :=
  HPMF.gamma_b o' = HPMF.gamma_b o /\ HPMF.rho_b o' = HPMF.rho_b o
  /\ HPMF.Eb o' = HPMF.Eb o /\ HPMF.Elogb o' = HPMF.Elogb o.

(** Every snapshot on the record satisfies [P]. *)
Definition snapshots {Obj} (P : Obj -> Prop) (w : world Obj) : Prop :=
  Forall (fun ev => P (snd ev)) (trace w).

(** Where a record stands: before the clamp, in the first run (from the
    clamp to the restore), in the second run (from the restore on). *)
Inductive stage : Type := Before | First | Second.

Fixpoint stage_of {Obj} (tr : list (label * Obj)) : stage :=
  match tr with
  | [] => Before
  | (LRestore _ _, _) :: _ => Second
  | (LClamp _ _, _) :: _ => First
  | _ :: rest => stage_of rest
  end.

(** The newest entry is the stop of the default run, at iteration [i]. *)
Definition pending {Obj} (tr : list (label * Obj)) : option Z :=
  match tr with
  | (LStop u i, _) :: _ => if streq u "default" then Some i else None
  | _ => None
  end.

(** The subset a category-first policy trains first, and the one it
    defers. *)
Definition priority (item_fit_type : string) : string :=
  if streq item_fit_type "converge_in_category_first"
  then "in_category" else "out_category".

Definition deferred (item_fit_type : string) : string :=
  if streq item_fit_type "converge_in_category_first"
  then "out_category" else "in_category".

(** Inside the mask [k], [gamma_b] and [rho_b] of [s] hold the values
    [g] and [r]. *)
Definition pmf_items_on (k : Np.mask) (g r : nat -> nat -> float)
    (s : PMF.PoissonMF) : Prop :=
  exists gm rm,
    PMF.gamma_b s = Some (Mat gm) /\ PMF.rho_b s = Some (Mat rm)
    /\ forall i j, mask_at k i j = true ->
                   entry gm i j = g i j /\ entry rm i j = r i j.

Definition pmf_clamped (k : Np.mask) : PMF.PoissonMF -> Prop :=
  pmf_items_on k (fun _ _ => small_num) (fun _ _ => small_num).

(** The record of a category-first run, oldest entry last.  [k] is the
    deferred subset, [g0] and [r0] are [gamma_b] and [rho_b] at the start,
    [u1] is the priority subset and [u2] the deferred one.
    - The entry after a stop of the default run is the restore, and the
      deferred subset then holds its values of the start.
    - Before the clamp there is a user update only; the clamp comes in
      iteration 0.
    - From the clamp to the restore every item update is one of [u1] and
      the deferred subset is [1e-5] at every entry.
    - From the restore on every item update, evaluation and stop is one
      of [u2]. *)
Fixpoint schedule (k : Np.mask) (g0 r0 : mat) (u1 u2 : string)
    (tr : list (label * PMF.PoissonMF)) : Prop :=
  match tr with
  | [] => True
  | (l, s) :: rest =>
      schedule k g0 r0 u1 u2 rest
      /\ match pending rest with
         | Some i =>
             l = LRestore "default" i /\ stage_of rest = First
             /\ pmf_items_on k (entry g0) (entry r0) s
         | None =>
             match l, stage_of rest with
             | LUsers, Before => True
             | LClamp u i, Before =>
                 u = "default" /\ i = 0%Z /\ pmf_clamped k s
             | LUsers, First => pmf_clamped k s
             | LItems u, First => u = u1 /\ pmf_clamped k s
             | LEval u _ _ _, First => u = "default" /\ pmf_clamped k s
             | LStop u _, First => u = "default" /\ pmf_clamped k s
             | LUsers, Second => True
             | LItems u, Second => u = u2
             | LEval u _ _ _, Second => u = u2
             | LStop u _, Second => u = u2
             | _, _ => False
             end
         end
  end.

(** * Properties *)

From Stdlib Require Import Permutation.

(** ** The bilinear kernel *)

Section Kernel.




End Kernel.




(** The store on a few values: a number float32 holds is kept, a tie goes
    to the even neighbour, a value beyond float32's range becomes an
    infinity, one below half its least subnormal becomes zero, and storing
    twice is storing once. *)
Example float32_stores :
  float32 1.5 = 1.5%float
  /\ float32 (1 + 0x1p-24) = 1%float
  /\ float32 (1 + 0x3p-24) = (1 + 0x1p-22)%float
  /\ float32 0x1p128 = infinity
  /\ float32 (- 0x1p128) = neg_infinity
  /\ float32 0x1p-149 = 0x1p-149%float
  /\ float32 0x1p-150 = 0%float
  /\ float32 (float32 0.1) = float32 0.1.
Proof. repeat split; vm_compute; reflexivity. Qed.




(** ** Facts of IEEE arithmetic the loop and the expectations rest on *)

Section FloatFacts.

Lemma binary_round_aux_not_negative (mx ex : Z) (lx : location) :
  SFltb (binary_round_aux prec emax false mx ex lx) (S754_zero false) = false.
Proof.
  unfold binary_round_aux.
  destruct (shr_fexp prec emax mx ex lx) as [mrs' e'].
  destruct (shr_fexp prec emax _ e' loc_Exact) as [mrs'' e''].
  destruct (shr_m mrs''); [reflexivity | | reflexivity].
  destruct (Z.leb e'' (emax - prec)); reflexivity.
Qed.

Lemma positive_cases (x : float) :
  (0 <? x)%float = true ->
  Prim2SF x = S754_infinity false
  \/ exists m e, Prim2SF x = S754_finite false m e.
Proof.
  rewrite ltb_spec. change (Prim2SF 0) with (S754_zero false).
  destruct (Prim2SF x) as [s|s| |s m e]; try discriminate.
  - destruct s; [discriminate | now left].
  - destruct s; [discriminate | right; eauto].
Qed.

(** A quotient of two positive numbers is never negative (it may round to
    zero, and [inf / inf] is a NaN). *)
Lemma div_positive_not_negative (x y : float) :
  (0 <? x)%float = true -> (0 <? y)%float = true ->
  (x / y <? 0)%float = false.
Proof.
  intros Hx Hy. rewrite ltb_spec, div_spec.
  change (Prim2SF 0) with (S754_zero false).
  destruct (positive_cases Hx) as [Ex|[mx [ex Ex]]];
    destruct (positive_cases Hy) as [Ey|[my [ey Ey]]];
    rewrite Ex, Ey; try reflexivity.
  unfold SF64div, SFdiv.
  destruct (SFdiv_core_binary prec emax (Z.pos mx) ex (Z.pos my) ey)
    as [[mz ez] lz].
  apply binary_round_aux_not_negative.
Qed.


End FloatFacts.

(** ** Arrays: shapes, entries, masks *)

Section Arrays.

Lemma same_len2_refl {A} (m : list (list A)) : same_len2 m m = true.
Proof.
  induction m as [|r m IH]; simpl; [reflexivity|].
  now rewrite Nat.eqb_refl, IH.
Qed.

Lemma same_len2_rect (m : mat) {B} (k : list (list B)) (n c : nat) :
  same_len2 m k = true -> rect m n c ->
  List.length k = n /\ Forall (fun r => List.length r = c) k.
Proof.
  revert k n. induction m as [|r m IH]; intros [|kr k] n H [Hn Hr];
    simpl in *; try discriminate.
  - split; [assumption | constructor].
  - apply andb_true_iff in H as [H1 H2]. apply Nat.eqb_eq in H1.
    inversion Hr; subst.
    destruct (IH k (List.length m) H2) as [Hk Hkr]; [split; auto|].
    split; [now rewrite Hk | constructor; [lia | assumption]].
Qed.

Lemma rect_same_len2 (m : mat) {B} (k : list (list B)) (n c : nat) :
  rect m n c -> List.length k = n -> Forall (fun r => List.length r = c) k ->
  same_len2 m k = true.
Proof.
  revert k n. induction m as [|r m IH]; intros [|kr k] n [Hn Hr] Hk Hkr;
    simpl in *; try reflexivity; try lia.
  inversion Hr; inversion Hkr; subst.
  rewrite (IH k (List.length m)); [|split; auto|lia|auto].
  rewrite andb_true_r. apply Nat.eqb_eq. lia.
Qed.

Lemma nth_map2 {A B C} (f : A -> B -> C) (l1 : list A) (l2 : list B)
    (i : nat) (d1 : A) (d2 : B) (d : C) :
  (i < List.length l1)%nat -> (i < List.length l2)%nat ->
  nth i (map2 f l1 l2) d = f (nth i l1 d1) (nth i l2 d2).
Proof.
  revert l2 i. induction l1 as [|x l1 IH]; intros [|y l2] [|i] H1 H2;
    simpl in *; try lia; [reflexivity|].
  apply IH; lia.
Qed.

Lemma length_map2 {A B C} (f : A -> B -> C) (l1 : list A) (l2 : list B) :
  List.length l1 = List.length l2 ->
  List.length (map2 f l1 l2) = List.length l1.
Proof.
  revert l2. induction l1 as [|x l1 IH]; intros [|y l2] H; simpl in *;
    try lia. now rewrite IH by lia.
Qed.

Lemma mapM2_bcast0 (f : float -> float -> float) (l1 l2 : vec) :
  mapM2 (bcast0 f) l1 l2 = Some (map2 f l1 l2).
Proof.
  revert l2. induction l1 as [|x l1 IH]; intros [|y l2]; simpl;
    try reflexivity. now rewrite IH.
Qed.

Lemma bcast_rows (f : float -> float -> float) (m1 m2 : mat) :
  same_len2 m1 m2 = true ->
  bcast (bcast (bcast0 f)) m1 m2 = Some (map2 (map2 f) m1 m2).
Proof.
  intros H. unfold bcast at 1.
  assert (Hlen : List.length m1 = List.length m2).
  { revert m2 H. induction m1 as [|r m1 IH]; intros [|r2 m2] H;
      simpl in *; try discriminate; [reflexivity|].
    apply andb_true_iff in H as [_ H]. now rewrite (IH m2). }
  rewrite Hlen, Nat.eqb_refl. clear Hlen.
  revert m2 H. induction m1 as [|r m1 IH]; intros [|r2 m2] H;
    simpl in *; try discriminate; [reflexivity|].
  apply andb_true_iff in H as [H1 H2].
  unfold bcast at 1. rewrite H1, mapM2_bcast0, (IH m2 H2). reflexivity.
Qed.

(** An elementwise operation on two matrices of one shape. *)
Lemma bop_same_shape (f : float -> float -> float) (m1 m2 : mat) :
  same_len2 m1 m2 = true ->
  bop f (Mat m1) (Mat m2) = inr (Mat (map2 (map2 f) m1 m2)).
Proof. intros H. simpl. now rewrite bcast_rows. Qed.

Lemma rect_map2 (f : float -> float -> float) (m1 m2 : mat) (n c : nat) :
  rect m1 n c -> rect m2 n c -> rect (map2 (map2 f) m1 m2) n c.
Proof.
  revert m2 n. induction m1 as [|r m1 IH]; intros [|r2 m2] n [Hn Hr] [Hn2 Hr2];
    simpl in *; try lia; [split; [assumption | constructor]|].
  inversion Hr; inversion Hr2; subst.
  destruct (IH m2 (List.length m1)) as [Hl Hf]; [split; auto | split; auto; lia|].
  split; [simpl; now rewrite Hl|].
  constructor; [apply length_map2; lia | assumption].
Qed.

Lemma rect_map (f : float -> float) (m : mat) (n c : nat) :
  rect m n c -> rect (map (map f) m) n c.
Proof.
  intros [Hn Hr]. split; [now rewrite length_map|].
  rewrite Forall_map. eapply Forall_impl; [|exact Hr].
  intros r Hlen. simpl. now rewrite length_map.
Qed.

Lemma rect_row (m : mat) (n c i : nat) :
  rect m n c -> (i < n)%nat -> List.length (nth i m []) = c.
Proof.
  intros [Hn Hr] Hi. rewrite Forall_forall in Hr. apply Hr.
  apply nth_In. lia.
Qed.

Lemma entry_map2 (f : float -> float -> float) (m1 m2 : mat) (n c i j : nat) :
  rect m1 n c -> rect m2 n c -> (i < n)%nat -> (j < c)%nat ->
  entry (map2 (map2 f) m1 m2) i j = f (entry m1 i j) (entry m2 i j).
Proof.
  intros H1 H2 Hi Hj. unfold entry.
  rewrite (nth_map2 (map2 f) m1 m2 [] [] [])
    by (destruct H1, H2; lia).
  apply nth_map2.
  - now rewrite (rect_row H1 Hi).
  - now rewrite (rect_row H2 Hi).
Qed.

Lemma entry_map (f : float -> float) (m : mat) (n c i j : nat) :
  rect m n c -> (i < n)%nat -> (j < c)%nat ->
  entry (map (map f) m) i j = f (entry m i j).
Proof.
  intros H Hi Hj. unfold entry.
  rewrite (nth_indep (map (map f) m) [] (map f [])) by
    (rewrite length_map; destruct H; lia).
  rewrite map_nth.
  rewrite (nth_indep (map f _) 0%float (f 0%float)) by
    (rewrite length_map, (rect_row H Hi); lia).
  apply map_nth.
Qed.

End Arrays.

(** ** [_compute_expectations] *)

Lemma positive_entry (m : mat) (n c i j : nat) :
  positive m -> rect m n c -> (i < n)%nat -> (j < c)%nat ->
  (0 <? entry m i j)%float = true.
Proof.
  intros Hp Hm Hi Hj. unfold positive in Hp. rewrite Forall_forall in Hp.
  assert (Hrow : In (nth i m []) m) by (apply nth_In; destruct Hm; lia).
  specialize (Hp _ Hrow). rewrite Forall_forall in Hp. apply Hp.
  apply nth_In. now rewrite (rect_row Hm Hi).
Qed.

Lemma compute_expectations_matrices (np : numpy) (shape rate : mat)
    (n c : nat) :
  rect shape n c -> rect rate n c ->
  _compute_expectations np (Some (Mat shape)) (Some (Mat rate))
  = inr (Mat (map2 (map2 PrimFloat.div) shape rate),
         Mat (map2 (map2 PrimFloat.sub)
                   (map (map (special_psi np)) shape)
                   (map (map (np_log np)) rate))).
Proof.
  intros Hs Hr. unfold _compute_expectations. simpl.
  assert (H1 : same_len2 shape rate = true).
  { destruct Hr. now apply (rect_same_len2 Hs). }
  assert (H2 : same_len2 (map (map (special_psi np)) shape)
                         (map (map (np_log np)) rate) = true).
  { apply rect_map with (f := np_log np) in Hr. destruct Hr.
    apply (rect_same_len2 (rect_map (special_psi np) Hs)); auto. }
  unfold Np.div, Np.sub. simpl.
  rewrite (bcast_rows _ _ _ H1). simpl.
  rewrite (bcast_rows _ _ _ H2). reflexivity.
Qed.

(** C9, as the code has it: for positive [shape] and [rate] of one shape,
    [_compute_expectations] returns [mean = shape / rate] and
    [log_mean = psi(shape) - log(rate)] entry by entry, in binary64
    arithmetic, and no entry of [mean] is negative. *)
Theorem compute_expectations_entries (np : numpy) (shape rate : mat)
    (n c : nat) :
  rect shape n c -> rect rate n c -> positive shape -> positive rate ->
  exists mean log_mean,
    _compute_expectations np (Some (Mat shape)) (Some (Mat rate))
      = inr (Mat mean, Mat log_mean)
    /\ rect mean n c /\ rect log_mean n c
    /\ forall i j, (i < n)%nat -> (j < c)%nat ->
         entry mean i j = (entry shape i j / entry rate i j)%float
         /\ entry log_mean i j
            = (special_psi np (entry shape i j)
               - np_log np (entry rate i j))%float
         /\ (entry mean i j <? 0)%float = false.
Proof.
  intros Hs Hr Ps Pr.
  eexists _, _. split; [apply (compute_expectations_matrices np Hs Hr)|].
  split; [now apply rect_map2|].
  split; [apply rect_map2; now apply rect_map|].
  intros i j Hi Hj.
  rewrite (entry_map2 _ Hs Hr Hi Hj).
  rewrite (entry_map2 _ (rect_map (special_psi np) Hs)
                      (rect_map (np_log np) Hr) Hi Hj).
  rewrite (entry_map _ Hs Hi Hj), (entry_map _ Hr Hi Hj).
  repeat split.
  apply div_positive_not_negative;
    eauto using positive_entry.
Qed.

(** The positive inputs [shape = [[1e-200]]], [rate = [[1e200]]]: the
    quotient underflows and [mean] is [0], which is not above [0], whatever
    the library computes for [psi] and [log]. *)
Lemma compute_expectations_underflow :
  positive [[1e-200%float]] /\ positive [[1e200%float]]
  /\ (forall np : numpy, exists log_mean,
        _compute_expectations np (Some (Mat [[1e-200%float]]))
                              (Some (Mat [[1e200%float]]))
        = inr (Mat [[0%float]], log_mean))
  /\ (0 <? 0)%float = false.
Proof.
  split; [repeat constructor|]. split; [repeat constructor|].
  split; [|reflexivity].
  intros np. eexists. reflexivity.
Qed.

Lemma compute_expectations_entries_witness :
  exists mean log_mean,
    _compute_expectations Ref.np (Some (Mat [[2%float; 3%float]]))
                          (Some (Mat [[4%float; 1%float]]))
      = inr (Mat mean, Mat log_mean)
    /\ entry mean 0 0 = 0.5%float /\ (entry mean 0 1 <? 0)%float = false.
Proof.
  destruct (@compute_expectations_entries Ref.np [[2%float; 3%float]]
              [[4%float; 1%float]] 1 2) as [mean [lm [E [_ [_ H]]]]].
  - split; [reflexivity | repeat constructor].
  - split; [reflexivity | repeat constructor].
  - repeat constructor.
  - repeat constructor.
  - exists mean, lm. split; [exact E|].
    destruct (H 0%nat 0%nat) as [H00 _]; [lia | lia |].
    destruct (H 0%nat 1%nat) as [_ [_ H01]]; [lia | lia |].
    split; [rewrite H00; reflexivity | exact H01].
Defined.


(** ** Reasoning about runs *)

Section Runs.

Context {S A B : Type}.

Lemma bind_ok (c : M S A) (k : A -> M S B) (s s' : S) (a : A) :
  c s = Ok a s' -> bind c k s = k a s'.
Proof. intros H. unfold bind. now rewrite H. Qed.

Lemma bind_raise (c : M S A) (k : A -> M S B) (s s' : S) (e : exn) :
  c s = Raise e s' -> bind c k s = Raise e s'.
Proof. intros H. unfold bind. now rewrite H. Qed.

Lemma bind_inv_ok (c : M S A) (k : A -> M S B) (s s2 : S) (b : B) :
  bind c k s = Ok b s2 ->
  exists a s1, c s = Ok a s1 /\ k a s1 = Ok b s2.
Proof.
  unfold bind. destruct (c s) as [a s1|e s1]; [eauto | discriminate].
Qed.

Lemma bind_inv_raise (c : M S A) (k : A -> M S B) (s s2 : S) (e : exn) :
  bind c k s = Raise e s2 ->
  c s = Raise e s2 \/ exists a s1, c s = Ok a s1 /\ k a s1 = Raise e s2.
Proof.
  unfold bind. destruct (c s) as [a s1|e1 s1]; [eauto|].
  intros H. left. now inversion H.
Qed.

End Runs.

Ltac msimpl :=
  repeat (unfold bind, ret, raise, getattr, setattr, observe, gets, modify;
          simpl).

Lemma rect_sample_matrix (f : nat -> float) (r c : nat) :
  rect (sample_matrix f r c) r c.
Proof.
  unfold sample_matrix. split; [now rewrite length_map, length_seq|].
  rewrite Forall_map, Forall_forall. intros i _.
  now rewrite length_map, length_seq.
Qed.

Lemma compute_expectations_samples (np : numpy) (f g : nat -> float)
    (r c : nat) :
  exists e,
    _compute_expectations np (Some (Mat (sample_matrix f r c)))
                          (Some (Mat (sample_matrix g r c))) = inr e.
Proof.
  eexists.
  apply (compute_expectations_matrices np (rect_sample_matrix f r c)
                                       (rect_sample_matrix g r c)).
Qed.

Arguments sample_matrix : simpl never.
Arguments _compute_expectations : simpl never.
Arguments _inner : simpl never.

(** ** PoissonMF: initialisation and the separate-convergence policy *)

Module PMF_facts.
Import PMF.

Section WithNumpy.

Variable np : numpy.

Lemma _init_items_runs (n : nat) (beta : option mat) (cw : bool) (w : W) :
  exists o',
    _init_items np n beta cw w = Ok tt {| self := o'; trace := trace w |}
    /\ max_iter_fixed o' = max_iter_fixed (self w).
Proof.
  unfold _init_items, draw.
  destruct (compute_expectations_samples np
    (fun i => (items_init_scale (self w) * smoothness (self w)
               * random_gamma np (rng (self w)) (smoothness (self w))
                   (1 / smoothness (self w)) i)%float)
    (fun i => (items_init_scale (self w) * smoothness (self w)
               * random_gamma np (S (rng (self w))) (smoothness (self w))
                   (1 / smoothness (self w)) i)%float)
    n (n_components (self w))) as [e He].
  destruct beta as [bm|]; [destruct cw|]; msimpl;
    try (unfold lift; rewrite He; msimpl); eexists; split; reflexivity.
Qed.

Lemma _init_users_runs (n : nat) (theta : option mat) (w : W) :
  exists o',
    _init_users np n theta w = Ok tt {| self := o'; trace := trace w |}
    /\ max_iter_fixed o' = max_iter_fixed (self w).
Proof.
  unfold _init_users, draw.
  destruct (compute_expectations_samples np
    (fun i => (smoothness (self w)
               * random_gamma np (rng (self w)) (smoothness (self w))
                   (1 / smoothness (self w)) i)%float)
    (fun i => (smoothness (self w)
               * random_gamma np (S (rng (self w))) (smoothness (self w))
                   (1 / smoothness (self w)) i)%float)
    (n_components (self w)) n) as [e He].
  destruct theta as [t|]; msimpl;
    try (unfold lift; rewrite He; msimpl); eexists; split; reflexivity.
Qed.

Lemma xrange_pos (n : Z) :
  (0 < n)%Z -> exists rest, xrange n = 0%Z :: rest.
Proof.
  intros H. unfold xrange.
  destruct (Z.to_nat n) as [|k] eqn:E; [lia|].
  simpl. eauto.
Qed.

(** C10: without a fixed [theta], [fit] with
    [user_fit_type = 'converge_separately'] raises a [NameError] for
    [observed_user_preferences] in its first round, before any update or
    evaluation has run; a run of that policy that returns had a fixed
    [theta]. *)
Theorem fit_converge_separately_needs_theta
    (X : sparse) (rows cols : list Z) (vad : held_out) (beta : option mat)
    (categorywise : bool) (item_fit_type : string)
    (zero_untrained_components : bool) (w : W) :
  (0 < max_iter_fixed (self w))%Z ->
  (exists w',
     fit np X rows cols vad beta None categorywise item_fit_type
         "converge_separately" zero_untrained_components w
     = Raise (NameError "observed_user_preferences") w'
     /\ trace w' = trace w)
  /\ (forall theta w',
        fit np X rows cols vad beta theta categorywise item_fit_type
            "converge_separately" zero_untrained_components w = Ok tt w' ->
        is_ndarray theta = true).
Proof.
  intros Hfix.
  assert (Hraise : exists w',
     fit np X rows cols vad beta None categorywise item_fit_type
         "converge_separately" zero_untrained_components w
     = Raise (NameError "observed_user_preferences") w'
     /\ trace w' = trace w).
  { unfold fit.
    set (w1 := {| self := set_n_users (snd (X_shape X)) (self w);
                  trace := trace w |}).
    destruct (_init_items_runs (fst (X_shape X)) beta categorywise w1)
      as [o2 [E2 F2]].
    destruct (_init_users_runs (snd (X_shape X)) None
                {| self := o2; trace := trace w1 |}) as [o3 [E3 F3]].
    destruct (@xrange_pos (max_iter_fixed o3)) as [rest Hx].
    { rewrite F3. simpl. rewrite F2. exact Hfix. }
    eexists. split.
    - unfold bind at 1. unfold setattr at 1, modify at 1. fold w1.
      rewrite (bind_ok _ _ _ E2). rewrite (bind_ok _ _ _ E3).
      replace (negb (streq "converge_separately" "default")) with true
        by reflexivity.
      cbv beta iota.
      unfold bind at 1, getattr at 1, gets at 1. simpl self.
      rewrite Hx. reflexivity.
    - reflexivity. }
  split; [exact Hraise|].
  intros [t|] w' H; [reflexivity|].
  destruct Hraise as [w2 [E _]]. rewrite E in H. discriminate.
Qed.

End WithNumpy.

End PMF_facts.

(** ** A program logic for runs

    [steps R c]: every run of [c], whether it returns or raises, takes a
    state to one related to it by [R].  [hoare P c Q E]: from a state in
    [P], [c] returns a value and a state in [Q] or raises an exception with
    a state in [E]. *)

Definition steps {S A} (R : S -> S -> Prop) (c : M S A) : Prop :=
  forall s, R s (state_of (c s)).

Definition hoare {S A} (P : S -> Prop) (c : M S A)
    (Q : A -> S -> Prop) (E : exn -> S -> Prop) : Prop :=
  forall s, P s ->
    match c s with
    | Ok a s' => Q a s'
    | Raise e s' => E e s'
    end.

(** The relations used with [steps] are reflexive and transitive. *)
Class Pre {S} (R : S -> S -> Prop) : Prop := {
  pre_refl : forall s, R s s;
  pre_trans : forall s1 s2 s3, R s1 s2 -> R s2 s3 -> R s1 s3
}.

Section Logic.

Context {S : Type} (R : S -> S -> Prop) `{Pre S R}.

Lemma steps_ret {A} (a : A) : steps R (ret a).
Proof. intros s. apply pre_refl. Qed.

Lemma steps_raise {A} (e : exn) : steps R (@raise S A e).
Proof. intros s. apply pre_refl. Qed.

Lemma steps_lift {A} (r : res A) : steps R (lift r).
Proof. intros s. unfold lift. destruct r; apply pre_refl. Qed.

Lemma steps_gets {A} (f : S -> A) : steps R (gets f).
Proof. intros s. apply pre_refl. Qed.

Lemma steps_modify (f : S -> S) : (forall s, R s (f s)) -> steps R (modify f).
Proof. intros Hf s. apply Hf. Qed.

Lemma steps_bind {A B} (c : M S A) (k : A -> M S B) :
  steps R c -> (forall a, steps R (k a)) -> steps R (bind c k).
Proof.
  intros Hc Hk s. unfold bind. specialize (Hc s).
  destruct (c s) as [a s1|e s1]; simpl in *; [|exact Hc].
  eapply pre_trans; [exact Hc | apply Hk].
Qed.

Lemma steps_for_each {I L} (body : I -> L -> M S (L * bool))
    (idxs : list I) (l : L) :
  (forall i l, steps R (body i l)) -> steps R (for_each body idxs l).
Proof.
  intros Hb. revert l. induction idxs as [|i rest IH]; intros l; simpl.
  - apply steps_ret.
  - apply steps_bind; [apply Hb|].
    intros [l' brk]. simpl. destruct brk; [apply steps_ret | apply IH].
Qed.

End Logic.

Create HintDb steps.

(** Walks a method along its binds, branches and loops; [side] settles
    what a write to the state owes the relation. *)
Ltac steps_walk side :=
  cbv beta zeta;
  lazymatch goal with
  | |- steps _ (bind _ _) =>
      apply steps_bind; [exact _ | steps_walk side | intro; steps_walk side]
  | |- steps _ (ret _) => apply steps_ret; exact _
  | |- steps _ (raise _) => apply steps_raise; exact _
  | |- steps _ (lift _) => apply steps_lift; exact _
  | |- steps _ (gets _) => apply steps_gets; exact _
  | |- steps _ (getattr _) => apply steps_gets; exact _
  | |- steps _ (modify _) => apply steps_modify; side
  | |- steps _ (setattr _) => apply steps_modify; side
  | |- steps _ (observe _) => apply steps_modify; side
  | |- steps _ (for_each _ _ _) =>
      apply steps_for_each; [exact _ | intros; steps_walk side]
  | |- steps _ (if ?b then _ else _) => destruct b; steps_walk side
  | |- steps _ (match ?x with _ => _ end) => destruct x; steps_walk side
  | |- steps _ _ => solve [eauto with steps]
  end.

Section Hoare.

Context {S : Type}.

Lemma hoare_ret {A} (P : S -> Prop) (a : A) Q E :
  (forall s, P s -> Q a s) -> hoare P (ret a) Q E.
Proof. intros H s Hs. apply H, Hs. Qed.

Lemma hoare_raise {A} (P : S -> Prop) (e : exn) (Q : A -> S -> Prop) E :
  (forall s, P s -> E e s) -> hoare P (raise e) Q E.
Proof. intros H s Hs. apply H, Hs. Qed.

Lemma hoare_bind {A B} (P : S -> Prop) (c : M S A) (k : A -> M S B)
    (Mid : A -> S -> Prop) Q E :
  hoare P c Mid E -> (forall a, hoare (Mid a) (k a) Q E) ->
  hoare P (bind c k) Q E.
Proof.
  intros Hc Hk s Hs. unfold bind. specialize (Hc s Hs).
  destruct (c s) as [a s1|e s1]; [apply (Hk a s1 Hc) | exact Hc].
Qed.

Lemma hoare_conseq {A} (P P' : S -> Prop) (c : M S A)
    (Q Q' : A -> S -> Prop) (E E' : exn -> S -> Prop) :
  hoare P' c Q' E' ->
  (forall s, P s -> P' s) ->
  (forall a s, Q' a s -> Q a s) ->
  (forall e s, E' e s -> E e s) ->
  hoare P c Q E.
Proof.
  intros H HP HQ HE s Hs. specialize (H s (HP s Hs)).
  destruct (c s); [apply HQ | apply HE]; exact H.
Qed.

Lemma hoare_lift {A} (P : S -> Prop) (r : res A) Q E :
  (forall s, P s -> match r with inr a => Q a s | inl e => E e s end) ->
  hoare P (lift r) Q E.
Proof. intros H s Hs. unfold lift. specialize (H s Hs). destruct r; exact H. Qed.

Lemma hoare_gets {A} (P : S -> Prop) (f : S -> A) Q E :
  (forall s, P s -> Q (f s) s) -> hoare P (gets f) Q E.
Proof. intros H s Hs. apply H, Hs. Qed.

Lemma hoare_modify (P : S -> Prop) (f : S -> S) Q E :
  (forall s, P s -> Q tt (f s)) -> hoare P (modify f) Q E.
Proof. intros H s Hs. apply H, Hs. Qed.

(** The loop rule: [J rest l] holds before the iterations over [rest]. *)
Lemma hoare_for_each {I L} (body : I -> L -> M S (L * bool))
    (J : list I -> L -> S -> Prop) (Q : L -> S -> Prop) E
    (idxs : list I) (l : L) :
  (forall i rest l,
      hoare (J (i :: rest) l) (body i l)
            (fun r s => if snd r then Q (fst r) s else J rest (fst r) s) E) ->
  (forall l s, J [] l s -> Q l s) ->
  hoare (J idxs l) (for_each body idxs l) Q E.
Proof.
  intros Hb Hend. revert l. induction idxs as [|i rest IH]; intros l; simpl.
  - apply hoare_ret. apply Hend.
  - eapply hoare_bind; [apply Hb|].
    intros [l' brk]. simpl. destruct brk; [|apply IH].
    apply hoare_ret. auto.
Qed.

(** A relation every run respects gives a triple for any precondition. *)
Lemma steps_hoare {A} (R : S -> S -> Prop) (c : M S A) (P : S -> Prop)
    (Q : A -> S -> Prop) (E : exn -> S -> Prop) :
  steps R c ->
  (forall s s' a, P s -> R s s' -> c s = Ok a s' -> Q a s') ->
  (forall s s' e, P s -> R s s' -> c s = Raise e s' -> E e s') ->
  hoare P c Q E.
Proof.
  intros Hst HQ HE s Hs. specialize (Hst s).
  destruct (c s) as [a s'|e s'] eqn:Ec; simpl in Hst; eauto.
Qed.

End Hoare.

(** ** Neutral continuations keep a record good *)

Section Quiet.

Context {Obj : Type}.
Variable tol_of : Obj -> float.
Variable min_iter_of : Obj -> Z.

#[export] Instance quiet_pre : Pre (@quiet Obj).
Proof.
  split.
  - intros w. exists []. split; [reflexivity | constructor].
  - intros w1 w2 w3 [n1 [E1 F1]] [n2 [E2 F2]]. exists (n2 ++ n1). split.
    + now rewrite E2, E1, app_assoc.
    + apply Forall_app. split; assumption.
Qed.

Lemma quiet_setattr (f : Obj -> Obj) (w : world Obj) :
  quiet w {| self := f (self w); trace := trace w |}.
Proof. exists []. split; [reflexivity | constructor]. Qed.

Lemma quiet_observe (l : label) (w : world Obj) :
  neutral l = true ->
  quiet w {| self := self w; trace := (l, self w) :: trace w |}.
Proof. intros Hl. exists [(l, self w)]. split; [reflexivity | now repeat constructor]. Qed.

Lemma neutral_not_stop (l : label) : neutral l = true -> not_stop l.
Proof. destruct l; simpl; intros; try discriminate; exact I. Qed.

Lemma neutral_first (l : label) : neutral l = true -> first_from_inf l.
Proof. destruct l; simpl; intros; try discriminate; exact I. Qed.

Lemma settled_follows (l : label) (tr : list (label * Obj)) :
  settled tol_of min_iter_of tr -> not_stop l ->
  follows tol_of min_iter_of l tr.
Proof.
  intros Hs Hl. destruct tr as [|[[ | | u i old p | | | ] o] older];
    simpl in *; auto.
  destruct Hs as [Hn Ht]. now rewrite Hn, Ht.
Qed.

Lemma good_neutral (new tr : list (label * Obj)) :
  Forall (fun ev => neutral (fst ev) = true) new ->
  Good tol_of min_iter_of tr -> settled tol_of min_iter_of tr ->
  Good tol_of min_iter_of (new ++ tr)
  /\ settled tol_of min_iter_of (new ++ tr).
Proof.
  induction 1 as [|ev new Hev Hnew IH]; intros Hg Hs; [now split|].
  destruct (IH Hg Hs) as [Hg' Hs']. split.
  - simpl. repeat split; auto using neutral_first.
    apply settled_follows; auto using neutral_not_stop.
  - destruct ev as [l o]. simpl in *. destruct l; try discriminate; exact I.
Qed.

Lemma quiet_good (w w' : world Obj) :
  quiet w w' ->
  Good tol_of min_iter_of (trace w) /\ settled tol_of min_iter_of (trace w) ->
  Good tol_of min_iter_of (trace w')
  /\ settled tol_of min_iter_of (trace w').
Proof.
  intros [new [E F]] [Hg Hs]. rewrite E. now apply good_neutral.
Qed.

End Quiet.

Ltac quiet_side :=
  intro;
  first [ apply quiet_setattr | apply quiet_observe; reflexivity ].

(** ** PoissonMF: the parts of an iteration are neutral *)

Module PMF_quiet.
Import PMF.

Section WithNumpy.

Variable np : numpy.

Lemma draw_quiet scale r c : steps quiet (draw np scale r c).
Proof. unfold draw. steps_walk quiet_side. Qed.
Hint Resolve draw_quiet : steps.

Lemma _init_users_quiet n theta : steps quiet (_init_users np n theta).
Proof. unfold _init_users. steps_walk quiet_side. Qed.

Lemma _init_items_quiet n beta cw : steps quiet (_init_items np n beta cw).
Proof. unfold _init_items. steps_walk quiet_side. Qed.

Lemma _xexplog_quiet rows cols beta oia oup :
  steps quiet (_xexplog np rows cols beta oia oup).
Proof. unfold _xexplog. steps_walk quiet_side. Qed.
Hint Resolve _init_users_quiet _init_items_quiet _xexplog_quiet : steps.

Lemma _update_users_quiet X rows cols beta theta oup oia ou :
  steps quiet (_update_users np X rows cols beta theta oup oia ou).
Proof. unfold _update_users. steps_walk quiet_side. Qed.

Lemma assign_masked_quiet k g r : steps quiet (assign_masked k g r).
Proof. unfold assign_masked. steps_walk quiet_side. Qed.
Hint Resolve _update_users_quiet assign_masked_quiet : steps.

Lemma _update_items_quiet X rows cols beta cw oup u :
  steps quiet (_update_items np X rows cols beta cw oup u).
Proof. unfold _update_items. steps_walk quiet_side. Qed.

Lemma pred_loglikeli_quiet vad : steps quiet (pred_loglikeli np vad).
Proof. unfold pred_loglikeli. steps_walk quiet_side. Qed.
Hint Resolve _update_items_quiet pred_loglikeli_quiet : steps.

Lemma users_part_quiet X rows cols o i :
  steps quiet (users_part np X rows cols o i).
Proof. unfold users_part. steps_walk quiet_side. Qed.

Lemma clamp_quiet o i l : steps quiet (clamp o i l).
Proof. unfold clamp. steps_walk quiet_side. Qed.
Hint Resolve users_part_quiet clamp_quiet : steps.

Lemma items_part_quiet X rows cols o i l :
  steps quiet (items_part np X rows cols o i l).
Proof. unfold items_part. steps_walk quiet_side. Qed.

Lemma restore_quiet o i gn rn kn gv rv k :
  steps quiet (restore o i gn rn kn gv rv k).
Proof. unfold restore, local. steps_walk quiet_side. Qed.

End WithNumpy.

End PMF_quiet.

(** ** From neutral steps to triples *)

Section Triples.

Context {Obj : Type}.
Variable tol_of : Obj -> float.
Variable min_iter_of : Obj -> Z.

Abbreviation GW := (GoodW tol_of min_iter_of).
Abbreviation GE := (GoodE tol_of min_iter_of).

Lemma hoare_quiet {A} (c : M (world Obj) A) (phi : Prop) :
  steps quiet c ->
  hoare (fun w => GW w /\ phi) c (fun _ w => GW w /\ phi) GE.
Proof.
  intros Hq w [Hw Hphi]. specialize (Hq w).
  pose proof (quiet_good tol_of min_iter_of Hq Hw) as [Hg Hs].
  destruct (c w) as [a w'|e w']; simpl in *.
  - split; [split|]; assumption.
  - split; [assumption | now left].
Qed.

Lemma hoare_quiet_good {A} (c : M (world Obj) A) :
  steps quiet c -> hoare GW c (fun _ w => GW w) GE.
Proof.
  intros Hq w Hw. pose proof (hoare_quiet (phi := True) Hq) as Hh.
  specialize (Hh w (conj Hw I)).
  destruct (c w); [apply Hh | exact Hh].
Qed.

Lemma hoare_and {S A} (P : S -> Prop) (c : M S A)
    (Q1 Q2 : A -> S -> Prop) (E1 E2 : exn -> S -> Prop) :
  hoare P c Q1 E1 -> hoare P c Q2 E2 ->
  hoare P c (fun a s => Q1 a s /\ Q2 a s) (fun e s => E1 e s /\ E2 e s).
Proof.
  intros H1 H2 s Hs. specialize (H1 s Hs). specialize (H2 s Hs).
  destruct (c s); split; assumption.
Qed.

Lemma hoare_pure {S A} (c : M S A) (phi : Prop) :
  hoare (fun _ => phi) c (fun _ _ => phi) (fun _ _ => True).
Proof. intros s Hs. destruct (c s); [exact Hs | exact I]. Qed.

(** The evaluation of iteration [i] enters the record. *)
Lemma good_eval (u : string) (i : Z) (old p : float) (o : Obj)
    (tr : list (label * Obj)) :
  Good tol_of min_iter_of tr -> settled tol_of min_iter_of tr ->
  (i = 0%Z -> old = neg_infinity) ->
  Good tol_of min_iter_of ((LEval u i old p, o) :: tr).
Proof.
  intros Hg Hs Hi. simpl. repeat split; auto.
  apply settled_follows; [assumption | exact I].
Qed.

Lemma good_stop (u : string) (i : Z) (old p : float) (o o' : Obj)
    (tr : list (label * Obj)) :
  Good tol_of min_iter_of ((LEval u i old p, o) :: tr) ->
  is_nan p = false ->
  tol_stop (tol_of o) (min_iter_of o) i p old = true ->
  Good tol_of min_iter_of ((LStop u i, o') :: (LEval u i old p, o) :: tr).
Proof.
  intros Hg Hn Ht. split; [|split; [exact I | exact Hg]].
  simpl. now rewrite Hn, Ht.
Qed.

End Triples.

(** ** PoissonMF: the record of [_update] and [fit] *)

Module PMF_record.
Import PMF PMF_quiet.

Abbreviation GW := (GoodW tol min_iter).
Abbreviation GE := (GoodE tol min_iter).

Section WithNumpy.

Variable np : numpy.

Lemma clamp_old_pll o i l :
  hoare (fun _ : W => True) (clamp o i l)
        (fun l1 _ => old_pll l1 = old_pll l) (fun _ _ => True).
Proof.
  intros w _. unfold clamp, bind, lift, getattr, gets, setattr, observe,
    modify, ret.
  destruct (beta o) as [bm|]; simpl; [|exact I].
  destruct (streq (item_fit_type o) "converge_in_category_first").
  { repeat match goal with
           | |- context [match ?r with inl _ => _ | inr _ => _ end] =>
               destruct r; simpl; try exact I
           end. reflexivity. }
  destruct (streq (item_fit_type o) "converge_out_category_first").
  { repeat match goal with
           | |- context [match ?r with inl _ => _ | inr _ => _ end] =>
               destruct r; simpl; try exact I
           end. reflexivity. }
  reflexivity.
Qed.

Lemma items_part_old_pll X rows cols o i l :
  hoare (fun _ : W => True) (items_part np X rows cols o i l)
        (fun l1 _ => old_pll l1 = old_pll l) (fun _ _ => True).
Proof.
  unfold items_part.
  destruct (_ || _ || _); [now apply hoare_ret|].
  destruct (negb _).
  - eapply hoare_bind with (Mid := fun l1 _ => old_pll l1 = old_pll l).
    + destruct (_ && _ && _); [apply clamp_old_pll | now apply hoare_ret].
    + intros l1. eapply hoare_bind; [apply hoare_pure|].
      intros ?. now apply hoare_ret.
  - eapply hoare_bind with (Mid := fun _ _ => True).
    + intros w _. destruct (_update_items _ _ _ _ _ _ _ _ w); exact I.
    + intros ?. now apply hoare_ret.
Qed.

Lemma items_part_good X rows cols o i l (phi : Prop) :
  hoare (fun w => GW w /\ phi) (items_part np X rows cols o i l)
        (fun l1 w => (GW w /\ phi) /\ old_pll l1 = old_pll l) GE.
Proof.
  intros w Hw.
  pose proof (hoare_quiet (tol_of := tol) (min_iter_of := min_iter)
                (phi := phi) (items_part_quiet np X rows cols o i l)) as H1.
  pose proof (items_part_old_pll X rows cols o i l) as H2.
  specialize (H1 w Hw). specialize (H2 w I).
  destruct (items_part np X rows cols o i l w); simpl in *;
    [split; assumption | assumption].
Qed.

Section Update.

Variable recur :
  sparse -> list Z -> list Z -> held_out -> opts -> M W (float * best).
Hypothesis recur_good : forall X rows cols vad o,
  hoare GW (recur X rows cols vad o) (fun _ w => GW w) GE.

Ltac gw_walk :=
  cbv beta;
  lazymatch goal with
  | |- hoare _ (bind _ _) _ _ =>
      apply hoare_bind with (Mid := fun _ w => GW w);
      [gw_walk | intro; gw_walk]
  | |- hoare _ (ret _) _ _ => apply hoare_ret; auto
  | |- hoare _ (if ?b then _ else _) _ _ => destruct b; gw_walk
  | |- hoare _ _ _ _ =>
      first [ apply recur_good
            | apply hoare_quiet_good;
              first [ apply restore_quiet | apply users_part_quiet
                    | apply pred_loglikeli_quiet ] ]
  end.

Lemma converged_part_good X rows cols vad o i l :
  hoare GW (converged_part recur X rows cols vad o i l)
        (fun _ w => GW w) GE.
Proof. unfold converged_part. gw_walk. Qed.

Lemma iteration_good X rows cols vad o i l :
  hoare (fun w => GW w /\ (i = 0%Z -> old_pll l = neg_infinity))
        (iteration np recur X rows cols vad o i l)
        (fun _ w => GW w) GE.
Proof.
  intros w [Hw Hi]. unfold iteration. unfold bind at 1.
  pose proof (hoare_quiet_good (tol_of := tol) (min_iter_of := min_iter)
                (users_part_quiet np X rows cols o i)) as H1.
  specialize (H1 w Hw).
  destruct (users_part np X rows cols o i w) as [[] w1|e w1]; [|exact H1].
  unfold bind at 1.
  pose proof (items_part_good X rows cols o i l (phi := True)) as H2.
  specialize (H2 w1 (conj H1 I)).
  destruct (items_part np X rows cols o i l w1) as [l1 w2|e w2]; [|exact H2].
  destruct H2 as [[Hw2 _] Hold]. unfold bind at 1.
  pose proof (hoare_quiet_good (tol_of := tol) (min_iter_of := min_iter)
                (pred_loglikeli_quiet np vad)) as H3.
  specialize (H3 w2 Hw2).
  destruct (pred_loglikeli np vad w2) as [p w3|e w3]; [|exact H3].
  destruct H3 as [Hg3 Hs3].
  assert (Hgood : Good tol min_iter
                    ((LEval (update o) i (old_pll l1) p, self w3) :: trace w3)).
  { apply good_eval; auto. rewrite Hold. exact Hi. }
  cbv beta iota delta [bind observe modify getattr gets raise ret].
  destruct (is_nan p) eqn:Hn; cbv beta; cbn [self trace].
  { split; [exact Hgood|]. right. simpl. now split. }
  change (old_pll (record_best (self w3) p l1)) with (old_pll l1).
  destruct (tol_stop (tol (self w3)) (min_iter (self w3)) i p (old_pll l1))
    eqn:Ht; cbv beta; cbn [self trace].
  - pose proof (converged_part_good X rows cols vad o i
                  (record_best (self w3) p l1)) as H4.
    match goal with
    | |- context [converged_part _ _ _ _ _ _ _ _ ?w4] =>
        specialize (H4 w4); destruct (converged_part _ _ _ _ _ _ _ _ w4)
    end.
    + apply H4. split; [|exact I]. now apply good_stop.
    + apply H4. split; [|exact I]. now apply good_stop.
  - split; [exact Hgood|]. simpl. now split.
Qed.

Lemma _update_body_good X rows cols vad o :
  hoare GW (_update_body np recur X rows cols vad o) (fun _ w => GW w) GE.
Proof.
  unfold _update_body.
  apply hoare_bind with (Mid := fun n w => GW w).
  { apply hoare_quiet_good. steps_walk quiet_side. }
  intros n.
  apply hoare_bind with (Mid := fun _ w => GW w).
  - pose (J := fun (rem : list Z) (l : locals) (w : W) =>
                GW w /\ exists k m, rem = map Z.of_nat (seq k m)
                                    /\ (k = 0%nat -> old_pll l = neg_infinity)).
    apply hoare_conseq with (P' := J (xrange n) init_locals)
                            (Q' := fun _ w => GW w) (E' := GE); auto.
    + apply hoare_for_each with (J := J); [|intros l w [Hw _]; exact Hw].
      intros i rest l w [Hw [k [m [Hrem Hk]]]].
      destruct m as [|m]; [discriminate|].
      simpl in Hrem. injection Hrem as Hi Hrest.
      pose proof (@iteration_good X rows cols vad o i l) as Hit.
      specialize (Hit w). cbv beta in Hit.
      destruct (iteration np recur X rows cols vad o i l w) as [[l' brk] w'|e w'].
      * assert (Hw' : GW w') by (apply Hit; split; [exact Hw | intros; apply Hk; lia]).
        simpl. destruct brk; [exact Hw'|].
        split; [exact Hw'|]. exists (S k), m. split; [exact Hrest | discriminate].
      * apply Hit. split; [exact Hw | intros; apply Hk; lia].
    + intros w Hw. split; [exact Hw|].
      exists 0%nat, (Z.to_nat n). split; [reflexivity | reflexivity].
  - intros l. apply hoare_bind with (Mid := fun _ w => GW w).
    + apply hoare_quiet_good. unfold local. steps_walk quiet_side.
    + intros p. apply hoare_ret. auto.
Qed.

End Update.

Lemma _update_leaf_good X rows cols vad o :
  hoare GW (_update_leaf np X rows cols vad o) (fun _ w => GW w) GE.
Proof.
  apply _update_body_good. intros ? ? ? ? ? w [Hg Hs].
  split; [exact Hg | now left].
Qed.

Lemma _update_good X rows cols vad o :
  hoare GW (_update np X rows cols vad o) (fun _ w => GW w) GE.
Proof. apply _update_body_good. apply _update_leaf_good. Qed.

Ltac gw_fit :=
  cbv beta zeta;
  lazymatch goal with
  | |- hoare _ (bind _ _) _ _ =>
      apply hoare_bind with (Mid := fun _ w => GW w);
      [gw_fit | intro; gw_fit]
  | |- hoare _ (ret _) _ _ => apply hoare_ret; auto
  | |- hoare _ (if ?b then _ else _) _ _ => destruct b; gw_fit
  | |- hoare _ (_update _ _ _ _ _ _) _ _ => apply _update_good
  | |- hoare _ _ _ _ =>
      apply hoare_quiet_good; unfold local, key;
      first [ apply _init_items_quiet | apply _init_users_quiet
            | steps_walk quiet_side ]
  end.

Lemma round_good X rows cols vad beta theta cw ift uft z idx fl :
  hoare GW (round np X rows cols vad beta theta cw ift uft z idx fl)
        (fun _ w => GW w) GE.
Proof. unfold round. gw_fit. Qed.

Lemma fit_good X rows cols vad beta theta cw ift uft z :
  hoare GW (fit np X rows cols vad beta theta cw ift uft z)
        (fun _ w => GW w) GE.
Proof.
  unfold fit. cbv zeta.
  apply hoare_bind with (Mid := fun _ w => GW w); [gw_fit|]. intros ?.
  apply hoare_bind with (Mid := fun _ w => GW w); [gw_fit|]. intros ?.
  apply hoare_bind with (Mid := fun _ w => GW w); [gw_fit|]. intros ?.
  destruct (negb (streq uft "default")); [|gw_fit].
  apply hoare_bind with (Mid := fun _ w => GW w); [gw_fit|]. intros n.
  apply hoare_bind with (Mid := fun _ w => GW w); [|intros fl; gw_fit].
  apply hoare_for_each with (J := fun _ _ w => GW w)
                            (Q := fun _ w => GW w); [|auto].
  intros i rest l.
  eapply hoare_conseq; [apply round_good | auto | | auto].
  intros [l' brk] w Hw. simpl. now destruct brk.
Qed.

End WithNumpy.

End PMF_record.

(** ** HPoissonMF: the same for the hierarchical variant *)

Module HPMF_quiet.
Import HPMF.

Section WithNumpy.

Variable np : numpy.

Lemma draw_quiet_h r c : steps quiet (draw np r c).
Proof. unfold draw. steps_walk quiet_side. Qed.
Hint Resolve draw_quiet_h : steps.

Lemma _init_users_quiet_h n : steps quiet (_init_users np n).
Proof. unfold _init_users. steps_walk quiet_side. Qed.

Lemma _init_items_quiet_h n beta : steps quiet (_init_items np n beta).
Proof. unfold _init_items. steps_walk quiet_side. Qed.

Lemma _xexplog_quiet_h rows cols beta : steps quiet (_xexplog np rows cols beta).
Proof. unfold _xexplog. steps_walk quiet_side. Qed.
Hint Resolve _init_users_quiet_h _init_items_quiet_h _xexplog_quiet_h : steps.

Lemma _update_users_quiet_h X rows cols beta cw :
  steps quiet (_update_users np X rows cols beta cw).
Proof. unfold _update_users. steps_walk quiet_side. Qed.

Lemma assign_masked_quiet_h k g r : steps quiet (assign_masked k g r).
Proof. unfold assign_masked. steps_walk quiet_side. Qed.
Hint Resolve _update_users_quiet_h assign_masked_quiet_h : steps.

Lemma _update_items_quiet_h X rows cols beta cw u :
  steps quiet (_update_items np X rows cols beta cw u).
Proof. unfold _update_items. steps_walk quiet_side. Qed.

Lemma pred_loglikeli_quiet_h vad : steps quiet (pred_loglikeli np vad).
Proof. unfold pred_loglikeli. steps_walk quiet_side. Qed.

Lemma clamp_quiet_h o i l : steps quiet (clamp o i l).
Proof. unfold clamp. steps_walk quiet_side. Qed.
Hint Resolve _update_items_quiet_h pred_loglikeli_quiet_h clamp_quiet_h : steps.

Lemma items_part_quiet_h X rows cols o i l :
  steps quiet (items_part np X rows cols o i l).
Proof. unfold items_part. steps_walk quiet_side. Qed.

Lemma restore_quiet_h o i gn rn kn gv rv k :
  steps quiet (restore o i gn rn kn gv rv k).
Proof. unfold restore, local. steps_walk quiet_side. Qed.

End WithNumpy.

End HPMF_quiet.

Module HPMF_record.
Import HPMF HPMF_quiet.

Abbreviation GW := (GoodW tol min_iter).
Abbreviation GE := (GoodE tol min_iter).

Section WithNumpy.

Variable np : numpy.

Lemma clamp_old_pll_h o i l :
  hoare (fun _ : W => True) (clamp o i l)
        (fun l1 _ => old_pll l1 = old_pll l) (fun _ _ => True).
Proof.
  intros w _. unfold clamp, bind, lift, getattr, gets, setattr, observe,
    modify, ret.
  destruct (beta o) as [bm|]; simpl; [|exact I].
  destruct (streq (item_fit_type o) "converge_in_category_first").
  { repeat match goal with
           | |- context [match ?r with inl _ => _ | inr _ => _ end] =>
               destruct r; simpl; try exact I
           end. reflexivity. }
  destruct (streq (item_fit_type o) "converge_out_category_first").
  { repeat match goal with
           | |- context [match ?r with inl _ => _ | inr _ => _ end] =>
               destruct r; simpl; try exact I
           end. reflexivity. }
  reflexivity.
Qed.

Lemma items_part_old_pll_h X rows cols o i l :
  hoare (fun _ : W => True) (items_part np X rows cols o i l)
        (fun l1 _ => old_pll l1 = old_pll l) (fun _ _ => True).
Proof.
  unfold items_part.
  destruct (_ && _); [now apply hoare_ret|].
  destruct (negb _).
  - eapply hoare_bind with (Mid := fun l1 _ => old_pll l1 = old_pll l).
    + destruct (_ && _ && _); [apply clamp_old_pll_h | now apply hoare_ret].
    + intros l1. eapply hoare_bind; [apply hoare_pure|].
      intros ?. now apply hoare_ret.
  - eapply hoare_bind with (Mid := fun _ _ => True).
    + intros w _. destruct (_update_items _ _ _ _ _ _ _ w); exact I.
    + intros ?. now apply hoare_ret.
Qed.

Lemma items_part_good_h X rows cols o i l (phi : Prop) :
  hoare (fun w => GW w /\ phi) (items_part np X rows cols o i l)
        (fun l1 w => (GW w /\ phi) /\ old_pll l1 = old_pll l) GE.
Proof.
  intros w Hw.
  pose proof (hoare_quiet (tol_of := tol) (min_iter_of := min_iter)
                (phi := phi) (items_part_quiet_h np X rows cols o i l)) as H1.
  pose proof (items_part_old_pll_h X rows cols o i l) as H2.
  specialize (H1 w Hw). specialize (H2 w I).
  destruct (items_part np X rows cols o i l w); simpl in *;
    [split; assumption | assumption].
Qed.

Section Update.

Variable recur : sparse -> list Z -> list Z -> held_out -> opts -> M W unit.
Hypothesis recur_good : forall X rows cols vad o,
  hoare GW (recur X rows cols vad o) (fun _ w => GW w) GE.

Ltac gw_walk :=
  cbv beta;
  lazymatch goal with
  | |- hoare _ (bind _ _) _ _ =>
      apply hoare_bind with (Mid := fun _ w => GW w);
      [gw_walk | intro; gw_walk]
  | |- hoare _ (ret _) _ _ => apply hoare_ret; auto
  | |- hoare _ (if ?b then _ else _) _ _ => destruct b; gw_walk
  | |- hoare _ _ _ _ =>
      first [ apply recur_good
            | apply hoare_quiet_good; apply restore_quiet_h ]
  end.

Lemma converged_part_good_h X rows cols vad o i l :
  hoare GW (converged_part recur X rows cols vad o i l)
        (fun _ w => GW w) GE.
Proof. unfold converged_part. gw_walk. Qed.

Lemma iteration_good_h X rows cols vad o i l :
  hoare (fun w => GW w /\ (i = 0%Z -> old_pll l = neg_infinity))
        (iteration np recur X rows cols vad o i l)
        (fun _ w => GW w) GE.
Proof.
  intros w [Hw Hi]. unfold iteration. unfold bind at 1.
  pose proof (hoare_quiet_good (tol_of := tol) (min_iter_of := min_iter)
                (_update_users_quiet_h np X rows cols (beta o) false)) as H1.
  specialize (H1 w Hw).
  destruct (_update_users np X rows cols (beta o) false w) as [[] w1|e w1];
    [|exact H1].
  unfold bind at 1.
  pose proof (items_part_good_h X rows cols o i l (phi := True)) as H2.
  specialize (H2 w1 (conj H1 I)).
  destruct (items_part np X rows cols o i l w1) as [l1 w2|e w2]; [|exact H2].
  destruct H2 as [[Hw2 _] Hold]. unfold bind at 1.
  pose proof (hoare_quiet_good (tol_of := tol) (min_iter_of := min_iter)
                (pred_loglikeli_quiet_h np vad)) as H3.
  specialize (H3 w2 Hw2).
  destruct (pred_loglikeli np vad w2) as [p w3|e w3]; [|exact H3].
  destruct H3 as [Hg3 Hs3].
  assert (Hgood : Good tol min_iter
                    ((LEval (update o) i (old_pll l1) p, self w3) :: trace w3)).
  { apply good_eval; auto. rewrite Hold. exact Hi. }
  cbv beta iota delta [bind observe modify getattr gets raise ret].
  destruct (is_nan p) eqn:Hn; cbv beta; cbn [self trace].
  { split; [exact Hgood|]. right. simpl. now split. }
  destruct (tol_stop (tol (self w3)) (min_iter (self w3)) i p (old_pll l1))
    eqn:Ht; cbv beta; cbn [self trace].
  - pose proof (converged_part_good_h X rows cols vad o i l1) as H4.
    match goal with
    | |- context [converged_part _ _ _ _ _ _ _ _ ?w4] =>
        specialize (H4 w4); destruct (converged_part _ _ _ _ _ _ _ _ w4)
    end.
    + apply H4. split; [|exact I]. now apply good_stop.
    + apply H4. split; [|exact I]. now apply good_stop.
  - split; [exact Hgood|]. simpl. now split.
Qed.

Lemma _update_body_good_h X rows cols vad o :
  hoare GW (_update_body np recur X rows cols vad o) (fun _ w => GW w) GE.
Proof.
  unfold _update_body.
  apply hoare_bind with (Mid := fun n w => GW w).
  { apply hoare_quiet_good. steps_walk quiet_side. }
  intros n.
  apply hoare_bind with (Mid := fun _ w => GW w);
    [|intros l; apply hoare_ret; auto].
  pose (J := fun (rem : list Z) (l : locals) (w : W) =>
              GW w /\ exists k m, rem = map Z.of_nat (seq k m)
                                  /\ (k = 0%nat -> old_pll l = neg_infinity)).
  apply hoare_conseq with (P' := J (xrange n) init_locals)
                          (Q' := fun _ w => GW w) (E' := GE); auto.
  - apply hoare_for_each with (J := J); [|intros l w [Hw _]; exact Hw].
    intros i rest l w [Hw [k [m [Hrem Hk]]]].
    destruct m as [|m]; [discriminate|].
    simpl in Hrem. injection Hrem as Hi Hrest.
    pose proof (@iteration_good_h X rows cols vad o i l) as Hit.
    specialize (Hit w). cbv beta in Hit.
    destruct (iteration np recur X rows cols vad o i l w) as [[l' brk] w'|e w'].
    + assert (Hw' : GW w') by (apply Hit; split; [exact Hw | intros; apply Hk; lia]).
      simpl. destruct brk; [exact Hw'|].
      split; [exact Hw'|]. exists (S k), m. split; [exact Hrest | discriminate].
    + apply Hit. split; [exact Hw | intros; apply Hk; lia].
  - intros w Hw. split; [exact Hw|].
    exists 0%nat, (Z.to_nat n). split; [reflexivity | reflexivity].
Qed.

End Update.

Lemma _update_leaf_good_h X rows cols vad o :
  hoare GW (_update_leaf np X rows cols vad o) (fun _ w => GW w) GE.
Proof.
  apply _update_body_good_h. intros ? ? ? ? ? w [Hg Hs].
  split; [exact Hg | now left].
Qed.

Lemma _update_good_h X rows cols vad o :
  hoare GW (_update np X rows cols vad o) (fun _ w => GW w) GE.
Proof. apply _update_body_good_h. apply _update_leaf_good_h. Qed.

Lemma fit_good_h X rows cols vad beta theta cw ift z :
  hoare GW (fit np X rows cols vad beta theta cw ift z)
        (fun _ w => GW w) GE.
Proof.
  unfold fit. cbv zeta.
  apply hoare_bind with (Mid := fun _ w => GW w).
  { apply hoare_quiet_good. apply _init_items_quiet_h. }
  intros ?. apply hoare_bind with (Mid := fun _ w => GW w).
  { apply hoare_quiet_good. apply _init_users_quiet_h. }
  intros ?. apply _update_good_h.
Qed.

End WithNumpy.

End HPMF_record.

(** ** Reading a good record *)

Section Reading.

Context {Obj : Type}.
Variable tol_of : Obj -> float.
Variable min_iter_of : Obj -> Z.


Lemma good_nan_newest (newer older : list (label * Obj)) (ev : label * Obj) :
  Good tol_of min_iter_of (newer ++ ev :: older) ->
  nan_eval (fst ev) = true -> newer = [].
Proof.
  destruct newer as [|n newer]; [reflexivity|]. intros Hg Hn. exfalso.
  revert n Hg. induction newer as [|n' newer IH]; intros n Hg.
  - simpl in Hg. destruct Hg as [Hf _].
    destruct ev as [[ | | u i old p | | | ] o]; simpl in Hn; try discriminate.
    simpl in Hf. now rewrite Hn in Hf.
  - apply (IH n'). simpl in Hg. apply Hg.
Qed.

Lemma good_nan_aborts {A} (r : outcome (world Obj) A) :
  match r with
  | Ok _ w => GoodW tol_of min_iter_of w
  | Raise e w => GoodE tol_of min_iter_of e w
  end -> nan_aborts r.
Proof.
  destruct r as [a w|e w]; simpl.
  - intros [Hg Hs]. apply Forall_forall. intros ev Hin.
    destruct (nan_eval (fst ev)) eqn:Hn; [|reflexivity]. exfalso.
    apply in_split in Hin as [newer [older E]]. rewrite E in Hg, Hs.
    pose proof (good_nan_newest _ _ _ Hg Hn) as ->. simpl in Hs.
    destruct ev as [[ | | u i old p | | | ] o]; simpl in Hn; try discriminate.
    destruct Hs as [Hs _]. congruence.
  - intros [Hg Hs] newer ev older E Hn. rewrite E in Hg, Hs.
    pose proof (good_nan_newest _ _ _ Hg Hn) as ->. split; [reflexivity|].
    destruct Hs as [Hs|[_ He]]; [|exact He]. exfalso. simpl in Hs.
    destruct ev as [[ | | u i old p | | | ] o]; simpl in Hn; try discriminate.
    destruct Hs as [Hs _]. congruence.
Qed.

End Reading.

(** ** C1: a NaN evaluation aborts the fit *)

Lemma good_empty {Obj} (tol_of : Obj -> float) (min_iter_of : Obj -> Z)
    (o : Obj) :
  GoodW tol_of min_iter_of {| self := o; trace := [] |}.
Proof. split; exact I. Qed.

(** C1, as the code has it: when the held-out log-likelihood computed in an
    iteration is a NaN, [_update] and [fit] raise
    [Exception('nan in predictive ll')] at once, in both variants and under
    every policy: the NaN evaluation is the last entry of the record, and a
    run that returns has evaluated no NaN.  (The test is [np.isnan]; an
    infinite value is not caught.) *)
Theorem nan_evaluation_aborts (np : numpy) :
  (forall obj X rows cols vad o,
      nan_aborts (PMF._update np X rows cols vad o
                              {| self := obj; trace := [] |}))
  /\ (forall obj X rows cols vad beta theta cw ift uft z,
        nan_aborts (PMF.fit np X rows cols vad beta theta cw ift uft z
                            {| self := obj; trace := [] |}))
  /\ (forall obj X rows cols vad o,
        nan_aborts (HPMF._update np X rows cols vad o
                                 {| self := obj; trace := [] |}))
  /\ (forall obj X rows cols vad beta theta cw ift z,
        nan_aborts (HPMF.fit np X rows cols vad beta theta cw ift z
                             {| self := obj; trace := [] |})).
Proof.
  repeat split; intros.
  - apply (good_nan_aborts PMF.tol PMF.min_iter).
    pose proof (PMF_record._update_good np X rows cols vad o) as H.
    specialize (H _ (good_empty PMF.tol PMF.min_iter obj)).
    destruct (PMF._update _ _ _ _ _ _ _); exact H.
  - apply (good_nan_aborts PMF.tol PMF.min_iter).
    pose proof (PMF_record.fit_good np X rows cols vad beta theta cw ift uft z)
      as H.
    specialize (H _ (good_empty PMF.tol PMF.min_iter obj)).
    destruct (PMF.fit _ _ _ _ _ _ _ _ _ _ _ _); exact H.
  - apply (good_nan_aborts HPMF.tol HPMF.min_iter).
    pose proof (HPMF_record._update_good_h np X rows cols vad o) as H.
    specialize (H _ (good_empty HPMF.tol HPMF.min_iter obj)).
    destruct (HPMF._update _ _ _ _ _ _ _); exact H.
  - apply (good_nan_aborts HPMF.tol HPMF.min_iter).
    pose proof (HPMF_record.fit_good_h np X rows cols vad beta theta cw ift z)
      as H.
    specialize (H _ (good_empty HPMF.tol HPMF.min_iter obj)).
    destruct (HPMF.fit _ _ _ _ _ _ _ _ _ _ _); exact H.
Qed.

(** An item without attributes and a held-out count for it: the prediction
    is [0], its logarithm [-inf], and the held-out log-likelihood [-inf] in
    every iteration.  [np.isnan(-inf)] is false, the improvement is a NaN,
    and the loop runs on to [max_iter] and returns. *)
Lemma infinite_likelihood_does_not_abort :
  exists w',
    HPMF.fit Ref.np Ex.X0 Ex.rows0 Ex.cols0 Ex.vad0 (Some Ex.beta0) None
             false "default" false (Ex.hpmf 3) = Ok tt w'
    /\ Ex.labels w'
       = [LEval "default" 2 neg_infinity neg_infinity; LUsers;
          LEval "default" 1 neg_infinity neg_infinity; LUsers;
          LEval "default" 0 neg_infinity neg_infinity; LUsers].
Proof.
  eexists. split; [vm_compute; reflexivity | vm_compute; reflexivity].
Qed.

(** No held-out triple at all: the mean of nothing is a NaN and the first
    evaluation aborts the fit. *)
Example nan_likelihood_aborts :
  exists w',
    PMF.fit Ref.np Ex.X Ex.rows Ex.cols
            {| X_new := []; rows_new := []; cols_new := [] |}
            None None false "default" "default" false (Ex.pmf 3)
    = Raise nan_error w'
    /\ Ex.labels w' = [LEval "default" 0 neg_infinity nan;
                       LItems "default"; LUsers].
Proof.
  eexists. split; [vm_compute; reflexivity | vm_compute; reflexivity].
Qed.

(** ** Whose evaluations a run records *)

Section Tags.

Context {Obj : Type}.

Lemma evals_app (u : string) (new old : list (label * Obj)) :
  evals u (new ++ old) = evals u new ++ evals u old.
Proof. unfold evals. apply flat_map_app. Qed.

#[export] Instance tagged_pre (u : string) : Pre (@tagged Obj u).
Proof.
  split.
  - intros w. exists []. split; [reflexivity | constructor].
  - intros w1 w2 w3 [n1 [E1 F1]] [n2 [E2 F2]]. exists (n2 ++ n1). split.
    + now rewrite E2, E1, app_assoc.
    + apply Forall_app. split; assumption.
Qed.

#[export] Instance same_evals_pre (u : string) : Pre (@same_evals Obj u).
Proof.
  split.
  - intros w. exists []. split; reflexivity.
  - intros w1 w2 w3 [n1 [E1 F1]] [n2 [E2 F2]]. exists (n2 ++ n1). split.
    + now rewrite E2, E1, app_assoc.
    + now rewrite evals_app, F1, F2.
Qed.

Lemma steps_weaken {A} (R R' : world Obj -> world Obj -> Prop)
    (c : M (world Obj) A) :
  (forall w w', R w w' -> R' w w') -> steps R c -> steps R' c.
Proof. intros HR Hc w. apply HR, Hc. Qed.

Lemma quiet_tagged (u : string) (w w' : world Obj) :
  quiet w w' -> tagged u w w'.
Proof.
  intros [new [E F]]. exists new. split; [exact E|].
  eapply Forall_impl; [|exact F]. intros [l o] Hl. simpl in *.
  destruct l; try discriminate; exact I.
Qed.

Lemma quiet_same_evals (u : string) (w w' : world Obj) :
  quiet w w' -> same_evals u w w'.
Proof.
  intros [new [E F]]. exists new. split; [exact E|]. clear E.
  induction F as [|[l o] new Hl _ IH]; [reflexivity|].
  simpl in *. destruct l; try discriminate; exact IH.
Qed.

Lemma tagged_same_evals (u u' : string) (w w' : world Obj) :
  streq u' u = false -> tagged u' w w' -> same_evals u w w'.
Proof.
  intros Hu [new [E F]]. exists new. split; [exact E|]. clear E.
  induction F as [|[l o] new Hl _ IH]; [reflexivity|].
  simpl in *. destruct l; try exact IH. simpl in Hl. subst.
  now rewrite Hu.
Qed.

Lemma tagged_setattr (u : string) (f : Obj -> Obj) (w : world Obj) :
  tagged u w {| self := f (self w); trace := trace w |}.
Proof. exists []. split; [reflexivity | constructor]. Qed.

Lemma tagged_observe (u : string) (l : label) (w : world Obj) :
  tag_is u l ->
  tagged u w {| self := self w; trace := (l, self w) :: trace w |}.
Proof.
  intros Hl. exists [(l, self w)]. split; [reflexivity | now repeat constructor].
Qed.

Lemma steps_quiet_tagged {A} (u : string) (c : M (world Obj) A) :
  steps quiet c -> steps (tagged u) c.
Proof. apply steps_weaken. apply quiet_tagged. Qed.

Lemma steps_quiet_same_evals {A} (u : string) (c : M (world Obj) A) :
  steps quiet c -> steps (same_evals u) c.
Proof. apply steps_weaken. apply quiet_same_evals. Qed.

End Tags.

Ltac tagged_side :=
  intro;
  first [ apply tagged_setattr
        | apply tagged_observe; first [exact I | reflexivity] ].

#[export] Hint Resolve
  PMF_quiet.users_part_quiet PMF_quiet.items_part_quiet
  PMF_quiet.pred_loglikeli_quiet PMF_quiet.restore_quiet
  HPMF_quiet._update_users_quiet_h HPMF_quiet.items_part_quiet_h
  HPMF_quiet.pred_loglikeli_quiet_h HPMF_quiet.restore_quiet_h : steps.
#[export] Hint Resolve steps_quiet_tagged steps_quiet_same_evals : steps.


Lemma other_tag (u : string) (u' : string) :
  streq u "default" = true -> streq u' "default" = false ->
  streq u' u = false.
Proof.
  unfold streq. intros Hu Hu'. apply String.eqb_eq in Hu. now subst.
Qed.

(** ** PoissonMF: the iterations of one loop *)

Module PMF_bound.
Import PMF.

Section WithNumpy.

Variable np : numpy.

Lemma iteration_leaf_tagged X rows cols vad o i l :
  steps (tagged (update o))
        (iteration np (fun _ _ _ _ _ =>
                         raise (Exception "recursion below the second level"))
                   X rows cols vad o i l).
Proof. unfold iteration, converged_part. steps_walk tagged_side. Qed.

Lemma _update_leaf_tagged X rows cols vad o :
  steps (tagged (update o)) (_update_leaf np X rows cols vad o).
Proof.
  unfold _update_leaf, _update_body, local.
  pose proof iteration_leaf_tagged as Hit.
  steps_walk tagged_side.
Qed.

Section Update.

Variable recur :
  sparse -> list Z -> list Z -> held_out -> opts -> M W (float * best).
Hypothesis recur_tagged : forall X rows cols vad o,
  steps (tagged (update o)) (recur X rows cols vad o).

Lemma recur_same_evals X rows cols vad o u :
  streq (update o) "default" = true -> streq u "default" = false ->
  steps (same_evals (update o)) (recur X rows cols vad (second_phase o u)).
Proof.
  intros Hu Hu'. eapply steps_weaken; [|apply recur_tagged].
  intros w w'. apply tagged_same_evals. simpl. now apply other_tag.
Qed.

Lemma converged_part_same_evals X rows cols vad o i l :
  steps (same_evals (update o))
        (converged_part recur X rows cols vad o i l).
Proof.
  unfold converged_part.
  destruct (streq (update o) "default") eqn:Hu; simpl andb;
    [|apply steps_ret; exact _].
  pose proof (recur_same_evals X rows cols vad o "out_category" Hu eq_refl).
  pose proof (recur_same_evals X rows cols vad o "in_category" Hu eq_refl).
  steps_walk ltac:(idtac).
Qed.



End Update.


End WithNumpy.

End PMF_bound.

(** ** HPoissonMF: the iterations of one loop *)

Module HPMF_bound.
Import HPMF.

Section WithNumpy.

Variable np : numpy.



Section Update.

Variable recur :
  sparse -> list Z -> list Z -> held_out -> opts -> M W unit.
Hypothesis recur_tagged : forall X rows cols vad o,
  steps (tagged (update o)) (recur X rows cols vad o).





End Update.


End WithNumpy.

End HPMF_bound.

(** ** C2: the tolerance stop and the iteration cap *)

Section Stop_rule.

Context {Obj : Type}.
Variable tol_of : Obj -> float.
Variable min_iter_of : Obj -> Z.



End Stop_rule.


Lemma fit_converge_separately_needs_theta_witness :
  exists w',
    PMF.fit Ref.np Ex.X Ex.rows Ex.cols Ex.vad None None false "default"
            "converge_separately" false (Ex.pmf 50)
    = Raise (NameError "observed_user_preferences") w'
    /\ trace w' = [].
Proof.
  destruct (@PMF_facts.fit_converge_separately_needs_theta Ref.np
              Ex.X Ex.rows Ex.cols Ex.vad None false "default" false
              (Ex.pmf 50)) as [H _].
  - reflexivity.
  - exact H.
Defined.

(** ** C3: which matrix the reconstruction ratio is computed from *)

Module PMF_fixed_beta.
Import PMF.

Section WithNumpy.

Variable np : numpy.

Lemma _init_users_frame (n : nat) (w : W) :
  exists o',
    _init_users np n None w = Ok tt {| self := o'; trace := trace w |}
    /\ Eb o' = Eb (self w) /\ Elogb o' = Elogb (self w)
    /\ gamma_b o' = gamma_b (self w) /\ rho_b o' = rho_b (self w)
    /\ max_iter o' = max_iter (self w).
Proof.
  unfold _init_users, draw.
  destruct (compute_expectations_samples np
    (fun i => (smoothness (self w)
               * random_gamma np (rng (self w)) (smoothness (self w))
                   (1 / smoothness (self w)) i)%float)
    (fun i => (smoothness (self w)
               * random_gamma np (S (rng (self w))) (smoothness (self w))
                   (1 / smoothness (self w)) i)%float)
    (n_components (self w)) n) as [e He].
  msimpl. unfold lift. rewrite He. msimpl.
  eexists. repeat split; reflexivity.
Qed.

(** With a fixed [beta], [_update_users] asks [_xexplog] for the ratio
    without [observed_item_attributes], so [_xexplog] takes the branch
    that exponentiates [Elogb], which is [None]. *)
Lemma _update_users_fixed_beta X rows cols bm theta oia ou (w : W) :
  Elogb (self w) = None ->
  _update_users np X rows cols (Some bm) theta false oia ou w
  = Raise (TypeError "exp") w.
Proof.
  intros H. unfold _update_users, _xexplog. msimpl. unfold lift, exp, ufunc.
  rewrite H. reflexivity.
Qed.

(** The failing input of C3: [PoissonMF.fit] with an observed [beta] and
    the default policies raises in its first user update; the kernel is
    never applied to [Eb]. *)
Theorem pmf_fit_fixed_beta_raises X rows cols vad bm ift z (w : W) :
  (0 < max_iter (self w))%Z ->
  exists w',
    fit np X rows cols vad (Some bm) None false ift "default" z w
    = Raise (TypeError "exp") w'
    /\ Eb (self w') = Some (Mat bm) /\ trace w' = trace w.
Proof.
  intros Hmax. unfold fit. cbv zeta.
  unfold bind at 1, setattr at 1, modify at 1.
  unfold bind at 1. unfold _init_items at 1.
  cbv beta iota delta [bind setattr modify]. cbn [self trace].
  match goal with
  | |- context [_init_users np ?n None ?w1] =>
      destruct (_init_users_frame n w1) as [o3 [E3 [HEb [HEl [_ [_ Hmi]]]]]];
      rewrite E3
  end.
  cbn [self trace] in *. simpl in HEb, HEl, Hmi.
  replace (negb (streq "default" "default")) with false by reflexivity.
  cbv iota.
  destruct (@PMF_facts.xrange_pos (max_iter o3)) as [rest Hx];
    [rewrite Hmi; exact Hmax|].
  exists {| self := o3; trace := trace w |}.
  split; [|split; [exact HEb | reflexivity]].
  unfold _update, _update_body.
  unfold bind at 1, getattr at 1, gets at 1. cbn [self].
  rewrite Hx. unfold for_each. unfold bind at 1, bind at 1.
  unfold iteration. unfold bind at 1, bind at 1.
  unfold users_part.
  cbn [only_update observed_user_preferences update beta theta is_str
       orb andb].
  rewrite _update_users_fixed_beta by exact HEl. reflexivity.
Qed.

End WithNumpy.

End PMF_fixed_beta.

Lemma pmf_fit_fixed_beta_raises_witness :
  exists w',
    PMF.fit Ref.np Ex.X Ex.rows Ex.cols Ex.vad (Some Ex.mask) None false
            "default" "default" false (Ex.pmf 50)
    = Raise (TypeError "exp") w'.
Proof.
  destruct (@PMF_fixed_beta.pmf_fit_fixed_beta_raises Ref.np
              Ex.X Ex.rows Ex.cols Ex.vad Ex.mask "default" false (Ex.pmf 50))
    as [w' [E _]].
  - reflexivity.
  - exists w'. exact E.
Defined.

(** The sibling: [HPoissonMF._xexplog] with a fixed [beta] applies the
    kernel to [Eb] and [exp(Elogt)]. *)
Lemma hpmf_xexplog_fixed_beta (np : numpy) rows cols bm (w : HPMF.W) :
  HPMF._xexplog np rows cols (Some bm) w
  = lift (t <~ exp np (HPMF.Elogt (self w)) ;;
          _inner (HPMF.Eb (self w)) (Some t) rows cols)%monad w.
Proof.
  unfold HPMF._xexplog. msimpl. unfold lift.
  destruct (exp np (HPMF.Elogt (self w))); reflexivity.
Qed.

(** ** Masked assignment *)

Section Masks.

Lemma fill_row_length (r : vec) (kr : list bool) (v : vec) :
  List.length r = List.length kr ->
  List.length (fst (fill_row r kr v)) = List.length r.
Proof.
  revert kr v. induction r as [|x r IH]; intros [|b kr] v H; simpl in *;
    try lia.
  destruct b; [destruct v as [|y v]|];
    match goal with
    | |- context [fill_row r kr ?v'] =>
        specialize (IH kr v' ltac:(lia)); destruct (fill_row r kr v')
    end; simpl in *; lia.
Qed.

Lemma fill_row_outside (r : vec) (kr : list bool) (v : vec) (j : nat) :
  List.length r = List.length kr -> nth j kr false = false ->
  nth j (fst (fill_row r kr v)) 0%float = nth j r 0%float.
Proof.
  revert kr v j. induction r as [|x r IH]; intros [|b kr] v j H Hj;
    simpl in *; try lia; [reflexivity|].
  destruct b; [destruct v as [|y v]|];
    match goal with
    | |- context [fill_row r kr ?v'] =>
        pose proof (IH kr v') as IH'; destruct (fill_row r kr v')
    end; simpl in *; destruct j as [|j]; try reflexivity; try discriminate;
    apply IH'; auto; lia.
Qed.

Lemma fill_outside (m : mat) (k : Np.mask) (v : vec) (i j : nat) :
  same_len2 m k = true -> mask_at k i j = false ->
  entry (fill m k v) i j = entry m i j.
Proof.
  unfold entry, mask_at.
  revert k v i. induction m as [|r m IH]; intros [|kr k] v i H Hk;
    simpl in *; try discriminate; [reflexivity|].
  apply andb_true_iff in H as [H1 H2]. apply Nat.eqb_eq in H1.
  pose proof (fill_row_outside r kr v) as Hrow.
  destruct (fill_row r kr v) as [row rest]. simpl in *.
  destruct i as [|i]; [now apply Hrow | now apply IH].
Qed.

Lemma fill_same_len2 (m : mat) (k : Np.mask) (v : vec) :
  same_len2 m k = true -> same_len2 (fill m k v) k = true.
Proof.
  revert k v. induction m as [|r m IH]; intros [|kr k] v H;
    simpl in *; try discriminate; [reflexivity|].
  apply andb_true_iff in H as [H1 H2]. apply Nat.eqb_eq in H1.
  pose proof (fill_row_length r kr v H1) as Hlen.
  destruct (fill_row r kr v) as [row rest]. simpl in *.
  rewrite (IH k rest H2), andb_true_r. apply Nat.eqb_eq. lia.
Qed.

Lemma scalar_fill_outside (m : mat) (k : Np.mask) (x : float) (i j : nat) :
  same_len2 m k = true -> mask_at k i j = false ->
  entry (map2 (map2 (fun y (b : bool) => if b then x else y)) m k) i j
  = entry m i j.
Proof.
  unfold entry, mask_at.
  revert k i. induction m as [|r m IH]; intros [|kr k] i H Hk;
    simpl in *; try discriminate; [reflexivity|].
  apply andb_true_iff in H as [H1 H2]. apply Nat.eqb_eq in H1.
  destruct i as [|i]; [|now apply IH].
  clear IH H2. revert kr j H1 Hk.
  induction r as [|y r IHr]; intros [|b kr] j H1 Hk; simpl in *; try lia;
    [reflexivity|].
  destruct j as [|j]; [now subst b | apply IHr; auto; lia].
Qed.

Lemma scalar_fill_inside (m : mat) (k : Np.mask) (x : float) (i j : nat) :
  same_len2 m k = true -> mask_at k i j = true ->
  entry (map2 (map2 (fun y (b : bool) => if b then x else y)) m k) i j = x.
Proof.
  unfold entry, mask_at.
  revert k i. induction m as [|r m IH]; intros [|kr k] i H Hk;
    simpl in *; try discriminate.
  - destruct i, j; discriminate.
  - apply andb_true_iff in H as [H1 H2]. apply Nat.eqb_eq in H1.
    destruct i as [|i]; [|now apply IH].
    clear IH H2. revert kr j H1 Hk.
    induction r as [|y r IHr]; intros [|b kr] j H1 Hk; simpl in *; try lia.
    + destruct j; discriminate.
    + destruct j as [|j]; [now subst b | apply IHr; auto; lia].
Qed.

Lemma scalar_fill_same_len2 (m : mat) (k : Np.mask) (x : float) :
  same_len2 m k = true ->
  same_len2 (map2 (map2 (fun y (b : bool) => if b then x else y)) m k) k
  = true.
Proof.
  revert k. induction m as [|r m IH]; intros [|kr k] H;
    simpl in *; try discriminate; [reflexivity|].
  apply andb_true_iff in H as [H1 H2]. apply Nat.eqb_eq in H1.
  rewrite (IH k H2), andb_true_r. apply Nat.eqb_eq.
  rewrite length_map2; lia.
Qed.

(** Whatever [a[k] = v] writes, it writes inside the mask. *)
Lemma assign_vec_outside (m : mat) (k : Np.mask) (v : vec) (a : ndarray) :
  assign_vec (Some (Mat m)) k v = inr a ->
  exists m', a = Mat m' /\ same_len2 m' k = true
             /\ forall i j, mask_at k i j = false ->
                            entry m' i j = entry m i j.
Proof.
  unfold assign_vec. destruct (same_len2 m k) eqn:Hs; [|discriminate].
  destruct (Nat.eqb _ _).
  - intros [= <-]. eexists. split; [reflexivity|].
    split; [now apply fill_same_len2 | intros; now apply fill_outside].
  - destruct v as [|x [|? ?]]; try discriminate. intros [= <-].
    eexists. split; [reflexivity|].
    split; [now apply scalar_fill_same_len2
           | intros; now apply scalar_fill_outside].
Qed.

Lemma assign_scalar_spec (m : mat) (k : Np.mask) (x : float) (a : ndarray) :
  assign_scalar (Some (Mat m)) k x = inr a ->
  exists m', a = Mat m' /\ same_len2 m' k = true
             /\ (forall i j, mask_at k i j = false ->
                             entry m' i j = entry m i j)
             /\ (forall i j, mask_at k i j = true -> entry m' i j = x).
Proof.
  unfold assign_scalar. destruct (same_len2 m k) eqn:Hs; [|discriminate].
  intros [= <-]. eexists. split; [reflexivity|].
  split; [now apply scalar_fill_same_len2|].
  split; intros; [now apply scalar_fill_outside | now apply scalar_fill_inside].
Qed.

End Masks.

Section Masks_inside.

Lemma count_true_cons (kr : list bool) (k : Np.mask) :
  count_true (kr :: k)
  = (List.length (filter (fun b : bool => b) kr) + count_true k)%nat.
Proof. unfold count_true. simpl. now rewrite filter_app, length_app. Qed.

Lemma select_row_length (r : vec) (kr : list bool) :
  List.length r = List.length kr ->
  List.length (select_row r kr)
  = List.length (filter (fun b : bool => b) kr).
Proof.
  revert kr. induction r as [|x r IH]; intros [|b kr] H; simpl in *; try lia.
  destruct b; simpl; rewrite IH; lia.
Qed.

Lemma select_length (u : mat) (k : Np.mask) :
  same_len2 u k = true ->
  List.length (List.concat (map2 select_row u k)) = count_true k.
Proof.
  revert k. induction u as [|r u IH]; intros [|kr k] H; simpl in *;
    try discriminate; [reflexivity|].
  apply andb_true_iff in H as [H1 H2]. apply Nat.eqb_eq in H1.
  rewrite length_app, count_true_cons, (IH k H2), select_row_length; auto.
Qed.

Lemma fill_row_select (r : vec) (kr : list bool) (ur rest : vec) :
  List.length r = List.length kr -> List.length ur = List.length kr ->
  fill_row r kr (select_row ur kr ++ rest) = (merge_row r kr ur, rest).
Proof.
  revert kr ur. induction r as [|x r IH]; intros [|b kr] [|y ur] H1 H2;
    simpl in *; try lia; [reflexivity|].
  destruct b; simpl; rewrite IH by lia; reflexivity.
Qed.

Lemma fill_select (m : mat) (k : Np.mask) (u : mat) :
  same_len2 m k = true -> same_len2 u k = true ->
  fill m k (List.concat (map2 select_row u k)) = merge m k u.
Proof.
  revert k u. induction m as [|r m IH]; intros [|kr k] [|ur u] Hm Hu;
    simpl in *; try discriminate; try reflexivity.
  apply andb_true_iff in Hm as [Hm1 Hm2]. apply Nat.eqb_eq in Hm1.
  apply andb_true_iff in Hu as [Hu1 Hu2]. apply Nat.eqb_eq in Hu1.
  rewrite fill_row_select by assumption. now rewrite IH.
Qed.

Lemma merge_inside (m : mat) (k : Np.mask) (u : mat) (i j : nat) :
  same_len2 m k = true -> same_len2 u k = true ->
  mask_at k i j = true -> entry (merge m k u) i j = entry u i j.
Proof.
  unfold entry, mask_at.
  revert k u i. induction m as [|r m IH]; intros [|kr k] [|ur u] i Hm Hu Hk;
    simpl in *; try discriminate.
  - destruct i, j; discriminate.
  - apply andb_true_iff in Hm as [Hm1 Hm2]. apply Nat.eqb_eq in Hm1.
    apply andb_true_iff in Hu as [Hu1 Hu2]. apply Nat.eqb_eq in Hu1.
    destruct i as [|i]; [|now apply IH].
    clear IH Hm2 Hu2. revert kr ur j Hm1 Hu1 Hk.
    induction r as [|x r IHr]; intros [|b kr] [|y ur] j Hm1 Hu1 Hk;
      simpl in *; try lia.
    + destruct j; discriminate.
    + destruct j as [|j]; [now subst b | apply IHr; auto; lia].
Qed.

Lemma select_inv (u : mat) (k : Np.mask) (v : vec) :
  select (Some (Mat u)) k = inr v ->
  same_len2 u k = true /\ v = List.concat (map2 select_row u k).
Proof.
  unfold select. destruct (same_len2 u k); [|discriminate].
  intros [= <-]. now split.
Qed.

(** [a[k] = u[k]] writes the entries of [u] inside the mask. *)
Lemma assign_select_inside (m u : mat) (k : Np.mask) (v : vec)
    (a : ndarray) :
  select (Some (Mat u)) k = inr v ->
  assign_vec (Some (Mat m)) k v = inr a ->
  exists m', a = Mat m'
             /\ forall i j, mask_at k i j = true ->
                            entry m' i j = entry u i j.
Proof.
  intros Hsel Has. apply select_inv in Hsel as [Hu ->].
  unfold assign_vec in Has. destruct (same_len2 m k) eqn:Hm; [|discriminate].
  rewrite (select_length _ _ Hu), Nat.eqb_refl in Has.
  injection Has as <-. rewrite fill_select by assumption.
  eexists. split; [reflexivity|]. intros. now apply merge_inside.
Qed.

End Masks_inside.

#[export] Instance eq_pre {S} : Pre (@eq S).
Proof. split; [reflexivity | intros; congruence]. Qed.

Lemma same_outside_refl (k : Np.mask) (m : mat) : same_outside k m m.
Proof. intros i j _. reflexivity. Qed.

Lemma same_outside_trans (k : Np.mask) (m1 m2 m3 : mat) :
  same_outside k m1 m2 -> same_outside k m2 m3 -> same_outside k m1 m3.
Proof. intros H1 H2 i j Hk. now rewrite H2, H1. Qed.

Arguments select : simpl never.
Arguments assign_vec : simpl never.
Arguments assign_scalar : simpl never.

(** ** C5: the masked item update *)

Module PMF_mask.
Import PMF.

Section WithNumpy.

Variable np : numpy.

Lemma _xexplog_reads rows cols beta oia oup :
  steps eq (_xexplog np rows cols beta oia oup).
Proof. unfold _xexplog. steps_walk ltac:(idtac). Qed.

(** The two masked assignments. *)
Lemma assign_masked_spec (k : Np.mask) (gu ru : ndarray) (w : W) (g r : mat) :
  gamma_b (self w) = Some (Mat g) -> rho_b (self w) = Some (Mat r) ->
  exists g' r',
    gamma_b (self (state_of (assign_masked k gu ru w))) = Some (Mat g')
    /\ rho_b (self (state_of (assign_masked k gu ru w))) = Some (Mat r')
    /\ same_outside k g g' /\ same_outside k r r'
    /\ trace (state_of (assign_masked k gu ru w)) = trace w
    /\ forall w', assign_masked k gu ru w = Ok tt w' ->
         exists gum rum, gu = Mat gum /\ ru = Mat rum
                         /\ same_inside k gum g' /\ same_inside k rum r'.
Proof.
  intros Hg Hr. unfold assign_masked.
  cbv beta iota delta [bind getattr gets lift setattr modify].
  destruct (select (Some gu) k) as [e|gv] eqn:Hsg; simpl.
  { exists g, r. repeat split; auto using same_outside_refl;
      try (intros ? HH; discriminate HH). }
  rewrite Hg. destruct (assign_vec (Some (Mat g)) k gv) as [e|a] eqn:Hag; simpl.
  { exists g, r. repeat split; auto using same_outside_refl;
      try (intros ? HH; discriminate HH). }
  destruct (@assign_vec_outside _ _ _ _ Hag) as [g' [-> [Hsh Hout]]].
  destruct (select (Some ru) k) as [e|rv] eqn:Hsr; simpl.
  { exists g', r. repeat split; auto using same_outside_refl;
      try (intros ? HH; discriminate HH). }
  rewrite Hr. destruct (assign_vec (Some (Mat r)) k rv) as [e|b] eqn:Har; simpl.
  { exists g', r. repeat split; auto using same_outside_refl;
      try (intros ? HH; discriminate HH). }
  destruct (@assign_vec_outside _ _ _ _ Har) as [r' [-> [Hsh' Hout']]].
  exists g', r'. repeat split; auto.
  intros w' _.
  destruct gu as [x|v|gum]; try discriminate.
  destruct ru as [x|v|rum]; try discriminate.
  exists gum, rum. repeat split.
  - destruct (@assign_select_inside _ _ _ _ _ Hsg Hag) as [m' [[= <-] H]]. exact H.
  - destruct (@assign_select_inside _ _ _ _ _ Hsr Har) as [m' [[= <-] H]]. exact H.
Qed.

Ltac frame_done :=
  repeat split; simpl; auto using same_outside_refl;
  try (intros ? HH; discriminate HH).

Lemma _update_items_masked X rows cols bm oup u (w : W) (g r : mat) :
  gamma_b (self w) = Some (Mat g) -> rho_b (self w) = Some (Mat r) ->
  u = "in_category" \/ u = "out_category" ->
  exists g' r',
    gamma_b (self (state_of
               (_update_items np X rows cols (Some bm) true oup u w)))
      = Some (Mat g')
    /\ rho_b (self (state_of
                  (_update_items np X rows cols (Some bm) true oup u w)))
        = Some (Mat r')
    /\ same_outside (selected u bm) g g'
    /\ same_outside (selected u bm) r r'
    /\ forall w',
         _update_items np X rows cols (Some bm) true oup u w = Ok tt w' ->
         exists xexplog ratio gum rum,
           _xexplog np rows cols None false oup w = Ok xexplog w
           /\ ratio_matrix X rows cols xexplog = inr ratio
           /\ gamma_b_updated np ratio oup (self w) = inr (Mat gum)
           /\ rho_b_updated_reshaped (self w) = inr (Mat rum)
           /\ same_inside (selected u bm) gum g'
           /\ same_inside (selected u bm) rum r'.
Proof.
  intros Hg Hr Hu.
  remember (_update_items np X rows cols (Some bm) true oup u w) as out
    eqn:Eout.
  unfold _update_items in Eout.
  pose proof (_xexplog_reads rows cols None false oup w) as Hx.
  unfold bind at 1 in Eout.
  destruct (_xexplog np rows cols None false oup w) as [x w1|e w1] eqn:Ex;
    simpl in Hx; subst w1.
  2: { subst out. exists g, r. frame_done. }
  cbv beta iota delta [bind getattr gets setattr modify observe lift] in Eout.
  destruct (ratio_matrix X rows cols x) as [e|ratio] eqn:Er.
  { subst out. exists g, r. frame_done. }
  replace (true && negb (streq u "default")) with true in Eout
    by (destruct Hu; subst; reflexivity).
  cbv beta iota in Eout.
  destruct (gamma_b_updated np ratio oup (self w)) as [e|gu] eqn:Eg.
  { subst out. exists g, r. frame_done. }
  destruct (rho_b_updated_reshaped (self w)) as [e|ru] eqn:Erho.
  { subst out. exists g, r. frame_done. }
  match type of Eout with
  | context [if streq u "in_category" then ?A else ?B] =>
      replace (if streq u "in_category" then A else B)
        with (assign_masked (selected u bm) gu ru) in Eout
        by (destruct Hu; subst; reflexivity)
  end.
  destruct (assign_masked_spec (selected u bm) gu ru w Hg Hr)
    as [g' [r' [Hg' [Hr' [Hog [Hor [Htr Hin]]]]]]].
  destruct (assign_masked (selected u bm) gu ru w) as [[] w2|e w2] eqn:Ea;
    simpl in Hg', Hr', Htr.
  2: { subst out. exists g', r'. frame_done. }
  destruct (_compute_expectations np (gamma_b (self w2)) (rho_b (self w2)))
    as [e|ex]; subst out; exists g', r'; frame_done.
  intros w' _. destruct (Hin w2 eq_refl) as [gum [rum [-> [-> [Hig Hir]]]]].
  exists x, ratio, gum, rum. repeat split; auto.
Qed.

End WithNumpy.

End PMF_mask.

Module HPMF_mask.
Import HPMF.

Section WithNumpy.

Variable np : numpy.

Lemma _xexplog_reads_h rows cols beta :
  steps eq (_xexplog np rows cols beta).
Proof. unfold _xexplog. steps_walk ltac:(idtac). Qed.

(** The two masked assignments. *)
Lemma assign_masked_spec_h (k : Np.mask) (gu ru : ndarray) (w : W) (g r : mat) :
  gamma_b (self w) = Some (Mat g) -> rho_b (self w) = Some (Mat r) ->
  exists g' r',
    gamma_b (self (state_of (assign_masked k gu ru w))) = Some (Mat g')
    /\ rho_b (self (state_of (assign_masked k gu ru w))) = Some (Mat r')
    /\ same_outside k g g' /\ same_outside k r r'
    /\ trace (state_of (assign_masked k gu ru w)) = trace w
    /\ forall w', assign_masked k gu ru w = Ok tt w' ->
         exists gum rum, gu = Mat gum /\ ru = Mat rum
                         /\ same_inside k gum g' /\ same_inside k rum r'.
Proof.
  intros Hg Hr. unfold assign_masked.
  cbv beta iota delta [bind getattr gets lift setattr modify].
  destruct (select (Some gu) k) as [e|gv] eqn:Hsg; simpl.
  { exists g, r. repeat split; auto using same_outside_refl;
      try (intros ? HH; discriminate HH). }
  rewrite Hg. destruct (assign_vec (Some (Mat g)) k gv) as [e|a] eqn:Hag; simpl.
  { exists g, r. repeat split; auto using same_outside_refl;
      try (intros ? HH; discriminate HH). }
  destruct (@assign_vec_outside _ _ _ _ Hag) as [g' [-> [Hsh Hout]]].
  destruct (select (Some ru) k) as [e|rv] eqn:Hsr; simpl.
  { exists g', r. repeat split; auto using same_outside_refl;
      try (intros ? HH; discriminate HH). }
  rewrite Hr. destruct (assign_vec (Some (Mat r)) k rv) as [e|b] eqn:Har; simpl.
  { exists g', r. repeat split; auto using same_outside_refl;
      try (intros ? HH; discriminate HH). }
  destruct (@assign_vec_outside _ _ _ _ Har) as [r' [-> [Hsh' Hout']]].
  exists g', r'. repeat split; auto.
  intros w' _.
  destruct gu as [x|v|gum]; try discriminate.
  destruct ru as [x|v|rum]; try discriminate.
  exists gum, rum. repeat split.
  - destruct (@assign_select_inside _ _ _ _ _ Hsg Hag) as [m' [[= <-] H]]. exact H.
  - destruct (@assign_select_inside _ _ _ _ _ Hsr Har) as [m' [[= <-] H]]. exact H.
Qed.

Ltac frame_done_h :=
  repeat split; simpl; auto using same_outside_refl;
  try (intros ? HH; discriminate HH).

Lemma _update_items_masked_h X rows cols bm u (w : W) (g r : mat) :
  gamma_b (self w) = Some (Mat g) -> rho_b (self w) = Some (Mat r) ->
  u = "in_category" \/ u = "out_category" ->
  exists g' r',
    gamma_b (self (state_of
               (_update_items np X rows cols (Some bm) true u w)))
      = Some (Mat g')
    /\ rho_b (self (state_of
                  (_update_items np X rows cols (Some bm) true u w)))
        = Some (Mat r')
    /\ same_outside (selected u bm) g g'
    /\ same_outside (selected u bm) r r'
    /\ forall w',
         _update_items np X rows cols (Some bm) true u w = Ok tt w' ->
         exists xexplog ratio gum rum,
           _xexplog np rows cols None w = Ok xexplog w
           /\ ratio_matrix X rows cols xexplog = inr ratio
           /\ gamma_b_updated np ratio (self w) = inr (Mat gum)
           /\ rho_b_updated (self w) = inr (Mat rum)
           /\ same_inside (selected u bm) gum g'
           /\ same_inside (selected u bm) rum r'.
Proof.
  intros Hg Hr Hu.
  remember (_update_items np X rows cols (Some bm) true u w) as out
    eqn:Eout.
  unfold _update_items in Eout.
  pose proof (_xexplog_reads_h rows cols None w) as Hx.
  unfold bind at 1 in Eout.
  destruct (_xexplog np rows cols None w) as [x w1|e w1] eqn:Ex;
    simpl in Hx; subst w1.
  2: { subst out. exists g, r. frame_done_h. }
  cbv beta iota delta [bind getattr gets setattr modify observe lift] in Eout.
  destruct (ratio_matrix X rows cols x) as [e|ratio] eqn:Er.
  { subst out. exists g, r. frame_done_h. }
  cbn [is_ndarray andb of_option] in Eout. cbv beta iota in Eout.
  destruct (gamma_b_updated np ratio (self w)) as [e|gu] eqn:Eg.
  { subst out. exists g, r. frame_done_h. }
  destruct (rho_b_updated (self w)) as [e|ru] eqn:Erho.
  { subst out. exists g, r. frame_done_h. }
  match type of Eout with
  | context [if streq u "in_category" then ?A else ?B] =>
      replace (if streq u "in_category" then A else B)
        with (assign_masked (selected u bm) gu ru) in Eout
        by (destruct Hu; subst; reflexivity)
  end.
  destruct (assign_masked_spec_h (selected u bm) gu ru w Hg Hr)
    as [g' [r' [Hg' [Hr' [Hog [Hor [Htr Hin]]]]]]].
  destruct (assign_masked (selected u bm) gu ru w) as [[] w2|e w2] eqn:Ea;
    simpl in Hg', Hr', Htr.
  2: { subst out. exists g', r'. frame_done_h. }
  destruct (_compute_expectations np (gamma_b (self w2)) (rho_b (self w2)))
    as [e|ex]; [subst out; exists g', r'; frame_done_h|].
  cbv beta iota in Eout.
  match type of Eout with
  | context [match ?x with inl _ => _ | inr _ => _ end] =>
      destruct x; [subst out; exists g', r'; frame_done_h|]
  end.
  cbv beta iota in Eout.
  match type of Eout with
  | context [match ?x with inl _ => _ | inr _ => _ end] =>
      destruct x; subst out; exists g', r'; frame_done_h
  end.
  intros w' _. destruct (Hin w2 eq_refl) as [gum [rum [-> [-> [Hig Hir]]]]].
  exists x, ratio, gum, rum. repeat split; auto.
Qed.

End WithNumpy.

End HPMF_mask.

(** C5: a call of the item update with [update] in
    [{in_category, out_category}] and a category mask leaves the entries of
    [gamma_b] and [rho_b] outside the selected subset as they were, whether
    it returns or raises; when it returns, the entries inside the subset
    are those of the freshly computed [gamma_b_updated] and
    [rho_b_updated] (reshaped, in PoissonMF). *)
Theorem masked_item_update (np : numpy) :
  (forall X rows cols bm oup u (w : PMF.W) (g r : mat),
      PMF.gamma_b (self w) = Some (Mat g) ->
      PMF.rho_b (self w) = Some (Mat r) ->
      u = "in_category" \/ u = "out_category" ->
      exists g' r',
        PMF.gamma_b
          (self (state_of
                   (PMF._update_items np X rows cols (Some bm) true oup u w)))
        = Some (Mat g')
        /\ PMF.rho_b
             (self (state_of
                      (PMF._update_items np X rows cols (Some bm) true oup u
                                         w)))
           = Some (Mat r')
        /\ same_outside (selected u bm) g g'
        /\ same_outside (selected u bm) r r'
        /\ forall w',
             PMF._update_items np X rows cols (Some bm) true oup u w
             = Ok tt w' ->
             exists xexplog ratio gum rum,
               PMF._xexplog np rows cols None false oup w = Ok xexplog w
               /\ PMF.ratio_matrix X rows cols xexplog = inr ratio
               /\ PMF.gamma_b_updated np ratio oup (self w) = inr (Mat gum)
               /\ PMF.rho_b_updated_reshaped (self w) = inr (Mat rum)
               /\ same_inside (selected u bm) gum g'
               /\ same_inside (selected u bm) rum r')
  /\ (forall X rows cols bm u (w : HPMF.W) (g r : mat),
        HPMF.gamma_b (self w) = Some (Mat g) ->
        HPMF.rho_b (self w) = Some (Mat r) ->
        u = "in_category" \/ u = "out_category" ->
        exists g' r',
          HPMF.gamma_b
            (self (state_of
                     (HPMF._update_items np X rows cols (Some bm) true u w)))
          = Some (Mat g')
          /\ HPMF.rho_b
               (self (state_of
                        (HPMF._update_items np X rows cols (Some bm) true u
                                            w)))
             = Some (Mat r')
          /\ same_outside (selected u bm) g g'
          /\ same_outside (selected u bm) r r'
          /\ forall w',
               HPMF._update_items np X rows cols (Some bm) true u w
               = Ok tt w' ->
               exists xexplog ratio gum rum,
                 HPMF._xexplog np rows cols None w = Ok xexplog w
                 /\ HPMF.ratio_matrix X rows cols xexplog = inr ratio
                 /\ HPMF.gamma_b_updated np ratio (self w) = inr (Mat gum)
                 /\ HPMF.rho_b_updated (self w) = inr (Mat rum)
                 /\ same_inside (selected u bm) gum g'
                 /\ same_inside (selected u bm) rum r').
Proof.
  split.
  - intros. now apply PMF_mask._update_items_masked.
  - intros. now apply HPMF_mask._update_items_masked_h.
Qed.

Lemma masked_item_update_witness :
  (exists w',
     PMF._update_items Ref.np Ex.X Ex.rows Ex.cols (Some Ex.mask) true false
                       "out_category" Ex.pmf_ready = Ok tt w')
  /\ exists g',
       PMF.gamma_b
         (self (state_of
                  (PMF._update_items Ref.np Ex.X Ex.rows Ex.cols
                                     (Some Ex.mask) true false "out_category"
                                     Ex.pmf_ready)))
       = Some (Mat g')
       /\ same_outside (selected "out_category" Ex.mask)
                       (Ex.matrix_of (PMF.gamma_b (self Ex.pmf_ready))) g'.
Proof.
  split; [eexists; vm_compute; reflexivity|].
  destruct (proj1 (masked_item_update Ref.np)
              Ex.X Ex.rows Ex.cols Ex.mask false "out_category" Ex.pmf_ready
              (Ex.matrix_of (PMF.gamma_b (self Ex.pmf_ready)))
              (Ex.matrix_of (PMF.rho_b (self Ex.pmf_ready))))
    as [g' [r' [Hg [_ [Hout _]]]]].
  - vm_compute. reflexivity.
  - vm_compute. reflexivity.
  - now right.
  - exists g'. split; [exact Hg | exact Hout].
Defined.

(** ** C6: a fixed item matrix is never touched *)

#[export] Instance keeps_pre {S} (I : S -> Prop) : Pre (keeps I).
Proof. split; unfold keeps; auto. Qed.

Lemma always_setattr {Obj} (P : Obj -> Prop) (f : Obj -> Obj) (w : world Obj) :
  (forall o, P o -> P (f o)) ->
  keeps (always P) w {| self := f (self w); trace := trace w |}.
Proof. intros Hf [Hs Ht]. split; simpl; auto. Qed.

Lemma always_observe {Obj} (P : Obj -> Prop) (l : label) (w : world Obj) :
  keeps (always P) w {| self := self w; trace := (l, self w) :: trace w |}.
Proof. intros [Hs Ht]. split; simpl; auto. Qed.

Ltac always_side :=
  intro;
  first [ apply always_observe
        | apply always_setattr; intros ? H; exact H ].

Module PMF_fixed.
Import PMF.

Section WithNumpy.

Variable np : numpy.
Variable bm : mat.

Abbreviation I := (always (pmf_fixed_items bm)).

Lemma draw_fixed scale r c : steps (keeps I) (draw np scale r c).
Proof. unfold draw. steps_walk always_side. Qed.
Hint Resolve draw_fixed : steps.

Lemma _init_users_fixed n theta : steps (keeps I) (_init_users np n theta).
Proof. unfold _init_users. steps_walk always_side. Qed.

Lemma _xexplog_fixed rows cols beta oia oup :
  steps (keeps I) (_xexplog np rows cols beta oia oup).
Proof. unfold _xexplog. steps_walk always_side. Qed.
Hint Resolve _init_users_fixed _xexplog_fixed : steps.

Lemma _update_users_fixed X rows cols beta theta oup oia ou :
  steps (keeps I) (_update_users np X rows cols beta theta oup oia ou).
Proof. unfold _update_users. steps_walk always_side. Qed.
Hint Resolve _update_users_fixed : steps.

Lemma users_part_fixed X rows cols o i :
  steps (keeps I) (users_part np X rows cols o i).
Proof. unfold users_part. steps_walk always_side. Qed.

Lemma pred_loglikeli_fixed vad : steps (keeps I) (pred_loglikeli np vad).
Proof. unfold pred_loglikeli. steps_walk always_side. Qed.

Hint Resolve users_part_fixed pred_loglikeli_fixed : steps.

Lemma hoare_keeps {A} (c : M W A) :
  steps (keeps I) c -> hoare I c (fun _ w => I w) (fun _ w => I w).
Proof.
  intros Hc w Hw. specialize (Hc w Hw). destruct (c w); exact Hc.
Qed.

Lemma hoare_bind_keeps {A B} (c : M W A) (k : A -> M W B)
    (Q : B -> W -> Prop) :
  steps (keeps I) c ->
  (forall a, hoare I (k a) Q (fun _ w => I w)) ->
  hoare I (bind c k) Q (fun _ w => I w).
Proof.
  intros Hc Hk. eapply hoare_bind; [apply hoare_keeps, Hc | exact Hk].
Qed.

(** With a fixed [beta] and [categorywise] off the item side of an
    iteration does nothing. *)
Lemma items_part_skips X rows cols o i l :
  is_ndarray (beta o) = true -> categorywise o = false ->
  items_part np X rows cols o i l = ret l.
Proof. intros Hb Hc. unfold items_part. now rewrite Hb, Hc. Qed.

(** Reloading cached values into an absent [gamma_b] raises. *)
Lemma restore_fixed o i gn rn kn gv rv k :
  steps (keeps I) (restore o i gn rn kn gv rv k).
Proof.
  intros w Hw. unfold restore, local, lift, of_option.
  cbv beta iota delta [bind getattr gets setattr modify observe].
  destruct gv as [g|]; [|exact Hw]. destruct k as [km|]; [|exact Hw].
  simpl. destruct Hw as [[HEb [HEl [Hg Hr]]] Htr]. rewrite Hg.
  simpl. split; [repeat split|]; assumption.
Qed.

Definition dict_ok (dct : best) : Prop :=
  (d_best_Eb dct = None \/ d_best_Eb dct = Some (Some (Mat bm)))
  /\ (d_best_Elogb dct = None \/ d_best_Elogb dct = Some None).

Section Update.

Variable recur :
  sparse -> list Z -> list Z -> held_out -> opts -> M W (float * best).
Variable o : opts.
Hypothesis beta_fixed : is_ndarray (beta o) = true.
Hypothesis not_categorywise : categorywise o = false.
Hypothesis recur_fixed : forall X rows cols vad u,
  steps (keeps I) (recur X rows cols vad (second_phase o u)).

Lemma converged_part_fixed X rows cols vad i l :
  steps (keeps I) (converged_part recur X rows cols vad o i l).
Proof.
  unfold converged_part. pose proof restore_fixed.
  steps_walk always_side.
Qed.

Lemma iteration_fixed X rows cols vad i l (w : W) :
  I w -> dict_ok (best_pll_dict l) ->
  match iteration np recur X rows cols vad o i l w with
  | Ok r w' => I w' /\ dict_ok (best_pll_dict (fst r))
  | Raise _ w' => I w'
  end.
Proof.
  intros Hw Hd. unfold iteration. unfold bind at 1.
  pose proof (@users_part_fixed X rows cols o i w Hw) as H1.
  destruct (users_part np X rows cols o i w) as [[] w1|e w1]; [|exact H1].
  simpl in H1. rewrite items_part_skips by assumption.
  unfold bind at 1, ret at 1. unfold bind at 1.
  pose proof (@pred_loglikeli_fixed vad w1 H1) as H3.
  destruct (pred_loglikeli np vad w1) as [p w3|e w3]; [|exact H3].
  simpl in H3.
  assert (H4 : I {| self := self w3;
                    trace := (LEval (update o) i (old_pll l) p, self w3)
                               :: trace w3 |})
    by (now apply always_observe).
  cbv beta iota delta [bind observe modify getattr gets raise ret].
  destruct (is_nan p); cbv beta; cbn [self trace]; [exact H4|].
  assert (Hd2 : dict_ok (best_pll_dict (record_best (self w3) p l))).
  { unfold record_best. cbn [best_pll_dict].
    destruct (d_pred_ll (best_pll_dict l) <? p)%float; [|exact Hd].
    destruct H3 as [[HEb [HEl _]] _].
    split; right; simpl; [now rewrite HEb | now rewrite HEl]. }
  destruct (tol_stop _ _ _ _ _); cbv beta; cbn [self trace].
  - match goal with
    | |- context [converged_part _ _ _ _ _ _ _ ?l2 ?w4] =>
        pose proof (@converged_part_fixed X rows cols vad i l2 w4) as H5;
        destruct (converged_part recur X rows cols vad o i l2 w4)
    end; simpl in H5.
    + split; [|exact Hd2]. apply H5.
      destruct H4 as [Hs Ht]. split; simpl; auto.
    + apply H5. destruct H4 as [Hs Ht]. split; simpl; auto.
  - split; [exact H4 | exact Hd2].
Qed.

Lemma _update_body_fixed X rows cols vad :
  hoare I (_update_body np recur X rows cols vad o)
        (fun r w => I w /\ dict_ok (snd r)) (fun _ w => I w).
Proof.
  unfold _update_body.
  apply hoare_bind with (Mid := fun _ w => I w);
    [apply hoare_gets; auto|].
  intros n.
  apply hoare_bind with (Mid := fun l w => I w /\ dict_ok (best_pll_dict l)).
  - apply hoare_conseq with
      (P' := (fun (_ : list Z) l (w : W) => I w /\ dict_ok (best_pll_dict l))
               (xrange n) init_locals)
      (Q' := fun l w => I w /\ dict_ok (best_pll_dict l))
      (E' := fun _ w => I w); auto.
    + apply hoare_for_each with
        (J := fun (_ : list Z) l (w : W) => I w /\ dict_ok (best_pll_dict l));
        [|auto].
      intros i rest l w [Hw Hd].
      pose proof (@iteration_fixed X rows cols vad i l w Hw Hd) as Hit.
      destruct (iteration np recur X rows cols vad o i l w) as [[l' brk] w'|];
        [|exact Hit].
      simpl in *. destruct brk; exact Hit.
    + intros w Hw. split; [exact Hw|]. split; now left.
  - intros l. unfold local.
    apply hoare_bind with
      (Mid := fun _ w => I w /\ dict_ok (best_pll_dict l)).
    + apply hoare_lift. intros w Hw. destruct (pred_ll l); simpl;
        [exact Hw | apply Hw].
    + intros p. apply hoare_ret. auto.
Qed.

End Update.

Lemma _update_leaf_fixed X rows cols vad o :
  is_ndarray (beta o) = true -> categorywise o = false ->
  steps (keeps I) (_update_leaf np X rows cols vad o).
Proof.
  intros Hb Hc w Hw. unfold _update_leaf.
  pose proof (@_update_body_fixed
                (fun _ _ _ _ _ => raise (Exception "recursion below the second level"))
                o Hb Hc (fun _ _ _ _ _ => steps_raise _) X rows cols vad w Hw)
    as H.
  destruct (_update_body _ _ _ _ _ _ _ w); [apply H | exact H].
Qed.

Lemma _update_fixed X rows cols vad o :
  is_ndarray (beta o) = true -> categorywise o = false ->
  hoare I (_update np X rows cols vad o)
        (fun r w => I w /\ dict_ok (snd r)) (fun _ w => I w).
Proof.
  intros Hb Hc. unfold _update. apply _update_body_fixed; try assumption.
  intros X' rows' cols' vad' u. apply _update_leaf_fixed; assumption.
Qed.

Definition fit_locals_ok (fl : fit_locals) : Prop :=
  f_best_Eb fl = None \/ f_best_Eb fl = Some (Some (Mat bm)).

Lemma round_fixed X rows cols vad theta ift uft z idx fl :
  hoare (fun w => I w /\ fit_locals_ok fl)
        (round np X rows cols vad (Some bm) theta false ift uft z idx fl)
        (fun r w => I w /\ fit_locals_ok (fst r)) (fun _ w => I w).
Proof.
  unfold round. cbv zeta.
  set (fl1 := if streq uft "converge_separately" then _ else fl).
  assert (Hfl : fit_locals_ok fl -> fit_locals_ok fl1).
  { unfold fl1. destruct (streq uft "converge_separately"); auto. }
  clearbody fl1. intros w [Hw Hok]. specialize (Hfl Hok). revert w Hw.
  change (hoare I
    (ou <- local "only_update" (f_only_update fl1) ;;
     oup <- local "observed_user_preferences"
                  (f_observed_user_preferences fl1) ;;
     iu <- local "initialize_users" (f_initialize_users fl1) ;;
     r <- _update np X rows cols vad
            {| beta := Some bm; theta := theta;
               observed_user_preferences := oup;
               categorywise := false; item_fit_type := ift;
               user_fit_type := uft; update := "default";
               zero_untrained_components := z;
               initialize_users := iu; only_update := Some ou |} ;;
     eb <- key "best_Eb" (d_best_Eb (snd r)) ;;
     setattr (set_Eb eb) ;;
     et <- key "best_Et" (d_best_Et (snd r)) ;;
     setattr (set_Et et) ;;
     elb <- key "best_Elogb" (d_best_Elogb (snd r)) ;;
     setattr (set_Elogb elb) ;;
     elt <- key "best_Elogt" (d_best_Elogt (snd r)) ;;
     setattr (set_Elogt elt) ;;
     s <- getattr (fun s => s) ;;
     if (f_best_validation_ll fl1 <? d_pred_ll (snd r))%float then
       ret ({| f_observed_user_preferences := f_observed_user_preferences fl1;
               f_only_update := f_only_update fl1;
               f_initialize_users := f_initialize_users fl1;
               f_best_validation_ll := d_pred_ll (snd r);
               f_best_Eb := Some (Eb s); f_best_Et := Some (Et s) |}, false)
     else ret (fl1, false))
    (fun r w => I w /\ fit_locals_ok (fst r)) (fun _ w => I w)).
  apply hoare_bind_keeps; [apply steps_lift; exact _|]. intros ou.
  apply hoare_bind_keeps; [apply steps_lift; exact _|]. intros oup.
  apply hoare_bind_keeps; [apply steps_lift; exact _|]. intros iu.
  eapply hoare_bind; [apply _update_fixed; reflexivity|].
  intros r w [Hw [HdE HdL]].
  unfold key, lift, of_option.
  cbv beta iota delta [bind setattr modify getattr gets ret raise].
  destruct (d_best_Eb (snd r)) as [eb|]; [|exact Hw].
  destruct HdE as [HdE|HdE]; [discriminate HdE|].
  injection HdE as ->.
  destruct (d_best_Et (snd r)) as [et|]; cbn [self trace];
    [|destruct Hw as [[_ H] Ht]; split; [split; [reflexivity | exact H]
                                       | exact Ht]].
  destruct (d_best_Elogb (snd r)) as [elb|]; cbn [self trace];
    [|destruct Hw as [[_ H] Ht]; split; [split; [reflexivity | exact H]
                                       | exact Ht]].
  destruct HdL as [HdL|HdL]; [discriminate HdL|].
  injection HdL as ->.
  assert (Hend : I {| self := set_Elogb None
                               (set_Et et (set_Eb (Some (Mat bm)) (self w)));
                      trace := trace w |}).
  { destruct Hw as [[_ [_ H]] Ht]. split; [|exact Ht].
    split; [reflexivity|]. split; [reflexivity | exact H]. }
  destruct (d_best_Elogt (snd r)) as [elt|]; cbn [self trace];
    [|exact Hend].
  assert (Hend2 : I {| self := set_Elogt elt
                        (set_Elogb None
                           (set_Et et (set_Eb (Some (Mat bm)) (self w))));
                       trace := trace w |}) by exact Hend.
  destruct (_ <? _)%float; cbn [fst]; (split; [exact Hend2|]).
  - right. reflexivity.
  - exact Hfl.
Qed.

(** [_init_items] with a matrix and [categorywise] off installs it. *)
Lemma _init_items_fixed n :
  hoare (fun w => trace w = []) (_init_items np n (Some bm) false)
        (fun _ w => I w) (fun _ w => I w).
Proof.
  intros w Hw. simpl. split; [repeat split|]. simpl. rewrite Hw. constructor.
Qed.

Lemma fit_fixed X rows cols vad theta ift uft z :
  hoare (fun w => trace w = [])
        (fit np X rows cols vad (Some bm) theta false ift uft z)
        (fun _ w => I w) (fun _ w => I w).
Proof.
  unfold fit. cbv zeta.
  apply hoare_bind with (Mid := fun _ w => trace w = []);
    [apply hoare_modify; auto|]. intros ?.
  eapply hoare_bind; [apply _init_items_fixed|]. intros ?.
  apply hoare_bind_keeps; [apply _init_users_fixed|]. intros ?.
  destruct (negb (streq uft "default")).
  - apply hoare_bind_keeps; [apply steps_gets; exact _|]. intros n.
    apply hoare_bind with (Mid := fun fl w => I w /\ fit_locals_ok fl).
    + match goal with
      | |- hoare _ (for_each _ _ ?fl0) _ _ =>
          apply hoare_conseq with
            (P' := (fun (_ : list Z) fl (w : W) => I w /\ fit_locals_ok fl)
                     (xrange n) fl0)
            (Q' := fun fl w => I w /\ fit_locals_ok fl)
            (E' := fun _ w => I w); auto
      end.
      * apply hoare_for_each with
          (J := fun (_ : list Z) fl (w : W) => I w /\ fit_locals_ok fl);
          [|auto].
        intros i rest fl w Hw.
        pose proof (@round_fixed X rows cols vad theta ift uft z i fl w Hw)
          as Hr.
        destruct (round _ _ _ _ _ _ _ _ _ _ _ _ _ w) as [[fl' brk] w'|];
          [|exact Hr].
        simpl in *. destruct brk; exact Hr.
      * intros w Hw. split; [exact Hw | now left].
    + intros fl w [Hw Hok]. unfold fit_locals_ok in Hok.
      unfold local, lift, of_option.
      cbv beta iota delta [bind setattr modify getattr gets ret raise].
      destruct (f_best_Eb fl) as [be|]; [|exact Hw].
      destruct Hok as [Hok|Hok]; [discriminate Hok|]. injection Hok as ->.
      assert (H1 : I {| self := set_Eb (Some (Mat bm)) (self w);
                        trace := trace w |}).
      { destruct Hw as [[_ H] Ht]. split; [|exact Ht].
        split; [reflexivity | exact H]. }
      destruct (f_best_Et fl); cbn [self trace]; exact H1.
  - eapply hoare_bind; [apply _update_fixed; reflexivity|].
    intros r. apply hoare_ret. intros w [Hw _]. exact Hw.
Qed.

End WithNumpy.

End PMF_fixed.

Module HPMF_fixed.
Import HPMF.

Section WithNumpy.

Variable np : numpy.
Variable bm : mat.

Abbreviation I := (always (hpmf_fixed_items bm)).

Lemma draw_fixed_h r c : steps (keeps I) (draw np r c).
Proof. unfold draw. steps_walk always_side. Qed.

Hint Resolve draw_fixed_h : steps.

Lemma _init_users_fixed_h n : steps (keeps I) (_init_users np n).
Proof. unfold _init_users. steps_walk always_side. Qed.

Lemma _xexplog_fixed_h rows cols beta :
  steps (keeps I) (_xexplog np rows cols beta).
Proof. unfold _xexplog. steps_walk always_side. Qed.

Hint Resolve _xexplog_fixed_h : steps.

Lemma _update_users_fixed_h X rows cols beta cw :
  steps (keeps I) (_update_users np X rows cols beta cw).
Proof. unfold _update_users. steps_walk always_side. Qed.

Lemma pred_loglikeli_fixed_h vad : steps (keeps I) (pred_loglikeli np vad).
Proof. unfold pred_loglikeli. steps_walk always_side. Qed.

Lemma items_part_skips_h X rows cols o i l :
  is_ndarray (beta o) = true -> categorywise o = false ->
  items_part np X rows cols o i l = ret l.
Proof. intros Hb Hc. unfold items_part. now rewrite Hb, Hc. Qed.

Lemma restore_fixed_h o i gn rn kn gv rv k :
  steps (keeps I) (restore o i gn rn kn gv rv k).
Proof.
  intros w Hw. unfold restore, local, lift, of_option.
  cbv beta iota delta [bind getattr gets setattr modify observe].
  destruct gv as [g|]; [|exact Hw]. destruct k as [km|]; [|exact Hw].
  simpl. destruct Hw as [[HEb [HEl [Hg Hr]]] Htr]. rewrite Hg.
  simpl. split; [repeat split|]; assumption.
Qed.

Section Update.

Variable recur :
  sparse -> list Z -> list Z -> held_out -> opts -> M W unit.
Variable o : opts.
Hypothesis beta_fixed : is_ndarray (beta o) = true.
Hypothesis not_categorywise : categorywise o = false.
Hypothesis recur_fixed : forall X rows cols vad u,
  steps (keeps I) (recur X rows cols vad (second_phase o u)).

Lemma converged_part_fixed_h X rows cols vad i l :
  steps (keeps I) (converged_part recur X rows cols vad o i l).
Proof.
  unfold converged_part. pose proof restore_fixed_h.
  steps_walk always_side.
Qed.

Lemma iteration_fixed_h X rows cols vad i l :
  steps (keeps I) (iteration np recur X rows cols vad o i l).
Proof.
  unfold iteration. rewrite items_part_skips_h by assumption.
  pose proof _update_users_fixed_h. pose proof pred_loglikeli_fixed_h.
  pose proof converged_part_fixed_h.
  steps_walk always_side.
Qed.

Lemma _update_body_fixed_h X rows cols vad :
  steps (keeps I) (_update_body np recur X rows cols vad o).
Proof.
  unfold _update_body. pose proof iteration_fixed_h.
  steps_walk always_side.
Qed.

End Update.

Lemma _update_fixed_h X rows cols vad o :
  is_ndarray (beta o) = true -> categorywise o = false ->
  steps (keeps I) (_update np X rows cols vad o).
Proof.
  intros Hb Hc. unfold _update. apply _update_body_fixed_h; try assumption.
  intros X' rows' cols' vad' u. unfold _update_leaf.
  apply _update_body_fixed_h; try assumption.
  intros. apply steps_raise. exact _.
Qed.

Lemma _init_items_fixed_h n :
  hoare (fun w => trace w = []) (_init_items np n (Some bm))
        (fun _ w => I w) (fun _ w => I w).
Proof.
  intros w Hw. simpl. split; [repeat split|]. simpl. rewrite Hw. constructor.
Qed.

Lemma fit_fixed_h X rows cols vad theta ift z :
  hoare (fun w => trace w = [])
        (fit np X rows cols vad (Some bm) theta false ift z)
        (fun _ w => I w) (fun _ w => I w).
Proof.
  unfold fit. cbv zeta.
  eapply hoare_bind; [apply _init_items_fixed_h|]. intros ?.
  apply steps_hoare with (R := keeps I); [|auto|auto].
  pose proof _init_users_fixed_h.
  pose proof (fun X rows cols vad o =>
                @_update_fixed_h X rows cols vad o) as Hu.
  apply steps_bind; [exact _ | apply _init_users_fixed_h |].
  intros ?. apply _update_fixed_h; reflexivity.
Qed.

End WithNumpy.

End HPMF_fixed.

(** With a fixed [beta] the item update is never called. *)
Ltac free_side :=
  let H := fresh "Hfree" in
  intros ? H; unfold item_update_free in H |- *; simpl;
  first [ exact H | constructor; [exact I | exact H] ].

Module PMF_rotation.
Import PMF.

Section WithNumpy.

Variable np : numpy.

Abbreviation N := (@item_update_free PoissonMF).

Lemma draw_free scale r c : steps (keeps N) (draw np scale r c).
Proof. unfold draw. steps_walk free_side. Qed.
Hint Resolve draw_free : steps.

Lemma _init_users_free n theta : steps (keeps N) (_init_users np n theta).
Proof. unfold _init_users. steps_walk free_side. Qed.

Lemma _init_items_free n bm :
  steps (keeps N) (_init_items np n (Some bm) false).
Proof. unfold _init_items. steps_walk free_side. Qed.

Lemma _xexplog_free rows cols beta oia oup :
  steps (keeps N) (_xexplog np rows cols beta oia oup).
Proof. unfold _xexplog. steps_walk free_side. Qed.
Hint Resolve _xexplog_free : steps.

Lemma _update_users_free X rows cols beta theta oup oia ou :
  steps (keeps N) (_update_users np X rows cols beta theta oup oia ou).
Proof. unfold _update_users. steps_walk free_side. Qed.
Hint Resolve _init_users_free _update_users_free : steps.

Lemma users_part_free X rows cols o i :
  steps (keeps N) (users_part np X rows cols o i).
Proof. unfold users_part. steps_walk free_side. Qed.

Lemma pred_loglikeli_free vad : steps (keeps N) (pred_loglikeli np vad).
Proof. unfold pred_loglikeli. steps_walk free_side. Qed.

Lemma restore_free o i gn rn kn gv rv k :
  steps (keeps N) (restore o i gn rn kn gv rv k).
Proof. unfold restore, local. steps_walk free_side. Qed.

Hint Resolve users_part_free pred_loglikeli_free restore_free : steps.

Section Update.

Variable recur :
  sparse -> list Z -> list Z -> held_out -> opts -> M W (float * best).
Variable o : opts.
Hypothesis beta_fixed : is_ndarray (beta o) = true.
Hypothesis not_categorywise : categorywise o = false.
Hypothesis recur_free : forall X rows cols vad u,
  steps (keeps N) (recur X rows cols vad (second_phase o u)).

Lemma converged_part_free X rows cols vad i l :
  steps (keeps N) (converged_part recur X rows cols vad o i l).
Proof. unfold converged_part. steps_walk free_side. Qed.

Lemma iteration_free X rows cols vad i l :
  steps (keeps N) (iteration np recur X rows cols vad o i l).
Proof.
  unfold iteration. rewrite PMF_fixed.items_part_skips by assumption.
  pose proof converged_part_free. steps_walk free_side.
Qed.

Lemma _update_body_free X rows cols vad :
  steps (keeps N) (_update_body np recur X rows cols vad o).
Proof.
  unfold _update_body, local. pose proof iteration_free.
  steps_walk free_side.
Qed.

End Update.

Lemma _update_free X rows cols vad o :
  is_ndarray (beta o) = true -> categorywise o = false ->
  steps (keeps N) (_update np X rows cols vad o).
Proof.
  intros Hb Hc. unfold _update. apply _update_body_free; try assumption.
  intros X' rows' cols' vad' u. unfold _update_leaf.
  apply _update_body_free; try assumption.
  intros. apply steps_raise. exact _.
Qed.

Lemma fit_free X rows cols vad bm theta ift uft z :
  steps (keeps N) (fit np X rows cols vad (Some bm) theta false ift uft z).
Proof.
  unfold fit, round, key, local.
  pose proof _init_items_free.
  pose proof (fun th oup u iu ou =>
                @_update_free X rows cols vad
                  {| beta := Some bm; theta := th;
                     observed_user_preferences := oup;
                     categorywise := false; item_fit_type := ift;
                     user_fit_type := uft; update := u;
                     zero_untrained_components := z;
                     initialize_users := iu; only_update := ou |}
                  eq_refl eq_refl) as Hu.
  steps_walk free_side.
Qed.

End WithNumpy.

End PMF_rotation.

Module HPMF_rotation.
Import HPMF.

Section WithNumpy.

Variable np : numpy.

Abbreviation N := (@item_update_free HPoissonMF).

Lemma draw_free_h r c : steps (keeps N) (draw np r c).
Proof. unfold draw. steps_walk free_side. Qed.
Hint Resolve draw_free_h : steps.

Lemma _init_users_free_h n : steps (keeps N) (_init_users np n).
Proof. unfold _init_users. steps_walk free_side. Qed.

Lemma _init_items_free_h n bm : steps (keeps N) (_init_items np n (Some bm)).
Proof. unfold _init_items. steps_walk free_side. Qed.

Lemma _xexplog_free_h rows cols beta :
  steps (keeps N) (_xexplog np rows cols beta).
Proof. unfold _xexplog. steps_walk free_side. Qed.
Hint Resolve _xexplog_free_h : steps.

Lemma _update_users_free_h X rows cols beta cw :
  steps (keeps N) (_update_users np X rows cols beta cw).
Proof. unfold _update_users. steps_walk free_side. Qed.

Lemma pred_loglikeli_free_h vad : steps (keeps N) (pred_loglikeli np vad).
Proof. unfold pred_loglikeli. steps_walk free_side. Qed.

Lemma restore_free_h o i gn rn kn gv rv k :
  steps (keeps N) (restore o i gn rn kn gv rv k).
Proof. unfold restore, local. steps_walk free_side. Qed.

Hint Resolve _update_users_free_h pred_loglikeli_free_h restore_free_h
  : steps.

Section Update.

Variable recur :
  sparse -> list Z -> list Z -> held_out -> opts -> M W unit.
Variable o : opts.
Hypothesis beta_fixed : is_ndarray (beta o) = true.
Hypothesis not_categorywise : categorywise o = false.
Hypothesis recur_free : forall X rows cols vad u,
  steps (keeps N) (recur X rows cols vad (second_phase o u)).

Lemma converged_part_free_h X rows cols vad i l :
  steps (keeps N) (converged_part recur X rows cols vad o i l).
Proof. unfold converged_part. steps_walk free_side. Qed.

Lemma iteration_free_h X rows cols vad i l :
  steps (keeps N) (iteration np recur X rows cols vad o i l).
Proof.
  unfold iteration. rewrite HPMF_fixed.items_part_skips_h by assumption.
  pose proof converged_part_free_h. steps_walk free_side.
Qed.

Lemma _update_body_free_h X rows cols vad :
  steps (keeps N) (_update_body np recur X rows cols vad o).
Proof.
  unfold _update_body. pose proof iteration_free_h.
  steps_walk free_side.
Qed.

End Update.

Lemma _update_free_h X rows cols vad o :
  is_ndarray (beta o) = true -> categorywise o = false ->
  steps (keeps N) (_update np X rows cols vad o).
Proof.
  intros Hb Hc. unfold _update. apply _update_body_free_h; try assumption.
  intros X' rows' cols' vad' u. unfold _update_leaf.
  apply _update_body_free_h; try assumption.
  intros. apply steps_raise. exact _.
Qed.

Lemma fit_free_h X rows cols vad bm theta ift z :
  steps (keeps N) (fit np X rows cols vad (Some bm) theta false ift z).
Proof.
  unfold fit.
  pose proof _init_items_free_h. pose proof _init_users_free_h.
  pose proof (@_update_free_h X rows cols vad
                {| beta := Some bm; categorywise := false;
                   item_fit_type := ift; update := "default";
                   zero_untrained_components := z |}
                eq_refl eq_refl) as Hu.
  steps_walk free_side.
Qed.

End WithNumpy.

End HPMF_rotation.

(** ** C6: a fixed [beta] is never touched

    Claim C6.  When [fit] is called with a [beta] matrix and
    [categorywise] off, the item expectation [Eb] is that matrix for the
    whole fit, and the item shape [gamma_b], rate [rho_b] and
    log-expectation [Elogb] stay [None]: in both classes, from any object
    and for every choice of the other arguments, this holds of the object
    [fit] leaves behind (whether it returns or raises) and of the object at
    every observation point on the way: after each user update, at each
    evaluation and at each stop.  The item side is out of the rotation: no
    item update returns during the fit. *)
Theorem fixed_beta_items_untouched (np : numpy) (bm : mat)
    (X : sparse) (rows cols : list Z) (vad : held_out) (theta : option mat)
    (item_fit_type user_fit_type : string) (zero : bool)
    (p : PMF.PoissonMF) (h : HPMF.HPoissonMF) :
  let pw := state_of (PMF.fit np X rows cols vad (Some bm) theta false
                              item_fit_type user_fit_type zero
                              {| self := p; trace := [] |}) in
  let hw := state_of (HPMF.fit np X rows cols vad (Some bm) theta false
                               item_fit_type zero
                               {| self := h; trace := [] |}) in
  always (pmf_fixed_items bm) pw /\ item_update_free pw
  /\ always (hpmf_fixed_items bm) hw /\ item_update_free hw.
Proof.
  intros pw hw. split; [|split; [|split]].
  - pose proof (@PMF_fixed.fit_fixed np bm X rows cols vad theta
                  item_fit_type user_fit_type zero
                  {| self := p; trace := [] |} eq_refl) as H.
    subst pw. destruct (PMF.fit _ _ _ _ _ _ _ _ _ _ _ _); exact H.
  - apply (@PMF_rotation.fit_free np X rows cols vad bm theta
             item_fit_type user_fit_type zero {| self := p; trace := [] |}).
    constructor.
  - pose proof (@HPMF_fixed.fit_fixed_h np bm X rows cols vad theta
                  item_fit_type zero
                  {| self := h; trace := [] |} eq_refl) as H.
    subst hw. destruct (HPMF.fit _ _ _ _ _ _ _ _ _ _ _); exact H.
  - apply (@HPMF_rotation.fit_free_h np X rows cols vad bm theta
             item_fit_type zero {| self := h; trace := [] |}).
    constructor.
Qed.

(** A fit of [HPoissonMF] on the observed matrix [Ex.mask] returns after
    five iterations, with ten observation points behind it. *)
Example hpmf_fixed_beta_run :
  exists w,
    HPMF.fit Ref.np Ex.X Ex.rows Ex.cols Ex.vad (Some Ex.mask) None false
             "default" false (Ex.hpmf 5) = Ok tt w
    /\ List.length (trace w) = 10%nat
    /\ HPMF.Eb (self w) = Some (Mat Ex.mask).
Proof. eexists. split; [vm_compute; reflexivity|]. split; reflexivity. Qed.

(** A fit of [PoissonMF] with both matrices given and
    ['converge_separately'] evaluates three times in its first round, and
    raises in the user update of the second. *)
Example pmf_fixed_beta_run :
  exists w,
    PMF.fit Ref.np Ex.X Ex.rows Ex.cols Ex.vad (Some Ex.mask)
            (Some [[1; 2; 3]; [1; 1; 1]]%float) false
            "default" "converge_separately" false (Ex.pmf 5)
      = Raise (TypeError "exp") w
    /\ List.length (trace w) = 4%nat
    /\ PMF.Eb (self w) = Some (Mat Ex.mask).
Proof. eexists. split; [vm_compute; reflexivity|]. split; reflexivity. Qed.

(** ** C7: expectations and their shape and rate *)

(** Run the pure steps of a method body one by one; a step that raises
    leaves a goal that [done] closes. *)
Ltac run_lifts done :=
  repeat
    (cbv beta iota zeta
         delta [bind getattr gets setattr modify observe lift ret of_option];
     cbn [self trace];
     try solve [done];
     lazymatch goal with
     | |- context [if ?b then _ else _] =>
         let v := eval compute in b in
         lazymatch v with
         | true => change b with true
         | false => change b with false
         | _ => destruct b
         end
     | |- context [match ?r with inl _ => _ | inr _ => _ end] =>
         let E := fresh "E" in destruct r eqn:E
     end).

Module PMF_expect.
Import PMF.

Section WithNumpy.

Variable np : numpy.

Lemma _update_users_expect X rows cols beta theta oup oia ou (w : W) :
  match _update_users np X rows cols beta theta oup oia ou w with
  | Ok _ w' =>
      pmf_users_ok np (self w') /\ pmf_items_same (self w) (self w')
      /\ trace w' = (LUsers, self w') :: trace w
  | Raise _ w' => trace w' = trace w
  end.
Proof.
  unfold _update_users. unfold bind at 1.
  pose proof (PMF_mask._xexplog_reads np rows cols beta false oup w) as Hx.
  destruct (_xexplog np rows cols beta false oup w) as [x w1|e w1];
    simpl in Hx; subst w1; [|reflexivity].
  run_lifts ltac:(reflexivity).
  all: split; [eexists; simpl; split; [eassumption | split; reflexivity]
              | split; [repeat split | reflexivity]].
Qed.

Lemma _update_items_expect X rows cols beta cw oup u (w : W) :
  match _update_items np X rows cols beta cw oup u w with
  | Ok _ w' =>
      pmf_items_ok np (self w') /\ pmf_users_same (self w) (self w')
      /\ trace w' = (LItems u, self w') :: trace w
  | Raise _ w' => trace w' = trace w
  end.
Proof.
  unfold _update_items. unfold bind at 1.
  pose proof (PMF_mask._xexplog_reads np rows cols None false oup w) as Hx.
  destruct (_xexplog np rows cols None false oup w) as [x w1|e w1];
    simpl in Hx; subst w1; [|reflexivity].
  unfold assign_masked.
  destruct beta as [bm|]; run_lifts ltac:(reflexivity).
  all: split; [eexists; simpl; split; [eassumption | split; reflexivity]
              | split; [repeat split | reflexivity]].
Qed.


Lemma _init_users_expect n (w : W) :
  match _init_users np n None w with
  | Ok _ w' =>
      pmf_users_ok np (self w') /\ pmf_items_same (self w) (self w')
      /\ trace w' = trace w
  | Raise _ w' => trace w' = trace w
  end.
Proof.
  unfold _init_users, draw. run_lifts ltac:(reflexivity).
  all: split; [eexists; simpl; split; [eassumption | split; reflexivity]
              | split; [repeat split | reflexivity]].
Qed.

Lemma _init_items_expect n cw (w : W) :
  match _init_items np n None cw w with
  | Ok _ w' =>
      pmf_items_ok np (self w') /\ pmf_users_same (self w) (self w')
      /\ trace w' = trace w
  | Raise _ w' => trace w' = trace w
  end.
Proof.
  unfold _init_items, draw. run_lifts ltac:(reflexivity).
  all: split; [eexists; simpl; split; [eassumption | split; reflexivity]
              | split; [repeat split | reflexivity]].
Qed.

Lemma items_ok_same o o' :
  pmf_items_same o o' -> pmf_items_ok np o -> pmf_items_ok np o'.
Proof.
  intros [Hg [Hr [He Hl]]]. unfold pmf_items_ok. now rewrite Hg, Hr, He, Hl.
Qed.

Lemma users_ok_same o o' :
  pmf_users_same o o' -> pmf_users_ok np o -> pmf_users_ok np o'.
Proof.
  intros [Hg [Hr [He Hl]]]. unfold pmf_users_ok. now rewrite Hg, Hr, He, Hl.
Qed.

Abbreviation C := (pmf_consistent np).

Lemma _update_users_keeps X rows cols beta theta oup oia ou :
  hoare (always C) (_update_users np X rows cols beta theta oup oia ou)
        (fun _ w => always C w) (fun _ w => snapshots C w).
Proof.
  intros w [[Hu Hi] Ht].
  pose proof (_update_users_expect X rows cols beta theta oup oia ou w) as H.
  destruct (_update_users _ _ _ _ _ _ _ _ _ w) as [[] w'|e w'].
  - destruct H as [Hu' [Hs Htr]].
    assert (Hc : C (self w')) by (split; eauto using items_ok_same).
    split; [exact Hc|]. rewrite Htr. constructor; assumption.
  - unfold snapshots. now rewrite H.
Qed.

Lemma _update_items_keeps X rows cols beta cw oup u :
  hoare (always C) (_update_items np X rows cols beta cw oup u)
        (fun _ w => always C w) (fun _ w => snapshots C w).
Proof.
  intros w [[Hu Hi] Ht].
  pose proof (_update_items_expect X rows cols beta cw oup u w) as H.
  destruct (_update_items _ _ _ _ _ _ _ _ w) as [[] w'|e w'].
  - destruct H as [Hi' [Hs Htr]].
    assert (Hc : C (self w')) by (split; eauto using users_ok_same).
    split; [exact Hc|]. rewrite Htr. constructor; assumption.
  - unfold snapshots. now rewrite H.
Qed.

Lemma pred_loglikeli_reads vad : steps eq (pred_loglikeli np vad).
Proof. unfold pred_loglikeli. steps_walk ltac:(idtac). Qed.

(** The options [fit] passes to [_update] under the default policies. *)
Definition plain (cw z : bool) : opts :=
  {| beta := None; theta := None; observed_user_preferences := false;
     categorywise := cw; item_fit_type := "default";
     user_fit_type := "default"; update := "default";
     zero_untrained_components := z;
     initialize_users := "none"; only_update := None |}.

Lemma iteration_keeps recur X rows cols vad cw z i l :
  hoare (always C) (iteration np recur X rows cols vad (plain cw z) i l)
        (fun _ w => always C w) (fun _ w => snapshots C w).
Proof.
  unfold iteration.
  change (users_part np X rows cols (plain cw z) i)
    with (_update_users np X rows cols None None false false None).
  change (items_part np X rows cols (plain cw z) i l)
    with (_update_items np X rows cols None false false "default" ;;
          ret l)%monad.
  eapply hoare_bind; [apply _update_users_keeps|]. intros ?.
  eapply hoare_bind.
  { eapply hoare_bind; [apply _update_items_keeps|].
    intros ?. apply hoare_ret. intros w Hw. exact Hw. }
  intros l1. cbv beta.
  apply hoare_bind with (Mid := fun _ w => always C w).
  { intros w Hw. pose proof (pred_loglikeli_reads vad w) as H.
    destruct (pred_loglikeli np vad w); simpl in H; subst;
      [exact Hw | apply Hw]. }
  intros p.
  apply hoare_bind with (Mid := fun _ w => always C w).
  { apply hoare_modify. intros w Hw. now apply always_observe. }
  intros ?. destruct (is_nan p).
  { apply hoare_raise. intros w Hw. apply Hw. }
  apply hoare_bind with (Mid := fun _ w => always C w);
    [apply hoare_gets; auto|].
  intros s. cbv zeta. destruct (tol_stop _ _ _ _ _).
  - apply hoare_bind with (Mid := fun _ w => always C w).
    { apply hoare_modify. intros w Hw. now apply always_observe. }
    intros ?. unfold converged_part. simpl.
    apply hoare_ret. auto.
  - apply hoare_ret. auto.
Qed.

Lemma _update_keeps X rows cols vad cw z :
  hoare (always C) (_update np X rows cols vad (plain cw z))
        (fun _ w => always C w) (fun _ w => snapshots C w).
Proof.
  unfold _update, _update_body.
  apply hoare_bind with (Mid := fun _ w => always C w);
    [apply hoare_gets; auto|].
  intros n.
  apply hoare_bind with (Mid := fun _ w => always C w).
  - apply hoare_for_each with
      (J := fun (_ : list Z) (_ : locals) (w : W) => always C w); [|auto].
    intros i rest l w Hw.
    pose proof (@iteration_keeps (_update_leaf np) X rows cols vad cw z i l
                  w Hw) as H.
    destruct (iteration _ _ _ _ _ _ _ _ _ w) as [[l' brk] w'|]; [|exact H].
    simpl. destruct brk; exact H.
  - intros l. unfold local.
    apply hoare_bind with (Mid := fun _ w => always C w).
    + apply hoare_lift. intros w Hw.
      destruct (pred_ll l); simpl; [exact Hw | apply Hw].
    + intros p. apply hoare_ret. auto.
Qed.

Lemma fit_keeps X rows cols vad cw z :
  hoare (fun w => trace w = [])
        (fit np X rows cols vad None None cw "default" "default" z)
        (fun _ w => always C w) (fun _ w => snapshots C w).
Proof.
  unfold fit. cbv zeta.
  apply hoare_bind with (Mid := fun _ w => trace w = []);
    [apply hoare_modify; auto|]. intros ?.
  apply hoare_bind with
    (Mid := fun _ w => trace w = [] /\ pmf_items_ok np (self w)).
  { intros w Hw. pose proof (_init_items_expect (fst (X_shape X)) cw w) as H.
    destruct (_init_items _ _ _ _ w) as [[] w'|e w'].
    - destruct H as [Hi [_ Htr]]. split; [congruence | exact Hi].
    - unfold snapshots. rewrite H, Hw. constructor. }
  intros ?.
  apply hoare_bind with (Mid := fun _ w => always C w).
  { intros w [Hw Hi].
    pose proof (_init_users_expect (snd (X_shape X)) w) as H.
    destruct (_init_users _ _ _ w) as [[] w'|e w'].
    - destruct H as [Hu [Hs Htr]].
      split; [split; eauto using items_ok_same|].
      rewrite Htr, Hw. constructor.
    - unfold snapshots. rewrite H, Hw. constructor. }
  intros ?.
  replace (negb (streq "default" "default")) with false by reflexivity.
  eapply hoare_bind; [apply _update_keeps|].
  intros ?. apply hoare_ret. auto.
Qed.

End WithNumpy.

End PMF_expect.

Module HPMF_expect.
Import HPMF.

Section WithNumpy.

Variable np : numpy.

Lemma _update_users_expect_h X rows cols beta cw (w : W) :
  match _update_users np X rows cols beta cw w with
  | Ok _ w' =>
      hpmf_users_ok np (self w') /\ hpmf_items_same (self w) (self w')
      /\ trace w' = (LUsers, self w') :: trace w
  | Raise _ w' => trace w' = trace w
  end.
Proof.
  unfold _update_users. unfold bind at 1.
  pose proof (HPMF_mask._xexplog_reads_h np rows cols beta w) as Hx.
  destruct (_xexplog np rows cols beta w) as [x w1|e w1];
    simpl in Hx; subst w1; [|reflexivity].
  run_lifts ltac:(reflexivity).
  all: split; [eexists; simpl; split; [eassumption | split; reflexivity]
              | split; [repeat split | reflexivity]].
Qed.

Lemma _update_items_expect_h X rows cols beta cw u (w : W) :
  match _update_items np X rows cols beta cw u w with
  | Ok _ w' =>
      hpmf_items_ok np (self w') /\ hpmf_users_same (self w) (self w')
      /\ trace w' = (LItems u, self w') :: trace w
  | Raise _ w' => trace w' = trace w
  end.
Proof.
  unfold _update_items. unfold bind at 1.
  pose proof (HPMF_mask._xexplog_reads_h np rows cols None w) as Hx.
  destruct (_xexplog np rows cols None w) as [x w1|e w1];
    simpl in Hx; subst w1; [|reflexivity].
  unfold assign_masked.
  destruct beta as [bm|]; run_lifts ltac:(reflexivity).
  all: split; [eexists; simpl; split; [eassumption | split; reflexivity]
              | split; [repeat split | reflexivity]].
Qed.

Lemma _init_users_expect_h n (w : W) :
  match _init_users np n w with
  | Ok _ w' =>
      hpmf_users_ok np (self w') /\ hpmf_items_same (self w) (self w')
      /\ trace w' = trace w
  | Raise _ w' => trace w' = trace w
  end.
Proof.
  unfold _init_users, draw. run_lifts ltac:(reflexivity).
  all: split; [eexists; simpl; split; [eassumption | split; reflexivity]
              | split; [repeat split | reflexivity]].
Qed.

Lemma _init_items_expect_h n (w : W) :
  match _init_items np n None w with
  | Ok _ w' =>
      hpmf_items_ok np (self w') /\ hpmf_users_same (self w) (self w')
      /\ trace w' = trace w
  | Raise _ w' => trace w' = trace w
  end.
Proof.
  unfold _init_items, draw. run_lifts ltac:(reflexivity).
  all: split; [eexists; simpl; split; [eassumption | split; reflexivity]
              | split; [repeat split | reflexivity]].
Qed.

Lemma items_ok_same_h o o' :
  hpmf_items_same o o' -> hpmf_items_ok np o -> hpmf_items_ok np o'.
Proof.
  intros [Hg [Hr [He Hl]]]. unfold hpmf_items_ok. now rewrite Hg, Hr, He, Hl.
Qed.

Lemma users_ok_same_h o o' :
  hpmf_users_same o o' -> hpmf_users_ok np o -> hpmf_users_ok np o'.
Proof.
  intros [Hg [Hr [He Hl]]]. unfold hpmf_users_ok. now rewrite Hg, Hr, He, Hl.
Qed.

Abbreviation C := (hpmf_consistent np).

Lemma _update_users_keeps_h X rows cols beta cw :
  hoare (always C) (_update_users np X rows cols beta cw)
        (fun _ w => always C w) (fun _ w => snapshots C w).
Proof.
  intros w [[Hu Hi] Ht].
  pose proof (_update_users_expect_h X rows cols beta cw w) as H.
  destruct (_update_users _ _ _ _ _ _ w) as [[] w'|e w'].
  - destruct H as [Hu' [Hs Htr]].
    assert (Hc : C (self w')) by (split; eauto using items_ok_same_h).
    split; [exact Hc|]. rewrite Htr. constructor; assumption.
  - unfold snapshots. now rewrite H.
Qed.

Lemma _update_items_keeps_h X rows cols beta cw u :
  hoare (always C) (_update_items np X rows cols beta cw u)
        (fun _ w => always C w) (fun _ w => snapshots C w).
Proof.
  intros w [[Hu Hi] Ht].
  pose proof (_update_items_expect_h X rows cols beta cw u w) as H.
  destruct (_update_items _ _ _ _ _ _ _ w) as [[] w'|e w'].
  - destruct H as [Hi' [Hs Htr]].
    assert (Hc : C (self w')) by (split; eauto using users_ok_same_h).
    split; [exact Hc|]. rewrite Htr. constructor; assumption.
  - unfold snapshots. now rewrite H.
Qed.

Lemma pred_loglikeli_reads_h vad : steps eq (pred_loglikeli np vad).
Proof. unfold pred_loglikeli. steps_walk ltac:(idtac). Qed.

(** The options [fit] passes to [_update] under the default policy. *)
Definition plain (cw z : bool) : opts :=
  {| beta := None; categorywise := cw; item_fit_type := "default";
     update := "default"; zero_untrained_components := z |}.

Lemma iteration_keeps_h recur X rows cols vad cw z i l :
  hoare (always C) (iteration np recur X rows cols vad (plain cw z) i l)
        (fun _ w => always C w) (fun _ w => snapshots C w).
Proof.
  unfold iteration.
  change (items_part np X rows cols (plain cw z) i l)
    with (_update_items np X rows cols None false "default" ;;
          ret l)%monad.
  eapply hoare_bind; [apply _update_users_keeps_h|]. intros ?.
  eapply hoare_bind.
  { eapply hoare_bind; [apply _update_items_keeps_h|].
    intros ?. apply hoare_ret. intros w Hw. exact Hw. }
  intros l1. cbv beta.
  apply hoare_bind with (Mid := fun _ w => always C w).
  { intros w Hw. pose proof (pred_loglikeli_reads_h vad w) as H.
    destruct (pred_loglikeli np vad w); simpl in H; subst;
      [exact Hw | apply Hw]. }
  intros p.
  apply hoare_bind with (Mid := fun _ w => always C w).
  { apply hoare_modify. intros w Hw. now apply always_observe. }
  intros ?. destruct (is_nan p).
  { apply hoare_raise. intros w Hw. apply Hw. }
  apply hoare_bind with (Mid := fun _ w => always C w);
    [apply hoare_gets; auto|].
  intros s. cbv zeta. destruct (tol_stop _ _ _ _ _).
  - apply hoare_bind with (Mid := fun _ w => always C w).
    { apply hoare_modify. intros w Hw. now apply always_observe. }
    intros ?. unfold converged_part. simpl.
    apply hoare_ret. auto.
  - apply hoare_ret. auto.
Qed.

Lemma _update_keeps_h X rows cols vad cw z :
  hoare (always C) (_update np X rows cols vad (plain cw z))
        (fun _ w => always C w) (fun _ w => snapshots C w).
Proof.
  unfold _update, _update_body.
  apply hoare_bind with (Mid := fun _ w => always C w);
    [apply hoare_gets; auto|].
  intros n.
  apply hoare_bind with (Mid := fun _ w => always C w).
  - apply hoare_for_each with
      (J := fun (_ : list Z) (_ : locals) (w : W) => always C w); [|auto].
    intros i rest l w Hw.
    pose proof (@iteration_keeps_h (_update_leaf np) X rows cols vad cw z i l
                  w Hw) as H.
    destruct (iteration _ _ _ _ _ _ _ _ _ w) as [[l' brk] w'|]; [|exact H].
    simpl. destruct brk; exact H.
  - intros ?. apply hoare_ret. auto.
Qed.

Lemma fit_keeps_h X rows cols vad theta cw z :
  hoare (fun w => trace w = [])
        (fit np X rows cols vad None theta cw "default" z)
        (fun _ w => always C w) (fun _ w => snapshots C w).
Proof.
  unfold fit. cbv zeta.
  apply hoare_bind with
    (Mid := fun _ w => trace w = [] /\ hpmf_items_ok np (self w)).
  { intros w Hw. pose proof (_init_items_expect_h (fst (X_shape X)) w) as H.
    destruct (_init_items _ _ _ w) as [[] w'|e w'].
    - destruct H as [Hi [_ Htr]]. split; [congruence | exact Hi].
    - unfold snapshots. rewrite H, Hw. constructor. }
  intros ?.
  apply hoare_bind with (Mid := fun _ w => always C w).
  { intros w [Hw Hi].
    pose proof (_init_users_expect_h (snd (X_shape X)) w) as H.
    destruct (_init_users _ _ w) as [[] w'|e w'].
    - destruct H as [Hu [Hs Htr]].
      split; [split; eauto using items_ok_same_h|].
      rewrite Htr, Hw. constructor.
    - unfold snapshots. rewrite H, Hw. constructor. }
  intros ?. apply _update_keeps_h.
Qed.

End WithNumpy.

End HPMF_expect.

(** C7: where the code departs from the claim.  The restore writes
    [gamma_b] and [rho_b] and no [_compute_expectations] follows it.  Under
    ['converge_in_category_first'] with [zero_untrained_components], the
    tenth observation point from the end of the fit on [Ex.mask] is the
    return of the user update that follows the restore: [gamma_b] and
    [rho_b] hold the restored values there ([95] and [91] in entry
    [(0, 1)]), and [Eb] is still the expectation of the clamped ones ([1]
    in that entry), so [(Eb, Elogb)] is not
    [_compute_expectations(gamma_b, rho_b)] where that update returns. *)
Lemma user_update_returns_with_stale_items :
  exists o,
    nth_error
      (trace (state_of
         (PMF.fit Ref.np Ex.X Ex.rows Ex.cols Ex.vad (Some Ex.mask) None true
                  "converge_in_category_first" "default" true (Ex.pmf 50))))
      9
    = Some (LUsers, o)
    /\ ~ pmf_items_ok Ref.np o.
Proof.
  eexists. split; [vm_compute; reflexivity|].
  intros [e [He [HEb _]]]. vm_compute in He. injection He as <-.
  apply (f_equal (fun a => (entry (Ex.matrix_of a) 0 1 =? 1)%float)) in HEb.
  vm_compute in HEb. discriminate HEb.
Qed.

(** The same run around the restore.  The restore leaves [gamma_b[0, 1]]
    at the reloaded [95] and [Eb[0, 1]] at [1]; the user update that
    follows keeps both; the item update after it, which computes the
    out-of-category entries from [np.exp(Elogb)] of the clamped values,
    overwrites the reloaded entry with [c + 0] and recomputes the
    expectations.  What the restore wrote has reached no expectation. *)
Example restored_values_are_overwritten :
  exists o_r o_u o_i,
    firstn 3
      (skipn 8
         (trace (state_of
            (PMF.fit Ref.np Ex.X Ex.rows Ex.cols Ex.vad (Some Ex.mask) None
                     true "converge_in_category_first" "default" true
                     (Ex.pmf 50)))))
    = [(LItems "out_category", o_i); (LUsers, o_u);
       (LRestore "default" 2, o_r)]
    /\ entry (Ex.matrix_of (PMF.gamma_b o_r)) 0 1 = 95%float
    /\ entry (Ex.matrix_of (PMF.Eb o_r)) 0 1 = 1%float
    /\ PMF.gamma_b o_u = PMF.gamma_b o_r
    /\ PMF.rho_b o_u = PMF.rho_b o_r
    /\ PMF.Eb o_u = PMF.Eb o_r
    /\ PMF.Elogb o_u = PMF.Elogb o_r
    /\ entry (Ex.matrix_of (PMF.gamma_b o_i)) 0 1 = PMF.c o_i
    /\ pmf_items_ok Ref.np o_i.
Proof.
  do 3 eexists. split; [vm_compute; reflexivity|].
  repeat (split; [vm_compute; reflexivity|]).
  eexists. split; [vm_compute; reflexivity|].
  split; vm_compute; reflexivity.
Qed.

(** X18.  What every update does for the expectations.  In both classes
    a user update that returns leaves the user side with
    [(Et, Elogt) = _compute_expectations(gamma_t, rho_t)] and the item
    side's four matrices as they were; an item update that returns leaves
    the item side with [(Eb, Elogb) = _compute_expectations(gamma_b, rho_b)]
    and the user side as it was.  With no matrix given and the default
    policies, both equalities hold at every observation point of [fit]
    and, when [fit] returns, of the object it leaves. *)
Theorem updates_recompute_expectations (np : numpy) :
  (forall X rows cols beta theta oup oia ou (w : PMF.W),
      match PMF._update_users np X rows cols beta theta oup oia ou w with
      | Ok _ w' =>
          pmf_users_ok np (self w') /\ pmf_items_same (self w) (self w')
      | Raise _ _ => True
      end)
  /\ (forall X rows cols beta cw oup u (w : PMF.W),
         match PMF._update_items np X rows cols beta cw oup u w with
         | Ok _ w' =>
             pmf_items_ok np (self w') /\ pmf_users_same (self w) (self w')
         | Raise _ _ => True
         end)
  /\ (forall X rows cols beta cw (w : HPMF.W),
         match HPMF._update_users np X rows cols beta cw w with
         | Ok _ w' =>
             hpmf_users_ok np (self w') /\ hpmf_items_same (self w) (self w')
         | Raise _ _ => True
         end)
  /\ (forall X rows cols beta cw u (w : HPMF.W),
         match HPMF._update_items np X rows cols beta cw u w with
         | Ok _ w' =>
             hpmf_items_ok np (self w') /\ hpmf_users_same (self w) (self w')
         | Raise _ _ => True
         end)
  /\ (forall X rows cols vad cw z (p : PMF.PoissonMF),
         match PMF.fit np X rows cols vad None None cw "default" "default" z
                       {| self := p; trace := [] |} with
         | Ok _ w' => always (pmf_consistent np) w'
         | Raise _ w' => snapshots (pmf_consistent np) w'
         end)
  /\ (forall X rows cols vad theta cw z (h : HPMF.HPoissonMF),
         match HPMF.fit np X rows cols vad None theta cw "default" z
                        {| self := h; trace := [] |} with
         | Ok _ w' => always (hpmf_consistent np) w'
         | Raise _ w' => snapshots (hpmf_consistent np) w'
         end).
Proof.
  repeat apply conj.
  - intros. pose proof (PMF_expect._update_users_expect
                          np X rows cols beta theta oup oia ou w) as H.
    destruct (PMF._update_users _ _ _ _ _ _ _ _ _ w); [|exact I].
    split; apply H.
  - intros. pose proof (PMF_expect._update_items_expect
                          np X rows cols beta cw oup u w) as H.
    destruct (PMF._update_items _ _ _ _ _ _ _ _ w); [|exact I].
    split; apply H.
  - intros. pose proof (HPMF_expect._update_users_expect_h
                          np X rows cols beta cw w) as H.
    destruct (HPMF._update_users _ _ _ _ _ _ w); [|exact I].
    split; apply H.
  - intros. pose proof (HPMF_expect._update_items_expect_h
                          np X rows cols beta cw u w) as H.
    destruct (HPMF._update_items _ _ _ _ _ _ _ w); [|exact I].
    split; apply H.
  - intros. apply (@PMF_expect.fit_keeps np X rows cols vad cw z
                     {| self := p; trace := [] |} eq_refl).
  - intros. apply (@HPMF_expect.fit_keeps_h np X rows cols vad theta cw z
                     {| self := h; trace := [] |} eq_refl).
Qed.

(** Both default fits return on the worked example, with observation
    points behind them. *)
Example pmf_default_fit_returns :
  exists w,
    PMF.fit Ref.np Ex.X Ex.rows Ex.cols Ex.vad None None false
            "default" "default" false (Ex.pmf 50) = Ok tt w
    /\ Ex.labels w <> [].
Proof. eexists. split; [vm_compute; reflexivity | discriminate]. Qed.

Example hpmf_default_fit_returns :
  exists w,
    HPMF.fit Ref.np Ex.X Ex.rows Ex.cols Ex.vad None None false
             "default" false (Ex.hpmf 50) = Ok tt w
    /\ Ex.labels w <> [].
Proof. eexists. split; [vm_compute; reflexivity | discriminate]. Qed.

(** ** C4: the category-first schedule *)

Section Mask_shapes.

Lemma same_len2_map_r {A B C} (f : B -> C) (m : list (list A))
    (b : list (list B)) :
  same_len2 m (map (map f) b) = same_len2 m b.
Proof.
  revert b. induction m as [|r m IH]; intros [|rb b]; simpl; auto.
  now rewrite length_map, IH.
Qed.

Lemma selected_same_len2 (m : mat) (u : string) (bm : mat) :
  same_len2 m (selected u bm) = same_len2 m bm.
Proof.
  unfold selected, logical_not, astype_bool.
  destruct (streq u "in_category"); now rewrite ?same_len2_map_r.
Qed.

Lemma nth_negb_true (r : list bool) (j : nat) :
  nth j (map negb r) false = true -> nth j r false = false.
Proof.
  revert j. induction r as [|b r IH]; intros [|j]; simpl; auto.
  now destruct b.
Qed.

Lemma nth_true_negb (r : list bool) (j : nat) :
  nth j r false = true -> nth j (map negb r) false = false.
Proof.
  revert j. induction r as [|b r IH]; intros [|j]; simpl; auto;
    try discriminate.
  now intros ->.
Qed.

Lemma mask_at_logical_not (k : Np.mask) (i j : nat) :
  mask_at (logical_not k) i j = true -> mask_at k i j = false.
Proof.
  unfold mask_at, logical_not.
  change (@nil bool) with (map negb []) at 1. rewrite map_nth.
  apply nth_negb_true.
Qed.

Lemma mask_at_not_logical_not (k : Np.mask) (i j : nat) :
  mask_at k i j = true -> mask_at (logical_not k) i j = false.
Proof.
  unfold mask_at, logical_not.
  change (@nil bool) with (map negb []) at 2. rewrite map_nth.
  apply nth_true_negb.
Qed.

(** The deferred subset and the priority subset do not meet. *)
Lemma deferred_not_priority (ift : string) (bm : mat) (i j : nat) :
  mask_at (selected (deferred ift) bm) i j = true ->
  mask_at (selected (priority ift) bm) i j = false.
Proof.
  unfold deferred, priority, selected.
  destruct (streq ift "converge_in_category_first"); simpl.
  - apply mask_at_logical_not.
  - apply mask_at_not_logical_not.
Qed.

Lemma select_ok (u : mat) (k : Np.mask) :
  same_len2 u k = true ->
  select (Some (Mat u)) k = inr (List.concat (map2 select_row u k)).
Proof. intros H. unfold select. now rewrite H. Qed.

(** Putting back what was selected from [u] succeeds on any matrix of the
    mask's shape. *)
Lemma assign_select_ok (m u : mat) (k : Np.mask) (v : vec) :
  select (Some (Mat u)) k = inr v -> same_len2 m k = true ->
  exists m', assign_vec (Some (Mat m)) k v = inr (Mat m')
             /\ same_len2 m' k = true
             /\ (forall i j, mask_at k i j = true ->
                             entry m' i j = entry u i j)
             /\ (forall i j, mask_at k i j = false ->
                             entry m' i j = entry m i j).
Proof.
  intros Hsel Hm.
  assert (Has : exists a, assign_vec (Some (Mat m)) k v = inr a).
  { pose proof Hsel as Hs. apply select_inv in Hs as [Hu ->].
    unfold assign_vec. rewrite Hm.
    rewrite (select_length _ _ Hu), Nat.eqb_refl. eauto. }
  destruct Has as [a Has].
  destruct (assign_select_inside _ _ _ Hsel Has) as [m' [-> Hin]].
  destruct (assign_vec_outside _ _ _ Has) as [m'' [[= <-] [Hsh Hout]]].
  exists m'. auto.
Qed.

Lemma assign_scalar_ok (m : mat) (k : Np.mask) (x : float) :
  same_len2 m k = true ->
  exists m', assign_scalar (Some (Mat m)) k x = inr (Mat m')
             /\ same_len2 m' k = true
             /\ (forall i j, mask_at k i j = true -> entry m' i j = x).
Proof.
  intros Hm.
  assert (Has : exists a, assign_scalar (Some (Mat m)) k x = inr a)
    by (unfold assign_scalar; rewrite Hm; eauto).
  destruct Has as [a Has].
  destruct (assign_scalar_spec _ _ _ Has) as [m' [-> [Hsh [_ Hin]]]].
  exists m'. auto.
Qed.

End Mask_shapes.

Module PMF_schedule.
Import PMF.

Section WithNumpy.

Variable np : numpy.
Variables (X : sparse) (rows cols : list Z) (vad : held_out).
Variable bm : mat.
Variables g0 r0 : mat.

(** The options of a category-first run of [_update]. *)
Definition policy (ift u : string) (z : bool) : opts :=
  {| beta := Some bm; theta := None; observed_user_preferences := false;
     categorywise := true; item_fit_type := ift;
     user_fit_type := "default"; update := u;
     zero_untrained_components := z;
     initialize_users := "none"; only_update := None |}.

Definition category_first (ift : string) : Prop :=
  ift = "converge_in_category_first" \/ ift = "converge_out_category_first".

Definition k (ift : string) : Np.mask := selected (deferred ift) bm.

Definition sched (ift : string) (tr : list (label * PoissonMF)) : Prop :=
  schedule (k ift) g0 r0 (priority ift) (deferred ift) tr.

Definition shaped (s : PoissonMF) (g r : mat) : Prop :=
  gamma_b s = Some (Mat g) /\ rho_b s = Some (Mat r)
  /\ same_len2 g bm = true /\ same_len2 r bm = true.

Definition clamped_state (ift : string) (s : PoissonMF) : Prop :=
  exists g r,
    shaped s g r
    /\ forall i j, mask_at (k ift) i j = true ->
                   entry g i j = small_num /\ entry r i j = small_num.

(** The locals that hold the cached values and their mask. *)
Definition cache_of (ift : string) (l : locals)
  : option vec * option vec * option Np.mask :=
  if streq ift "converge_in_category_first"
  then (gamma_b_out_category l, rho_b_out_category l, beta_bool_not l)
  else (gamma_b_in_category l, rho_b_in_category l, beta_bool l).

Definition cache_ok (ift : string) (l : locals) : Prop :=
  exists gv rv,
    cache_of ift l = (Some gv, Some rv, Some (k ift))
    /\ select (Some (Mat g0)) (k ift) = inr gv
    /\ select (Some (Mat r0)) (k ift) = inr rv.

(** Before the clamp, in the first run, in the second run, at the end. *)
Definition Inv0 (ift : string) (w : W) : Prop :=
  sched ift (trace w) /\ stage_of (trace w) = Before
  /\ pending (trace w) = None /\ shaped (self w) g0 r0.

Definition Inv1 (ift : string) (l : locals) (w : W) : Prop :=
  sched ift (trace w) /\ stage_of (trace w) = First
  /\ pending (trace w) = None /\ clamped_state ift (self w)
  /\ cache_ok ift l.

Definition Inv2 (ift : string) (w : W) : Prop :=
  sched ift (trace w) /\ stage_of (trace w) = Second
  /\ pending (trace w) = None.

Definition Done (ift : string) (w : W) : Prop :=
  sched ift (trace w) /\ pending (trace w) = None.

Lemma clamped_state_clamped ift s :
  clamped_state ift s -> pmf_clamped (k ift) s.
Proof.
  intros [g [r [[Hg [Hr _]] H]]]. exists g, r. auto.
Qed.

Lemma clamped_state_same ift s s' :
  pmf_items_same s s' -> clamped_state ift s -> clamped_state ift s'.
Proof.
  intros [Eg [Er _]] [g [r [[Hg [Hr Hsh]] H]]]. exists g, r.
  split; [|exact H]. split; [congruence|]. split; [congruence | exact Hsh].
Qed.

Lemma shaped_same s s' g r :
  pmf_items_same s s' -> shaped s g r -> shaped s' g r.
Proof.
  intros [Eg [Er _]] [Hg [Hr Hsh]].
  split; [congruence|]. split; [congruence | exact Hsh].
Qed.

Lemma Inv0_Done ift w : Inv0 ift w -> Done ift w.
Proof. intros [H [_ [Hp _]]]. now split. Qed.

Lemma Inv1_Done ift l w : Inv1 ift l w -> Done ift w.
Proof. intros [H [_ [Hp _]]]. now split. Qed.

Lemma Inv2_Done ift w : Inv2 ift w -> Done ift w.
Proof. intros [H [_ Hp]]. now split. Qed.

(** *** The user update *)

Abbreviation users :=
  (_update_users np X rows cols (Some bm) None false false None).

Lemma users_before ift (w : W) :
  Inv0 ift w ->
  match users w with
  | Ok _ w' => Inv0 ift w'
  | Raise _ w' => Done ift w'
  end.
Proof.
  intros [Hs [Hst [Hp Hsh]]].
  pose proof (PMF_expect._update_users_expect
                np X rows cols (Some bm) None false false None w) as H.
  destruct (users w) as [[] w'|e w'].
  - destruct H as [_ [Hsame Htr]]. unfold Inv0. rewrite Htr.
    cbn [stage_of pending]. split; [|split; [exact Hst|split; [reflexivity|]]].
    + unfold sched. cbn [schedule]. split; [exact Hs|].
      rewrite Hp, Hst. exact I.
    + apply (shaped_same Hsame Hsh).
  - unfold Done. rewrite H. now split.
Qed.

Lemma users_first ift l (w : W) :
  Inv1 ift l w ->
  match users w with
  | Ok _ w' => Inv1 ift l w'
  | Raise _ w' => Done ift w'
  end.
Proof.
  intros [Hs [Hst [Hp [Hc Hl]]]].
  pose proof (PMF_expect._update_users_expect
                np X rows cols (Some bm) None false false None w) as H.
  destruct (users w) as [[] w'|e w'].
  - destruct H as [_ [Hsame Htr]]. unfold Inv1. rewrite Htr.
    cbn [stage_of pending].
    pose proof (clamped_state_same Hsame Hc) as Hc'.
    split; [|split; [exact Hst|split; [reflexivity|split; assumption]]].
    unfold sched. cbn [schedule]. split; [exact Hs|].
    rewrite Hp, Hst. now apply clamped_state_clamped.
  - unfold Done. rewrite H. now split.
Qed.

Lemma users_second ift : steps (keeps (Inv2 ift)) users.
Proof.
  intros w [Hs [Hst Hp]].
  pose proof (PMF_expect._update_users_expect
                np X rows cols (Some bm) None false false None w) as H.
  destruct (users w) as [[] w'|e w']; cbn [state_of].
  - destruct H as [_ [_ Htr]]. unfold Inv2. rewrite Htr.
    cbn [stage_of pending]. split; [|now split].
    unfold sched. cbn [schedule]. split; [exact Hs|].
    rewrite Hp, Hst. exact I.
  - unfold Inv2. rewrite H. now split.
Qed.

(** *** The item update *)

Lemma items_second ift oup :
  steps (keeps (Inv2 ift))
        (_update_items np X rows cols (Some bm) true oup (deferred ift)).
Proof.
  intros w [Hs [Hst Hp]].
  pose proof (PMF_expect._update_items_expect
                np X rows cols (Some bm) true oup (deferred ift) w) as H.
  destruct (_update_items _ _ _ _ _ _ _ _ w) as [[] w'|e w'];
    cbn [state_of].
  - destruct H as [_ [_ Htr]]. unfold Inv2. rewrite Htr.
    cbn [stage_of pending]. split; [|now split].
    unfold sched. cbn [schedule]. split; [exact Hs|].
    rewrite Hp, Hst. reflexivity.
  - unfold Inv2. rewrite H. now split.
Qed.

(** A masked item update keeps the shapes and the entries outside its
    subset. *)
Lemma items_masked u (w : W) (g r : mat) :
  u = "in_category" \/ u = "out_category" ->
  shaped (self w) g r ->
  match _update_items np X rows cols (Some bm) true false u w with
  | Ok _ w' =>
      exists g' r',
        shaped (self w') g' r'
        /\ same_outside (selected u bm) g g'
        /\ same_outside (selected u bm) r r'
        /\ trace w' = (LItems u, self w') :: trace w
  | Raise _ w' => trace w' = trace w
  end.
Proof.
  intros Hu [Hg [Hr [Sg Sr]]].
  unfold _update_items. unfold bind at 1.
  pose proof (PMF_mask._xexplog_reads np rows cols None false false w) as Hx.
  destruct (_xexplog np rows cols None false false w) as [x w1|e w1];
    simpl in Hx; subst w1; [|reflexivity].
  unfold assign_masked.
  destruct Hu as [-> | ->]; run_lifts ltac:(reflexivity).
  all: rewrite Hg in E3; rewrite Hr in E5;
    destruct (assign_vec_outside _ _ _ E3) as [g' [-> [Sg' Hog]]];
    destruct (assign_vec_outside _ _ _ E5) as [r' [-> [Sr' Hor]]];
    exists g', r';
    match goal with
    | |- context [LItems ?u] =>
        split;
        [split; [reflexivity|split; [reflexivity|split]];
         [rewrite <- (selected_same_len2 g' u bm); exact Sg'
         |rewrite <- (selected_same_len2 r' u bm); exact Sr']
        |split; [exact Hog|split; [exact Hor|reflexivity]]]
    end.
Qed.

Lemma items_first ift l (w : W) :
  category_first ift ->
  Inv1 ift l w ->
  match _update_items np X rows cols (Some bm) true false (priority ift) w
  with
  | Ok _ w' => Inv1 ift l w'
  | Raise _ w' => Done ift w'
  end.
Proof.
  intros Hift [Hs [Hst [Hp [[g [r [Hsh Hc]]] Hl]]]].
  assert (Hu : priority ift = "in_category" \/ priority ift = "out_category")
    by (destruct Hift as [-> | ->]; [left | right]; reflexivity).
  pose proof (items_masked w Hu Hsh) as H.
  destruct (_update_items _ _ _ _ _ _ _ _ w) as [[] w'|e w'].
  - destruct H as [g' [r' [Hsh' [Hog [Hor Htr]]]]].
    assert (Hc' : clamped_state ift (self w')).
    { exists g', r'. split; [exact Hsh'|]. intros i j Hk.
      pose proof (deferred_not_priority ift bm i j Hk) as Hn.
      rewrite (Hog i j Hn), (Hor i j Hn). now apply Hc. }
    unfold Inv1. rewrite Htr. cbn [stage_of pending].
    split; [|split; [exact Hst|split; [reflexivity|split; assumption]]].
    unfold sched. cbn [schedule]. split; [exact Hs|].
    rewrite Hp, Hst. split; [reflexivity|].
    now apply clamped_state_clamped.
  - unfold Done. rewrite H. now split.
Qed.

Lemma pred_keeps (P : W -> Prop) :
  hoare P (pred_loglikeli np vad) (fun _ w => P w) (fun _ w => P w).
Proof.
  intros w Hw. pose proof (PMF_expect.pred_loglikeli_reads np vad w) as H.
  destruct (pred_loglikeli np vad w); simpl in H; subst; exact Hw.
Qed.


(** *** The clamp *)

Lemma clamp_step ift l (w : W) :
  category_first ift ->
  Inv0 ift w ->
  match clamp (policy ift "default" true) 0 l w with
  | Ok l' w' => Inv1 ift l' w'
  | Raise _ _ => False
  end.
Proof.
  intros Hift [Hs [Hst [Hp [Hg [Hr [Sg Sr]]]]]].
  assert (Kg : same_len2 g0 (k ift) = true)
    by (unfold k; now rewrite selected_same_len2).
  assert (Kr : same_len2 r0 (k ift) = true)
    by (unfold k; now rewrite selected_same_len2).
  destruct (assign_scalar_ok g0 (k ift) small_num Kg) as [g' [Eg [Sg' Ig]]].
  destruct (assign_scalar_ok r0 (k ift) small_num Kr) as [r' [Er [Sr' Ir]]].
  pose proof (select_ok g0 (k ift) Kg) as Vg.
  pose proof (select_ok r0 (k ift) Kr) as Vr.
  assert (Sgb : same_len2 g' bm = true)
    by (unfold k in Sg'; now rewrite selected_same_len2 in Sg').
  assert (Srb : same_len2 r' bm = true)
    by (unfold k in Sr'; now rewrite selected_same_len2 in Sr').
  unfold clamp. cbn [beta policy item_fit_type update].
  cbv beta iota zeta delta [bind lift of_option].
  destruct Hift as [-> | ->];
    [change (logical_not (astype_bool bm))
       with (k "converge_in_category_first")
    |change (astype_bool bm) with (k "converge_out_category_first")].
  all: run_lifts
         ltac:(exfalso;
               match goal with
               | E : _ = inl _ |- _ =>
                   rewrite ?Hg, ?Hr in E; rewrite ?Vg, ?Vr, ?Eg, ?Er in E;
                   discriminate E
               end).
  all: repeat match goal with
       | E : select (gamma_b _) _ = inr _ |- _ =>
           rewrite Hg, Vg in E; injection E as <-
       | E : select (rho_b _) _ = inr _ |- _ =>
           rewrite Hr, Vr in E; injection E as <-
       | E : assign_scalar (gamma_b _) _ _ = inr _ |- _ =>
           rewrite Hg, Eg in E; injection E as <-
       | E : assign_scalar (rho_b _) _ _ = inr _ |- _ =>
           rewrite Hr, Er in E; injection E as <-
       end.
  all: unfold Inv1; cbn [self trace stage_of pending].
  all: assert (Hc : forall ift,
                 (forall i j, mask_at (k ift) i j = true ->
                              entry g' i j = small_num) ->
                 (forall i j, mask_at (k ift) i j = true ->
                              entry r' i j = small_num) ->
                 clamped_state ift
                   (set_rho_b (Some (Mat r'))
                              (set_gamma_b (Some (Mat g')) (self w))))
         by (intros ift Hi Hj; exists g', r';
             split; [repeat split; assumption | intros; split; auto]).
  all: split; [|split; [reflexivity|split; [reflexivity|split]]].
  all: try (apply Hc; assumption).
  all: try (do 2 eexists; split; [reflexivity | split; assumption]).
  all: unfold sched; cbn [schedule]; (split; [exact Hs|]);
    rewrite Hp, Hst; (split; [reflexivity|split; [reflexivity|]]);
    apply clamped_state_clamped, Hc; assumption.
Qed.

(** *** The restore *)

Lemma restore_step ift i gn rn kn gv rv (w : W) :
  select (Some (Mat g0)) (k ift) = inr gv ->
  select (Some (Mat r0)) (k ift) = inr rv ->
  sched ift (trace w) -> stage_of (trace w) = First ->
  pending (trace w) = Some i -> clamped_state ift (self w) ->
  match restore (policy ift "default" true) i gn rn kn
                (Some gv) (Some rv) (Some (k ift)) w with
  | Ok _ w' => Inv2 ift w'
  | Raise _ _ => False
  end.
Proof.
  intros Vg Vr Hs Hst Hp [g [r [[Hg [Hr [Sg Sr]]] _]]].
  assert (Kg : same_len2 g (k ift) = true)
    by (unfold k; now rewrite selected_same_len2).
  assert (Kr : same_len2 r (k ift) = true)
    by (unfold k; now rewrite selected_same_len2).
  destruct (@assign_select_ok g g0 (k ift) gv Vg Kg) as [g' [Eg [_ [Ig _]]]].
  destruct (@assign_select_ok r r0 (k ift) rv Vr Kr) as [r' [Er [_ [Ir _]]]].
  unfold restore, local. cbn [update policy].
  run_lifts
    ltac:(exfalso;
          match goal with
          | E : _ = inl _ |- _ =>
              simpl in E; rewrite ?Hg, ?Hr in E; rewrite ?Eg, ?Er in E;
              discriminate E
          end).
  repeat match goal with
         | E : assign_vec _ _ _ = inr _ |- _ =>
             simpl in E; rewrite ?Hg, ?Hr in E; rewrite ?Eg, ?Er in E;
             injection E as <-
         end.
  unfold Inv2. cbn [self trace stage_of pending].
  split; [|split; reflexivity].
  unfold sched. cbn [schedule]. split; [exact Hs|]. rewrite Hp.
  split; [reflexivity|]. split; [exact Hst|].
  exists g', r'. split; [reflexivity|]. split; [reflexivity|].
  intros a b Hk. split; [now apply Ig | now apply Ir].
Qed.

(** *** The second run *)

Lemma users_part_plain ift u z i :
  users_part np X rows cols (policy ift u z) i = users.
Proof. reflexivity. Qed.

Lemma items_part_second ift i l :
  category_first ift ->
  items_part np X rows cols (policy ift (deferred ift) false) i l
  = (_update_items np X rows cols (Some bm) true false (deferred ift) ;;
     ret l)%monad.
Proof. intros [-> | ->]; reflexivity. Qed.

Lemma converged_part_second recur ift i l :
  category_first ift ->
  converged_part recur X rows cols vad (policy ift (deferred ift) false) i l
  = ret tt.
Proof. intros [-> | ->]; reflexivity. Qed.

Lemma observe_second ift (lbl : label) :
  match lbl with
  | LUsers => True
  | LItems u | LEval u _ _ _ | LStop u _ => u = deferred ift
  | _ => False
  end ->
  category_first ift ->
  steps (keeps (Inv2 ift)) (observe lbl).
Proof.
  intros Hl Hift w [Hs [Hst Hp]]. unfold observe, modify. cbn [state_of].
  unfold Inv2. cbn [self trace].
  split; [|split].
  - unfold sched. cbn [schedule]. split; [exact Hs|]. rewrite Hp, Hst.
    destruct lbl; auto.
  - destruct lbl; auto; contradiction.
  - destruct lbl; auto. cbn [pending]. rewrite Hl.
    destruct Hift as [-> | ->]; reflexivity.
Qed.

Lemma iteration_second recur ift i l :
  category_first ift ->
  steps (keeps (Inv2 ift))
        (iteration np recur X rows cols vad
                   (policy ift (deferred ift) false) i l).
Proof.
  intros Hift. unfold iteration.
  rewrite users_part_plain, items_part_second by assumption.
  pose proof (@users_second ift) as Hu.
  pose proof (@items_second ift false) as Hi.
  pose proof (@PMF_expect.pred_loglikeli_reads np vad) as Hp.
  apply steps_bind; [exact _ | exact Hu | intros ?].
  apply steps_bind; [exact _ | | intros l1].
  { apply steps_bind; [exact _ | exact Hi | intros ?].
    apply steps_ret; exact _. }
  apply steps_bind; [exact _ | | intros p].
  { intros w Hw. specialize (Hp w).
    destruct (pred_loglikeli np vad w); simpl in *; subst; exact Hw. }
  apply steps_bind; [exact _ | | intros ?].
  { apply observe_second; [reflexivity | assumption]. }
  destruct (is_nan p); [apply steps_raise; exact _|].
  apply steps_bind; [exact _ | apply steps_gets; exact _ | intros s].
  cbv zeta. destruct (tol_stop _ _ _ _ _); [|apply steps_ret; exact _].
  apply steps_bind; [exact _ | | intros ?].
  { apply observe_second; [reflexivity | assumption]. }
  rewrite converged_part_second by assumption.
  apply steps_bind; [exact _ | apply steps_ret; exact _ | intros ?].
  apply steps_ret; exact _.
Qed.

Lemma _update_leaf_second ift :
  category_first ift ->
  steps (keeps (Inv2 ift))
        (_update_leaf np X rows cols vad (policy ift (deferred ift) false)).
Proof.
  intros Hift. unfold _update_leaf, _update_body.
  apply steps_bind; [exact _ | apply steps_gets; exact _ | intros n].
  apply steps_bind; [exact _ | | intros l].
  { apply steps_for_each; [exact _|]. intros i l.
    now apply iteration_second. }
  unfold local.
  apply steps_bind; [exact _ | apply steps_lift; exact _ | intros p].
  apply steps_ret; exact _.
Qed.

Ltac eval_ifs :=
  repeat
    (match goal with
     | |- context [if ?b then _ else _] =>
         let v := eval compute in b in
         match v with
         | true => change b with true
         | false => change b with false
         end
     end; cbv iota).

(** *** The first run *)

Lemma items_part_first ift i l :
  category_first ift ->
  items_part np X rows cols (policy ift "default" true) i l
  = (l1 <- (if (i =? 0)%Z then clamp (policy ift "default" true) i l
            else ret l) ;;
     _update_items np X rows cols (Some bm) true false (priority ift) ;;
     ret l1)%monad.
Proof.
  intros [-> | ->]; unfold items_part;
    cbn [policy beta categorywise update only_update item_fit_type
         zero_untrained_components observed_user_preferences];
    destruct (i =? 0)%Z; reflexivity.
Qed.

Lemma converged_part_first ift i l (w : W) :
  category_first ift -> cache_ok ift l ->
  sched ift (trace w) -> stage_of (trace w) = First ->
  pending (trace w) = Some i -> clamped_state ift (self w) ->
  match converged_part (_update_leaf np) X rows cols vad
                       (policy ift "default" true) i l w with
  | Ok _ w' => Inv2 ift w'
  | Raise _ w' => Done ift w'
  end.
Proof.
  intros Hift [gv [rv [Hc [Vg Vr]]]] Hs Hst Hp Hcl.
  pose proof (fun gn rn kn =>
                @restore_step ift i gn rn kn gv rv w Vg Vr Hs Hst Hp Hcl)
    as Hre.
  pose proof (@_update_leaf_second ift Hift) as Hleaf.
  unfold converged_part. cbn [policy update item_fit_type
                                     zero_untrained_components].
  unfold cache_of in Hc.
  destruct Hift as [-> | ->]; eval_ifs.
  all: simpl in Hc; injection Hc as -> -> ->.
  all: cbv beta iota delta [bind ret].
  all: match goal with
       | |- context [restore ?o ?i ?gn ?rn ?kn ?a ?b ?c ?w0] =>
           specialize (Hre gn rn kn);
           destruct (restore o i gn rn kn a b c w0) as [[] w1|e w1];
           [|contradiction]
       end.
  all: match goal with
       | |- context [_update_leaf ?n ?x ?r ?c ?v ?o ?w1] =>
           specialize (Hleaf w1 Hre);
           match type of Hleaf with
           | Inv2 _ (state_of ?t) =>
               change (_update_leaf n x r c v o w1) with t;
               destruct t as [r' w2|e w2]
           end
       end.
  all: cbn [state_of] in Hleaf; try exact Hleaf; now apply Inv2_Done.
Qed.

Lemma cache_ok_record ift s p l :
  cache_ok ift l -> cache_ok ift (record_best s p l).
Proof. intros H. exact H. Qed.

Lemma cache_ok_old_pll ift p l :
  cache_ok ift l -> cache_ok ift (set_old_pll p l).
Proof. intros H. exact H. Qed.

Lemma observe_eval_first ift l i old p (w : W) :
  Inv1 ift l w ->
  Inv1 ift l {| self := self w;
                trace := (LEval "default" i old p, self w) :: trace w |}.
Proof.
  intros [Hs [Hst [Hp [Hc Hl]]]]. unfold Inv1. cbn [self trace stage_of pending].
  split; [|split; [exact Hst|split; [reflexivity|split; assumption]]].
  unfold sched. cbn [schedule]. split; [exact Hs|]. rewrite Hp, Hst.
  split; [reflexivity | now apply clamped_state_clamped].
Qed.

Lemma observe_stop_first ift l i (w : W) :
  Inv1 ift l w ->
  let w' := {| self := self w;
               trace := (LStop "default" i, self w) :: trace w |} in
  sched ift (trace w') /\ stage_of (trace w') = First
  /\ pending (trace w') = Some i /\ clamped_state ift (self w').
Proof.
  intros [Hs [Hst [Hp [Hc Hl]]]]. cbn [self trace stage_of pending].
  split; [|split; [exact Hst|split; [reflexivity|assumption]]].
  unfold sched. cbn [schedule]. split; [exact Hs|]. rewrite Hp, Hst.
  split; [reflexivity | now apply clamped_state_clamped].
Qed.

Lemma iteration_first ift i l :
  category_first ift ->
  hoare (fun w => if (i =? 0)%Z then Inv0 ift w else Inv1 ift l w)
        (iteration np (_update_leaf np) X rows cols vad
                   (policy ift "default" true) i l)
        (fun r w => if snd r then Done ift w else Inv1 ift (fst r) w)
        (fun _ w => Done ift w).
Proof.
  intros Hift. unfold iteration.
  rewrite users_part_plain, items_part_first by assumption.
  apply hoare_bind with
    (Mid := fun _ w => if (i =? 0)%Z then Inv0 ift w else Inv1 ift l w).
  { intros w Hw. destruct (i =? 0)%Z.
    - apply (users_before Hw).
    - apply (users_first Hw). }
  intros ?.
  apply hoare_bind with (Mid := fun l1 w => Inv1 ift l1 w).
  { apply hoare_bind with (Mid := fun l1 w => Inv1 ift l1 w).
    - destruct (i =? 0)%Z eqn:Ei.
      + apply Z.eqb_eq in Ei. subst i. intros w Hw.
        pose proof (clamp_step l Hift Hw) as H.
        destruct (clamp _ _ _ w); [exact H | contradiction].
      + apply hoare_ret. auto.
    - intros l1. apply hoare_bind with (Mid := fun _ w => Inv1 ift l1 w).
      + intros w Hw. apply (items_first Hift Hw).
      + intros ?. apply hoare_ret. auto. }
  intros l1. cbv beta. cbn [update policy].
  apply hoare_bind with (Mid := fun _ w => Inv1 ift l1 w).
  { intros w Hw.
    pose proof (@PMF_expect.pred_loglikeli_reads np vad w) as H.
    destruct (pred_loglikeli np vad w); simpl in H; subst;
      [exact Hw | now apply Inv1_Done with l1]. }
  intros p.
  apply hoare_bind with (Mid := fun _ w => Inv1 ift l1 w).
  { apply hoare_modify. intros w Hw. now apply observe_eval_first. }
  intros ?. destruct (is_nan p).
  { apply hoare_raise. intros w Hw. now apply Inv1_Done with l1. }
  apply hoare_bind with (Mid := fun _ w => Inv1 ift l1 w).
  { apply hoare_gets. auto. }
  intros s. cbv zeta. destruct (tol_stop _ _ _ _ _).
  - intros w Hw. cbv beta iota delta [bind observe modify ret].
    destruct (observe_stop_first i Hw) as [Hs [Hst [Hp Hc]]].
    destruct Hw as [_ [_ [_ [_ Hl]]]].
    pose proof (@converged_part_first ift i (record_best s p l1) _ Hift
                  (cache_ok_record s p Hl) Hs Hst Hp Hc) as H.
    match goal with
    | |- context [converged_part ?a ?b ?c ?d ?e ?f ?g ?h ?w0] =>
        destruct (converged_part a b c d e f g h w0) as [[] w2|e2 w2]
    end.
    + cbn [snd]. now apply Inv2_Done.
    + exact H.
  - apply hoare_ret. intros w [Hs [Hst [Hp [Hc Hl]]]]. cbn [snd fst].
    unfold Inv1. auto using cache_ok_old_pll.
Qed.

Lemma xrange_head (n i : Z) (rest : list Z) :
  xrange n = i :: rest -> i = 0%Z /\ ~ In 0%Z rest.
Proof.
  unfold xrange. destruct (Z.to_nat n) as [|m]; [discriminate|].
  simpl. intros [= <- <-]. split; [reflexivity|].
  intros H. apply in_map_iff in H as [x [Hx Hin]].
  apply in_seq in Hin. lia.
Qed.

Lemma _update_sched ift :
  category_first ift ->
  hoare (Inv0 ift)
        (_update np X rows cols vad (policy ift "default" true))
        (fun _ w => Done ift w) (fun _ w => Done ift w).
Proof.
  intros Hift. unfold _update, _update_body.
  apply hoare_bind with (Mid := fun _ w => Inv0 ift w);
    [apply hoare_gets; auto|].
  intros n.
  pose (J := fun (idxs : list Z) (l : locals) (w : W) =>
               (idxs = xrange n /\ Inv0 ift w)
               \/ (~ In 0%Z idxs /\ Inv1 ift l w)).
  apply hoare_bind with (Mid := fun _ w => Done ift w).
  - apply hoare_conseq with
      (P' := J (xrange n) init_locals) (Q' := fun _ w => Done ift w)
      (E' := fun _ w => Done ift w); auto.
    + apply hoare_for_each with (J := J).
      * intros i rest l w HJ.
        assert (Hpre : (if (i =? 0)%Z then Inv0 ift w else Inv1 ift l w)
                       /\ ~ In 0%Z rest).
        { destruct HJ as [[Hx H0] | [Hn H1]].
          - symmetry in Hx. apply xrange_head in Hx as [-> Hr].
            split; [exact H0 | exact Hr].
          - assert (Hi : (i =? 0)%Z = false)
              by (apply Z.eqb_neq; intros ->; apply Hn; now left).
            rewrite Hi. split; [exact H1|].
            intros Hr. apply Hn. now right. }
        destruct Hpre as [Hpre Hr].
        pose proof (@iteration_first ift i l Hift w Hpre) as H.
        destruct (iteration _ _ _ _ _ _ _ _ _ w) as [[l' brk] w'|e w'];
          [|exact H].
        cbn [snd fst] in *. destruct brk; [exact H|].
        right. split; assumption.
      * intros l w [[_ H0] | [_ H1]];
          [now apply Inv0_Done | now apply Inv1_Done with l].
    + intros w Hw. left. split; [reflexivity | exact Hw].
  - intros l. unfold local.
    apply hoare_bind with (Mid := fun _ w => Done ift w).
    + apply hoare_lift. intros w Hw. destruct (pred_ll l); exact Hw.
    + intros p. apply hoare_ret. auto.
Qed.

End WithNumpy.

End PMF_schedule.

(** C4, amended, for [PoissonMF] with [zero_untrained_components] set.
    Let [_update] run under ['converge_in_category_first'] or
    ['converge_out_category_first'] with a category matrix [bm] of the
    shape of [gamma_b] and [rho_b].  Whether it returns or raises, its
    record follows [schedule]: the deferred subset of [gamma_b] and
    [rho_b] is set to [1e-5] in iteration 0 before any item update; until
    the default run stops every item update is one of the priority subset
    and the deferred subset stays [1e-5]; the stop of the default run is
    followed by the restore, after which the deferred subset holds the
    values it had at the start; and every item update, evaluation and stop
    after that belongs to the second run, on the deferred subset.  The
    run never ends between the stop and the restore. *)
Theorem category_first_schedule (np : numpy) (X : sparse)
    (rows cols : list Z) (vad : held_out) (bm : mat) (ift : string)
    (s0 : PMF.PoissonMF) (g0 r0 : mat) :
  ift = "converge_in_category_first"
  \/ ift = "converge_out_category_first" ->
  PMF.gamma_b s0 = Some (Mat g0) -> PMF.rho_b s0 = Some (Mat r0) ->
  same_len2 g0 bm = true -> same_len2 r0 bm = true ->
  let o := {| PMF.beta := Some bm; PMF.theta := None;
              PMF.observed_user_preferences := false;
              PMF.categorywise := true; PMF.item_fit_type := ift;
              PMF.user_fit_type := "default"; PMF.update := "default";
              PMF.zero_untrained_components := true;
              PMF.initialize_users := "none"; PMF.only_update := None |} in
  let w' := state_of (PMF._update np X rows cols vad o
                                  {| self := s0; trace := [] |}) in
  schedule (selected (deferred ift) bm) g0 r0 (priority ift) (deferred ift)
           (trace w')
  /\ pending (trace w') = None.
Proof.
  intros Hift Hg Hr Sg Sr o w'.
  assert (H0 : PMF_schedule.Inv0 bm g0 r0 ift {| self := s0; trace := [] |}).
  { split; [exact I|]. split; [reflexivity|]. split; [reflexivity|].
    repeat split; assumption. }
  pose proof (@PMF_schedule._update_sched np X rows cols vad bm g0 r0 ift
                Hift _ H0) as H.
  subst w' o.
  destruct (PMF._update _ _ _ _ _ _ _); exact H.
Qed.


Lemma category_first_schedule_witness :
  (exists r w,
      PMF._update Ref.np Ex.X Ex.rows Ex.cols Ex.vad
        (PMF_schedule.policy Ex.mask "converge_in_category_first"
                             "default" true)
        {| self := self Ex.pmf_ready; trace := [] |} = Ok r w
      /\ stage_of (trace w) = Second)
  /\ schedule (selected (deferred "converge_in_category_first") Ex.mask)
              (Ex.matrix_of (PMF.gamma_b (self Ex.pmf_ready)))
              (Ex.matrix_of (PMF.rho_b (self Ex.pmf_ready)))
              (priority "converge_in_category_first")
              (deferred "converge_in_category_first")
              (trace (state_of
                 (PMF._update Ref.np Ex.X Ex.rows Ex.cols Ex.vad
                    (PMF_schedule.policy Ex.mask "converge_in_category_first"
                                         "default" true)
                    {| self := self Ex.pmf_ready; trace := [] |}))).
Proof.
  split; [do 2 eexists; split; [vm_compute; reflexivity | reflexivity]|].
  refine (proj1 (@category_first_schedule
                   Ref.np Ex.X Ex.rows Ex.cols Ex.vad Ex.mask
                   "converge_in_category_first" (self Ex.pmf_ready)
                   (Ex.matrix_of (PMF.gamma_b (self Ex.pmf_ready)))
                   (Ex.matrix_of (PMF.rho_b (self Ex.pmf_ready)))
                   _ _ _ _ _)).
  - now left.
  - vm_compute. reflexivity.
  - vm_compute. reflexivity.
  - vm_compute. reflexivity.
  - vm_compute. reflexivity.
Defined.

(** C4 as stated fails: [zero_untrained_components] is off unless the
    caller sets it, and then nothing is clamped or restored.  In the fit
    on [Ex.mask] under ['converge_in_category_first'] the record has no
    clamp and no restore, and after the first item update the deferred
    entry [(0, 1)] of [gamma_b] is its initial value, not [1e-5]. *)
Lemma no_clamp_unless_asked :
  exists w,
    PMF.fit Ref.np Ex.X Ex.rows Ex.cols Ex.vad (Some Ex.mask) None true
            "converge_in_category_first" "default" false (Ex.pmf 50)
    = Ok tt w
    /\ forallb (fun l => match l with
                         | LClamp _ _ | LRestore _ _ => false
                         | _ => true
                         end) (Ex.labels w) = true
    /\ exists s,
         nth_error (rev (trace w)) 1 = Some (LItems "in_category", s)
         /\ mask_at (selected "out_category" Ex.mask) 0 1 = true
         /\ (entry (Ex.matrix_of (PMF.gamma_b s)) 0 1 =? small_num)%float
            = false.
Proof.
  eexists. split; [vm_compute; reflexivity|].
  split; [vm_compute; reflexivity|].
  eexists. split; [vm_compute; reflexivity|].
  split; vm_compute; reflexivity.
Qed.

(** * Further properties of the two classes *)

(** ** The hyperparameters *)

(** What [__init__] and [_parse_args] set and no other method assigns. *)
Definition pmf_hyper (o : PMF.PoissonMF) :=
  (PMF.n_components o, PMF.max_iter o, PMF.min_iter o, PMF.tol o,
   PMF.smoothness o, PMF.items_init_scale o, PMF.max_iter_fixed o,
   PMF.a o, PMF.b o, PMF.c o, PMF.d o).

Definition hpmf_hyper (o : HPMF.HPoissonMF) :=
  (HPMF.n_components o, HPMF.max_iter o, HPMF.min_iter o, HPMF.tol o,
   HPMF.smoothness o, HPMF.a o, HPMF.c o, HPMF.a_ksi o, HPMF.b_ksi o,
   HPMF.c_eta o, HPMF.d_eta o).

(** [w'] has the value of [f] that [w] has. *)
Definition same_on {Obj T} (f : Obj -> T) (w w' : world Obj) : Prop :=
  f (self w') = f (self w).

#[export] Instance same_on_pre {Obj T} (f : Obj -> T) : Pre (same_on f).
Proof.
  split; unfold same_on; [reflexivity|].
  intros s1 s2 s3 H12 H23. now rewrite H23.
Qed.

Ltac same_side := intro; unfold same_on; reflexivity.

Module PMF_hyper.
Import PMF.

Section WithNumpy.

Variable np : numpy.

Abbreviation R := (same_on (fun o => (pmf_hyper o, n_users o))).

Lemma draw_same scale r c : steps R (draw np scale r c).
Proof. unfold draw. steps_walk same_side. Qed.
Hint Resolve draw_same : steps.

Lemma _init_users_same n theta : steps R (_init_users np n theta).
Proof. unfold _init_users. steps_walk same_side. Qed.

Lemma _init_items_same n beta cw : steps R (_init_items np n beta cw).
Proof. unfold _init_items. steps_walk same_side. Qed.

Lemma _xexplog_same rows cols beta oia oup :
  steps R (_xexplog np rows cols beta oia oup).
Proof. unfold _xexplog. steps_walk same_side. Qed.
Hint Resolve _init_users_same _init_items_same _xexplog_same : steps.

Lemma _update_users_same X rows cols beta theta oup oia ou :
  steps R (_update_users np X rows cols beta theta oup oia ou).
Proof. unfold _update_users. steps_walk same_side. Qed.

Lemma assign_masked_same k g r : steps R (assign_masked k g r).
Proof. unfold assign_masked. steps_walk same_side. Qed.
Hint Resolve _update_users_same assign_masked_same : steps.

Lemma _update_items_same X rows cols beta cw oup u :
  steps R (_update_items np X rows cols beta cw oup u).
Proof. unfold _update_items. steps_walk same_side. Qed.

Lemma pred_loglikeli_same vad : steps R (pred_loglikeli np vad).
Proof. unfold pred_loglikeli. steps_walk same_side. Qed.
Hint Resolve _update_items_same pred_loglikeli_same : steps.

Lemma users_part_same X rows cols o i :
  steps R (users_part np X rows cols o i).
Proof. unfold users_part. steps_walk same_side. Qed.

Lemma clamp_same o i l : steps R (clamp o i l).
Proof. unfold clamp. steps_walk same_side. Qed.
Hint Resolve users_part_same clamp_same : steps.

Lemma items_part_same X rows cols o i l :
  steps R (items_part np X rows cols o i l).
Proof. unfold items_part. steps_walk same_side. Qed.

Lemma restore_same o i gn rn kn gv rv k :
  steps R (restore o i gn rn kn gv rv k).
Proof. unfold restore, local. steps_walk same_side. Qed.
Hint Resolve items_part_same restore_same : steps.

Lemma _update_body_same recur X rows cols vad o :
  (forall X rows cols vad o, steps R (recur X rows cols vad o)) ->
  steps R (_update_body np recur X rows cols vad o).
Proof.
  intros Hrec. unfold _update_body, iteration, converged_part, local.
  steps_walk same_side.
Qed.

Lemma _update_same X rows cols vad o :
  steps R (_update np X rows cols vad o).
Proof.
  unfold _update. apply _update_body_same. intros.
  unfold _update_leaf. apply _update_body_same. intros.
  apply steps_raise. exact _.
Qed.

Lemma after_set_n_users {A} (m : nat) (rest : M W A) (w : W) :
  steps R rest ->
  let w' := state_of (bind (setattr (set_n_users m)) (fun _ => rest) w) in
  pmf_hyper (self w') = pmf_hyper (self w) /\ n_users (self w') = m.
Proof.
  intros Hr. cbv zeta. unfold bind, setattr, modify.
  specialize (Hr {| self := set_n_users m (self w); trace := trace w |}).
  unfold same_on in Hr. cbn [self] in Hr.
  apply pair_equal_spec in Hr as [Hh Hn]. split; [exact Hh | exact Hn].
Qed.

Lemma fit_same X rows cols vad beta theta cw ift uft z (w : W) :
  let w' := state_of (fit np X rows cols vad beta theta cw ift uft z w) in
  pmf_hyper (self w') = pmf_hyper (self w)
  /\ n_users (self w') = snd (X_shape X).
Proof.
  unfold fit. cbv zeta. apply after_set_n_users.
  pose proof _update_same. unfold round, key, local.
  steps_walk same_side.
Qed.

End WithNumpy.

End PMF_hyper.

Module HPMF_hyper.
Import HPMF.

Section WithNumpy.

Variable np : numpy.

Abbreviation R := (same_on hpmf_hyper).

Lemma draw_same_h r c : steps R (draw np r c).
Proof. unfold draw. steps_walk same_side. Qed.
Hint Resolve draw_same_h : steps.

Lemma _init_users_same_h n : steps R (_init_users np n).
Proof. unfold _init_users. steps_walk same_side. Qed.

Lemma _init_items_same_h n beta : steps R (_init_items np n beta).
Proof. unfold _init_items. steps_walk same_side. Qed.

Lemma _xexplog_same_h rows cols beta : steps R (_xexplog np rows cols beta).
Proof. unfold _xexplog. steps_walk same_side. Qed.
Hint Resolve _init_users_same_h _init_items_same_h _xexplog_same_h : steps.

Lemma _update_users_same_h X rows cols beta cw :
  steps R (_update_users np X rows cols beta cw).
Proof. unfold _update_users. steps_walk same_side. Qed.

Lemma assign_masked_same_h k g r : steps R (assign_masked k g r).
Proof. unfold assign_masked. steps_walk same_side. Qed.
Hint Resolve _update_users_same_h assign_masked_same_h : steps.

Lemma _update_items_same_h X rows cols beta cw u :
  steps R (_update_items np X rows cols beta cw u).
Proof. unfold _update_items. steps_walk same_side. Qed.

Lemma pred_loglikeli_same_h vad : steps R (pred_loglikeli np vad).
Proof. unfold pred_loglikeli. steps_walk same_side. Qed.

Lemma clamp_same_h o i l : steps R (clamp o i l).
Proof. unfold clamp. steps_walk same_side. Qed.
Hint Resolve _update_items_same_h pred_loglikeli_same_h clamp_same_h : steps.

Lemma items_part_same_h X rows cols o i l :
  steps R (items_part np X rows cols o i l).
Proof. unfold items_part. steps_walk same_side. Qed.

Lemma restore_same_h o i gn rn kn gv rv k :
  steps R (restore o i gn rn kn gv rv k).
Proof. unfold restore, local. steps_walk same_side. Qed.
Hint Resolve items_part_same_h restore_same_h : steps.

Lemma _update_body_same_h recur X rows cols vad o :
  (forall X rows cols vad o, steps R (recur X rows cols vad o)) ->
  steps R (_update_body np recur X rows cols vad o).
Proof.
  intros Hrec. unfold _update_body, iteration, converged_part.
  steps_walk same_side.
Qed.

Lemma _update_same_h X rows cols vad o :
  steps R (_update np X rows cols vad o).
Proof.
  unfold _update. apply _update_body_same_h. intros.
  unfold _update_leaf. apply _update_body_same_h. intros.
  apply steps_raise. exact _.
Qed.

Lemma fit_same_h X rows cols vad beta theta cw ift z :
  steps R (fit np X rows cols vad beta theta cw ift z).
Proof. unfold fit. pose proof _update_same_h. steps_walk same_side. Qed.

End WithNumpy.

End HPMF_hyper.

(** X1.  No method assigns a hyperparameter: whatever the arguments and
    the policies, and whether the call returns or raises, [fit] and
    [_update] leave [n_components], [max_iter], [min_iter], [tol],
    [smoothness], the prior parameters (and, in [PoissonMF],
    [items_init_scale] and [max_iter_fixed]) as they were;
    [PoissonMF.fit] leaves [n_users] at [X.shape[1]]. *)
Theorem fit_keeps_hyperparameters (np : numpy) :
  (forall X rows cols vad beta theta cw ift uft z (w : PMF.W),
      let w' := state_of (PMF.fit np X rows cols vad beta theta cw ift uft z
                                  w) in
      pmf_hyper (self w') = pmf_hyper (self w)
      /\ PMF.n_users (self w') = snd (X_shape X))
  /\ (forall X rows cols vad o (w : PMF.W),
         pmf_hyper (self (state_of (PMF._update np X rows cols vad o w)))
         = pmf_hyper (self w))
  /\ (forall X rows cols vad beta theta cw ift z (w : HPMF.W),
         hpmf_hyper (self (state_of (HPMF.fit np X rows cols vad beta theta
                                              cw ift z w)))
         = hpmf_hyper (self w))
  /\ (forall X rows cols vad o (w : HPMF.W),
         hpmf_hyper (self (state_of (HPMF._update np X rows cols vad o w)))
         = hpmf_hyper (self w)).
Proof.
  split; [|split; [|split]].
  - intros. apply PMF_hyper.fit_same.
  - intros.
    pose proof (@PMF_hyper._update_same np X rows cols vad o w) as H.
    unfold same_on in H. now apply pair_equal_spec in H.
  - intros. apply (@HPMF_hyper.fit_same_h np).
  - intros. apply (@HPMF_hyper._update_same_h np).
Qed.

(** ** What [fit] does before the loop *)

Module PMF_start.
Import PMF.

Section WithNumpy.

Variable np : numpy.

(** [fit] after [_init_items] and [_init_users] (lines 137-180). *)
Definition after_init (X : sparse) (rows cols : list Z) (vad : held_out)
    (beta theta : option mat) (categorywise : bool)
    (item_fit_type user_fit_type : string) (zero_untrained_components : bool)
  : M W unit :=
  let oup := if is_ndarray theta then Some true else None in
  if negb (streq user_fit_type "default") then
    n <- getattr max_iter_fixed ;;
    fl <- for_each (round np X rows cols vad beta theta categorywise
                          item_fit_type user_fit_type
                          zero_untrained_components)
                   (xrange n)
                   {| f_observed_user_preferences := oup;
                      f_only_update := None; f_initialize_users := None;
                      f_best_validation_ll := neg_infinity;
                      f_best_Eb := None; f_best_Et := None |} ;;
    be <- local "best_Eb" (f_best_Eb fl) ;;
    setattr (set_Eb be) ;;
    bt <- local "best_Et" (f_best_Et fl) ;;
    setattr (set_Et bt)
  else
    _update np X rows cols vad
      {| beta := beta; theta := None; observed_user_preferences := false;
         categorywise := categorywise; item_fit_type := item_fit_type;
         user_fit_type := user_fit_type; update := "default";
         zero_untrained_components := zero_untrained_components;
         initialize_users := "none"; only_update := None |} ;;
    ret tt.

Lemma fit_eq X rows cols vad beta theta cw ift uft z :
  fit np X rows cols vad beta theta cw ift uft z
  = (setattr (set_n_users (snd (X_shape X))) ;;
     _init_items np (fst (X_shape X)) beta cw ;;
     _init_users np (snd (X_shape X)) theta ;;
     after_init X rows cols vad beta theta cw ift uft z)%monad.
Proof. reflexivity. Qed.

(** The initialisation returns, keeps the hyperparameters, and with a
    given [theta] leaves no [Elogt]. *)
Lemma fit_init X rows cols vad beta theta cw ift uft z (w : W) :
  exists o',
    fit np X rows cols vad beta theta cw ift uft z w
    = after_init X rows cols vad beta theta cw ift uft z
                 {| self := o'; trace := trace w |}
    /\ pmf_hyper o' = pmf_hyper (self w)
    /\ (is_ndarray theta = true -> Elogt o' = None).
Proof.
  rewrite fit_eq.
  set (w1 := {| self := set_n_users (snd (X_shape X)) (self w);
                trace := trace w |}).
  destruct (PMF_facts._init_items_runs np (fst (X_shape X)) beta cw w1)
    as [o2 [E2 _]].
  pose proof (@PMF_hyper._init_items_same np (fst (X_shape X)) beta cw w1)
    as H2.
  rewrite E2 in H2. unfold same_on in H2. cbn [state_of self w1] in H2.
  apply pair_equal_spec in H2 as [H2 _].
  set (w2 := {| self := o2; trace := trace w1 |}) in *.
  destruct (PMF_facts._init_users_runs np (snd (X_shape X)) theta w2)
    as [o3 [E3 _]].
  pose proof (@PMF_hyper._init_users_same np (snd (X_shape X)) theta w2)
    as H3.
  rewrite E3 in H3. unfold same_on in H3. cbn [state_of self w2] in H3.
  apply pair_equal_spec in H3 as [H3 _].
  exists o3. split; [|split].
  - unfold bind at 1, setattr at 1, modify at 1. fold w1.
    rewrite (bind_ok _ _ _ E2). rewrite (bind_ok _ _ _ E3). reflexivity.
  - rewrite H3, H2. reflexivity.
  - destruct theta as [t|]; [intros _|discriminate].
    unfold _init_users in E3. revert E3. msimpl. intros [= <-]. reflexivity.
Qed.

End WithNumpy.

End PMF_start.

Lemma xrange_nonpos (n : Z) : (n <= 0)%Z -> xrange n = [].
Proof.
  intros H. unfold xrange. replace (Z.to_nat n) with 0%nat by lia.
  reflexivity.
Qed.

Module PMF_edges.
Import PMF.

Section WithNumpy.

Variable np : numpy.

Lemma _update_no_iterations X rows cols vad o (w : W) :
  (max_iter (self w) <= 0)%Z ->
  _update np X rows cols vad o w = Raise (NameError "pred_ll") w.
Proof.
  intros H. unfold _update, _update_body.
  unfold bind at 1, getattr at 1, gets at 1.
  rewrite (xrange_nonpos H). reflexivity.
Qed.

Lemma fit_no_iterations X rows cols vad beta theta cw ift z (w : W) :
  (max_iter (self w) <= 0)%Z ->
  exists w',
    fit np X rows cols vad beta theta cw ift "default" z w
    = Raise (NameError "pred_ll") w'
    /\ trace w' = trace w.
Proof.
  intros H.
  destruct (PMF_start.fit_init np X rows cols vad beta theta cw ift "default"
              z w) as [o' [E [Hh _]]].
  rewrite E. unfold PMF_start.after_init.
  replace (negb (streq "default" "default")) with false by reflexivity.
  cbv beta iota zeta. unfold bind at 1.
  rewrite _update_no_iterations.
  - eexists. split; reflexivity.
  - cbn [self]. unfold pmf_hyper in Hh.
    injection Hh as _ Hm _. rewrite Hm. exact H.
Qed.

(** A [user_fit_type] that is neither ['default'] nor
    ['converge_separately'] binds neither [only_update] nor [best_Eb]. *)
Lemma fit_unknown_user_fit_type X rows cols vad beta theta cw ift uft z
    (w : W) :
  uft <> "default" -> uft <> "converge_separately" ->
  exists v w',
    fit np X rows cols vad beta theta cw ift uft z w
    = Raise (NameError v) w'
    /\ trace w' = trace w
    /\ (v = "only_update" \/ v = "best_Eb").
Proof.
  intros Hd Hc.
  apply String.eqb_neq in Hd. apply String.eqb_neq in Hc.
  destruct (PMF_start.fit_init np X rows cols vad beta theta cw ift uft z w)
    as [o' [E _]].
  rewrite E. unfold PMF_start.after_init. unfold streq. rewrite Hd.
  cbv beta iota zeta delta [negb].
  unfold bind at 1, getattr at 1, gets at 1. cbn [self].
  destruct (xrange (max_iter_fixed o')) as [|i rest].
  - exists "best_Eb". eexists. split; [reflexivity|]. split; [reflexivity|].
    now right.
  - exists "only_update", {| self := o'; trace := trace w |}.
    split; [|split; [reflexivity | now left]].
    unfold for_each. unfold bind at 1, bind at 1. unfold round.
    unfold streq. rewrite Hc. reflexivity.
Qed.

(** Without [Elogt] the user update raises at once. *)
Lemma _update_users_no_Elogt X rows cols beta theta oia ou (w : W) :
  Elogt (self w) = None ->
  _update_users np X rows cols beta theta false oia ou w
  = Raise (TypeError "exp") w.
Proof.
  intros H. unfold _update_users, _xexplog. msimpl.
  rewrite andb_false_r. unfold lift, exp, ufunc. rewrite H.
  destruct (Elogb (self w)); reflexivity.
Qed.

Lemma fit_observed_theta X rows cols vad be t cw ift z (w : W) :
  (0 < max_iter (self w))%Z ->
  exists w',
    fit np X rows cols vad be (Some t) cw ift "default" z w
    = Raise (TypeError "exp") w'
    /\ trace w' = trace w.
Proof.
  intros Hmax.
  destruct (PMF_start.fit_init np X rows cols vad be (Some t) cw ift
              "default" z w) as [o' [E [Hh Hl]]].
  specialize (Hl eq_refl).
  assert (Hm : max_iter o' = max_iter (self w))
    by (unfold pmf_hyper in Hh; now injection Hh).
  destruct (@PMF_facts.xrange_pos (max_iter o')) as [rest Hx];
    [rewrite Hm; exact Hmax|].
  rewrite E. unfold PMF_start.after_init.
  replace (negb (streq "default" "default")) with false by reflexivity.
  cbv beta iota zeta.
  exists {| self := o'; trace := trace w |}. split; [|reflexivity].
  unfold bind at 1. unfold _update, _update_body.
  unfold bind at 1, getattr at 1, gets at 1. cbn [self].
  rewrite Hx. unfold for_each. unfold bind at 1, bind at 1.
  unfold iteration. unfold bind at 1, bind at 1.
  unfold users_part.
  cbn [only_update observed_user_preferences update beta theta is_str
       orb andb].
  rewrite _update_users_no_Elogt by exact Hl. reflexivity.
Qed.

End WithNumpy.

End PMF_edges.

Lemma compute_expectations_vectors (np : numpy) (v w : vec) :
  List.length v = List.length w ->
  exists e, _compute_expectations np (Some (Vec v)) (Some (Vec w)) = inr e.
Proof.
  intros H. unfold _compute_expectations. simpl.
  unfold Np.div, Np.sub, bop, bcast.
  rewrite H, Nat.eqb_refl, mapM2_bcast0. simpl.
  rewrite !length_map, H, Nat.eqb_refl, mapM2_bcast0. simpl. eauto.
Qed.

Module HPMF_start.
Import HPMF.

Section WithNumpy.

Variable np : numpy.

Lemma _init_items_runs_h (n : nat) (beta : option mat) (w : W) :
  exists o',
    _init_items np n beta w = Ok tt {| self := o'; trace := trace w |}
    /\ (is_ndarray beta = true -> Elogb o' = None).
Proof.
  unfold _init_items, draw.
  destruct beta as [bm|].
  - msimpl. eexists. split; reflexivity.
  - msimpl.
    repeat match goal with
    | |- context [_compute_expectations np
                    (Some (Mat (sample_matrix ?f ?r ?c)))
                    (Some (Mat (sample_matrix ?g ?r ?c)))] =>
        let e := fresh "e" in let He := fresh "He" in
        destruct (compute_expectations_samples np f g r c) as [e He];
        unfold lift; rewrite He; msimpl
    end.
    eexists. split; [reflexivity | discriminate].
Qed.

Lemma _init_users_runs_h (n : nat) (w : W) :
  exists o',
    _init_users np n w = Ok tt {| self := o'; trace := trace w |}
    /\ Elogb o' = Elogb (self w).
Proof.
  unfold _init_users, draw. msimpl.
  match goal with
  | |- context [_compute_expectations np
                  (Some (Mat (sample_matrix ?f ?r ?c)))
                  (Some (Mat (sample_matrix ?g ?r ?c)))] =>
      let e := fresh "e" in let He := fresh "He" in
      destruct (compute_expectations_samples np f g r c) as [e He];
      unfold lift; rewrite He; msimpl
  end.
  match goal with
  | |- context [_compute_expectations np (Some (Vec ?v)) (Some (Vec ?v'))] =>
      let e := fresh "e" in let He := fresh "He" in
      destruct (@compute_expectations_vectors np v v') as [e He];
      [now rewrite !length_app, !length_map, !length_seq|];
      rewrite He; msimpl
  end.
  eexists. split; reflexivity.
Qed.

(** The initialisation returns and keeps the hyperparameters; with a
    [beta] matrix it leaves no [Elogb], whatever [categorywise] is. *)
Lemma fit_init_h X rows cols vad beta theta cw ift z (w : W) :
  exists o',
    fit np X rows cols vad beta theta cw ift z w
    = _update np X rows cols vad
        {| beta := beta; categorywise := cw; item_fit_type := ift;
           update := "default"; zero_untrained_components := z |}
        {| self := o'; trace := trace w |}
    /\ hpmf_hyper o' = hpmf_hyper (self w)
    /\ (is_ndarray beta = true -> Elogb o' = None).
Proof.
  unfold fit. cbv zeta.
  destruct (_init_items_runs_h (fst (X_shape X)) beta w) as [o1 [E1 Hb]].
  pose proof (@HPMF_hyper._init_items_same_h np (fst (X_shape X)) beta w)
    as H1.
  rewrite E1 in H1. unfold same_on in H1. cbn [state_of self] in H1.
  set (w1 := {| self := o1; trace := trace w |}) in *.
  destruct (_init_users_runs_h (snd (X_shape X)) w1) as [o2 [E2 Hu]].
  pose proof (@HPMF_hyper._init_users_same_h np (snd (X_shape X)) w1) as H2.
  rewrite E2 in H2. unfold same_on in H2. cbn [state_of self w1] in H2.
  exists o2. split; [|split].
  - rewrite (bind_ok _ _ _ E1). rewrite (bind_ok _ _ _ E2). reflexivity.
  - now rewrite H2.
  - intros Hn. rewrite Hu. now apply Hb.
Qed.

End WithNumpy.

End HPMF_start.

(** Decide the tests of a goal whose conditions are closed. *)
Ltac decide_ifs :=
  repeat
    (match goal with
     | |- context [if ?b then _ else _] =>
         let v := eval compute in b in
         match v with
         | true => change b with true
         | false => change b with false
         end
     end; cbv iota).

Module HPMF_edges.
Import HPMF.

Section WithNumpy.

Variable np : numpy.

Lemma _update_no_iterations_h X rows cols vad o (w : W) :
  (max_iter (self w) <= 0)%Z ->
  _update np X rows cols vad o w = Ok tt w.
Proof.
  intros H. unfold _update, _update_body.
  unfold bind at 1, getattr at 1, gets at 1.
  rewrite (xrange_nonpos H). reflexivity.
Qed.

Lemma fit_no_iterations_h X rows cols vad beta theta cw ift z (w : W) :
  (max_iter (self w) <= 0)%Z ->
  exists w',
    fit np X rows cols vad beta theta cw ift z w = Ok tt w'
    /\ trace w' = trace w.
Proof.
  intros H.
  destruct (HPMF_start.fit_init_h np X rows cols vad beta theta cw ift z w)
    as [o' [E [Hh _]]].
  rewrite E, _update_no_iterations_h.
  - eexists. split; reflexivity.
  - cbn [self]. unfold hpmf_hyper in Hh. injection Hh as _ Hm _.
    rewrite Hm. exact H.
Qed.

(** Without [Elogb] the item update raises at once. *)
Lemma _update_items_no_Elogb X rows cols beta cw u (w : W) :
  Elogb (self w) = None ->
  _update_items np X rows cols beta cw u w = Raise (TypeError "exp") w.
Proof.
  intros H. unfold _update_items, _xexplog. msimpl.
  unfold lift, exp, ufunc. rewrite H. reflexivity.
Qed.

Definition known_item_fit_type (ift : string) : Prop :=
  ift = "default" \/ ift = "alternating_updates"
  \/ ift = "converge_in_category_first"
  \/ ift = "converge_out_category_first".

Lemma items_part_no_Elogb X rows cols bm ift z l (w : W) :
  known_item_fit_type ift ->
  Elogb (self w) = None ->
  items_part np X rows cols
             {| beta := Some bm; categorywise := true; item_fit_type := ift;
                update := "default"; zero_untrained_components := z |}
             0 l w
  = Raise (TypeError "exp") w.
Proof.
  intros Hift H. unfold items_part.
  cbn [beta categorywise item_fit_type update zero_untrained_components].
  change (0 =? 1)%Z with false. rewrite andb_false_r. cbn [andb].
  destruct Hift as [-> | [-> | [-> | ->]]]; decide_ifs;
    unfold bind, ret; rewrite ?andb_false_r; cbn [andb]; cbv iota;
    rewrite _update_items_no_Elogb by exact H; reflexivity.
Qed.

Lemma fit_categorywise_raises X rows cols vad bm theta ift z (w : W) :
  known_item_fit_type ift ->
  (0 < max_iter (self w))%Z ->
  exists e w',
    fit np X rows cols vad (Some bm) theta true ift z w = Raise e w'
    /\ (trace w' = trace w
        \/ (e = TypeError "exp"
            /\ exists s, trace w' = (LUsers, s) :: trace w)).
Proof.
  intros Hift Hmax.
  destruct (HPMF_start.fit_init_h np X rows cols vad (Some bm) theta true ift
              z w) as [o' [E [Hh Hl]]].
  specialize (Hl eq_refl).
  assert (Hm : max_iter o' = max_iter (self w))
    by (unfold hpmf_hyper in Hh; now injection Hh).
  destruct (@PMF_facts.xrange_pos (max_iter o')) as [rest Hx];
    [rewrite Hm; exact Hmax|].
  rewrite E. unfold _update, _update_body.
  unfold bind at 1, getattr at 1, gets at 1. cbn [self].
  rewrite Hx. unfold for_each. unfold bind at 1, bind at 1.
  unfold iteration. unfold bind at 1. cbn [beta].
  set (w1 := {| self := o'; trace := trace w |}).
  pose proof (HPMF_expect._update_users_expect_h np X rows cols (Some bm)
                false w1) as Hu.
  destruct (_update_users np X rows cols (Some bm) false w1)
    as [[] w2|e w2].
  - destruct Hu as [_ [[_ [_ [_ Hsame]]] Htr]].
    unfold bind at 1.
    rewrite items_part_no_Elogb;
      [|exact Hift | rewrite Hsame; exact Hl].
    exists (TypeError "exp"), w2. split; [reflexivity|].
    right. split; [reflexivity|]. exists (self w2). exact Htr.
  - exists e, w2. split; [reflexivity|]. left. exact Hu.
Qed.

End WithNumpy.

End HPMF_edges.

(** X2.  With [max_iter <= 0] the loop of [_update] has no turn.
    [PoissonMF._update] then reaches its [return pred_ll, best_pll_dict]
    with [pred_ll] never bound and raises, the object as it was, and so does
    [PoissonMF.fit] once it has initialised; [HPoissonMF._update], which
    returns nothing, comes back with the object as it was, and
    [HPoissonMF.fit] returns without any update having run. *)
Theorem no_iterations (np : numpy) :
  (forall X rows cols vad o (w : PMF.W),
      (PMF.max_iter (self w) <= 0)%Z ->
      PMF._update np X rows cols vad o w = Raise (NameError "pred_ll") w)
  /\ (forall X rows cols vad beta theta cw ift z (w : PMF.W),
      (PMF.max_iter (self w) <= 0)%Z ->
      exists w',
        PMF.fit np X rows cols vad beta theta cw ift "default" z w
        = Raise (NameError "pred_ll") w'
        /\ trace w' = trace w)
  /\ (forall X rows cols vad o (w : HPMF.W),
      (HPMF.max_iter (self w) <= 0)%Z ->
      HPMF._update np X rows cols vad o w = Ok tt w)
  /\ (forall X rows cols vad beta theta cw ift z (w : HPMF.W),
      (HPMF.max_iter (self w) <= 0)%Z ->
      exists w',
        HPMF.fit np X rows cols vad beta theta cw ift z w = Ok tt w'
        /\ trace w' = trace w).
Proof.
  split; [|split; [|split]]; intros.
  - now apply PMF_edges._update_no_iterations.
  - now apply PMF_edges.fit_no_iterations.
  - now apply HPMF_edges._update_no_iterations_h.
  - now apply HPMF_edges.fit_no_iterations_h.
Qed.

Lemma no_iterations_witness :
  (exists w',
      PMF.fit Ref.np Ex.X Ex.rows Ex.cols Ex.vad None None false "default"
              "default" false (Ex.pmf 0)
      = Raise (NameError "pred_ll") w'
      /\ trace w' = trace (Ex.pmf 0))
  /\ (exists w',
      HPMF.fit Ref.np Ex.X Ex.rows Ex.cols Ex.vad None None false "default"
               false (Ex.hpmf 0)
      = Ok tt w'
      /\ trace w' = trace (Ex.hpmf 0)).
Proof.
  split.
  - apply (proj1 (proj2 (no_iterations Ref.np))). simpl. lia.
  - apply (proj2 (proj2 (proj2 (no_iterations Ref.np)))). simpl. lia.
Defined.

(** X3.  [PoissonMF.fit] knows two values of [user_fit_type].  Any other
    one raises a NameError after the initialisation and before any update:
    with [max_iter_fixed > 0] the loop prints [only_update], which no branch
    has bound; without a round, [best_Eb] is unbound after the loop. *)
Theorem fit_rejects_other_user_fit_type (np : numpy) X rows cols vad beta
    theta cw ift uft z (w : PMF.W) :
  uft <> "default" -> uft <> "converge_separately" ->
  exists v w',
    PMF.fit np X rows cols vad beta theta cw ift uft z w
    = Raise (NameError v) w'
    /\ trace w' = trace w
    /\ (v = "only_update" \/ v = "best_Eb").
Proof.
  apply PMF_edges.fit_unknown_user_fit_type.
Qed.

Lemma fit_rejects_other_user_fit_type_witness :
  exists v w',
    PMF.fit Ref.np Ex.X Ex.rows Ex.cols Ex.vad None None false "default"
            "converge" false (Ex.pmf 5)
    = Raise (NameError v) w'
    /\ trace w' = trace (Ex.pmf 5)
    /\ (v = "only_update" \/ v = "best_Eb").
Proof.
  apply (@fit_rejects_other_user_fit_type Ref.np); intro H; discriminate H.
Defined.

(** X4.  [PoissonMF.fit] with an observed [theta] and the default
    [user_fit_type] raises in its first user update, before any update has
    returned: [_init_users] stores [theta] as [Et] and leaves [Elogt] unset,
    and [_update] is called without [theta], so that the user update runs
    and takes [np.exp] of the unset [Elogt]. *)
Theorem fit_default_with_observed_theta (np : numpy) X rows cols vad be t cw
    ift z (w : PMF.W) :
  (0 < PMF.max_iter (self w))%Z ->
  exists w',
    PMF.fit np X rows cols vad be (Some t) cw ift "default" z w
    = Raise (TypeError "exp") w'
    /\ trace w' = trace w.
Proof.
  apply PMF_edges.fit_observed_theta.
Qed.

Lemma fit_default_with_observed_theta_witness :
  exists w',
    PMF.fit Ref.np Ex.X Ex.rows Ex.cols Ex.vad None (Some Ex.mask) false
            "default" "default" false (Ex.pmf 5)
    = Raise (TypeError "exp") w'
    /\ trace w' = trace (Ex.pmf 5).
Proof.
  apply (@fit_default_with_observed_theta Ref.np). simpl. lia.
Defined.

(** X5.  [HPoissonMF.fit] cannot fit the items category-wise.  With an
    item matrix [beta], [categorywise = True] and any of the four
    [item_fit_type]s the loop knows, [_init_items] has stored [beta] as [Eb]
    and left [gamma_b], [rho_b] and [Elogb] unset, so the first item update
    raises on [np.exp(self.Elogb)]: the call raises, and at most the first
    user update has returned. *)
Theorem hpmf_fit_categorywise_raises (np : numpy) X rows cols vad bm theta
    ift z (w : HPMF.W) :
  HPMF_edges.known_item_fit_type ift ->
  (0 < HPMF.max_iter (self w))%Z ->
  exists e w',
    HPMF.fit np X rows cols vad (Some bm) theta true ift z w = Raise e w'
    /\ (trace w' = trace w
        \/ (e = TypeError "exp"
            /\ exists s, trace w' = (LUsers, s) :: trace w)).
Proof.
  apply HPMF_edges.fit_categorywise_raises.
Qed.

Lemma hpmf_fit_categorywise_raises_witness :
  exists e w',
    HPMF.fit Ref.np Ex.X Ex.rows Ex.cols Ex.vad (Some Ex.mask) None true
             "converge_in_category_first" true (Ex.hpmf 5)
    = Raise e w'
    /\ (trace w' = trace (Ex.hpmf 5)
        \/ (e = TypeError "exp"
            /\ exists s, trace w' = (LUsers, s) :: trace (Ex.hpmf 5))).
Proof.
  apply (@hpmf_fit_categorywise_raises Ref.np).
  - right. right. left. reflexivity.
  - simpl. lia.
Defined.

(** ** A fit starts afresh *)

Module PMF_afresh.
Import PMF.

Section WithNumpy.

Variable np : numpy.

(** What the initialisation of [fit] reads of the object it is called on:
    the hyperparameters and the state of the generator. *)
Lemma init_afresh {A} n_items nu beta theta cw (k : M W A) (o o' : PoissonMF)
    (tr : list (label * PoissonMF)) :
  pmf_hyper o = pmf_hyper o' -> rng o = rng o' ->
  (setattr (set_n_users nu) ;;
   _init_items np n_items beta cw ;;
   _init_users np nu theta ;;
   k) {| self := o; trace := tr |}
  = (setattr (set_n_users nu) ;;
     _init_items np n_items beta cw ;;
     _init_users np nu theta ;;
     k) {| self := o'; trace := tr |}.
Proof.
  destruct o, o'. unfold pmf_hyper. cbn [n_components max_iter min_iter tol
    smoothness items_init_scale max_iter_fixed a b c d rng].
  intros [= -> -> -> -> -> -> -> -> -> -> ->] ->.
  unfold _init_items, _init_users, draw.
  destruct beta as [bm|]; [destruct cw|]; destruct theta as [t|]; msimpl;
    repeat (match goal with
            | |- context [_compute_expectations np
                            (Some (Mat (sample_matrix ?f ?r ?c)))
                            (Some (Mat (sample_matrix ?g ?r ?c)))] =>
                destruct (compute_expectations_samples np f g r c) as [? ->]
            end; unfold lift; msimpl);
    reflexivity.
Qed.

Lemma fit_afresh X rows cols vad beta theta cw ift uft z (w w' : W) :
  pmf_hyper (self w) = pmf_hyper (self w') ->
  rng (self w) = rng (self w') ->
  trace w = trace w' ->
  fit np X rows cols vad beta theta cw ift uft z w
  = fit np X rows cols vad beta theta cw ift uft z w'.
Proof.
  destruct w as [o tr], w' as [o' tr']. cbn [self trace].
  intros Hh Hr <-. rewrite PMF_start.fit_eq.
  now apply init_afresh.
Qed.

End WithNumpy.

End PMF_afresh.

Module HPMF_afresh.
Import HPMF.

Section WithNumpy.

Variable np : numpy.

Lemma fit_afresh_h X rows cols vad beta theta cw ift z (w w' : W) :
  hpmf_hyper (self w) = hpmf_hyper (self w') ->
  rng (self w) = rng (self w') ->
  trace w = trace w' ->
  fit np X rows cols vad beta theta cw ift z w
  = fit np X rows cols vad beta theta cw ift z w'.
Proof.
  destruct w as [o tr], w' as [o' tr']. cbn [self trace].
  destruct o, o'. unfold hpmf_hyper. cbn [n_components max_iter min_iter tol
    smoothness a c a_ksi b_ksi c_eta d_eta rng].
  intros [= -> -> -> -> -> -> -> -> -> -> ->] -> <-.
  unfold fit. cbv zeta.
  generalize (_update np X rows cols vad
                {| beta := beta; categorywise := cw; item_fit_type := ift;
                   update := "default"; zero_untrained_components := z |}).
  intros k.
  unfold _init_items, _init_users, draw.
  destruct beta as [bm|]; msimpl;
    repeat (match goal with
            | |- context [_compute_expectations np
                            (Some (Mat (sample_matrix ?f ?r ?c)))
                            (Some (Mat (sample_matrix ?g ?r ?c)))] =>
                destruct (compute_expectations_samples np f g r c) as [? ->]
            | |- context [_compute_expectations np (Some (Vec ?v))
                                                (Some (Vec ?v'))] =>
                destruct (@compute_expectations_vectors np v v') as [? ->];
                [now rewrite !length_app, !length_map, !length_seq|]
            end; unfold lift; msimpl);
    reflexivity.
Qed.

End WithNumpy.

End HPMF_afresh.

(** X6.  A fit starts afresh.  [fit] overwrites every factor array before
    it reads one, so what it does and what it leaves depend on the object
    only through the hyperparameters and the state of the random generator:
    nothing of an earlier fit (or of attributes set by hand) survives or
    influences the new one. *)
Theorem fit_starts_afresh (np : numpy) :
  (forall X rows cols vad beta theta cw ift uft z (w w' : PMF.W),
      pmf_hyper (self w) = pmf_hyper (self w') ->
      PMF.rng (self w) = PMF.rng (self w') ->
      trace w = trace w' ->
      PMF.fit np X rows cols vad beta theta cw ift uft z w
      = PMF.fit np X rows cols vad beta theta cw ift uft z w')
  /\ (forall X rows cols vad beta theta cw ift z (w w' : HPMF.W),
      hpmf_hyper (self w) = hpmf_hyper (self w') ->
      HPMF.rng (self w) = HPMF.rng (self w') ->
      trace w = trace w' ->
      HPMF.fit np X rows cols vad beta theta cw ift z w
      = HPMF.fit np X rows cols vad beta theta cw ift z w').
Proof.
  split; intros.
  - now apply PMF_afresh.fit_afresh.
  - now apply HPMF_afresh.fit_afresh_h.
Qed.

Lemma fit_starts_afresh_witness :
  PMF.fit Ref.np Ex.X Ex.rows Ex.cols Ex.vad None None false "default"
          "default" false (Ex.pmf 5)
  = PMF.fit Ref.np Ex.X Ex.rows Ex.cols Ex.vad None None false "default"
            "default" false
            {| self := PMF.set_Eb (Some (Mat Ex.mask))
                         (PMF.set_n_users 7 (self (Ex.pmf 5)));
               trace := [] |}.
Proof.
  apply (proj1 (fit_starts_afresh Ref.np)); reflexivity.
Defined.

(** ** Item fit types that fit no item *)

(** The arguments with which the loop of [_update] has no branch that calls
    the item update: an [item_fit_type] other than ['default'], and either
    no category-wise [beta] matrix or an [item_fit_type] the loop does not
    test for. *)
Definition no_item_branch (beta : option mat) (categorywise : bool)
    (item_fit_type : string) : Prop :=
  item_fit_type <> "default"
  /\ (is_ndarray beta && categorywise = false
      \/ (item_fit_type <> "alternating_updates"
          /\ item_fit_type <> "converge_in_category_first"
          /\ item_fit_type <> "converge_out_category_first")).

Lemma streq_neq (s t : string) : s <> t -> streq s t = false.
Proof. intros H. unfold streq. now apply String.eqb_neq. Qed.

Lemma no_item_branch_tests beta cw ift :
  no_item_branch beta cw ift ->
  streq ift "default" = false
  /\ is_ndarray beta && cw && streq ift "alternating_updates" = false
  /\ is_ndarray beta && cw && streq ift "converge_in_category_first" = false
  /\ is_ndarray beta && cw && streq ift "converge_out_category_first" = false.
Proof.
  intros [Hd [Hc | [H1 [H2 H3]]]].
  - rewrite Hc, (streq_neq Hd). repeat split; reflexivity.
  - rewrite (streq_neq Hd), (streq_neq H1), (streq_neq H2), (streq_neq H3),
      andb_false_r.
    repeat split; reflexivity.
Qed.

Module PMF_unfitted.
Import PMF.

Section WithNumpy.

Variable np : numpy.

Abbreviation N := (@item_update_free PoissonMF).

Lemma _init_items_free_any n beta cw :
  steps (keeps N) (_init_items np n beta cw).
Proof.
  pose proof (PMF_rotation.draw_free np).
  unfold _init_items. steps_walk free_side.
Qed.

Lemma clamp_free o i l : steps (keeps N) (clamp o i l).
Proof. unfold clamp. steps_walk free_side. Qed.

Section Update.

Variable recur :
  sparse -> list Z -> list Z -> held_out -> opts -> M W (float * best).
Variable o : opts.
Hypothesis no_branch :
  no_item_branch (beta o) (categorywise o) (item_fit_type o).
Hypothesis recur_free : forall X rows cols vad u,
  steps (keeps N) (recur X rows cols vad (second_phase o u)).

Lemma items_part_free X rows cols i l :
  steps (keeps N) (items_part np X rows cols o i l).
Proof.
  destruct (no_item_branch_tests no_branch) as [Hd [H1 [H2 H3]]].
  unfold items_part. rewrite Hd, H1, H2, H3. cbn [negb].
  pose proof clamp_free. steps_walk free_side.
Qed.

Lemma iteration_unfitted X rows cols vad i l :
  steps (keeps N) (iteration np recur X rows cols vad o i l).
Proof.
  unfold iteration.
  pose proof items_part_free.
  pose proof (PMF_rotation.users_part_free np).
  pose proof (PMF_rotation.pred_loglikeli_free np).
  assert (forall X rows cols vad i l,
             steps (keeps N) (converged_part recur X rows cols vad o i l)).
  { intros. unfold converged_part.
    pose proof (@PMF_rotation.restore_free). steps_walk free_side. }
  steps_walk free_side.
Qed.

Lemma _update_body_unfitted X rows cols vad :
  steps (keeps N) (_update_body np recur X rows cols vad o).
Proof.
  unfold _update_body, local. pose proof iteration_unfitted.
  steps_walk free_side.
Qed.

End Update.

Lemma _update_unfitted X rows cols vad o :
  no_item_branch (beta o) (categorywise o) (item_fit_type o) ->
  steps (keeps N) (_update np X rows cols vad o).
Proof.
  intros Hb. unfold _update. apply _update_body_unfitted; try assumption.
  intros X' rows' cols' vad' u. unfold _update_leaf.
  apply _update_body_unfitted; try assumption.
  intros. apply steps_raise. exact _.
Qed.

Lemma fit_unfitted X rows cols vad beta theta cw ift uft z :
  no_item_branch beta cw ift ->
  steps (keeps N) (fit np X rows cols vad beta theta cw ift uft z).
Proof.
  intros Hb. unfold fit, round, key, local.
  pose proof _init_items_free_any.
  pose proof (PMF_rotation._init_users_free np).
  pose proof (fun th oup u iu ou =>
                @_update_unfitted X rows cols vad
                  {| beta := beta; theta := th;
                     observed_user_preferences := oup;
                     categorywise := cw; item_fit_type := ift;
                     user_fit_type := uft; update := u;
                     zero_untrained_components := z;
                     initialize_users := iu; only_update := ou |}
                  Hb) as Hu.
  steps_walk free_side.
Qed.

End WithNumpy.

End PMF_unfitted.

Module HPMF_unfitted.
Import HPMF.

Section WithNumpy.

Variable np : numpy.

Abbreviation N := (@item_update_free HPoissonMF).

Lemma _init_items_free_any_h n beta : steps (keeps N) (_init_items np n beta).
Proof.
  pose proof (HPMF_rotation.draw_free_h np).
  unfold _init_items. steps_walk free_side.
Qed.

Lemma clamp_free_h o i l : steps (keeps N) (clamp o i l).
Proof. unfold clamp. steps_walk free_side. Qed.

Section Update.

Variable recur :
  sparse -> list Z -> list Z -> held_out -> opts -> M W unit.
Variable o : opts.
Hypothesis no_branch :
  no_item_branch (beta o) (categorywise o) (item_fit_type o).
Hypothesis recur_free : forall X rows cols vad u,
  steps (keeps N) (recur X rows cols vad (second_phase o u)).

Lemma items_part_free_h X rows cols i l :
  steps (keeps N) (items_part np X rows cols o i l).
Proof.
  destruct (no_item_branch_tests no_branch) as [Hd [H1 [H2 H3]]].
  unfold items_part. rewrite Hd, H1, H2, H3. cbn [negb].
  pose proof clamp_free_h. steps_walk free_side.
Qed.

Lemma iteration_unfitted_h X rows cols vad i l :
  steps (keeps N) (iteration np recur X rows cols vad o i l).
Proof.
  unfold iteration.
  pose proof items_part_free_h.
  pose proof (HPMF_rotation._update_users_free_h np).
  pose proof (HPMF_rotation.pred_loglikeli_free_h np).
  assert (forall X rows cols vad i l,
             steps (keeps N) (converged_part recur X rows cols vad o i l)).
  { intros. unfold converged_part.
    pose proof (@HPMF_rotation.restore_free_h). steps_walk free_side. }
  steps_walk free_side.
Qed.

Lemma _update_body_unfitted_h X rows cols vad :
  steps (keeps N) (_update_body np recur X rows cols vad o).
Proof.
  unfold _update_body. pose proof iteration_unfitted_h.
  steps_walk free_side.
Qed.

End Update.

Lemma _update_unfitted_h X rows cols vad o :
  no_item_branch (beta o) (categorywise o) (item_fit_type o) ->
  steps (keeps N) (_update np X rows cols vad o).
Proof.
  intros Hb. unfold _update.
  apply _update_body_unfitted_h; try assumption.
  intros X' rows' cols' vad' u. unfold _update_leaf.
  apply _update_body_unfitted_h; try assumption.
  intros. apply steps_raise. exact _.
Qed.

Lemma fit_unfitted_h X rows cols vad beta theta cw ift z :
  no_item_branch beta cw ift ->
  steps (keeps N) (fit np X rows cols vad beta theta cw ift z).
Proof.
  intros Hb. unfold fit.
  pose proof _init_items_free_any_h.
  pose proof (HPMF_rotation._init_users_free_h np).
  pose proof (@_update_unfitted_h X rows cols vad
                {| beta := beta; categorywise := cw;
                   item_fit_type := ift; update := "default";
                   zero_untrained_components := z |} Hb) as Hu.
  steps_walk free_side.
Qed.

End WithNumpy.

End HPMF_unfitted.

(** X7.  An [item_fit_type] other than ['default'] reaches an item update
    only through one of the three category-wise branches of the loop, and
    each of them asks for a [beta] matrix with [categorywise] on.  So a fit
    with ['alternating_updates'] or a ['converge_..._first'] type but
    without such a [beta], or with an [item_fit_type] the loop does not
    know, never updates the items: in both classes no item update returns
    during [fit], whatever else it is called with and however it ends. *)
Theorem fit_without_item_branch (np : numpy) X rows cols vad beta theta cw
    ift uft z (pw : PMF.W) (hw : HPMF.W) :
  no_item_branch beta cw ift ->
  (item_update_free pw ->
   item_update_free
     (state_of (PMF.fit np X rows cols vad beta theta cw ift uft z pw)))
  /\ (item_update_free hw ->
      item_update_free
        (state_of (HPMF.fit np X rows cols vad beta theta cw ift z hw))).
Proof.
  intros Hb. split.
  - apply (@PMF_unfitted.fit_unfitted np X rows cols vad beta theta cw ift
             uft z Hb pw).
  - apply (@HPMF_unfitted.fit_unfitted_h np X rows cols vad beta theta cw
             ift z Hb hw).
Qed.

Lemma fit_without_item_branch_witness :
  (item_update_free (Ex.pmf 5) ->
   item_update_free
     (state_of (PMF.fit Ref.np Ex.X Ex.rows Ex.cols Ex.vad None None true
                        "alternating_updates" "default" false (Ex.pmf 5))))
  /\ (item_update_free (Ex.hpmf 5) ->
      item_update_free
        (state_of (HPMF.fit Ref.np Ex.X Ex.rows Ex.cols Ex.vad None None true
                            "alternating_updates" false (Ex.hpmf 5)))).
Proof.
  apply (@fit_without_item_branch Ref.np).
  split; [discriminate | left; reflexivity].
Defined.


(** Such a fit of [PoissonMF] returns: three user updates, three
    evaluations and a stop, and the item expectations are still those of
    the initialisation. *)
Example pmf_fit_without_item_branch_run :
  exists w,
    PMF.fit Ref.np Ex.X Ex.rows Ex.cols Ex.vad None None true
            "alternating_updates" "default" false (Ex.pmf 5) = Ok tt w
    /\ List.length (trace w) = 7%nat
    /\ PMF.Eb (self w)
       = PMF.Eb (self (state_of (PMF._init_items Ref.np 3 None true
                                                 (Ex.pmf 5)))).
Proof.
  eexists. split; [vm_compute; reflexivity|].
  split; vm_compute; reflexivity.
Qed.

(** ** The recursion of [_update] *)

Lemma bind_ext {S A B} (c c' : M S A) (k k' : A -> M S B) (s : S) :
  (forall s0, c s0 = c' s0) -> (forall a s0, k a s0 = k' a s0) ->
  bind c k s = bind c' k' s.
Proof.
  intros Hc Hk. unfold bind. rewrite Hc.
  destruct (c' s); [apply Hk | reflexivity].
Qed.

Lemma for_each_ext {S I L} (body body' : I -> L -> M S (L * bool))
    (idxs : list I) :
  (forall i l s, body i l s = body' i l s) ->
  forall l s, for_each body idxs l s = for_each body' idxs l s.
Proof.
  intros H. induction idxs as [|i rest IH]; intros l s; [reflexivity|].
  cbn [for_each]. apply bind_ext; [apply H|].
  intros [l1 stop] s0. cbn [fst snd]. destruct stop; [reflexivity | apply IH].
Qed.

(** Two runs of the same code that differ in a callee: equal when the
    callees agree, which [agree] shows. *)
Ltac ext_walk agree :=
  cbv beta zeta;
  lazymatch goal with
  | |- bind _ _ ?s = bind _ _ ?s =>
      apply bind_ext; [intro; ext_walk agree | intros ? ?; ext_walk agree]
  | |- for_each _ ?idxs ?l ?s = for_each _ ?idxs ?l ?s =>
      apply for_each_ext; intros; ext_walk agree
  | |- (if ?b then _ else _) ?s = (if ?b then _ else _) ?s =>
      destruct b; ext_walk agree
  | |- _ => first [reflexivity | agree]
  end.

Module PMF_recursion.
Import PMF.

Section WithNumpy.

Variable np : numpy.

Section Callees.

Variables f g : sparse -> list Z -> list Z -> held_out -> opts
                -> M W (float * best).
Variable o : opts.

(** The two calls [_update] makes of itself. *)
Definition agree_on_calls : Prop :=
  update o = "default" ->
  forall X rows cols vad u w,
    u = "out_category" \/ u = "in_category" ->
    f X rows cols vad (second_phase o u) w
    = g X rows cols vad (second_phase o u) w.

Hypothesis agree : agree_on_calls.

Lemma converged_part_ext X rows cols vad i l w :
  converged_part f X rows cols vad o i l w
  = converged_part g X rows cols vad o i l w.
Proof.
  unfold converged_part.
  destruct (streq (update o) "default") eqn:Hu; [|reflexivity].
  apply String.eqb_eq in Hu. specialize (agree Hu). cbn [andb].
  ext_walk ltac:(apply agree; auto).
Qed.

Lemma iteration_ext X rows cols vad i l w :
  iteration np f X rows cols vad o i l w
  = iteration np g X rows cols vad o i l w.
Proof.
  unfold iteration. ext_walk ltac:(apply converged_part_ext).
Qed.

Lemma _update_body_ext X rows cols vad w :
  _update_body np f X rows cols vad o w
  = _update_body np g X rows cols vad o w.
Proof.
  unfold _update_body. ext_walk ltac:(apply iteration_ext).
Qed.

End Callees.

Lemma _update_unfold_pmf X rows cols vad o w :
  _update np X rows cols vad o w
  = _update_body np (_update np) X rows cols vad o w.
Proof.
  unfold _update at 1. apply _update_body_ext.
  intros _ X' rows' cols' vad' u w' Hu.
  unfold _update_leaf, _update. apply _update_body_ext.
  intros Hd. cbn [second_phase update] in Hd.
  destruct Hu as [-> | ->]; discriminate Hd.
Qed.

End WithNumpy.

End PMF_recursion.

Module HPMF_recursion.
Import HPMF.

Section WithNumpy.

Variable np : numpy.

Section Callees.

Variables f g : sparse -> list Z -> list Z -> held_out -> opts -> M W unit.
Variable o : opts.

Definition agree_on_calls_h : Prop :=
  update o = "default" ->
  forall X rows cols vad u w,
    u = "out_category" \/ u = "in_category" ->
    f X rows cols vad (second_phase o u) w
    = g X rows cols vad (second_phase o u) w.

Hypothesis agree : agree_on_calls_h.

Lemma converged_part_ext_h X rows cols vad i l w :
  converged_part f X rows cols vad o i l w
  = converged_part g X rows cols vad o i l w.
Proof.
  unfold converged_part.
  destruct (streq (update o) "default") eqn:Hu; [|reflexivity].
  apply String.eqb_eq in Hu. specialize (agree Hu). cbn [andb].
  ext_walk ltac:(apply agree; auto).
Qed.

Lemma iteration_ext_h X rows cols vad i l w :
  iteration np f X rows cols vad o i l w
  = iteration np g X rows cols vad o i l w.
Proof.
  unfold iteration. ext_walk ltac:(apply converged_part_ext_h).
Qed.

Lemma _update_body_ext_h X rows cols vad w :
  _update_body np f X rows cols vad o w
  = _update_body np g X rows cols vad o w.
Proof.
  unfold _update_body. ext_walk ltac:(apply iteration_ext_h).
Qed.

End Callees.

Lemma _update_unfold_hpmf X rows cols vad o w :
  _update np X rows cols vad o w
  = _update_body np (_update np) X rows cols vad o w.
Proof.
  unfold _update at 1. apply _update_body_ext_h.
  intros _ X' rows' cols' vad' u w' Hu.
  unfold _update_leaf, _update. apply _update_body_ext_h.
  intros Hd. cbn [second_phase update] in Hd.
  destruct Hu as [-> | ->]; discriminate Hd.
Qed.

End WithNumpy.

End HPMF_recursion.

(** X8.  [_update] is the function the source defines by recursion: in both
    classes it satisfies the equation of its body with the calls
    [self._update(...)] read as [_update] itself.  The recursion is never
    deeper than one call, because [_update] calls itself only when
    [update == 'default'] and then with [update] set to ['out_category'] or
    ['in_category']. *)
Theorem _update_unfold (np : numpy) X rows cols vad :
  (forall o w,
      PMF._update np X rows cols vad o w
      = PMF._update_body np (PMF._update np) X rows cols vad o w)
  /\ (forall o w,
      HPMF._update np X rows cols vad o w
      = HPMF._update_body np (HPMF._update np) X rows cols vad o w).
Proof.
  split; intros o w.
  - apply PMF_recursion._update_unfold_pmf.
  - apply HPMF_recursion._update_unfold_hpmf.
Qed.

(** ** The rates of a masked item update *)

Lemma nth_flat_map_repeat {A} (v : list A) (n p : nat) (d : A) :
  (0 < n)%nat ->
  nth p (flat_map (fun x => repeat x n) v) d = nth (p / n) v d.
Proof.
  intros Hn. revert p. induction v as [|x v IH]; intros p.
  - cbn [flat_map]. destruct (p / n)%nat; now destruct p.
  - cbn [flat_map]. destruct (Nat.lt_ge_cases p n) as [Hp | Hp].
    + rewrite app_nth1 by now rewrite repeat_length.
      rewrite Nat.div_small by exact Hp. cbn [nth].
      apply nth_repeat_lt. exact Hp.
    + rewrite app_nth2 by now rewrite repeat_length.
      rewrite repeat_length, IH.
      replace p with ((p - n) + 1 * n)%nat at 2 by lia.
      rewrite Nat.div_add by lia.
      now rewrite Nat.add_1_r.
Qed.

Lemma length_flat_map_repeat {A} (v : list A) (n : nat) :
  List.length (flat_map (fun x => repeat x n) v) = (List.length v * n)%nat.
Proof.
  induction v as [|x v IH]; [reflexivity|].
  cbn [flat_map]. rewrite length_app, repeat_length, IH. cbn. lia.
Qed.

Lemma nth_chunk (k nr : nat) (v : vec) (i j : nat) (d : float) :
  (i < nr)%nat -> (j < k)%nat ->
  nth j (nth i (chunk k nr v) []) d = nth (i * k + j) v d.
Proof.
  revert v i. induction nr as [|nr IH]; intros v i Hi Hj; [lia|].
  cbn [chunk]. destruct i as [|i].
  - cbn [nth Nat.mul Nat.add]. rewrite nth_firstn.
    apply Nat.ltb_lt in Hj. now rewrite Hj.
  - cbn [nth]. rewrite IH by lia. rewrite nth_skipn. f_equal. lia.
Qed.

Lemma rect_chunk (k nr : nat) (v : vec) :
  List.length v = (nr * k)%nat -> rect (chunk k nr v) nr k.
Proof.
  revert v. induction nr as [|nr IH]; intros v Hv; [split; constructor|].
  cbn [chunk]. destruct (IH (skipn k v)) as [Hl Hr].
  { rewrite length_skipn. lia. }
  split; [cbn; now rewrite Hl|].
  constructor; [|exact Hr]. rewrite length_firstn. lia.
Qed.

(** X9.  The rates a masked item update of [PoissonMF] writes.  With [Et]
    of [K] rows and [rho_b] of shape [(n, K)], [rho_b_updated_reshaped] has
    the shape of [rho_b], and its entry [(i, j)] is entry
    [(i * K + j) div n] of [rho_b_updated = d + sum(Et, axis=1)]:
    [np.repeat] lays each rate out [n] times in a row before [np.reshape]
    cuts the buffer into rows of [K], so the entry is not in general the
    rate of component [j]. *)
Theorem rho_b_reshaped_layout (o : PMF.PoissonMF) (et rb : mat)
    (n K U : nat) :
  PMF.Et o = Some (Mat et) -> rect et K U ->
  PMF.rho_b o = Some (Mat rb) -> rect rb n K -> (0 < n)%nat ->
  exists m,
    PMF.rho_b_updated_reshaped o = inr (Mat m)
    /\ rect m n K
    /\ forall i j, (i < n)%nat -> (j < K)%nat ->
         entry m i j
         = (PMF.d o + fsum (nth ((i * K + j) / n) et []))%float.
Proof.
  intros HEt [HetL _] Hrb [HrbL HrbR] Hn.
  assert (Hc : ncols rb = K).
  { unfold ncols. destruct rb as [|r rb]; [cbn in HrbL; lia|].
    now inversion HrbR. }
  set (v := map (PrimFloat.add (PMF.d o)) (map fsum et)).
  assert (Hv : List.length v = K) by (unfold v; now rewrite !length_map).
  exists (chunk K n (flat_map (fun x => repeat x n) v)).
  split; [|split].
  - unfold PMF.rho_b_updated_reshaped. rewrite HEt, Hrb.
    cbn [sum_axis1 rbind Np.add bop shape0 shape repeat0]. fold v.
    unfold nrows. rewrite HrbL, Hc. cbn [reshape].
    rewrite length_flat_map_repeat, Hv.
    replace (K * n =? n * K)%nat with true
      by (symmetry; apply Nat.eqb_eq; lia).
    reflexivity.
  - apply rect_chunk. rewrite length_flat_map_repeat, Hv. lia.
  - intros i j Hi Hj. unfold entry.
    rewrite nth_chunk, nth_flat_map_repeat by assumption.
    assert (Hq : ((i * K + j) / n < K)%nat)
      by (apply Nat.Div0.div_lt_upper_bound; nia).
    unfold v.
    rewrite (nth_indep _ 0%float (PMF.d o + fsum [])%float)
      by (rewrite !length_map; apply Nat.lt_le_trans with K;
          [exact Hq | apply Nat.eq_le_incl; symmetry; exact HetL]).
    rewrite (map_nth (PrimFloat.add (PMF.d o))).
    rewrite (map_nth fsum). reflexivity.
Qed.

Lemma rho_b_reshaped_layout_witness :
  exists m,
    PMF.rho_b_updated_reshaped (self Ex.pmf_ready) = inr (Mat m)
    /\ rect m 3 2
    /\ forall i j, (i < 3)%nat -> (j < 2)%nat ->
         entry m i j
         = (PMF.d (self Ex.pmf_ready)
            + fsum (nth ((i * 2 + j) / 3)
                        (Ex.matrix_of (PMF.Et (self Ex.pmf_ready))) []))%float.
Proof.
  apply (@rho_b_reshaped_layout (self Ex.pmf_ready)
           (Ex.matrix_of (PMF.Et (self Ex.pmf_ready)))
           (Ex.matrix_of (PMF.rho_b (self Ex.pmf_ready))) 3 2 3).
  - vm_compute. reflexivity.
  - split; vm_compute; [reflexivity | repeat constructor].
  - vm_compute. reflexivity.
  - split; vm_compute; [reflexivity | repeat constructor].
  - lia.
Defined.

(** With three items and two components the three rows are [a, a], [a, b]
    and [b, b], for the rates [a < b] of the two components. *)
Example rho_b_reshaped_rows :
  exists a b,
    PMF.rho_b_updated_reshaped (self Ex.pmf_ready)
    = inr (Mat [[a; a]; [a; b]; [b; b]])
    /\ (a <? b)%float = true.
Proof.
  eexists. eexists. split; vm_compute; reflexivity.
Qed.

(** ** An empty held-out set *)

(** [c] raises from every state. *)
Definition raises {S A} (c : M S A) : Prop :=
  forall s, exists e s', c s = Raise e s'.

Lemma raises_raise {S A} (e : exn) : raises (@raise S A e).
Proof. intros s. now exists e, s. Qed.

Lemma raises_bind_l {S A B} (c : M S A) (k : A -> M S B) :
  raises c -> raises (bind c k).
Proof.
  intros H s. destruct (H s) as [e [s' E]]. exists e, s'.
  unfold bind. now rewrite E.
Qed.

Lemma raises_bind_r {S A B} (c : M S A) (k : A -> M S B) :
  (forall a, raises (k a)) -> raises (bind c k).
Proof.
  intros H s. unfold bind. destruct (c s) as [a s'|e s'].
  - apply H.
  - now exists e, s'.
Qed.

Lemma raises_for_each {S I L} (body : I -> L -> M S (L * bool)) i rest l :
  raises (body i l) -> raises (for_each body (i :: rest) l).
Proof. intros H. cbn [for_each]. now apply raises_bind_l. Qed.

(** The mean of no numbers. *)
Lemma mean_nil : is_nan (mean []) = true.
Proof. reflexivity. Qed.

Lemma mul_vec_nil (xs : vec) (a : ndarray) :
  Np.mul (Vec xs) (Vec []) = inr a -> a = Vec [].
Proof.
  unfold Np.mul, bop, bcast. cbn [List.length].
  destruct xs as [|x [|y xs]]; cbn; intros [= <-]; reflexivity.
Qed.

Module PMF_empty.
Import PMF.

Section WithNumpy.

Variable np : numpy.
Variable vad : held_out.
Hypothesis no_rows : rows_new vad = [].

(** The evaluation either raises or is a NaN. *)
Lemma pred_loglikeli_empty (s s' : W) (p : float) :
  pred_loglikeli np vad s = Ok p s' -> is_nan p = true.
Proof.
  unfold pred_loglikeli, bind, getattr, gets, lift, _inner.
  rewrite no_rows.
  destruct (Et (self s)) as [[x|v|t]|]; try (intros H; discriminate H).
  destruct (Eb (self s)) as [b|]; try (intros H; discriminate H).
  cbn [inner_loop log ufunc umap map rbind].
  destruct (Np.mul (Vec (X_new vad)) (Vec [])) as [e|a] eqn:E;
    [intros H; discriminate H|].
  apply mul_vec_nil in E. subst a.
  cbn [Np.sub bop bcast bcast0 mapM2 List.length Nat.eqb option_map of_option
       rbind ravel].
  intros [= <- _]. reflexivity.
Qed.

Lemma evaluation_raises {A} (k : float -> M W A) :
  (forall p, is_nan p = true -> raises (k p)) ->
  raises (p <- pred_loglikeli np vad ;; k p).
Proof.
  intros H s. unfold bind.
  destruct (pred_loglikeli np vad s) as [p s'|e s'] eqn:E.
  - apply H. now apply pred_loglikeli_empty in E.
  - now exists e, s'.
Qed.

Lemma iteration_raises recur X rows cols o i l :
  raises (iteration np recur X rows cols vad o i l).
Proof.
  unfold iteration.
  apply raises_bind_r; intros _. apply raises_bind_r; intros l1.
  apply evaluation_raises. intros p Hp.
  apply raises_bind_r; intros _. rewrite Hp. apply raises_raise.
Qed.

Lemma _update_body_raises recur X rows cols o :
  raises (_update_body np recur X rows cols vad o).
Proof.
  unfold _update_body. apply raises_bind_r; intros n.
  destruct (xrange n) as [|i rest].
  - intros s. now exists (NameError "pred_ll"), s.
  - apply raises_bind_l, raises_for_each, iteration_raises.
Qed.

Lemma _update_raises X rows cols o : raises (_update np X rows cols vad o).
Proof. apply _update_body_raises. Qed.

Lemma fit_raises X rows cols beta theta cw ift uft z :
  raises (fit np X rows cols vad beta theta cw ift uft z).
Proof.
  unfold fit. cbv zeta.
  apply raises_bind_r; intros _. apply raises_bind_r; intros _.
  apply raises_bind_r; intros _.
  destruct (negb (streq uft "default")).
  - apply raises_bind_r; intros n. destruct (xrange n) as [|i rest].
    + intros s. now exists (NameError "best_Eb"), s.
    + apply raises_bind_l, raises_for_each. unfold round.
      apply raises_bind_r; intros ou. apply raises_bind_r; intros oup.
      apply raises_bind_r; intros iu.
      apply raises_bind_l, _update_raises.
  - apply raises_bind_l, _update_raises.
Qed.

End WithNumpy.

End PMF_empty.

Module HPMF_empty.
Import HPMF.

Section WithNumpy.

Variable np : numpy.
Variable vad : held_out.
Hypothesis no_rows : rows_new vad = [].

Lemma pred_loglikeli_empty_h (s s' : W) (p : float) :
  pred_loglikeli np vad s = Ok p s' -> is_nan p = true.
Proof.
  unfold pred_loglikeli, bind, getattr, gets, lift, _inner.
  rewrite no_rows.
  destruct (Et (self s)) as [[x|v|t]|]; try (intros H; discriminate H).
  destruct (Eb (self s)) as [b|]; try (intros H; discriminate H).
  cbn [inner_loop log ufunc umap map rbind].
  destruct (Np.mul (Vec (X_new vad)) (Vec [])) as [e|a] eqn:E;
    [intros H; discriminate H|].
  apply mul_vec_nil in E. subst a.
  cbn [Np.sub bop bcast bcast0 mapM2 List.length Nat.eqb option_map of_option
       rbind ravel].
  intros [= <- _]. reflexivity.
Qed.

Lemma evaluation_raises_h {A} (k : float -> M W A) :
  (forall p, is_nan p = true -> raises (k p)) ->
  raises (p <- pred_loglikeli np vad ;; k p).
Proof.
  intros H s. unfold bind.
  destruct (pred_loglikeli np vad s) as [p s'|e s'] eqn:E.
  - apply H. now apply pred_loglikeli_empty_h in E.
  - now exists e, s'.
Qed.

Lemma iteration_raises_h recur X rows cols o i l :
  raises (iteration np recur X rows cols vad o i l).
Proof.
  unfold iteration.
  apply raises_bind_r; intros _. apply raises_bind_r; intros l1.
  apply evaluation_raises_h. intros p Hp.
  apply raises_bind_r; intros _. rewrite Hp. apply raises_raise.
Qed.

Lemma _update_raises_h X rows cols o (w : W) :
  (0 < max_iter (self w))%Z ->
  exists e w', _update np X rows cols vad o w = Raise e w'.
Proof.
  intros Hmax. unfold _update, _update_body.
  unfold bind at 1, getattr at 1, gets at 1.
  destruct (PMF_facts.xrange_pos Hmax) as [rest ->].
  apply raises_bind_l, raises_for_each, iteration_raises_h.
Qed.

Lemma fit_raises_h X rows cols beta theta cw ift z (w : W) :
  (0 < max_iter (self w))%Z ->
  exists e w', fit np X rows cols vad beta theta cw ift z w = Raise e w'.
Proof.
  intros Hmax.
  destruct (HPMF_start.fit_init_h np X rows cols vad beta theta cw ift z w)
    as [o' [-> [Hh _]]].
  apply _update_raises_h. cbn [self].
  unfold hpmf_hyper in Hh. injection Hh as _ Hm _. now rewrite Hm.
Qed.

End WithNumpy.

End HPMF_empty.

(** X10.  With no held-out ratings a fit cannot succeed.  [pred_loglikeli]
    over an empty [rows_new] takes the mean of no numbers, a NaN (unless the
    shapes of [X_new] and the empty prediction already clash), and the loop
    raises on a NaN evaluation.  So [PoissonMF._update] and [PoissonMF.fit]
    raise whatever they are called with, and [HPoissonMF._update] and
    [HPoissonMF.fit] raise as soon as [max_iter] allows one iteration. *)
Theorem empty_held_out_raises (np : numpy) X rows cols vad :
  rows_new vad = [] ->
  (forall o w, exists e w',
      PMF._update np X rows cols vad o w = Raise e w')
  /\ (forall beta theta cw ift uft z w, exists e w',
      PMF.fit np X rows cols vad beta theta cw ift uft z w = Raise e w')
  /\ (forall o (w : HPMF.W),
      (0 < HPMF.max_iter (self w))%Z ->
      exists e w', HPMF._update np X rows cols vad o w = Raise e w')
  /\ (forall beta theta cw ift z (w : HPMF.W),
      (0 < HPMF.max_iter (self w))%Z ->
      exists e w',
        HPMF.fit np X rows cols vad beta theta cw ift z w = Raise e w').
Proof.
  intros Hv. split; [|split; [|split]]; intros.
  - now apply PMF_empty._update_raises.
  - now apply PMF_empty.fit_raises.
  - now apply HPMF_empty._update_raises_h.
  - now apply HPMF_empty.fit_raises_h.
Qed.

Lemma empty_held_out_raises_witness :
  (exists e w',
      PMF.fit Ref.np Ex.X Ex.rows Ex.cols
              {| X_new := []; rows_new := []; cols_new := [] |}
              None None false "default" "default" false (Ex.pmf 5)
      = Raise e w')
  /\ (exists e w',
      HPMF.fit Ref.np Ex.X Ex.rows Ex.cols
               {| X_new := []; rows_new := []; cols_new := [] |}
               None None false "default" false (Ex.hpmf 5)
      = Raise e w').
Proof.
  split.
  - apply (proj1 (proj2 (@empty_held_out_raises Ref.np Ex.X Ex.rows Ex.cols
                           {| X_new := []; rows_new := []; cols_new := [] |}
                           eq_refl))).
  - apply (proj2 (proj2 (proj2 (@empty_held_out_raises Ref.np Ex.X Ex.rows
                                  Ex.cols
                                  {| X_new := []; rows_new := [];
                                     cols_new := [] |}
                                  eq_refl)))).
    simpl. lia.
Defined.

(** On the worked example both classes get through the first user and item
    update and stop at the first evaluation. *)
Example empty_held_out_run :
  (exists w,
      PMF.fit Ref.np Ex.X Ex.rows Ex.cols
              {| X_new := []; rows_new := []; cols_new := [] |}
              None None false "default" "default" false (Ex.pmf 5)
      = Raise (Exception "nan in predictive ll") w
      /\ Ex.labels w
         = [LEval "default" 0 neg_infinity nan; LItems "default"; LUsers])
  /\ (exists w,
      HPMF.fit Ref.np Ex.X Ex.rows Ex.cols
               {| X_new := []; rows_new := []; cols_new := [] |}
               None None false "default" false (Ex.hpmf 5)
      = Raise (Exception "nan in predictive ll") w
      /\ Ex.labels w
         = [LEval "default" 0 neg_infinity nan; LItems "default"; LUsers]).
Proof.
  split; eexists; (split; [vm_compute; reflexivity|]); vm_compute;
    reflexivity.
Qed.

(** ** The alternating item fit *)

(** The item update [item_fit_type = 'alternating_updates'] runs at
    iteration [i]. *)
Definition alternating_kind (i : Z) : string :=
  if (i mod 2 =? 0)%Z then "in_category" else "out_category".

(** On a record (newest first), every evaluation comes right after an item
    update of the kind its iteration number asks for. *)
Fixpoint alternating {Obj} (tr : list (label * Obj)) : Prop :=
  match tr with
  | [] => True
  | (LEval _ i _ _, _) :: older =>
      match older with
      | (LItems u, _) :: _ => u = alternating_kind i
      | _ => False
      end
      /\ alternating older
  | _ :: older => alternating older
  end.

Lemma alternating_neutral {Obj} (new tr : list (label * Obj)) :
  Forall (fun ev => neutral (fst ev) = true) new ->
  alternating tr -> alternating (new ++ tr).
Proof.
  induction 1 as [|[l o] new Hl _ IH]; intros Ht; [exact Ht|].
  cbn [app]. destruct l; try discriminate Hl; cbn; auto.
Qed.

Lemma quiet_alternating {Obj} (w w' : world Obj) :
  quiet w w' -> alternating (trace w) -> alternating (trace w').
Proof. intros [new [-> Hn]]. now apply alternating_neutral. Qed.

Module PMF_alternating.
Import PMF.

Section WithNumpy.

Variable np : numpy.

(** The options of an alternating category-wise run of the loop. *)
Definition alternating_opts (o : opts) : Prop :=
  is_ndarray (beta o) = true /\ categorywise o = true
  /\ item_fit_type o = "alternating_updates"
  /\ streq (update o) "users" = false
  /\ is_str (only_update o) "users" = false.

Section Loop.

Variable recur :
  sparse -> list Z -> list Z -> held_out -> opts -> M W (float * best).
Variable o : opts.
Hypothesis alt : alternating_opts o.

Lemma items_part_alternating X rows cols i l (w : W) :
  alternating (trace w) ->
  match items_part np X rows cols o i l w with
  | Ok _ w' =>
      alternating (trace w')
      /\ exists s older, trace w' = (LItems (alternating_kind i), s) :: older
  | Raise _ w' => alternating (trace w')
  end.
Proof.
  intros Hw. destruct alt as [Hb [Hc [Hi [Hu Ho]]]].
  unfold items_part. rewrite Hb, Hc, Hi, Hu, Ho.
  change (streq "alternating_updates" "default") with false.
  change (streq "alternating_updates" "alternating_updates") with true.
  cbn [negb andb orb].
  unfold bind at 1.
  set (c := if _ && _ && _ then clamp o i l else ret l).
  assert (Hq : quiet w (state_of (c w))).
  { subst c. destruct (_ && _ && _); [apply PMF_quiet.clamp_quiet|].
    apply steps_ret. exact _. }
  destruct (c w) as [l1 w1|e w1]; cbn [state_of] in Hq;
    apply quiet_alternating in Hq; try exact Hw; [|exact Hq].
  unfold alternating_kind.
  destruct (i mod 2 =? 0)%Z; unfold bind at 1;
    match goal with
    | |- context [_update_items np X rows cols ?b ?cw ?oup ?u w1] =>
        pose proof (PMF_expect._update_items_expect np X rows cols b cw oup
                      u w1) as Hx;
        pose proof (PMF_quiet._update_items_quiet np X rows cols b cw oup u
                      w1) as Hq';
        destruct (_update_items np X rows cols b cw oup u w1)
          as [[] w2|e w2]
    end; cbn [state_of ret] in *;
    apply quiet_alternating in Hq'; try exact Hq; try exact Hq'.
  all: split; [exact Hq'|]; destruct Hx as [_ [_ Hx]]; eauto.
Qed.

Lemma iteration_alternating X rows cols vad i l (w : W) :
  alternating (trace w) ->
  alternating
    (trace (state_of (iteration np recur X rows cols vad o i l w))).
Proof.
  intros Hw. unfold iteration. unfold bind at 1.
  pose proof (PMF_quiet.users_part_quiet np X rows cols o i w) as Hq.
  destruct (users_part np X rows cols o i w) as [[] w1|e w1];
    cbn [state_of] in *; apply quiet_alternating in Hq; try exact Hw;
    [|exact Hq].
  unfold bind at 1.
  pose proof (items_part_alternating X rows cols i l w1 Hq) as Hi.
  destruct (items_part np X rows cols o i l w1) as [l1 w2|e w2];
    cbn [state_of]; [|exact Hi].
  destruct Hi as [Hw2 [s [older Ht]]].
  unfold bind at 1.
  pose proof (PMF_expect.pred_loglikeli_reads np vad w2) as Hp.
  destruct (pred_loglikeli np vad w2) as [p w3|e w3]; cbn [state_of] in Hp;
    subst w3; [|exact Hw2].
  assert (He : alternating
                 ((LEval (update o) i (old_pll l1) p, self w2) :: trace w2)).
  { cbn [alternating]. split; [|exact Hw2]. now rewrite Ht. }
  destruct alt as [_ [_ [Hift _]]].
  unfold bind at 1, observe at 1, modify at 1.
  destruct (is_nan p); [exact He|].
  unfold bind at 1, getattr at 1, gets at 1. cbv zeta.
  destruct (tol_stop _ _ _ _ _); [|exact He].
  unfold converged_part. rewrite Hift.
  destruct (streq (update o) "default"); exact He.
Qed.

End Loop.

Lemma _update_alternating X rows cols vad o (w : W) :
  alternating_opts o ->
  alternating (trace w) ->
  alternating (trace (state_of (_update np X rows cols vad o w))).
Proof.
  intros Ho. revert w.
  change (steps (keeps (fun w : W => alternating (trace w)))
                (_update np X rows cols vad o)).
  unfold _update, _update_body, local.
  assert (forall i l,
             steps (keeps (fun w : W => alternating (trace w)))
                   (iteration np (_update_leaf np) X rows cols vad o i l))
    by (intros i l w Hw; cbv beta; now apply iteration_alternating).
  steps_walk ltac:(idtac).
Qed.

Lemma fit_alternating X rows cols vad bm theta z (w : W) :
  alternating (trace w) ->
  alternating
    (trace (state_of (fit np X rows cols vad (Some bm) theta true
                          "alternating_updates" "default" z w))).
Proof.
  revert w.
  change (steps (keeps (fun w : W => alternating (trace w)))
                (fit np X rows cols vad (Some bm) theta true
                     "alternating_updates" "default" z)).
  unfold fit. change (negb (streq "default" "default")) with false.
  cbv iota.
  assert (Hq : forall A (c : M W A),
             steps quiet c ->
             steps (keeps (fun w : W => alternating (trace w))) c).
  { intros A c. apply steps_weaken. intros w w' Hq Hw.
    exact (quiet_alternating Hq Hw). }
  pose proof (Hq _ _ (PMF_quiet._init_items_quiet np (fst (X_shape X))
                        (Some bm) true)).
  pose proof (Hq _ _ (PMF_quiet._init_users_quiet np (snd (X_shape X))
                        theta)).
  assert (steps (keeps (fun w : W => alternating (trace w)))
                (_update np X rows cols vad
                   {| beta := Some bm; theta := None;
                      observed_user_preferences := false;
                      categorywise := true;
                      item_fit_type := "alternating_updates";
                      user_fit_type := "default"; update := "default";
                      zero_untrained_components := z;
                      initialize_users := "none"; only_update := None |})).
  { intros w Hw. apply _update_alternating; [|exact Hw].
    repeat split; reflexivity. }
  steps_walk ltac:(intros ? Hw; exact Hw).
Qed.

End WithNumpy.

End PMF_alternating.

Module HPMF_alternating.
Import HPMF.

Section WithNumpy.

Variable np : numpy.

Definition alternating_opts_h (o : opts) : Prop :=
  is_ndarray (beta o) = true /\ categorywise o = true
  /\ item_fit_type o = "alternating_updates".

Section Loop.

Variable recur : sparse -> list Z -> list Z -> held_out -> opts -> M W unit.
Variable o : opts.
Hypothesis alt : alternating_opts_h o.

Lemma items_part_alternating_h X rows cols i l (w : W) :
  alternating (trace w) ->
  match items_part np X rows cols o i l w with
  | Ok _ w' =>
      alternating (trace w')
      /\ exists s older, trace w' = (LItems (alternating_kind i), s) :: older
  | Raise _ w' => alternating (trace w')
  end.
Proof.
  intros Hw. destruct alt as [Hb [Hc Hi]].
  unfold items_part. rewrite Hb, Hc, Hi.
  change (streq "alternating_updates" "default") with false.
  change (streq "alternating_updates" "alternating_updates") with true.
  cbn [negb andb orb].
  unfold bind at 1.
  set (c := if _ && _ && _ then clamp o i l else ret l).
  assert (Hq : quiet w (state_of (c w))).
  { subst c. destruct (_ && _ && _); [apply HPMF_quiet.clamp_quiet_h|].
    apply steps_ret. exact _. }
  destruct (c w) as [l1 w1|e w1]; cbn [state_of] in Hq;
    apply quiet_alternating in Hq; try exact Hw; [|exact Hq].
  unfold alternating_kind.
  destruct (i mod 2 =? 0)%Z; unfold bind at 1;
    match goal with
    | |- context [_update_items np X rows cols ?b ?cw ?u w1] =>
        pose proof (HPMF_expect._update_items_expect_h np X rows cols b cw u
                      w1) as Hx;
        pose proof (HPMF_quiet._update_items_quiet_h np X rows cols b cw u
                      w1) as Hq';
        destruct (_update_items np X rows cols b cw u w1) as [[] w2|e w2]
    end; cbn [state_of ret] in *;
    apply quiet_alternating in Hq'; try exact Hq; try exact Hq'.
  all: split; [exact Hq'|]; destruct Hx as [_ [_ Hx]]; eauto.
Qed.

Lemma iteration_alternating_h X rows cols vad i l (w : W) :
  alternating (trace w) ->
  alternating
    (trace (state_of (iteration np recur X rows cols vad o i l w))).
Proof.
  intros Hw. unfold iteration. unfold bind at 1.
  pose proof (HPMF_quiet._update_users_quiet_h np X rows cols (beta o) false
                w) as Hq.
  destruct (_update_users np X rows cols (beta o) false w) as [[] w1|e w1];
    cbn [state_of] in *; apply quiet_alternating in Hq; try exact Hw;
    [|exact Hq].
  unfold bind at 1.
  pose proof (items_part_alternating_h X rows cols i l w1 Hq) as Hi.
  destruct (items_part np X rows cols o i l w1) as [l1 w2|e w2];
    cbn [state_of]; [|exact Hi].
  destruct Hi as [Hw2 [s [older Ht]]].
  unfold bind at 1.
  pose proof (HPMF_expect.pred_loglikeli_reads_h np vad w2) as Hp.
  destruct (pred_loglikeli np vad w2) as [p w3|e w3]; cbn [state_of] in Hp;
    subst w3; [|exact Hw2].
  assert (He : alternating
                 ((LEval (update o) i (old_pll l1) p, self w2) :: trace w2)).
  { cbn [alternating]. split; [|exact Hw2]. now rewrite Ht. }
  destruct alt as [_ [_ Hift]].
  unfold bind at 1, observe at 1, modify at 1.
  destruct (is_nan p); [exact He|].
  unfold bind at 1, getattr at 1, gets at 1.
  destruct (tol_stop _ _ _ _ _); [|exact He].
  unfold converged_part. rewrite Hift.
  destruct (streq (update o) "default"); exact He.
Qed.

End Loop.

Lemma _update_alternating_h X rows cols vad o (w : W) :
  alternating_opts_h o ->
  alternating (trace w) ->
  alternating (trace (state_of (_update np X rows cols vad o w))).
Proof.
  intros Ho. revert w.
  change (steps (keeps (fun w : W => alternating (trace w)))
                (_update np X rows cols vad o)).
  unfold _update, _update_body.
  assert (forall i l,
             steps (keeps (fun w : W => alternating (trace w)))
                   (iteration np (_update_leaf np) X rows cols vad o i l))
    by (intros i l w Hw; cbv beta; now apply iteration_alternating_h).
  steps_walk ltac:(idtac).
Qed.

End WithNumpy.

End HPMF_alternating.

(** X11.  The alternating item fit.  With a [beta] matrix,
    [categorywise] on and [item_fit_type = 'alternating_updates'] every
    evaluation of the held-out likelihood comes right after an item update,
    and that update is ['in_category'] at an even iteration number and
    ['out_category'] at an odd one: this holds of the record of
    [PoissonMF.fit] and of the loop [_update] of both classes, however the
    run ends. *)
Theorem alternating_updates_schedule (np : numpy) X rows cols vad :
  (forall bm theta z (w : PMF.W),
      alternating (trace w) ->
      alternating
        (trace (state_of (PMF.fit np X rows cols vad (Some bm) theta true
                                  "alternating_updates" "default" z w))))
  /\ (forall o (w : PMF.W),
      PMF_alternating.alternating_opts o ->
      alternating (trace w) ->
      alternating (trace (state_of (PMF._update np X rows cols vad o w))))
  /\ (forall o (w : HPMF.W),
      HPMF_alternating.alternating_opts_h o ->
      alternating (trace w) ->
      alternating (trace (state_of (HPMF._update np X rows cols vad o w)))).
Proof.
  split; [|split]; intros.
  - now apply PMF_alternating.fit_alternating.
  - now apply PMF_alternating._update_alternating.
  - now apply HPMF_alternating._update_alternating_h.
Qed.

Lemma alternating_updates_schedule_witness :
  alternating
    (trace (state_of (PMF.fit Ref.np Ex.X Ex.rows Ex.cols Ex.vad
                              (Some Ex.mask) None true "alternating_updates"
                              "default" false (Ex.pmf 6)))).
Proof.
  apply (proj1 (alternating_updates_schedule Ref.np Ex.X Ex.rows Ex.cols
                  Ex.vad)).
  simpl. exact I.
Defined.

(** The worked example stops at its third evaluation, after an
    in-category, an out-category and an in-category update. *)
Example alternating_updates_run :
  exists w,
    PMF.fit Ref.np Ex.X Ex.rows Ex.cols Ex.vad (Some Ex.mask) None true
            "alternating_updates" "default" false (Ex.pmf 6) = Ok tt w
    /\ filter (fun l => match l with LItems _ => true | _ => false end)
              (rev (Ex.labels w))
       = [LItems "in_category"; LItems "out_category"; LItems "in_category"].
Proof. eexists. split; vm_compute; reflexivity. Qed.

(** ** Separate convergence with the default item fit *)

Module PMF_separately.
Import PMF.

Section WithNumpy.

Variable np : numpy.

(** Without [Elogt] the plain item update raises at once. *)
Lemma _update_items_no_Elogt X rows cols beta cw u (w : W) :
  Elogt (self w) = None ->
  _update_items np X rows cols beta cw false u w
  = Raise (TypeError "exp") w.
Proof.
  intros H. unfold _update_items, _xexplog. msimpl.
  unfold lift, exp, ufunc. rewrite H.
  destruct (Elogb (self w)); reflexivity.
Qed.

Lemma fit_separately_default_items X rows cols vad be t cw z (w : W) :
  is_ndarray be && negb cw = false ->
  (0 < max_iter (self w))%Z -> (0 < max_iter_fixed (self w))%Z ->
  exists w',
    fit np X rows cols vad be (Some t) cw "default" "converge_separately"
        z w
    = Raise (TypeError "exp") w'
    /\ trace w' = trace w.
Proof.
  intros Hb Hmax Hfix.
  destruct (PMF_start.fit_init np X rows cols vad be (Some t) cw "default"
              "converge_separately" z w) as [o' [E [Hh Hl]]].
  specialize (Hl eq_refl).
  assert (Hm : max_iter o' = max_iter (self w)
               /\ max_iter_fixed o' = max_iter_fixed (self w)).
  { unfold pmf_hyper in Hh. injection Hh as _ Hm _ _ _ _ Hf _ _ _ _.
    now split. }
  destruct Hm as [Hm Hf].
  destruct (@PMF_facts.xrange_pos (max_iter o')) as [rest Hx];
    [rewrite Hm; exact Hmax|].
  destruct (@PMF_facts.xrange_pos (max_iter_fixed o')) as [rest' Hx'];
    [rewrite Hf; exact Hfix|].
  rewrite E. unfold PMF_start.after_init.
  change (negb (streq "converge_separately" "default")) with true.
  cbv beta iota zeta.
  exists {| self := o'; trace := trace w |}. split; [|reflexivity].
  unfold bind at 1, getattr at 1, gets at 1. cbn [self].
  rewrite Hx'. unfold bind at 1. unfold for_each. unfold bind at 1.
  unfold round.
  change (streq "converge_separately" "converge_separately") with true.
  cbv beta iota zeta.
  cbn [f_only_update f_observed_user_preferences f_initialize_users
       is_ndarray].
  unfold local, lift, of_option. unfold bind at 1. unfold bind at 1.
  unfold bind at 1. unfold bind at 1.
  unfold _update, _update_body.
  unfold bind at 1, getattr at 1, gets at 1. cbn [self].
  rewrite Hx. unfold for_each. unfold bind at 1, bind at 1.
  unfold iteration. unfold bind at 1, bind at 1.
  unfold users_part, items_part.
  cbn [only_update observed_user_preferences update beta theta categorywise
       item_fit_type].
  rewrite Hb.
  change ((0 mod 2 =? 0)%Z) with true.
  cbn [is_str String.eqb Ascii.eqb Bool.eqb orb andb negb streq ret bind].
  unfold bind at 1.
  rewrite _update_items_no_Elogt by exact Hl. reflexivity.
Qed.

End WithNumpy.

End PMF_separately.

(** X12.  Separate convergence does not go with the default item fit.
    [PoissonMF.fit] with [user_fit_type = 'converge_separately'], an
    observed [theta], [item_fit_type = 'default'] and items that are to be
    fitted raises in its first item update, before any update has returned:
    the first round updates only the items, and the plain item update takes
    [np.exp] of [Elogt], which an observed [theta] leaves unset. *)
Theorem fit_separately_needs_item_fit_type (np : numpy) X rows cols vad beta
    t cw z (w : PMF.W) :
  is_ndarray beta && negb cw = false ->
  (0 < PMF.max_iter (self w))%Z -> (0 < PMF.max_iter_fixed (self w))%Z ->
  exists w',
    PMF.fit np X rows cols vad beta (Some t) cw "default"
            "converge_separately" z w
    = Raise (TypeError "exp") w'
    /\ trace w' = trace w.
Proof.
  apply PMF_separately.fit_separately_default_items.
Qed.

Lemma fit_separately_needs_item_fit_type_witness :
  exists w',
    PMF.fit Ref.np Ex.X Ex.rows Ex.cols Ex.vad None (Some Ex.mask) false
            "default" "converge_separately" false (Ex.pmf 5)
    = Raise (TypeError "exp") w'
    /\ trace w' = trace (Ex.pmf 5).
Proof.
  apply (@fit_separately_needs_item_fit_type Ref.np);
    [reflexivity | simpl; lia | simpl; lia].
Defined.

(** ** The order of the evaluations *)

Section FloatOrder.

Lemma SFcompare_antisym (x y : spec_float) :
  SFcompare y x = option_map CompOpp (SFcompare x y).
Proof.
  destruct x as [[]|[]| |[] mx ex], y as [[]|[]| |[] my ey];
    try reflexivity; cbn [SFcompare option_map];
    rewrite (Z.compare_antisym ex ey);
    destruct (ex ?= ey)%Z; cbn [CompOpp]; try reflexivity;
    rewrite (Pos.compare_cont_antisym mx my Eq); cbn [CompOpp];
    now rewrite ?CompOpp_involutive.
Qed.

Lemma not_nan_spec (x : float) :
  is_nan x = false -> Prim2SF x <> S754_nan.
Proof.
  unfold is_nan. rewrite eqb_spec. intros H E. rewrite E in H.
  discriminate H.
Qed.

Lemma SFcompare_not_nan (x y : spec_float) :
  x <> S754_nan -> y <> S754_nan -> SFcompare x y <> None.
Proof.
  destruct x as [?|?| |? ? ?], y as [?|?| |? ? ?]; cbn; congruence.
Qed.

(** A number that [best_pll_dict['pred_ll']] is not below is at most it. *)
Lemma ltb_false_leb (b p : float) :
  is_nan b = false -> is_nan p = false ->
  (b <? p)%float = false -> (p <=? b)%float = true.
Proof.
  intros Hb Hp. rewrite ltb_spec, leb_spec. unfold SFltb, SFleb.
  rewrite (SFcompare_antisym (Prim2SF b) (Prim2SF p)).
  pose proof (SFcompare_not_nan (not_nan_spec _ Hb) (not_nan_spec _ Hp)).
  destruct (SFcompare (Prim2SF b) (Prim2SF p)) as [[]|];
    cbn; congruence.
Qed.

Lemma leb_refl (p : float) : is_nan p = false -> (p <=? p)%float = true.
Proof.
  unfold is_nan. rewrite eqb_spec, leb_spec. unfold SFeqb, SFleb.
  destruct (SFcompare (Prim2SF p) (Prim2SF p)) as [[]|]; cbn; congruence.
Qed.

Lemma SFleb_ltb_trans (x y z : spec_float) :
  SFleb x y = true -> SFltb y z = true -> SFleb x z = true.
Proof.
  unfold SFleb, SFltb.
  destruct x as [[]|[]| |[] mx ex], y as [[]|[]| |[] my ey],
           z as [[]|[]| |[] mz ez];
    cbn [SFcompare]; try reflexivity; try discriminate.
  all: destruct (Z.compare_spec ex ey), (Z.compare_spec ey ez),
         (Z.compare_spec ex ez); try lia; try reflexivity; try discriminate;
       subst.
  all: change (Pos.compare_cont Eq) with Pos.compare.
  all: destruct (Pos.compare_spec mx my), (Pos.compare_spec my mz),
         (Pos.compare_spec mx mz); try lia; cbn [CompOpp];
       try reflexivity; try discriminate.
Qed.

Lemma SFleb_ltb_ltb (x y z : spec_float) :
  SFleb x y = true -> SFltb y z = true -> SFltb x z = true.
Proof.
  unfold SFleb, SFltb.
  destruct x as [[]|[]| |[] mx ex], y as [[]|[]| |[] my ey],
           z as [[]|[]| |[] mz ez];
    cbn [SFcompare]; try reflexivity; try discriminate.
  all: destruct (Z.compare_spec ex ey), (Z.compare_spec ey ez),
         (Z.compare_spec ex ez); try lia; try reflexivity; try discriminate;
       subst.
  all: change (Pos.compare_cont Eq) with Pos.compare.
  all: destruct (Pos.compare_spec mx my), (Pos.compare_spec my mz),
         (Pos.compare_spec mx mz); try lia; cbn [CompOpp];
       try reflexivity; try discriminate.
Qed.

(** What lies above a number that is no NaN lies above [-inf]. *)
Lemma above_neg_infinity (b p : float) :
  is_nan b = false -> (b <? p)%float = true ->
  (neg_infinity <? p)%float = true.
Proof.
  intros Hb. rewrite !ltb_spec. apply SFleb_ltb_ltb.
  change (Prim2SF neg_infinity) with (S754_infinity true).
  apply not_nan_spec in Hb.
  destruct (Prim2SF b) as [[]|[]| |[] m e]; try reflexivity.
  now elim Hb.
Qed.

Lemma leb_ltb_trans (q b p : float) :
  (q <=? b)%float = true -> (b <? p)%float = true -> (q <=? p)%float = true.
Proof. rewrite !leb_spec, ltb_spec. apply SFleb_ltb_trans. Qed.

End FloatOrder.

(** ** What [best_pll_dict] holds *)

Module PMF_best.
Import PMF.

(** An evaluation of the loop run with [update = u] that gave [q] on the
    object [s]. *)
Definition own_eval (u : string) (q : float) (s : PoissonMF)
    (tr : list (label * PoissonMF)) : Prop :=
  exists i old, In (LEval u i old q, s) tr.

(** The four snapshot keys of the dict hold the expectations of [s]; or
    none of them is there. *)
Definition snapshot (b : best) (s : PoissonMF) : Prop :=
  d_best_Eb b = Some (Eb s) /\ d_best_Elogb b = Some (Elogb s)
  /\ d_best_Et b = Some (Et s) /\ d_best_Elogt b = Some (Elogt s).

Definition no_snapshot (b : best) : Prop :=
  d_best_Eb b = None /\ d_best_Elogb b = None
  /\ d_best_Et b = None /\ d_best_Elogt b = None.

(** [b] is the best of the evaluations on the record: its [pred_ll] is no
    NaN and bounds them all, and it is either the initial [-inf] without a
    snapshot or one of them, above [-inf], with the snapshot of its
    object. *)
Definition best_of (u : string) (tr : list (label * PoissonMF)) (b : best)
  : Prop :=
  is_nan (d_pred_ll b) = false
  /\ (forall q s, own_eval u q s tr -> (q <=? d_pred_ll b)%float = true)
  /\ ((d_pred_ll b = neg_infinity /\ no_snapshot b)
      \/ ((neg_infinity <? d_pred_ll b)%float = true
          /\ exists s, own_eval u (d_pred_ll b) s tr /\ snapshot b s)).

(** The value [_update] returns as [pred_ll] is an evaluation on the
    record, and no NaN. *)
Definition last_of (u : string) (tr : list (label * PoissonMF))
    (p : option float) : Prop :=
  forall q, p = Some q -> is_nan q = false /\ exists s, own_eval u q s tr.

Lemma evals_nil_no_own (u : string) (new : list (label * PoissonMF)) q s :
  evals u new = [] -> ~ own_eval u q s new.
Proof.
  intros He [i [old Hin]]. induction new as [|[l o] new IH]; [exact Hin|].
  cbn [evals flat_map fst] in He. apply app_eq_nil in He as [H1 H2].
  destruct Hin as [Heq | Hin]; [|now apply IH].
  injection Heq as -> _. unfold streq in H1. rewrite String.eqb_refl in H1.
  discriminate H1.
Qed.

Lemma own_eval_app u q s new tr :
  own_eval u q s (new ++ tr) <-> own_eval u q s new \/ own_eval u q s tr.
Proof.
  unfold own_eval. split.
  - intros [i [old H]]. apply in_app_or in H as [H|H]; eauto.
  - intros [[i [old H]] | [i [old H]]]; exists i, old; apply in_or_app;
      auto.
Qed.

Lemma best_of_more u (w w' : W) b :
  same_evals u w w' -> best_of u (trace w) b -> best_of u (trace w') b.
Proof.
  intros [new [-> He]] [Hn [Hmax Hin]]. split; [exact Hn|]. split.
  - intros q s Hq. apply own_eval_app in Hq as [Hq|Hq]; [|eauto].
    now apply evals_nil_no_own in Hq.
  - destruct Hin as [Hin | [Hlt [s [Hs Hsnap]]]]; [now left|].
    right. split; [exact Hlt|]. exists s. split; [|exact Hsnap].
    apply own_eval_app. now right.
Qed.

Lemma last_of_more u (w w' : W) p :
  same_evals u w w' -> last_of u (trace w) p -> last_of u (trace w') p.
Proof.
  intros [new [-> He]] H q Hq. destruct (H q Hq) as [Hn [s Hs]].
  split; [exact Hn|]. exists s. apply own_eval_app. now right.
Qed.

Lemma own_eval_head u i old p s tr :
  own_eval u p s ((LEval u i old p, s) :: tr).
Proof. exists i, old. now left. Qed.

Lemma own_eval_cons u l q s tr :
  own_eval u q s tr -> own_eval u q s (l :: tr).
Proof. intros [i [old H]]. exists i, old. now right. Qed.

Lemma own_eval_inv u i old p s0 q s tr :
  own_eval u q s ((LEval u i old p, s0) :: tr) ->
  (q = p /\ s = s0) \/ own_eval u q s tr.
Proof.
  intros [i' [old' [H|H]]].
  - injection H as _ _ -> ->. now left.
  - right. now exists i', old'.
Qed.

(** One evaluation more: what the [if pred_ll > best_pll_dict['pred_ll']]
    block leaves. *)
Lemma best_of_record u i p s l tr :
  is_nan p = false ->
  best_of u tr (best_pll_dict l) ->
  best_of u ((LEval u i (old_pll l) p, s) :: tr)
          (best_pll_dict (record_best s p l)).
Proof.
  intros Hp [Hn [Hmax Hin]]. cbn [record_best best_pll_dict].
  destruct (d_pred_ll (best_pll_dict l) <? p)%float eqn:Hlt.
  - cbn [d_pred_ll]. split; [exact Hp|]. split.
    + intros q s' Hq. apply own_eval_inv in Hq as [[-> _] | Hq].
      * now apply leb_refl.
      * eapply leb_ltb_trans; [apply (Hmax q s' Hq) | exact Hlt].
    + right. split; [exact (above_neg_infinity Hn Hlt)|].
      exists s. split; [apply own_eval_head|].
      repeat split; reflexivity.
  - split; [exact Hn|]. split.
    + intros q s' Hq. apply own_eval_inv in Hq as [[-> _] | Hq].
      * now apply ltb_false_leb.
      * now apply (Hmax q s').
    + destruct Hin as [Hin | [Hgt [s' [Hs' Hsnap]]]]; [now left|].
      right. split; [exact Hgt|].
      exists s'. split; [now apply own_eval_cons | exact Hsnap].
Qed.

Section WithNumpy.

Variable np : numpy.

Lemma clamp_best o i l (w : W) :
  match clamp o i l w with
  | Ok l1 _ => best_pll_dict l1 = best_pll_dict l
  | Raise _ _ => True
  end.
Proof.
  unfold clamp, bind, lift, getattr, gets, setattr, observe, modify, ret.
  destruct (beta o) as [bm|]; simpl; [|exact I].
  destruct (streq (item_fit_type o) "converge_in_category_first").
  { repeat match goal with
           | |- context [match ?r with inl _ => _ | inr _ => _ end] =>
               destruct r; simpl; try exact I
           end. reflexivity. }
  destruct (streq (item_fit_type o) "converge_out_category_first").
  { repeat match goal with
           | |- context [match ?r with inl _ => _ | inr _ => _ end] =>
               destruct r; simpl; try exact I
           end. reflexivity. }
  reflexivity.
Qed.

Lemma items_part_best X rows cols o i l (w : W) :
  match items_part np X rows cols o i l w with
  | Ok l1 _ => best_pll_dict l1 = best_pll_dict l
  | Raise _ _ => True
  end.
Proof.
  unfold items_part.
  destruct (_ || _ || _); [reflexivity|].
  destruct (negb _).
  - unfold bind at 1.
    assert (Hc : match (if zero_untrained_components o && (i =? 0)%Z
                           && streq (update o) "default"
                        then clamp o i l else ret l) w with
                 | Ok l1 _ => best_pll_dict l1 = best_pll_dict l
                 | Raise _ _ => True
                 end).
    { destruct (_ && _ && _); [apply clamp_best | reflexivity]. }
    destruct ((if _ && _ && _ then clamp o i l else ret l) w) as [l1 w1|e w1];
      [|exact I].
    unfold bind at 1.
    match goal with
    | |- context [match ?c w1 with _ => _ end] => destruct (c w1)
    end; [exact Hc | exact I].
  - unfold bind at 1.
    destruct (_update_items _ _ _ _ _ _ _ _ w); [reflexivity | exact I].
Qed.

Section Update.

Variable recur :
  sparse -> list Z -> list Z -> held_out -> opts -> M W (float * best).
Hypothesis recur_tagged : forall X rows cols vad o,
  steps (tagged (update o)) (recur X rows cols vad o).

Definition kept (u : string) (l : locals) (w : W) : Prop :=
  best_of u (trace w) (best_pll_dict l) /\ last_of u (trace w) (pred_ll l).

Lemma iteration_best X rows cols vad o i l (w : W) :
  best_of (update o) (trace w) (best_pll_dict l) ->
  match iteration np recur X rows cols vad o i l w with
  | Ok r w' => kept (update o) (fst r) w'
  | Raise _ _ => True
  end.
Proof.
  intros Hb. unfold iteration. unfold bind at 1.
  pose proof (steps_quiet_same_evals (update o)
                (PMF_quiet.users_part_quiet np X rows cols o i) w) as H1.
  destruct (users_part np X rows cols o i w) as [[] w1|e w1];
    cbn [state_of] in H1; [|exact I].
  apply (best_of_more H1) in Hb.
  unfold bind at 1.
  pose proof (steps_quiet_same_evals (update o)
                (PMF_quiet.items_part_quiet np X rows cols o i l) w1) as H2.
  pose proof (items_part_best X rows cols o i l w1) as Hl.
  destruct (items_part np X rows cols o i l w1) as [l1 w2|e w2];
    cbn [state_of] in H2; [|exact I].
  apply (best_of_more H2) in Hb. rewrite <- Hl in Hb.
  unfold bind at 1.
  pose proof (PMF_expect.pred_loglikeli_reads np vad w2) as H3.
  destruct (pred_loglikeli np vad w2) as [p w3|e w3];
    cbn [state_of] in H3; [subst w3 | exact I].
  cbv beta iota delta [bind observe modify getattr gets raise ret].
  destruct (is_nan p) eqn:Hp; cbv beta; cbn [self trace]; [exact I|].
  pose proof (@best_of_record (update o) i p (self w2) l1 (trace w2) Hp Hb)
    as Hb'.
  assert (Hlast : last_of (update o)
                    ((LEval (update o) i (old_pll l1) p, self w2) :: trace w2)
                    (pred_ll (record_best (self w2) p l1))).
  { intros q [= <-]. split; [exact Hp|]. exists (self w2).
    apply own_eval_head. }
  destruct (tol_stop _ _ _ _ _); cbv beta; cbn [self trace fst];
    [|split; assumption].
  match goal with
  | |- context [converged_part _ _ _ _ _ _ _ _ ?w4] =>
      pose proof (PMF_bound.converged_part_same_evals recur recur_tagged
                    X rows cols vad o i
                    (record_best (self w2) p l1) w4) as H4;
      destruct (converged_part _ _ _ _ _ _ _ _ w4) as [[] w5|e w5]
  end; cbn [state_of fst] in *; [|exact I].
  assert (H5 : same_evals (update o)
                 {| self := self w2;
                    trace := (LEval (update o) i (old_pll l1) p, self w2)
                             :: trace w2 |}
                 {| self := self w2;
                    trace := (LStop (update o) i, self w2)
                             :: (LEval (update o) i (old_pll l1) p, self w2)
                             :: trace w2 |})
    by (exists [(LStop (update o) i, self w2)]; split; reflexivity).
  split.
  - apply (best_of_more H4), (best_of_more H5). exact Hb'.
  - apply (last_of_more H4), (last_of_more H5). exact Hlast.
Qed.

Lemma _update_body_best X rows cols vad o (w w' : W) p b :
  best_of (update o) (trace w) (best_pll_dict init_locals) ->
  _update_body np recur X rows cols vad o w = Ok (p, b) w' ->
  best_of (update o) (trace w') b
  /\ is_nan p = false
  /\ exists s, own_eval (update o) p s (trace w').
Proof.
  intros Hb. unfold _update_body. unfold bind at 1, getattr at 1, gets at 1.
  assert (Hloop : forall idxs l (w1 : W),
    kept (update o) l w1 ->
    match for_each (iteration np recur X rows cols vad o) idxs l w1 with
    | Ok l' w2 => kept (update o) l' w2
    | Raise _ _ => True
    end).
  { induction idxs as [|i rest IH]; intros l w1 Hk; [exact Hk|].
    cbn [for_each]. unfold bind.
    pose proof (iteration_best X rows cols vad o i l w1 (proj1 Hk)) as Hit.
    destruct (iteration np recur X rows cols vad o i l w1)
      as [[l' brk] w2|e w2]; [|exact I].
    cbn [fst snd] in *. destruct brk; [exact Hit | now apply IH]. }
  specialize (Hloop (xrange (max_iter (self w))) init_locals w).
  unfold bind at 1.
  destruct (for_each _ _ _ w) as [l w1|e w1]; [|discriminate].
  destruct Hloop as [Hb1 Hl1]; [split; [exact Hb|]; intros q Hq;
                                discriminate Hq|].
  unfold local, lift, of_option, bind, ret.
  destruct (pred_ll l) as [q|] eqn:Hq; [|discriminate].
  intros [= <- <- <-]. split; [exact Hb1|]. now apply Hl1.
Qed.

End Update.

Lemma _update_best X rows cols vad o (w w' : W) p b :
  best_of (update o) (trace w) (best_pll_dict init_locals) ->
  _update np X rows cols vad o w = Ok (p, b) w' ->
  best_of (update o) (trace w') b
  /\ is_nan p = false
  /\ exists s, own_eval (update o) p s (trace w').
Proof.
  apply _update_body_best. apply (PMF_bound._update_leaf_tagged np).
Qed.

End WithNumpy.

End PMF_best.

(** X13.  What [PoissonMF._update] returns.  When a run of [_update] on a
    fresh record returns [pred_ll, best_pll_dict], [pred_ll] is the value of
    an evaluation of this loop and no NaN; [best_pll_dict['pred_ll']] is no
    NaN and at least every evaluation of this loop (those of the nested
    second phase do not count); and either it is still [-inf] and the dict
    has no snapshot key, or it is above [-inf], the value of one of these
    evaluations, and the four snapshot keys hold [Eb], [Elogb], [Et] and
    [Elogt] of the object at that evaluation. *)
Theorem update_returns_best (np : numpy) X rows cols vad o
    (obj : PMF.PoissonMF) (p : float) (b : PMF.best) (w' : PMF.W) :
  PMF._update np X rows cols vad o {| self := obj; trace := [] |}
  = Ok (p, b) w' ->
  let u := PMF.update o in
  is_nan p = false
  /\ (exists s, PMF_best.own_eval u p s (trace w'))
  /\ is_nan (PMF.d_pred_ll b) = false
  /\ (forall q s, PMF_best.own_eval u q s (trace w') ->
                  (q <=? PMF.d_pred_ll b)%float = true)
  /\ ((PMF.d_pred_ll b = neg_infinity /\ PMF_best.no_snapshot b)
      \/ ((neg_infinity <? PMF.d_pred_ll b)%float = true
          /\ exists s, PMF_best.own_eval u (PMF.d_pred_ll b) s (trace w')
                       /\ PMF_best.snapshot b s)).
Proof.
  intros E u.
  destruct (@PMF_best._update_best np X rows cols vad o
              {| self := obj; trace := [] |} w' p b) as [Hb [Hp Hs]].
  - split; [reflexivity|]. split.
    + intros q s [i [old []]].
    + left. repeat split; reflexivity.
  - exact E.
  - destruct Hb as [Hn [Hmax Hin]]. repeat split; assumption.
Qed.

Lemma update_returns_best_witness :
  exists p b w',
    PMF._update Ref.np Ex.X Ex.rows Ex.cols Ex.vad
                (PMF_expect.plain false false)
                {| self := self Ex.pmf_ready; trace := [] |}
    = Ok (p, b) w'
    /\ is_nan p = false
    /\ (exists s, PMF_best.own_eval "default" p s (trace w'))
    /\ is_nan (PMF.d_pred_ll b) = false
    /\ (forall q s, PMF_best.own_eval "default" q s (trace w') ->
                    (q <=? PMF.d_pred_ll b)%float = true)
    /\ ((PMF.d_pred_ll b = neg_infinity /\ PMF_best.no_snapshot b)
        \/ ((neg_infinity <? PMF.d_pred_ll b)%float = true
            /\ exists s, PMF_best.own_eval "default" (PMF.d_pred_ll b) s
                           (trace w')
                         /\ PMF_best.snapshot b s)).
Proof.
  eexists. eexists. eexists.
  split; [vm_compute; reflexivity|].
  apply (@update_returns_best Ref.np Ex.X Ex.rows Ex.cols Ex.vad
           (PMF_expect.plain false false) (self Ex.pmf_ready)).
  vm_compute. reflexivity.
Defined.

(** ** The sides [only_update] leaves alone *)

(** No user update has returned on the record. *)
Definition user_update_free {Obj} (w : world Obj) : Prop :=
  Forall (fun ev => match fst ev with LUsers => False | _ => True end)
         (trace w).

Ltac users_free_side :=
  let H := fresh "Hfree" in
  intros ? H; unfold user_update_free in H |- *; simpl;
  first [ exact H | constructor; [exact I | exact H] ].

Module PMF_only.
Import PMF.

Section WithNumpy.

Variable np : numpy.

Abbreviation NU := (@user_update_free PoissonMF).
Abbreviation NI := (@item_update_free PoissonMF).

Lemma _xexplog_users_free rows cols beta oia oup :
  steps (keeps NU) (_xexplog np rows cols beta oia oup).
Proof. unfold _xexplog. steps_walk users_free_side. Qed.

Lemma _update_items_users_free X rows cols beta cw oup u :
  steps (keeps NU) (_update_items np X rows cols beta cw oup u).
Proof.
  pose proof _xexplog_users_free.
  unfold _update_items, assign_masked. steps_walk users_free_side.
Qed.

Lemma clamp_users_free o i l : steps (keeps NU) (clamp o i l).
Proof. unfold clamp. steps_walk users_free_side. Qed.

Lemma items_part_users_free X rows cols o i l :
  steps (keeps NU) (items_part np X rows cols o i l).
Proof.
  pose proof _update_items_users_free. pose proof clamp_users_free.
  unfold items_part. steps_walk users_free_side.
Qed.

Lemma pred_loglikeli_users_free vad :
  steps (keeps NU) (pred_loglikeli np vad).
Proof. unfold pred_loglikeli. steps_walk users_free_side. Qed.

Lemma restore_users_free o i gn rn kn gv rv k :
  steps (keeps NU) (restore o i gn rn kn gv rv k).
Proof. unfold restore, local. steps_walk users_free_side. Qed.

(** The options under which the loop skips the user side, and passes the
    same on to its second phase. *)
Definition skips_users (o : opts) : Prop :=
  observed_user_preferences o = true
  /\ (is_str (only_update o) "items" = true
      \/ streq (update o) "default" = false).

(** The options under which the loop skips the item side and has no second
    phase. *)
Definition skips_items (o : opts) : Prop :=
  is_str (only_update o) "users" = true
  /\ item_fit_type o <> "converge_in_category_first"
  /\ item_fit_type o <> "converge_out_category_first".

Section Update.

Variable recur :
  sparse -> list Z -> list Z -> held_out -> opts -> M W (float * best).
Variable o : opts.

Section Users.

Hypothesis skip : skips_users o.
Hypothesis recur_free : forall X rows cols vad u,
  streq u "default" = false ->
  steps (keeps NU) (recur X rows cols vad (second_phase o u)).

Lemma users_part_skipped X rows cols i :
  users_part np X rows cols o i = ret tt.
Proof.
  destruct skip as [Hp [Ho | Hu]]; unfold users_part; rewrite Hp.
  - now rewrite Ho.
  - rewrite Hu. cbn [negb andb]. now rewrite orb_true_r.
Qed.

Lemma iteration_users_free X rows cols vad i l :
  steps (keeps NU) (iteration np recur X rows cols vad o i l).
Proof.
  unfold iteration. rewrite users_part_skipped.
  pose proof items_part_users_free. pose proof pred_loglikeli_users_free.
  assert (forall X rows cols vad i l,
             steps (keeps NU) (converged_part recur X rows cols vad o i l)).
  { intros. unfold converged_part.
    pose proof restore_users_free.
    pose proof (fun X rows cols vad =>
                  recur_free X rows cols vad "out_category" eq_refl).
    pose proof (fun X rows cols vad =>
                  recur_free X rows cols vad "in_category" eq_refl).
    steps_walk users_free_side. }
  steps_walk users_free_side.
Qed.

Lemma _update_body_users_free X rows cols vad :
  steps (keeps NU) (_update_body np recur X rows cols vad o).
Proof.
  unfold _update_body, local. pose proof iteration_users_free.
  steps_walk users_free_side.
Qed.

End Users.

Section Items.

Hypothesis skip : skips_items o.

Lemma items_part_skipped X rows cols i l :
  items_part np X rows cols o i l = ret l.
Proof.
  destruct skip as [Ho _]. unfold items_part. rewrite Ho.
  now rewrite orb_true_r.
Qed.

Lemma iteration_items_free X rows cols vad i l :
  steps (keeps NI) (iteration np recur X rows cols vad o i l).
Proof.
  unfold iteration. rewrite items_part_skipped.
  pose proof (PMF_rotation.users_part_free np).
  pose proof (PMF_rotation.pred_loglikeli_free np).
  assert (forall X rows cols vad i l,
             steps (keeps NI) (converged_part recur X rows cols vad o i l)).
  { intros. unfold converged_part. destruct skip as [_ [H1 H2]].
    rewrite (streq_neq H1), (streq_neq H2). steps_walk free_side. }
  steps_walk free_side.
Qed.

Lemma _update_body_items_free X rows cols vad :
  steps (keeps NI) (_update_body np recur X rows cols vad o).
Proof.
  unfold _update_body, local. pose proof iteration_items_free.
  steps_walk free_side.
Qed.

End Items.

End Update.

Lemma _update_users_skipped X rows cols vad o :
  skips_users o -> steps (keeps NU) (_update np X rows cols vad o).
Proof.
  intros Hs. unfold _update. apply _update_body_users_free; [exact Hs|].
  intros X' rows' cols' vad' u Hu. unfold _update_leaf.
  apply _update_body_users_free.
  - destruct Hs as [Hp _]. split; [exact Hp|]. right. exact Hu.
  - intros. apply steps_raise. exact _.
Qed.

Lemma _update_items_skipped X rows cols vad o :
  skips_items o -> steps (keeps NI) (_update np X rows cols vad o).
Proof. intros Hs. unfold _update. now apply _update_body_items_free. Qed.

End WithNumpy.

End PMF_only.

(** X14.  What [only_update] leaves alone in [PoissonMF._update].  With
    observed user preferences and [only_update = 'items'], no user update
    returns during the call, its nested second phase included.  With
    [only_update = 'users'] and an [item_fit_type] without a second phase, no
    item update returns during the call. *)
Theorem only_update_leaves_other_side (np : numpy) X rows cols vad o
    (w : PMF.W) :
  (PMF_only.skips_users o ->
   user_update_free w ->
   user_update_free (state_of (PMF._update np X rows cols vad o w)))
  /\ (PMF_only.skips_items o ->
      item_update_free w ->
      item_update_free (state_of (PMF._update np X rows cols vad o w))).
Proof.
  split; intros Hs.
  - apply (@PMF_only._update_users_skipped np X rows cols vad o Hs w).
  - apply (@PMF_only._update_items_skipped np X rows cols vad o Hs w).
Qed.

Lemma only_update_leaves_other_side_witness :
  user_update_free
    (state_of
       (PMF._update Ref.np Ex.X Ex.rows Ex.cols Ex.vad
          {| PMF.beta := Some Ex.mask; PMF.theta := None;
             PMF.observed_user_preferences := true;
             PMF.categorywise := true;
             PMF.item_fit_type := "converge_in_category_first";
             PMF.user_fit_type := "converge_separately";
             PMF.update := "default";
             PMF.zero_untrained_components := false;
             PMF.initialize_users := "none";
             PMF.only_update := Some "items" |}
          Ex.pmf_ready))
  /\ item_update_free
       (state_of
          (PMF._update Ref.np Ex.X Ex.rows Ex.cols Ex.vad
             {| PMF.beta := Some Ex.mask; PMF.theta := None;
                PMF.observed_user_preferences := true;
                PMF.categorywise := true;
                PMF.item_fit_type := "default";
                PMF.user_fit_type := "converge_separately";
                PMF.update := "default";
                PMF.zero_untrained_components := false;
                PMF.initialize_users := "none";
                PMF.only_update := Some "users" |}
             Ex.pmf_ready)).
Proof.
  split.
  - refine (proj1 (@only_update_leaves_other_side Ref.np Ex.X Ex.rows Ex.cols
                     Ex.vad _ Ex.pmf_ready) _ _).
    + split; [reflexivity | left; reflexivity].
    + unfold user_update_free. vm_compute. constructor.
  - refine (proj2 (@only_update_leaves_other_side Ref.np Ex.X Ex.rows Ex.cols
                     Ex.vad _ Ex.pmf_ready) _ _).
    + split; [reflexivity | split; discriminate].
    + unfold item_update_free. vm_compute. constructor.
Defined.

(** With [only_update = 'users'] and a category-first [item_fit_type] the
    second phase does update the items: three out-of-category updates on
    the worked example. *)
Example only_update_users_second_phase :
  exists r w,
    PMF._update Ref.np Ex.X Ex.rows Ex.cols Ex.vad
      {| PMF.beta := Some Ex.mask; PMF.theta := None;
         PMF.observed_user_preferences := true;
         PMF.categorywise := true;
         PMF.item_fit_type := "converge_in_category_first";
         PMF.user_fit_type := "converge_separately";
         PMF.update := "default";
         PMF.zero_untrained_components := false;
         PMF.initialize_users := "none";
         PMF.only_update := Some "users" |}
      Ex.pmf_ready = Ok r w
    /\ filter (fun l => match l with LItems _ => true | _ => false end)
              (Ex.labels w)
       = [LItems "out_category"; LItems "out_category";
          LItems "out_category"].
Proof. eexists. eexists. split; vm_compute; reflexivity. Qed.

(** ** The shapes of the factors *)

Section Shapes.

(** A 2-D array of [n] rows and [k] columns. *)
Definition is_mat (a : pyarr) (n k : nat) : Prop :=
  exists m, a = Some (Mat m) /\ rect m n k.

Lemma rbind_inr {A B} (r : res A) (k : A -> res B) (b : B) :
  rbind r k = inr b -> exists a, r = inr a /\ k a = inr b.
Proof. destruct r as [e|a]; [discriminate|]. intros H. now exists a. Qed.

Lemma rect_ncols (m : mat) (n k : nat) :
  rect m n k -> (0 < n)%nat -> ncols m = k.
Proof.
  intros [Hn Hr] Hpos. unfold ncols.
  destruct m as [|r m]; [cbn in Hn; lia|]. now inversion Hr.
Qed.

Lemma rect_transpose (m : mat) (n k : nat) :
  rect m n k -> (0 < n)%nat -> rect (transpose_mat m) k n.
Proof.
  intros H Hpos. unfold transpose_mat. rewrite (rect_ncols H Hpos).
  split; [now rewrite length_map, length_seq|].
  rewrite Forall_map, Forall_forall. intros j _.
  rewrite length_map. apply H.
Qed.

Lemma mapM_length {A B} (g : A -> option B) (l : list A) (l' : list B) :
  mapM g l = Some l' -> List.length l' = List.length l.
Proof.
  revert l'. induction l as [|x l IH]; intros l'; cbn [mapM].
  - now intros [= <-].
  - destruct (g x); [|discriminate]. destruct (mapM g l); [|discriminate].
    intros [= <-]. cbn. now rewrite (IH _ eq_refl).
Qed.

Lemma mapM_Forall {A B} (g : A -> option B) (P : B -> Prop) (l : list A)
    (l' : list B) :
  (forall x y, In x l -> g x = Some y -> P y) ->
  mapM g l = Some l' -> Forall P l'.
Proof.
  revert l'. induction l as [|x l IH]; intros l' Hg; cbn [mapM].
  - intros [= <-]. constructor.
  - destruct (g x) as [y|] eqn:Ey; [|discriminate].
    destruct (mapM g l) as [ys|] eqn:Eys; [|discriminate].
    intros [= <-]. constructor.
    + apply (Hg x y); [now left | exact Ey].
    + apply IH; [|reflexivity]. intros x' y' Hin. apply Hg. now right.
Qed.

Lemma mapM2_length {A B} (g : A -> A -> option B) (l1 l2 : list A)
    (l : list B) :
  List.length l1 = List.length l2 ->
  mapM2 g l1 l2 = Some l -> List.length l = List.length l1.
Proof.
  revert l2 l. induction l1 as [|x l1 IH]; intros [|y l2] l Hlen;
    cbn [mapM2]; try discriminate Hlen.
  - now intros [= <-].
  - destruct (g x y); [|discriminate].
    destruct (mapM2 g l1 l2) eqn:E; [|discriminate].
    intros [= <-]. cbn. rewrite (IH l2 _ (eq_add_S _ _ Hlen) E). reflexivity.
Qed.

Lemma mapM2_Forall {A B} (g : A -> A -> option B) (P : B -> Prop)
    (l1 l2 : list A) (l : list B) :
  (forall x y z, In x l1 -> In y l2 -> g x y = Some z -> P z) ->
  mapM2 g l1 l2 = Some l -> Forall P l.
Proof.
  revert l2 l. induction l1 as [|x l1 IH]; intros [|y l2] l Hg;
    cbn [mapM2]; try (intros [= <-]; constructor).
  destruct (g x y) as [z|] eqn:Ez; [|discriminate].
  destruct (mapM2 g l1 l2) as [zs|] eqn:Ezs; [|discriminate].
  intros [= <-]. constructor.
  - apply (Hg x y z); [now left | now left | exact Ez].
  - apply (IH l2); [|exact Ezs]. intros x' y' z' Hx Hy.
    apply Hg; now right.
Qed.

(** Broadcasting one axis: the result is as long as an operand that is
    not stretched. *)
Lemma bcast_length {A B} (g : A -> A -> option B) (l1 l2 : list A)
    (l : list B) (n : nat) :
  List.length l1 = n -> List.length l2 = n \/ List.length l2 = 1%nat ->
  bcast g l1 l2 = Some l -> List.length l = n.
Proof.
  intros H1 H2. unfold bcast.
  destruct (Nat.eqb_spec (List.length l1) (List.length l2)) as [E|E].
  - intros H. rewrite (mapM2_length _ _ _ E H). exact H1.
  - destruct H2 as [H2|H2]; [congruence|].
    destruct l2 as [|y [|? ?]]; try discriminate H2.
    destruct l1 as [|x [|x' l1]]; [|now elim E|];
      intros H; rewrite (mapM_length _ _ H); exact H1.
Qed.

Lemma bcast_length_l {A B} (g : A -> A -> option B) (l1 l2 : list A)
    (l : list B) (n : nat) :
  List.length l2 = n -> List.length l1 = 1%nat ->
  bcast g l1 l2 = Some l -> List.length l = n.
Proof.
  intros H2 H1. unfold bcast.
  destruct (Nat.eqb_spec (List.length l1) (List.length l2)) as [E|E].
  - intros H. rewrite (mapM2_length _ _ _ E H). congruence.
  - destruct l1 as [|x [|? ?]]; try discriminate H1.
    intros H. rewrite (mapM_length _ _ H). exact H2.
Qed.

Lemma bcast_Forall {A B} (g : A -> A -> option B) (P : B -> Prop)
    (l1 l2 : list A) (l : list B) :
  (forall x y z, In x l1 -> In y l2 -> g x y = Some z -> P z) ->
  bcast g l1 l2 = Some l -> Forall P l.
Proof.
  intros Hg. unfold bcast.
  destruct (Nat.eqb (List.length l1) (List.length l2)).
  - now apply mapM2_Forall.
  - destruct l1 as [|x [|x' l1]], l2 as [|y [|y' l2]]; try discriminate.
    all: apply mapM_Forall; intros a z Ha Hz.
    all: first [ apply (Hg _ _ z (or_introl eq_refl) Ha Hz)
               | apply (Hg _ _ z Ha (or_introl eq_refl) Hz) ].
Qed.

(** A matrix against a matrix of as many rows, with as many columns or
    one. *)
Lemma bop_mat_cols (f : float -> float -> float) (m1 m2 : mat) (r : ndarray)
    (n k : nat) :
  rect m1 n k -> rect m2 n k \/ rect m2 n 1 ->
  bop f (Mat m1) (Mat m2) = inr r -> is_mat (Some r) n k.
Proof.
  intros [H1 R1] H2. cbn [bop].
  destruct (bcast (bcast (bcast0 f)) m1 m2) as [m|] eqn:E; [|discriminate].
  cbn. intros [= <-]. exists m. split; [reflexivity|]. split.
  - apply (bcast_length _ _ _ H1) in E; [exact E|].
    left. destruct H2 as [[H2 _]|[H2 _]]; exact H2.
  - apply (bcast_Forall _ (fun r => List.length r = k) _ _) in E; [exact E|].
    intros x y z Hx Hy Hz. rewrite Forall_forall in R1.
    apply (bcast_length _ _ _ (R1 x Hx)) in Hz; [exact Hz|].
    destruct H2 as [[_ R2]|[_ R2]]; rewrite Forall_forall in R2;
      [left | right]; now apply R2.
Qed.

(** A matrix against a 1-D array as long as its rows. *)
Lemma bop_mat_vec (f : float -> float -> float) (m : mat) (v : vec)
    (r : ndarray) (n k : nat) :
  rect m n k -> List.length v = k ->
  bop f (Mat m) (Vec v) = inr r -> is_mat (Some r) n k.
Proof.
  intros [H1 R1] Hv. cbn [bop].
  destruct (bcast (bcast (bcast0 f)) m [v]) as [m'|] eqn:E; [|discriminate].
  cbn. intros [= <-]. exists m'. split; [reflexivity|]. split.
  - apply (bcast_length _ _ _ H1) in E; [exact E | now right].
  - apply (bcast_Forall _ (fun r => List.length r = k) _ _) in E; [exact E|].
    intros x y z Hx [<-|[]] Hz. rewrite Forall_forall in R1.
    apply (bcast_length _ _ _ (R1 x Hx)) in Hz; [exact Hz | now left].
Qed.

(** A sparse matrix of shape [(r, c)] whose stored entries lie inside. *)
Definition csr_ok (s : csr) (r c : nat) : Prop :=
  csr_shape s = (r, c)
  /\ Forall (fun e => in_range r (fst (fst e)) = true
                      /\ in_range c (snd (fst e)) = true)
            (csr_entries s).

Lemma csr_matrix_ok (vals : vec) (rows cols : list Z) (sh : nat * nat)
    (s : csr) :
  csr_matrix vals rows cols sh = inr s -> csr_ok s (fst sh) (snd sh).
Proof.
  unfold csr_matrix. destruct (_ && _); [|discriminate].
  destruct (forallb _ rows && forallb _ cols) eqn:E; [|discriminate].
  intros [= <-]. apply andb_prop in E as [Er Ec].
  rewrite forallb_forall in Er, Ec.
  split; [now destruct sh|]. cbn [csr_entries].
  rewrite Forall_forall. intros [[i j] v] Hin. cbn [fst snd].
  apply in_combine_l in Hin.
  split; [apply Er; eapply in_combine_l | apply Ec; eapply in_combine_r];
    exact Hin.
Qed.

Lemma transpose_ok (s : csr) (r c : nat) :
  csr_ok s r c -> csr_ok (transpose s) c r.
Proof.
  intros [Hs He]. split; [cbn; now rewrite Hs|].
  cbn [transpose csr_entries]. rewrite Forall_map.
  eapply Forall_impl; [|exact He]. cbn. intros e [H1 H2]. now split.
Qed.

Lemma in_range_lt (n : nat) (z : Z) :
  in_range n z = true -> (Z.to_nat z < n)%nat.
Proof.
  unfold in_range. intros H. apply andb_prop in H as [H1 H2].
  apply Z.leb_le in H1. apply Z.ltb_lt in H2. lia.
Qed.

Lemma dot_row_length (s : csr) (m : mat) (i r c k : nat) :
  csr_ok s r c -> rect m c k -> (0 < c)%nat ->
  List.length (dot_row s m i) = k.
Proof.
  intros [_ He] Hm Hc. unfold dot_row.
  rewrite (rect_ncols Hm Hc).
  assert (H0 : List.length (repeat 0%float k) = k) by apply repeat_length.
  revert H0. generalize (repeat 0%float k).
  induction He as [|e es [_ Hj] _ IH]; intros acc Hacc; [exact Hacc|].
  cbn [fold_left]. apply IH.
  destruct (_ =? _)%Z; [|exact Hacc].
  unfold axpy. rewrite length_map2; [exact Hacc|].
  rewrite Hacc. symmetry. apply (rect_row Hm). now apply in_range_lt.
Qed.

Lemma dot_shape (s : csr) (m : mat) (x : ndarray) (r c k : nat) :
  csr_ok s r c -> rect m c k -> (0 < c)%nat ->
  dot s (Mat m) = inr x -> is_mat (Some x) r k.
Proof.
  intros Hs Hm Hc. unfold dot. destruct (Nat.eqb _ _); [|discriminate].
  intros [= <-]. eexists. split; [reflexivity|].
  destruct Hs as [Hsh He]. rewrite Hsh. cbn [fst].
  split; [now rewrite length_map, length_seq|].
  rewrite Forall_map, Forall_forall. intros i _.
  apply (@dot_row_length s m i r c k); [now split | exact Hm | exact Hc].
Qed.

(** What [_compute_expectations] takes as the rate of an [n] by [k]
    shape: a matrix of the same shape, a column of [n] entries, or a 1-D
    array of [k] entries. *)
Definition rate_for (rate : ndarray) (n k : nat) : Prop :=
  match rate with
  | Mat m => rect m n k \/ rect m n 1
  | Vec v => List.length v = k
  | Scalar _ => True
  end.

Lemma bop_rate (f : float -> float -> float) (g : mat) (rate r : ndarray)
    (h : float -> float) (n k : nat) :
  rect g n k -> rate_for rate n k ->
  bop f (Mat g) (umap h rate) = inr r -> is_mat (Some r) n k.
Proof.
  intros Hg Hr. destruct rate as [x|v|m]; cbn [umap].
  - cbn [bop]. intros [= <-]. eexists. split; [reflexivity|].
    now apply rect_map.
  - apply bop_mat_vec; [exact Hg|]. cbn in Hr. now rewrite length_map.
  - apply bop_mat_cols; [exact Hg|]. cbn in Hr.
    destruct Hr as [Hr|Hr]; [left | right]; now apply rect_map.
Qed.

Lemma umap_id (rate : ndarray) : umap (fun x => x) rate = rate.
Proof.
  destruct rate as [x|v|m]; cbn [umap]; [reflexivity| |].
  - now rewrite map_id.
  - f_equal. rewrite <- (map_id m) at 2. apply map_ext. intros r.
    apply map_id.
Qed.

Lemma compute_expectations_shape (np : numpy) (g : mat) (rate : ndarray)
    (e : ndarray * ndarray) (n k : nat) :
  rect g n k -> rate_for rate n k ->
  _compute_expectations np (Some (Mat g)) (Some rate) = inr e ->
  is_mat (Some (fst e)) n k /\ is_mat (Some (snd e)) n k.
Proof.
  intros Hg Hr. unfold _compute_expectations, need, psi, log, ufunc.
  cbn [of_option rbind umap].
  destruct (Np.div (Mat g) rate) as [?|mean] eqn:Ed; [discriminate|].
  cbn [rbind].
  destruct (Np.sub _ _) as [?|lm] eqn:Es; [discriminate|].
  intros [= <-]. cbn [fst snd]. split.
  - rewrite <- (umap_id rate) in Ed.
    eapply bop_rate; [exact Hg | exact Hr | exact Ed].
  - eapply bop_rate; [apply rect_map, Hg | exact Hr | exact Es].
Qed.

End Shapes.

Module PMF_shapes.
Import PMF.

(** The expectations have the shapes of the model: [n_items] by
    [n_components] on the item side, [n_components] by [n_users] on the
    user side. *)
Definition pmf_shaped (I K U : nat) (o : PoissonMF) : Prop :=
  is_mat (Eb o) I K /\ is_mat (Elogb o) I K
  /\ is_mat (Et o) K U /\ is_mat (Elogt o) K U.

Section WithNumpy.

Variable np : numpy.
Variables I K U : nat.
Hypothesis I_pos : (0 < I)%nat.
Hypothesis K_pos : (0 < K)%nat.
Hypothesis U_pos : (0 < U)%nat.

Lemma _update_users_shaped X rows cols (w w' : W) :
  X_shape X = (I, U) ->
  pmf_shaped I K U (self w) ->
  _update_users np X rows cols None None false false None w = Ok tt w' ->
  pmf_shaped I K U (self w').
Proof.
  intros HX [[eb [HEb Reb]] [[elb [HElb Relb]] [[et [HEt Ret]]
                                                 [elt [HElt Relt]]]]].
  unfold _update_users. unfold bind at 1.
  pose proof (PMF_mask._xexplog_reads np rows cols None false false w) as Hx.
  destruct (_xexplog np rows cols None false false w) as [x w1|e w1];
    simpl in Hx; subst w1; [|discriminate].
  run_lifts ltac:(discriminate).
  (* the ratio matrix *)
  unfold ratio_matrix in E. apply rbind_inr in E as [q0 [_ E]].
  apply csr_matrix_ok in E. rewrite HX in E. cbn [fst snd] in E.
  (* gamma_t *)
  rewrite HElt in E0. cbn in E0. injection E0 as <-.
  rewrite HElb in E1. cbn [exp ufunc umap rbind] in E1.
  apply rbind_inr in E1 as [p0 [Ep E1]].
  destruct (dot_shape (transpose_ok E) (rect_map _ Relb) I_pos Ep)
    as [pm [[= ->] Rp]].
  cbn [T rbind] in E1. apply rbind_inr in E1 as [q [Eq E1]].
  destruct (bop_mat_cols _ (rect_map (np_exp np) Relt)
              (or_introl (rect_transpose Rp U_pos)) Eq)
    as [qm [[= ->] Rq]].
  cbn in E1. injection E1 as <-.
  (* rho_t *)
  rewrite HEb in E2. cbn in E2. injection E2 as <-.
  assert (Rr : rect (map (map (PrimFloat.add (b (self w))))
                         (transpose_mat [map fsum (transpose_mat eb)]))
                    K 1).
  { apply rect_map, rect_transpose; [|lia].
    split; [reflexivity|]. constructor; [|constructor].
    rewrite length_map. apply (rect_transpose Reb I_pos). }
  (* the expectations *)
  destruct (@compute_expectations_shape np _ (Mat _) _ K U (rect_map _ Rq)
              (or_intror Rr) E3) as [HEt' HElt'].
  intros [= <-]. unfold pmf_shaped. cbn.
  rewrite HEb, HElb. repeat split; try assumption; eexists; eauto.
Qed.

Lemma _update_items_shaped X rows cols (w w' : W) :
  X_shape X = (I, U) ->
  pmf_shaped I K U (self w) ->
  _update_items np X rows cols None false false "default" w = Ok tt w' ->
  pmf_shaped I K U (self w').
Proof.
  intros HX [[eb [HEb Reb]] [[elb [HElb Relb]] [[et [HEt Ret]]
                                                 [elt [HElt Relt]]]]].
  unfold _update_items. unfold bind at 1.
  pose proof (PMF_mask._xexplog_reads np rows cols None false false w) as Hx.
  destruct (_xexplog np rows cols None false false w) as [x w1|e w1];
    simpl in Hx; subst w1; [|discriminate].
  run_lifts ltac:(discriminate).
  unfold ratio_matrix in E. apply rbind_inr in E as [q0 [_ E]].
  apply csr_matrix_ok in E. rewrite HX in E. cbn [fst snd] in E.
  (* gamma_b *)
  rewrite HElb, HElt in E0. cbn [exp ufunc umap rbind T] in E0.
  apply rbind_inr in E0 as [p0 [Ep E0]].
  destruct (dot_shape E (rect_map _ (rect_transpose Relt K_pos)) U_pos Ep)
    as [pm [[= ->] Rp]].
  apply rbind_inr in E0 as [q [Eq E0]].
  destruct (bop_mat_cols _ (rect_map (np_exp np) Relb) (or_introl Rp) Eq)
    as [qm [[= ->] Rq]].
  cbn in E0. injection E0 as <-.
  (* rho_b *)
  rewrite HEt in E1. cbn in E1. injection E1 as <-.
  (* the expectations *)
  cbn in E2.
  assert (Hv : List.length (map (PrimFloat.add (d (self w))) (map fsum et))
               = K) by (rewrite !length_map; apply Ret).
  destruct (@compute_expectations_shape np _ (Vec _) _ I K (rect_map _ Rq)
              Hv E2) as [HEb' HElb'].
  intros [= <-]. unfold pmf_shaped. cbn.
  rewrite HEt, HElt. repeat split; try assumption; eexists; eauto.
Qed.

Abbreviation C := (pmf_shaped I K U).

Lemma _update_users_always X rows cols :
  X_shape X = (I, U) ->
  hoare (always C)
        (_update_users np X rows cols None None false false None)
        (fun _ w => always C w) (fun _ w => snapshots C w).
Proof.
  intros HX w [Hs Ht].
  pose proof (PMF_expect._update_users_expect np X rows cols None None false
                false None w) as Hx.
  destruct (_update_users np X rows cols None None false false None w)
    as [[] w'|e w'] eqn:E.
  - destruct Hx as [_ [_ Htr]].
    pose proof (@_update_users_shaped X rows cols w w' HX Hs E) as Hs'.
    split; [exact Hs'|]. rewrite Htr. now constructor.
  - unfold snapshots. now rewrite Hx.
Qed.

Lemma _update_items_always X rows cols :
  X_shape X = (I, U) ->
  hoare (always C)
        (_update_items np X rows cols None false false "default")
        (fun _ w => always C w) (fun _ w => snapshots C w).
Proof.
  intros HX w [Hs Ht].
  pose proof (PMF_expect._update_items_expect np X rows cols None false false
                "default" w) as Hx.
  destruct (_update_items np X rows cols None false false "default" w)
    as [[] w'|e w'] eqn:E.
  - destruct Hx as [_ [_ Htr]].
    pose proof (@_update_items_shaped X rows cols w w' HX Hs E) as Hs'.
    split; [exact Hs'|]. rewrite Htr. now constructor.
  - unfold snapshots. now rewrite Hx.
Qed.

Lemma iteration_shaped recur X rows cols vad cw z i l :
  X_shape X = (I, U) ->
  hoare (always C)
        (iteration np recur X rows cols vad (PMF_expect.plain cw z) i l)
        (fun _ w => always C w) (fun _ w => snapshots C w).
Proof.
  intros HX. unfold iteration.
  change (users_part np X rows cols (PMF_expect.plain cw z) i)
    with (_update_users np X rows cols None None false false None).
  change (items_part np X rows cols (PMF_expect.plain cw z) i l)
    with (_update_items np X rows cols None false false "default" ;;
          ret l)%monad.
  eapply hoare_bind; [now apply _update_users_always|]. intros ?.
  eapply hoare_bind.
  { eapply hoare_bind; [now apply _update_items_always|].
    intros ?. apply hoare_ret. intros w Hw. exact Hw. }
  intros l1. cbv beta.
  apply hoare_bind with (Mid := fun _ w => always C w).
  { intros w Hw. pose proof (PMF_expect.pred_loglikeli_reads np vad w) as H.
    destruct (pred_loglikeli np vad w); simpl in H; subst;
      [exact Hw | apply Hw]. }
  intros p.
  apply hoare_bind with (Mid := fun _ w => always C w).
  { apply hoare_modify. intros w Hw. now apply always_observe. }
  intros ?. destruct (is_nan p).
  { apply hoare_raise. intros w Hw. apply Hw. }
  apply hoare_bind with (Mid := fun _ w => always C w);
    [apply hoare_gets; auto|].
  intros s. cbv zeta. destruct (tol_stop _ _ _ _ _).
  - apply hoare_bind with (Mid := fun _ w => always C w).
    { apply hoare_modify. intros w Hw. now apply always_observe. }
    intros ?. unfold converged_part. simpl.
    apply hoare_ret. auto.
  - apply hoare_ret. auto.
Qed.

Lemma _update_shaped X rows cols vad cw z :
  X_shape X = (I, U) ->
  hoare (always C) (_update np X rows cols vad (PMF_expect.plain cw z))
        (fun _ w => always C w) (fun _ w => snapshots C w).
Proof.
  intros HX. unfold _update, _update_body.
  apply hoare_bind with (Mid := fun _ w => always C w);
    [apply hoare_gets; auto|].
  intros n.
  apply hoare_bind with (Mid := fun _ w => always C w).
  - apply hoare_for_each with
      (J := fun (_ : list Z) (_ : locals) (w : W) => always C w); [|auto].
    intros i rest l w Hw.
    pose proof (@iteration_shaped (_update_leaf np) X rows cols vad cw z i l
                  HX w Hw) as H.
    destruct (iteration _ _ _ _ _ _ _ _ _ w) as [[l' brk] w'|]; [|exact H].
    simpl. destruct brk; exact H.
  - intros l. unfold local.
    apply hoare_bind with (Mid := fun _ w => always C w).
    + apply hoare_lift. intros w Hw.
      destruct (pred_ll l); simpl; [exact Hw | apply Hw].
    + intros p. apply hoare_ret. auto.
Qed.

Lemma init_shaped cw (w w' : W) :
  n_components (self w) = K ->
  (_init_items np I None cw ;; _init_users np U None)%monad w = Ok tt w' ->
  C (self w') /\ trace w' = trace w.
Proof.
  intros HK. destruct w as [o tr]. destruct o. cbn in HK. subst.
  unfold _init_items, _init_users, draw. destruct cw.
  all: msimpl;
    repeat (match goal with
            | |- context [_compute_expectations np
                            (Some (Mat (sample_matrix ?f ?r ?c)))
                            (Some (Mat (sample_matrix ?g ?r ?c)))] =>
                rewrite (compute_expectations_matrices np
                           (rect_sample_matrix f r c)
                           (rect_sample_matrix g r c))
            end; unfold lift; msimpl).
  all: intros [= <-]; split; [|reflexivity].
  all: unfold pmf_shaped; cbn.
  all: repeat split; eexists; (split; [reflexivity|]);
    repeat first [ apply rect_map2 | apply rect_map
                 | apply rect_sample_matrix ].
Qed.

Lemma fit_shaped X rows cols vad cw z :
  X_shape X = (I, U) ->
  hoare (fun w => trace w = [] /\ n_components (self w) = K)
        (fit np X rows cols vad None None cw "default" "default" z)
        (fun _ w => always C w) (fun _ w => snapshots C w).
Proof.
  intros HX w [Hw HK]. rewrite PMF_start.fit_eq. rewrite HX. cbn [fst snd].
  unfold bind at 1, setattr at 1, modify at 1.
  set (w1 := {| self := set_n_users U (self w); trace := trace w |}).
  destruct (PMF_facts._init_items_runs np I None cw w1) as [o2 [E2 _]].
  set (w2 := {| self := o2; trace := trace w1 |}) in *.
  destruct (PMF_facts._init_users_runs np U None w2) as [o3 [E3 _]].
  set (w3 := {| self := o3; trace := trace w2 |}) in *.
  assert (Hinit : (_init_items np I None cw ;; _init_users np U None)%monad
                    w1 = Ok tt w3)
    by (rewrite (bind_ok _ _ _ E2); exact E3).
  apply init_shaped in Hinit as [Hs _]; [|exact HK].
  rewrite (bind_ok _ _ _ E2), (bind_ok _ _ _ E3).
  unfold PMF_start.after_init.
  change (negb (streq "default" "default")) with false. cbv iota zeta.
  assert (Ha : always C w3).
  { split; [exact Hs|]. cbn [trace w3 w2 w1]. rewrite Hw. constructor. }
  pose proof (@_update_shaped X rows cols vad cw z HX w3 Ha) as Hu.
  unfold bind.
  change (_update np X rows cols vad
            {| beta := None; theta := None;
               observed_user_preferences := false; categorywise := cw;
               item_fit_type := "default"; user_fit_type := "default";
               update := "default"; zero_untrained_components := z;
               initialize_users := "none"; only_update := None |})
    with (_update np X rows cols vad (PMF_expect.plain cw z)).
  destruct (_update np X rows cols vad (PMF_expect.plain cw z) w3);
    exact Hu.
Qed.

End WithNumpy.

End PMF_shapes.

(** X15.  The shapes of the factors.  A default fit of [PoissonMF] (no
    [beta], no [theta], the default fit types) on a matrix [X] of shape
    [(n_items, n_users)], both positive, with [n_components > 0], keeps the
    four expectations in the shapes of the model: [Eb] and [Elogb] are
    [n_items] by [n_components], [Et] and [Elogt] are [n_components] by
    [n_users], at every observation point of the fit and, when it returns,
    in the object it leaves. *)
Theorem fit_keeps_shapes (np : numpy) X rows cols vad cw z
    (p : PMF.PoissonMF) :
  let n_items := fst (X_shape X) in
  let n_users := snd (X_shape X) in
  let C := PMF_shapes.pmf_shaped n_items (PMF.n_components p) n_users in
  (0 < n_items)%nat -> (0 < n_users)%nat -> (0 < PMF.n_components p)%nat ->
  match PMF.fit np X rows cols vad None None cw "default" "default" z
                {| self := p; trace := [] |} with
  | Ok _ w' => always C w'
  | Raise _ w' => snapshots C w'
  end.
Proof.
  intros n_items n_users C HI HU HK.
  apply (@PMF_shapes.fit_shaped np n_items (PMF.n_components p) n_users
           HI HK HU X rows cols vad cw z).
  - subst n_items n_users. now destruct (X_shape X).
  - split; reflexivity.
Qed.

Lemma fit_keeps_shapes_witness :
  match PMF.fit Ref.np Ex.X Ex.rows Ex.cols Ex.vad None None false "default"
                "default" false (Ex.pmf 5) with
  | Ok _ w' => always (PMF_shapes.pmf_shaped 3 2 3) w'
  | Raise _ w' => snapshots (PMF_shapes.pmf_shaped 3 2 3) w'
  end.
Proof.
  apply (@fit_keeps_shapes Ref.np Ex.X Ex.rows Ex.cols Ex.vad false false
           (self (Ex.pmf 5))); simpl; lia.
Defined.

(** ** The shapes of the hierarchical factors *)

Section MoreShapes.

(** A 1-D array of [n] entries. *)
Definition is_vec (a : pyarr) (n : nat) : Prop :=
  exists v, a = Some (Vec v) /\ List.length v = n.

(** A 1-D array of [k] entries against a column of [n]: [n] by [k]. *)
Lemma bop_vec_col (f : float -> float -> float) (v : vec) (m : mat)
    (r : ndarray) (n k : nat) :
  List.length v = k -> rect m n 1 ->
  bop f (Vec v) (Mat m) = inr r -> is_mat (Some r) n k.
Proof.
  intros Hv [H1 R1]. cbn [bop].
  destruct (bcast (bcast (bcast0 f)) [v] m) as [m'|] eqn:E; [|discriminate].
  cbn. intros [= <-]. exists m'. split; [reflexivity|]. split.
  - apply (bcast_length_l _ _ _ H1) in E; [exact E | reflexivity].
  - apply (bcast_Forall _ (fun r => List.length r = k) _ _) in E; [exact E|].
    intros x y z [<-|[]] Hy Hz. rewrite Forall_forall in R1.
    apply (bcast_length _ _ _ Hv) in Hz; [exact Hz|]. right. now apply R1.
Qed.

(** A column of [n] entries against a 1-D array of [k]: [n] by [k]. *)
Lemma bop_col_vec (f : float -> float -> float) (m : mat) (v : vec)
    (r : ndarray) (n k : nat) :
  rect m n 1 -> List.length v = k ->
  bop f (Mat m) (Vec v) = inr r -> is_mat (Some r) n k.
Proof.
  intros [H1 R1] Hv. cbn [bop].
  destruct (bcast (bcast (bcast0 f)) m [v]) as [m'|] eqn:E; [|discriminate].
  cbn. intros [= <-]. exists m'. split; [reflexivity|]. split.
  - apply (bcast_length _ _ _ H1) in E; [exact E | now right].
  - apply (bcast_Forall _ (fun r => List.length r = k) _ _) in E; [exact E|].
    intros x y z Hx [<-|[]] Hz. rewrite Forall_forall in R1.
    apply (bcast_length_l _ _ _ Hv) in Hz; [exact Hz | now apply R1].
Qed.

(** The expectations of a scalar shape take the shape of the rate. *)
Lemma compute_expectations_scalar_vec (np : numpy) (g : float) (v : vec)
    (e : ndarray * ndarray) (n : nat) :
  List.length v = n ->
  _compute_expectations np (Some (Scalar g)) (Some (Vec v)) = inr e ->
  is_vec (Some (fst e)) n.
Proof.
  intros Hv. cbn. intros [= <-]. cbn [fst]. eexists.
  split; [reflexivity|]. now rewrite length_map.
Qed.

Lemma compute_expectations_scalar_mat (np : numpy) (g : float) (m : mat)
    (e : ndarray * ndarray) (n k : nat) :
  rect m n k ->
  _compute_expectations np (Some (Scalar g)) (Some (Mat m)) = inr e ->
  is_mat (Some (fst e)) n k.
Proof.
  intros Hm. cbn. intros [= <-]. cbn [fst]. eexists.
  split; [reflexivity|]. now apply rect_map.
Qed.

Lemma compute_expectations_vecs (np : numpy) (v w : vec)
    (e : ndarray * ndarray) (n : nat) :
  List.length v = n -> List.length w = n ->
  _compute_expectations np (Some (Vec v)) (Some (Vec w)) = inr e ->
  is_vec (Some (fst e)) n.
Proof.
  intros Hv Hw. unfold _compute_expectations. cbn [need of_option rbind].
  unfold Np.div at 1. cbn [bop]. unfold bcast.
  rewrite Hv, Hw, Nat.eqb_refl, mapM2_bcast0. cbn [option_map of_option rbind].
  destruct (psi np _) as [?|p]; [discriminate|]. cbn [rbind].
  destruct (log np _) as [?|l]; [discriminate|]. cbn [rbind].
  destruct (Np.sub p l) as [?|s]; [discriminate|]. cbn [rbind].
  intros [= <-]. cbn [fst]. eexists. split; [reflexivity|].
  rewrite length_map2; congruence.
Qed.

End MoreShapes.

Module HPMF_shapes.
Import HPMF.

(** The expectations have the shapes of the model: the item side
    [n_items] by [n_components] with a column of item popularities, the
    user side [n_components] by [n_users] with one activity per user. *)
Definition hpmf_shaped (I K U : nat) (o : HPoissonMF) : Prop :=
  is_mat (Eb o) I K /\ is_mat (Elogb o) I K
  /\ is_mat (Et o) K U /\ is_mat (Elogt o) K U
  /\ is_vec (Eksi o) U /\ is_mat (Eeta o) I 1.

Section WithNumpy.

Variable np : numpy.
Variables I K U : nat.
Hypothesis I_pos : (0 < I)%nat.
Hypothesis K_pos : (0 < K)%nat.
Hypothesis U_pos : (0 < U)%nat.

Lemma _update_users_shaped_h X rows cols (w w' : W) :
  X_shape X = (I, U) ->
  hpmf_shaped I K U (self w) ->
  _update_users np X rows cols None false w = Ok tt w' ->
  hpmf_shaped I K U (self w').
Proof.
  intros HX [[eb [HEb Reb]] [[elb [HElb Relb]] [[et [HEt Ret]]
             [[elt [HElt Relt]] [[ek [HEk Rek]] [ee [HEe Ree]]]]]]].
  unfold _update_users. unfold bind at 1.
  pose proof (HPMF_mask._xexplog_reads_h np rows cols None w) as Hx.
  destruct (_xexplog np rows cols None w) as [x w1|e w1];
    simpl in Hx; subst w1; [|discriminate].
  run_lifts ltac:(discriminate).
  unfold ratio_matrix in E. apply rbind_inr in E as [q0 [_ E]].
  apply csr_matrix_ok in E. rewrite HX in E. cbn [fst snd] in E.
  (* gamma_t *)
  rewrite HElt, HElb in E0. cbn [exp ufunc umap rbind] in E0.
  apply rbind_inr in E0 as [p0' [Ep E0]].
  destruct (dot_shape (transpose_ok E) (rect_map _ Relb) I_pos Ep)
    as [pm [[= ->] Rp]].
  cbn [T rbind] in E0. apply rbind_inr in E0 as [q [Eq E0]].
  destruct (bop_mat_cols _ (rect_map (np_exp np) Relt)
              (or_introl (rect_transpose Rp U_pos)) Eq)
    as [qm [[= ->] Rq]].
  cbn in E0. injection E0 as <-.
  (* rho_t *)
  rewrite HEk, HEb in E1.
  cbn [need of_option rbind sum_axis0_keepdims T] in E1.
  assert (Rs : rect (transpose_mat [map fsum (transpose_mat eb)]) K 1).
  { apply rect_transpose; [|lia].
    split; [reflexivity|]. constructor; [|constructor].
    rewrite length_map. apply (rect_transpose Reb I_pos). }
  destruct (@bop_vec_col _ _ _ _ K U Rek Rs E1) as [rm [[= ->] Rr]].
  (* Et, Elogt *)
  destruct (@compute_expectations_shape np _ (Mat rm) _ K U (rect_map _ Rq)
              (or_introl Rr) E2) as [[et' [Het' Ret']] HElt'].
  (* the activities *)
  rewrite Het' in E3. cbn in E3. injection E3 as <-.
  assert (Hk : List.length
                 (map (PrimFloat.add (b_ksi (self w)))
                      (map fsum (transpose_mat et'))) = U).
  { rewrite !length_map. apply (rect_transpose Ret' K_pos). }
  pose proof (@compute_expectations_scalar_vec np _ _ _ U Hk E4) as HEk'.
  intros [= <-]. unfold hpmf_shaped. cbn.
  rewrite HEb, HElb, HEe, Het'.
  repeat split; try assumption; eexists; eauto.
Qed.

Lemma _update_items_shaped_h X rows cols (w w' : W) :
  X_shape X = (I, U) ->
  hpmf_shaped I K U (self w) ->
  _update_items np X rows cols None false "default" w = Ok tt w' ->
  hpmf_shaped I K U (self w').
Proof.
  intros HX [[eb [HEb Reb]] [[elb [HElb Relb]] [[et [HEt Ret]]
             [[elt [HElt Relt]] [[ek [HEk Rek]] [ee [HEe Ree]]]]]]].
  unfold _update_items. unfold bind at 1.
  pose proof (HPMF_mask._xexplog_reads_h np rows cols None w) as Hx.
  destruct (_xexplog np rows cols None w) as [x w1|e w1];
    simpl in Hx; subst w1; [|discriminate].
  run_lifts ltac:(discriminate).
  unfold ratio_matrix in E. apply rbind_inr in E as [q0 [_ E]].
  apply csr_matrix_ok in E. rewrite HX in E. cbn [fst snd] in E.
  (* gamma_b *)
  rewrite HElb, HElt in E0. cbn [exp ufunc umap rbind T] in E0.
  apply rbind_inr in E0 as [p0' [Ep E0]].
  destruct (dot_shape E (rect_map _ (rect_transpose Relt K_pos)) U_pos Ep)
    as [pm [[= ->] Rp]].
  apply rbind_inr in E0 as [q [Eq E0]].
  destruct (bop_mat_cols _ (rect_map (np_exp np) Relb) (or_introl Rp) Eq)
    as [qm [[= ->] Rq]].
  cbn in E0. injection E0 as <-.
  (* rho_b *)
  rewrite HEe, HEt in E1. cbn [need of_option rbind sum_axis1] in E1.
  assert (Hs : List.length (map fsum et) = K)
    by (rewrite length_map; apply Ret).
  destruct (@bop_col_vec _ _ _ _ I K Ree Hs E1) as [rm [[= ->] Rr]].
  (* Eb, Elogb *)
  cbn in E2.
  destruct (@compute_expectations_shape np _ (Mat rm) _ I K (rect_map _ Rq)
              (or_introl Rr) E2) as [[eb' [Heb' Reb']] HElb'].
  (* the popularities *)
  rewrite Heb' in E3. cbn in E3. injection E3 as <-.
  assert (Re : rect (map (map (PrimFloat.add (d_eta (self w))))
                         (map (fun r => [fsum r]) eb')) I 1).
  { apply rect_map. split; [rewrite length_map; apply Reb'|].
    rewrite Forall_map, Forall_forall. now intros r _. }
  pose proof (@compute_expectations_scalar_mat np _ _ _ I 1 Re E4) as HEe'.
  intros [= <-]. unfold hpmf_shaped. cbn.
  rewrite HEt, HElt, HEk, Heb'.
  repeat split; try assumption; eexists; eauto.
Qed.

Abbreviation C := (hpmf_shaped I K U).

Lemma _update_users_always_h X rows cols :
  X_shape X = (I, U) ->
  hoare (always C) (_update_users np X rows cols None false)
        (fun _ w => always C w) (fun _ w => snapshots C w).
Proof.
  intros HX w [Hs Ht].
  pose proof (HPMF_expect._update_users_expect_h np X rows cols None false w)
    as Hx.
  destruct (_update_users np X rows cols None false w) as [[] w'|e w'] eqn:E.
  - destruct Hx as [_ [_ Htr]].
    pose proof (@_update_users_shaped_h X rows cols w w' HX Hs E) as Hs'.
    split; [exact Hs'|]. rewrite Htr. now constructor.
  - unfold snapshots. now rewrite Hx.
Qed.

Lemma _update_items_always_h X rows cols :
  X_shape X = (I, U) ->
  hoare (always C) (_update_items np X rows cols None false "default")
        (fun _ w => always C w) (fun _ w => snapshots C w).
Proof.
  intros HX w [Hs Ht].
  pose proof (HPMF_expect._update_items_expect_h np X rows cols None false
                "default" w) as Hx.
  destruct (_update_items np X rows cols None false "default" w)
    as [[] w'|e w'] eqn:E.
  - destruct Hx as [_ [_ Htr]].
    pose proof (@_update_items_shaped_h X rows cols w w' HX Hs E) as Hs'.
    split; [exact Hs'|]. rewrite Htr. now constructor.
  - unfold snapshots. now rewrite Hx.
Qed.

Lemma iteration_shaped_h recur X rows cols vad cw z i l :
  X_shape X = (I, U) ->
  hoare (always C)
        (iteration np recur X rows cols vad (HPMF_expect.plain cw z) i l)
        (fun _ w => always C w) (fun _ w => snapshots C w).
Proof.
  intros HX. unfold iteration.
  change (items_part np X rows cols (HPMF_expect.plain cw z) i l)
    with (_update_items np X rows cols None false "default" ;;
          ret l)%monad.
  eapply hoare_bind; [now apply _update_users_always_h|]. intros ?.
  eapply hoare_bind.
  { eapply hoare_bind; [now apply _update_items_always_h|].
    intros ?. apply hoare_ret. intros w Hw. exact Hw. }
  intros l1. cbv beta.
  apply hoare_bind with (Mid := fun _ w => always C w).
  { intros w Hw.
    pose proof (HPMF_expect.pred_loglikeli_reads_h np vad w) as H.
    destruct (pred_loglikeli np vad w); simpl in H; subst;
      [exact Hw | apply Hw]. }
  intros p.
  apply hoare_bind with (Mid := fun _ w => always C w).
  { apply hoare_modify. intros w Hw. now apply always_observe. }
  intros ?. destruct (is_nan p).
  { apply hoare_raise. intros w Hw. apply Hw. }
  apply hoare_bind with (Mid := fun _ w => always C w);
    [apply hoare_gets; auto|].
  intros s. cbv zeta. destruct (tol_stop _ _ _ _ _).
  - apply hoare_bind with (Mid := fun _ w => always C w).
    { apply hoare_modify. intros w Hw. now apply always_observe. }
    intros ?. unfold converged_part. simpl.
    apply hoare_ret. auto.
  - apply hoare_ret. auto.
Qed.

Lemma _update_shaped_h X rows cols vad cw z :
  X_shape X = (I, U) ->
  hoare (always C) (_update np X rows cols vad (HPMF_expect.plain cw z))
        (fun _ w => always C w) (fun _ w => snapshots C w).
Proof.
  intros HX. unfold _update, _update_body.
  apply hoare_bind with (Mid := fun _ w => always C w);
    [apply hoare_gets; auto|].
  intros n.
  apply hoare_bind with (Mid := fun _ w => always C w).
  - apply hoare_for_each with
      (J := fun (_ : list Z) (_ : locals) (w : W) => always C w); [|auto].
    intros i rest l w Hw.
    pose proof (@iteration_shaped_h (_update_leaf np) X rows cols vad cw z i
                  l HX w Hw) as H.
    destruct (iteration _ _ _ _ _ _ _ _ _ w) as [[l' brk] w'|]; [|exact H].
    simpl. destruct brk; exact H.
  - intros ?. apply hoare_ret. auto.
Qed.

Lemma init_shaped_h (w w' : W) :
  n_components (self w) = K ->
  (_init_items np I None ;; _init_users np U)%monad w = Ok tt w' ->
  C (self w') /\ trace w' = trace w.
Proof.
  intros HK. destruct w as [o tr]. destruct o. cbn in HK. subst.
  unfold _init_items, _init_users, draw.
  msimpl;
    repeat (match goal with
            | |- context [_compute_expectations np
                            (Some (Mat (sample_matrix ?f ?r ?c)))
                            (Some (Mat (sample_matrix ?g ?r ?c)))] =>
                rewrite (compute_expectations_matrices np
                           (rect_sample_matrix f r c)
                           (rect_sample_matrix g r c))
            end; unfold lift; msimpl).
  match goal with
  | |- context [_compute_expectations np (Some (Vec ?v)) (Some (Vec ?v'))] =>
      assert (Hv : List.length v = U)
        by (now rewrite !length_app, !length_map, !length_seq);
      assert (Hv' : List.length v' = U)
        by (now rewrite !length_app, !length_map, !length_seq);
      pose proof (fun e => @compute_expectations_vecs np v v' e U Hv Hv')
        as Hk;
      destruct (_compute_expectations np (Some (Vec v)) (Some (Vec v')))
        as [?|ek]; [discriminate|]
  end.
  specialize (Hk ek eq_refl). msimpl.
  intros [= <-]; split; [|reflexivity].
  unfold hpmf_shaped; cbn.
  repeat split; try exact Hk; eexists; (split; [reflexivity|]);
    repeat first [ apply rect_map2 | apply rect_map
                 | apply rect_sample_matrix ].
Qed.

Lemma fit_shaped_h X rows cols vad theta cw z :
  X_shape X = (I, U) ->
  hoare (fun w => trace w = [] /\ n_components (self w) = K)
        (fit np X rows cols vad None theta cw "default" z)
        (fun _ w => always C w) (fun _ w => snapshots C w).
Proof.
  intros HX w [Hw HK]. unfold fit. cbv zeta. rewrite HX. cbn [fst snd].
  destruct (HPMF_start._init_items_runs_h np I None w) as [o2 [E2 _]].
  set (w2 := {| self := o2; trace := trace w |}) in *.
  destruct (HPMF_start._init_users_runs_h np U w2) as [o3 [E3 _]].
  set (w3 := {| self := o3; trace := trace w2 |}) in *.
  assert (Hinit : (_init_items np I None ;; _init_users np U)%monad w
                  = Ok tt w3)
    by (rewrite (bind_ok _ _ _ E2); exact E3).
  apply init_shaped_h in Hinit as [Hs _]; [|exact HK].
  rewrite (bind_ok _ _ _ E2), (bind_ok _ _ _ E3).
  assert (Ha : always C w3).
  { split; [exact Hs|]. cbn [trace w3 w2]. rewrite Hw. constructor. }
  exact (@_update_shaped_h X rows cols vad cw z HX w3 Ha).
Qed.

End WithNumpy.

End HPMF_shapes.

(** X16.  The shapes of the hierarchical factors.  A default fit of
    [HPoissonMF] (no [beta], the default [item_fit_type]) on a matrix [X] of
    shape [(n_items, n_users)], both positive, with [n_components > 0],
    keeps [Eb] and [Elogb] [n_items] by [n_components], [Et] and [Elogt]
    [n_components] by [n_users], the user activities [Eksi] a 1-D array of
    [n_users] entries and the item popularities [Eeta] a column of
    [n_items] entries, at every observation point of the fit and, when it
    returns, in the object it leaves. *)
Theorem hpmf_fit_keeps_shapes (np : numpy) X rows cols vad theta cw z
    (h : HPMF.HPoissonMF) :
  let n_items := fst (X_shape X) in
  let n_users := snd (X_shape X) in
  let C := HPMF_shapes.hpmf_shaped n_items (HPMF.n_components h) n_users in
  (0 < n_items)%nat -> (0 < n_users)%nat -> (0 < HPMF.n_components h)%nat ->
  match HPMF.fit np X rows cols vad None theta cw "default" z
                 {| self := h; trace := [] |} with
  | Ok _ w' => always C w'
  | Raise _ w' => snapshots C w'
  end.
Proof.
  intros n_items n_users C HI HU HK.
  apply (@HPMF_shapes.fit_shaped_h np n_items (HPMF.n_components h) n_users
           HI HK HU X rows cols vad theta cw z).
  - subst n_items n_users. now destruct (X_shape X).
  - split; reflexivity.
Qed.

Lemma hpmf_fit_keeps_shapes_witness :
  match HPMF.fit Ref.np Ex.X Ex.rows Ex.cols Ex.vad None None false "default"
                 false (Ex.hpmf 5) with
  | Ok _ w' => always (HPMF_shapes.hpmf_shaped 3 2 3) w'
  | Raise _ w' => snapshots (HPMF_shapes.hpmf_shaped 3 2 3) w'
  end.
Proof.
  apply (@hpmf_fit_keeps_shapes Ref.np Ex.X Ex.rows Ex.cols Ex.vad None false
           false (self (Ex.hpmf 5))); simpl; lia.
Defined.

(** ** A held-out zero that is predicted as zero *)

Section NaNs.

Lemma is_nan_spec (x : float) : Prim2SF x = S754_nan -> is_nan x = true.
Proof. intros H. unfold is_nan. now rewrite eqb_spec, H. Qed.

Lemma nan_spec (x : float) : is_nan x = true -> Prim2SF x = S754_nan.
Proof.
  unfold is_nan. rewrite eqb_spec. unfold SFeqb.
  destruct (Prim2SF x) as [[]|[]| |[] m e]; try discriminate;
    try reflexivity; cbn [SFcompare];
    rewrite Z.compare_refl, ?Pos.compare_cont_refl; discriminate.
Qed.

Lemma add_nan_l (x y : float) : is_nan x = true -> is_nan (x + y) = true.
Proof.
  intros H. apply is_nan_spec. rewrite add_spec, (nan_spec _ H). reflexivity.
Qed.

Lemma add_nan_r (x y : float) : is_nan y = true -> is_nan (x + y) = true.
Proof.
  intros H. apply is_nan_spec. rewrite add_spec, (nan_spec _ H).
  now destruct (Prim2SF x).
Qed.

Lemma div_nan_l (x y : float) : is_nan x = true -> is_nan (x / y) = true.
Proof.
  intros H. apply is_nan_spec. rewrite div_spec, (nan_spec _ H). reflexivity.
Qed.

(** A sum with a NaN among its terms is a NaN. *)
Lemma fsum_nan (l : vec) (x : float) :
  In x l -> is_nan x = true -> is_nan (fsum l) = true.
Proof.
  unfold fsum. generalize 0%float as acc.
  assert (Hacc : forall l acc, is_nan acc = true ->
                               is_nan (fold_left PrimFloat.add l acc) = true).
  { clear. induction l as [|y l IH]; intros acc H; [exact H|].
    cbn [fold_left]. apply IH. now apply add_nan_l. }
  induction l as [|y l IH]; intros acc Hin Hx; [destruct Hin|].
  cbn [fold_left]. destruct Hin as [<-|Hin].
  - apply Hacc. now apply add_nan_r.
  - now apply IH.
Qed.

Lemma mean_nan (l : vec) (x : float) :
  In x l -> is_nan x = true -> is_nan (mean l) = true.
Proof.
  intros Hin Hx. unfold mean. apply div_nan_l.
  exact (fsum_nan _ _ Hin Hx).
Qed.

End NaNs.

Section ZeroZero.

Variable np : numpy.
Hypothesis log_zero : np_log np 0 = neg_infinity.

(** The value [np.mean(X_new * np.log(X_pred) - X_pred)] of the two
    classes' [pred_loglikeli]. *)
Definition held_out_ll (X_new X_pred : vec) : res float :=
  l <~ log np (Some (Vec X_pred)) ;;
  xl <~ Np.mul (Vec X_new) l ;;
  df <~ Np.sub xl (Vec X_pred) ;;
  inr (mean (ravel df)).

Lemma held_out_ll_zero (X_new X_pred : vec) (k : nat) :
  List.length X_new = List.length X_pred ->
  nth_error X_new k = Some 0%float -> nth_error X_pred k = Some 0%float ->
  exists p, held_out_ll X_new X_pred = inr p /\ is_nan p = true.
Proof.
  intros Hlen Hn Hp.
  assert (Hk : (k < List.length X_pred)%nat)
    by (apply nth_error_Some; congruence).
  assert (L0 : List.length (map (np_log np) X_pred) = List.length X_pred)
    by apply length_map.
  assert (L1 : List.length (map2 PrimFloat.mul X_new
                              (map (np_log np) X_pred))
               = List.length X_pred)
    by (rewrite length_map2; congruence).
  assert (L2 : List.length
                 (map2 PrimFloat.sub
                    (map2 PrimFloat.mul X_new (map (np_log np) X_pred))
                    X_pred)
               = List.length X_pred)
    by (rewrite length_map2; congruence).
  unfold held_out_ll, log, ufunc. cbn [umap rbind].
  unfold Np.mul at 1. cbn [bop]. unfold bcast.
  rewrite L0, Hlen, Nat.eqb_refl, mapM2_bcast0.
  cbn [option_map of_option rbind].
  unfold Np.sub at 1. cbn [bop]. unfold bcast.
  rewrite L1, Nat.eqb_refl, mapM2_bcast0.
  cbn [option_map of_option rbind ravel].
  eexists. split; [reflexivity|].
  apply mean_nan with
    (x := nth k (map2 PrimFloat.sub
                   (map2 PrimFloat.mul X_new (map (np_log np) X_pred))
                   X_pred) 0%float).
  - apply nth_In. rewrite L2. exact Hk.
  - rewrite (nth_map2 PrimFloat.sub _ _ 0%float 0%float 0%float)
      by (rewrite ?L1; exact Hk).
    rewrite (nth_map2 PrimFloat.mul _ _ 0%float 0%float 0%float)
      by (rewrite ?L0, ?Hlen; exact Hk).
    rewrite (nth_indep (map (np_log np) X_pred) 0%float
               (np_log np 0%float))
      by (rewrite L0; exact Hk).
    rewrite map_nth.
    rewrite (nth_error_nth _ _ _ Hn), (nth_error_nth _ _ _ Hp), log_zero.
    reflexivity.
Qed.

End ZeroZero.

(** X17.  A held-out zero predicted as zero.  If some held-out entry has
    the count [0] and the predicted rate [0] ([X_pred = _inner(Eb, Et, ...)],
    as with an observed item row of zeros), then its term is
    [0 * log(0) = 0 * -inf], a NaN, and [pred_loglikeli] of both classes
    returns a NaN, whatever the other entries are: the loop of [_update]
    then raises on it. *)
Theorem zero_count_zero_prediction (np : numpy) (vad : held_out)
    (X_pred : vec) (k : nat) :
  np_log np 0 = neg_infinity ->
  List.length (X_new vad) = List.length X_pred ->
  nth_error (X_new vad) k = Some 0%float ->
  nth_error X_pred k = Some 0%float ->
  (forall w : PMF.W,
      _inner (PMF.Eb (self w)) (PMF.Et (self w)) (rows_new vad)
             (cols_new vad) = inr X_pred ->
      exists p, PMF.pred_loglikeli np vad w = Ok p w /\ is_nan p = true)
  /\ (forall w : HPMF.W,
      _inner (HPMF.Eb (self w)) (HPMF.Et (self w)) (rows_new vad)
             (cols_new vad) = inr X_pred ->
      exists p, HPMF.pred_loglikeli np vad w = Ok p w /\ is_nan p = true).
Proof.
  intros Hlog Hlen Hn Hp.
  destruct (held_out_ll_zero np Hlog _ _ k Hlen Hn Hp) as [p [E Hnan]].
  split; intros w Hi; exists p; (split; [|exact Hnan]).
  - unfold PMF.pred_loglikeli, bind, getattr, gets, lift. rewrite Hi.
    change (match held_out_ll np (X_new vad) X_pred with
            | inl e => Raise e w
            | inr a => Ok a w
            end = Ok p w).
    now rewrite E.
  - unfold HPMF.pred_loglikeli, bind, getattr, gets, lift. rewrite Hi.
    change (match held_out_ll np (X_new vad) X_pred with
            | inl e => Raise e w
            | inr a => Ok a w
            end = Ok p w).
    now rewrite E.
Qed.

Lemma zero_count_zero_prediction_witness :
  exists p,
    HPMF.pred_loglikeli Ref.np
      {| X_new := [0%float]; rows_new := [0%Z]; cols_new := [1%Z] |}
      (state_of (bind (HPMF._init_items Ref.np 3 (Some Ex.beta0))
                      (fun _ => HPMF._init_users Ref.np 3) (Ex.hpmf 50)))
    = Ok p (state_of (bind (HPMF._init_items Ref.np 3 (Some Ex.beta0))
                           (fun _ => HPMF._init_users Ref.np 3)
                           (Ex.hpmf 50)))
    /\ is_nan p = true.
Proof.
  apply (proj2 (@zero_count_zero_prediction Ref.np
                  {| X_new := [0%float]; rows_new := [0%Z];
                     cols_new := [1%Z] |}
                  [0%float] 0 ltac:(vm_compute; reflexivity) eq_refl eq_refl
                  eq_refl)).
  vm_compute. reflexivity.
Defined.

(** A fit of [HPoissonMF] on an observed [beta] whose first item has no
    attribute, with a held-out zero for that item, raises at its first
    evaluation. *)
Example zero_count_zero_prediction_run :
  exists w,
    HPMF.fit Ref.np Ex.X0 Ex.rows0 Ex.cols0
             {| X_new := [0%float]; rows_new := [0%Z]; cols_new := [1%Z] |}
             (Some Ex.beta0) None false "default" false (Ex.hpmf 50)
    = Raise (Exception "nan in predictive ll") w
    /\ List.length (trace w) = 2%nat.
Proof. eexists. split; vm_compute; reflexivity. Qed.

(** ** Expectations under every policy that reloads nothing *)

Module PMF_policies.
Import PMF.

Section WithNumpy.

Variable np : numpy.

Abbreviation C := (pmf_consistent np).

(** A run under [o] never restores cached shapes and rates: either nothing
    is clamped, or the policy is not one of the two category-first ones. *)
Definition no_reload (o : opts) : Prop :=
  zero_untrained_components o = false
  \/ (streq (item_fit_type o) "converge_in_category_first" = false
      /\ streq (item_fit_type o) "converge_out_category_first" = false).

(** [c] keeps both sides consistent, now and on the record. *)
Definition consistent {A} (c : M W A) : Prop :=
  hoare (always C) c (fun _ w => always C w) (fun _ w => snapshots C w).

Lemma consistent_ret {A} (a : A) : consistent (ret a).
Proof. apply hoare_ret. auto. Qed.

Lemma consistent_bind {A B} (c : M W A) (k : A -> M W B) :
  consistent c -> (forall a, consistent (k a)) -> consistent (bind c k).
Proof. intros Hc Hk. eapply hoare_bind; [exact Hc | exact Hk]. Qed.

Lemma consistent_lift {A} (r : res A) : consistent (lift r).
Proof. apply hoare_lift. intros w Hw. destruct r; [apply Hw | exact Hw]. Qed.

Lemma consistent_raise {A} (e : exn) : consistent (@raise W A e).
Proof. apply hoare_raise. intros w Hw. apply Hw. Qed.

Lemma consistent_observe (l : label) : consistent (observe l).
Proof. apply hoare_modify. intros w Hw. now apply always_observe. Qed.

Lemma consistent_getattr {A} (f : PoissonMF -> A) : consistent (getattr f).
Proof. apply hoare_gets. auto. Qed.

Lemma _init_users_consistent n : consistent (_init_users np n None).
Proof.
  intros w [[Hu Hi] Ht].
  pose proof (PMF_expect._init_users_expect np n w) as H.
  destruct (_init_users np n None w) as [[] w'|e w'].
  - destruct H as [Hu' [Hs Htr]].
    split; [split; eauto using PMF_expect.items_ok_same|].
    now rewrite Htr.
  - unfold snapshots. now rewrite H.
Qed.

Lemma users_part_consistent X rows cols o i :
  consistent (users_part np X rows cols o i).
Proof.
  unfold users_part.
  repeat match goal with
         | |- consistent (if ?b then _ else _) => destruct b
         | |- consistent (bind _ _) => apply consistent_bind; [|intros ?]
         | |- consistent (ret _) => apply consistent_ret
         | |- consistent (getattr _) => apply consistent_getattr
         | |- consistent (_init_users _ _ _) => apply _init_users_consistent
         | |- consistent (_update_users _ _ _ _ _ _ _ _ _) =>
             apply PMF_expect._update_users_keeps
         end.
Qed.

Lemma clamp_consistent o i l :
  streq (item_fit_type o) "converge_in_category_first" = false ->
  streq (item_fit_type o) "converge_out_category_first" = false ->
  consistent (clamp o i l).
Proof.
  intros H1 H2. unfold clamp. rewrite H1, H2.
  apply consistent_bind; [apply consistent_lift|].
  intros ?. apply consistent_ret.
Qed.

Lemma items_part_consistent X rows cols o i l :
  no_reload o -> consistent (items_part np X rows cols o i l).
Proof.
  intros Ho. unfold items_part.
  destruct (_ || _); [apply consistent_ret|].
  destruct (negb _).
  - apply consistent_bind.
    + destruct (zero_untrained_components o) eqn:Ez;
        [|apply consistent_ret].
      destruct ((i =? 0)%Z); [|apply consistent_ret].
      destruct (streq (update o) "default"); [|apply consistent_ret].
      destruct Ho as [Ho|[H1 H2]]; [congruence|].
      now apply clamp_consistent.
    + intros l1. apply consistent_bind; [|intros ?; apply consistent_ret].
      repeat match goal with
             | |- consistent (if ?b then _ else _) => destruct b
             | |- consistent (ret _) => apply consistent_ret
             | |- consistent (_update_items _ _ _ _ _ _ _ _) =>
                 apply PMF_expect._update_items_keeps
             end.
  - apply consistent_bind; [apply PMF_expect._update_items_keeps|].
    intros ?. apply consistent_ret.
Qed.

Lemma pred_loglikeli_consistent vad : consistent (pred_loglikeli np vad).
Proof.
  intros w Hw. pose proof (PMF_expect.pred_loglikeli_reads np vad w) as H.
  destruct (pred_loglikeli np vad w); simpl in H; subst;
    [exact Hw | apply Hw].
Qed.

Lemma second_phase_no_reload o u : no_reload (second_phase o u).
Proof. left. reflexivity. Qed.

Section Update.

Variable recur :
  sparse -> list Z -> list Z -> held_out -> opts -> M W (float * best).

Hypothesis recur_consistent :
  forall X rows cols vad o,
    no_reload o -> consistent (recur X rows cols vad o).

Lemma converged_part_consistent X rows cols vad o i l :
  no_reload o -> consistent (converged_part recur X rows cols vad o i l).
Proof.
  intros Ho. unfold converged_part.
  destruct (_ && _); [|apply consistent_ret].
  apply consistent_bind; [|intros ?].
  - destruct (streq (item_fit_type o) "converge_in_category_first") eqn:E1;
      [|apply consistent_ret].
    apply consistent_bind; [|intros ?].
    + destruct (zero_untrained_components o) eqn:Ez; [|apply consistent_ret].
      destruct Ho as [Ho|[H1 _]]; congruence.
    + apply consistent_bind; [|intros ?; apply consistent_ret].
      apply recur_consistent, second_phase_no_reload.
  - destruct (streq (item_fit_type o) "converge_out_category_first") eqn:E2;
      [|apply consistent_ret].
    apply consistent_bind; [|intros ?].
    + destruct (zero_untrained_components o) eqn:Ez; [|apply consistent_ret].
      destruct Ho as [Ho|[_ H2]]; congruence.
    + apply consistent_bind; [|intros ?; apply consistent_ret].
      apply recur_consistent, second_phase_no_reload.
Qed.

Lemma iteration_consistent X rows cols vad o i l :
  no_reload o -> consistent (iteration np recur X rows cols vad o i l).
Proof.
  intros Ho. unfold iteration.
  apply consistent_bind; [apply users_part_consistent|]. intros ?.
  apply consistent_bind; [now apply items_part_consistent|]. intros l1.
  apply consistent_bind; [apply pred_loglikeli_consistent|]. intros p.
  apply consistent_bind; [apply consistent_observe|]. intros ?.
  destruct (is_nan p); [apply consistent_raise|].
  apply consistent_bind; [apply consistent_getattr|]. intros s. cbv zeta.
  destruct (tol_stop _ _ _ _ _); [|apply consistent_ret].
  apply consistent_bind; [apply consistent_observe|]. intros ?.
  apply consistent_bind; [now apply converged_part_consistent|]. intros ?.
  apply consistent_ret.
Qed.

Lemma _update_body_consistent X rows cols vad o :
  no_reload o -> consistent (_update_body np recur X rows cols vad o).
Proof.
  intros Ho. unfold _update_body.
  apply consistent_bind; [apply consistent_getattr|]. intros n.
  apply consistent_bind.
  - apply hoare_for_each with
      (J := fun (_ : list Z) (_ : locals) (w : W) => always C w); [|auto].
    intros i rest l w Hw.
    pose proof (@iteration_consistent X rows cols vad o i l Ho w Hw) as H.
    destruct (iteration _ _ _ _ _ _ _ _ _ w) as [[l' brk] w'|]; [|exact H].
    simpl. destruct brk; exact H.
  - intros l. unfold local.
    apply consistent_bind; [apply consistent_lift|].
    intros p. apply consistent_ret.
Qed.

End Update.

Lemma _update_consistent X rows cols vad o :
  no_reload o -> consistent (_update np X rows cols vad o).
Proof.
  intros Ho. unfold _update. apply _update_body_consistent; [|exact Ho].
  intros X' rows' cols' vad' o' Ho'. unfold _update_leaf.
  apply _update_body_consistent; [|exact Ho'].
  intros. apply consistent_raise.
Qed.

(** [_init_items] draws shape and rate unless the matrix is observed. *)
Lemma _init_items_fitted n beta cw (w : W) :
  beta = None \/ cw = true ->
  match _init_items np n beta cw w with
  | Ok _ w' => pmf_items_ok np (self w') /\ trace w' = trace w
  | Raise _ w' => trace w' = trace w
  end.
Proof.
  intros Hb.
  assert (E : _init_items np n beta cw = _init_items np n None cw).
  { destruct Hb as [-> | ->]; [reflexivity | now destruct beta]. }
  rewrite E. pose proof (PMF_expect._init_items_expect np n cw w) as H.
  destruct (_init_items np n None cw w); [|exact H].
  split; apply H.
Qed.

Lemma fit_consistent X rows cols vad beta cw ift z :
  beta = None \/ cw = true ->
  z = false
  \/ (ift <> "converge_in_category_first"
      /\ ift <> "converge_out_category_first") ->
  hoare (fun w => trace w = [])
        (fit np X rows cols vad beta None cw ift "default" z)
        (fun _ w => always C w) (fun _ w => snapshots C w).
Proof.
  intros Hb Hz. unfold fit. cbv zeta.
  apply hoare_bind with (Mid := fun _ w => trace w = []);
    [apply hoare_modify; auto|]. intros ?.
  apply hoare_bind with
    (Mid := fun _ w => trace w = [] /\ pmf_items_ok np (self w)).
  { intros w Hw.
    pose proof (@_init_items_fitted (fst (X_shape X)) beta cw w Hb) as H.
    destruct (_init_items _ _ _ _ w) as [[] w'|e w'].
    - destruct H as [Hi Htr]. split; [congruence | exact Hi].
    - unfold snapshots. rewrite H, Hw. constructor. }
  intros ?.
  apply hoare_bind with (Mid := fun _ w => always C w).
  { intros w [Hw Hi].
    pose proof (PMF_expect._init_users_expect np (snd (X_shape X)) w) as H.
    destruct (_init_users _ _ _ w) as [[] w'|e w'].
    - destruct H as [Hu [Hs Htr]].
      split; [split; eauto using PMF_expect.items_ok_same|].
      rewrite Htr, Hw. constructor.
    - unfold snapshots. rewrite H, Hw. constructor. }
  intros ?.
  replace (negb (streq "default" "default")) with false by reflexivity.
  apply consistent_bind; [|intros ?; apply consistent_ret].
  apply _update_consistent.
  destruct Hz as [-> | [H1 H2]]; [now left | right].
  cbn [item_fit_type]. split; now apply streq_neq.
Qed.

End WithNumpy.

End PMF_policies.

Module HPMF_policies.
Import HPMF.

Section WithNumpy.

Variable np : numpy.

Abbreviation C := (hpmf_consistent np).

Definition no_reload (o : opts) : Prop :=
  zero_untrained_components o = false
  \/ (streq (item_fit_type o) "converge_in_category_first" = false
      /\ streq (item_fit_type o) "converge_out_category_first" = false).

Definition consistent {A} (c : M W A) : Prop :=
  hoare (always C) c (fun _ w => always C w) (fun _ w => snapshots C w).

Lemma consistent_ret_h {A} (a : A) : consistent (ret a).
Proof. apply hoare_ret. auto. Qed.

Lemma consistent_bind_h {A B} (c : M W A) (k : A -> M W B) :
  consistent c -> (forall a, consistent (k a)) -> consistent (bind c k).
Proof. intros Hc Hk. eapply hoare_bind; [exact Hc | exact Hk]. Qed.

Lemma consistent_lift_h {A} (r : res A) : consistent (lift r).
Proof. apply hoare_lift. intros w Hw. destruct r; [apply Hw | exact Hw]. Qed.

Lemma consistent_raise_h {A} (e : exn) : consistent (@raise W A e).
Proof. apply hoare_raise. intros w Hw. apply Hw. Qed.

Lemma consistent_observe_h (l : label) : consistent (observe l).
Proof. apply hoare_modify. intros w Hw. now apply always_observe. Qed.

Lemma consistent_getattr_h {A} (f : HPoissonMF -> A) :
  consistent (getattr f).
Proof. apply hoare_gets. auto. Qed.

Lemma clamp_consistent_h o i l :
  streq (item_fit_type o) "converge_in_category_first" = false ->
  streq (item_fit_type o) "converge_out_category_first" = false ->
  consistent (clamp o i l).
Proof.
  intros H1 H2. unfold clamp. rewrite H1, H2.
  apply consistent_bind_h; [apply consistent_lift_h|].
  intros ?. apply consistent_ret_h.
Qed.

Lemma items_part_consistent_h X rows cols o i l :
  no_reload o -> consistent (items_part np X rows cols o i l).
Proof.
  intros Ho. unfold items_part.
  destruct (_ && _); [apply consistent_ret_h|].
  destruct (negb _).
  - apply consistent_bind_h.
    + destruct (zero_untrained_components o) eqn:Ez;
        [|apply consistent_ret_h].
      destruct ((i =? 1)%Z); [|apply consistent_ret_h].
      destruct (streq (update o) "default"); [|apply consistent_ret_h].
      destruct Ho as [Ho|[H1 H2]]; [congruence|].
      now apply clamp_consistent_h.
    + intros l1. apply consistent_bind_h; [|intros ?; apply consistent_ret_h].
      repeat match goal with
             | |- consistent (if ?b then _ else _) => destruct b
             | |- consistent (ret _) => apply consistent_ret_h
             | |- consistent (_update_items _ _ _ _ _ _ _) =>
                 apply HPMF_expect._update_items_keeps_h
             end.
  - apply consistent_bind_h; [apply HPMF_expect._update_items_keeps_h|].
    intros ?. apply consistent_ret_h.
Qed.

Lemma pred_loglikeli_consistent_h vad : consistent (pred_loglikeli np vad).
Proof.
  intros w Hw. pose proof (HPMF_expect.pred_loglikeli_reads_h np vad w) as H.
  destruct (pred_loglikeli np vad w); simpl in H; subst;
    [exact Hw | apply Hw].
Qed.

Lemma second_phase_no_reload_h o u : no_reload (second_phase o u).
Proof. left. reflexivity. Qed.

Section Update.

Variable recur : sparse -> list Z -> list Z -> held_out -> opts -> M W unit.

Hypothesis recur_consistent :
  forall X rows cols vad o,
    no_reload o -> consistent (recur X rows cols vad o).

Lemma converged_part_consistent_h X rows cols vad o i l :
  no_reload o -> consistent (converged_part recur X rows cols vad o i l).
Proof.
  intros Ho. unfold converged_part.
  destruct (_ && _); [|apply consistent_ret_h].
  apply consistent_bind_h; [|intros ?].
  - destruct (streq (item_fit_type o) "converge_in_category_first") eqn:E1;
      [|apply consistent_ret_h].
    apply consistent_bind_h; [|intros ?].
    + destruct (zero_untrained_components o) eqn:Ez;
        [|apply consistent_ret_h].
      destruct Ho as [Ho|[H1 _]]; congruence.
    + apply recur_consistent, second_phase_no_reload_h.
  - destruct (streq (item_fit_type o) "converge_out_category_first") eqn:E2;
      [|apply consistent_ret_h].
    apply consistent_bind_h; [|intros ?].
    + destruct (zero_untrained_components o) eqn:Ez;
        [|apply consistent_ret_h].
      destruct Ho as [Ho|[_ H2]]; congruence.
    + apply recur_consistent, second_phase_no_reload_h.
Qed.

Lemma iteration_consistent_h X rows cols vad o i l :
  no_reload o -> consistent (iteration np recur X rows cols vad o i l).
Proof.
  intros Ho. unfold iteration.
  apply consistent_bind_h; [apply HPMF_expect._update_users_keeps_h|].
  intros ?.
  apply consistent_bind_h; [now apply items_part_consistent_h|]. intros l1.
  apply consistent_bind_h; [apply pred_loglikeli_consistent_h|]. intros p.
  apply consistent_bind_h; [apply consistent_observe_h|]. intros ?.
  destruct (is_nan p); [apply consistent_raise_h|].
  apply consistent_bind_h; [apply consistent_getattr_h|]. intros s.
  destruct (tol_stop _ _ _ _ _); [|apply consistent_ret_h].
  apply consistent_bind_h; [apply consistent_observe_h|]. intros ?.
  apply consistent_bind_h; [now apply converged_part_consistent_h|].
  intros ?. apply consistent_ret_h.
Qed.

Lemma _update_body_consistent_h X rows cols vad o :
  no_reload o -> consistent (_update_body np recur X rows cols vad o).
Proof.
  intros Ho. unfold _update_body.
  apply consistent_bind_h; [apply consistent_getattr_h|]. intros n.
  apply consistent_bind_h; [|intros ?; apply consistent_ret_h].
  apply hoare_for_each with
    (J := fun (_ : list Z) (_ : locals) (w : W) => always C w); [|auto].
  intros i rest l w Hw.
  pose proof (@iteration_consistent_h X rows cols vad o i l Ho w Hw) as H.
  destruct (iteration _ _ _ _ _ _ _ _ _ w) as [[l' brk] w'|]; [|exact H].
  simpl. destruct brk; exact H.
Qed.

End Update.

Lemma _update_consistent_h X rows cols vad o :
  no_reload o -> consistent (_update np X rows cols vad o).
Proof.
  intros Ho. unfold _update. apply _update_body_consistent_h; [|exact Ho].
  intros X' rows' cols' vad' o' Ho'. unfold _update_leaf.
  apply _update_body_consistent_h; [|exact Ho'].
  intros. apply consistent_raise_h.
Qed.

Lemma fit_consistent_h X rows cols vad theta cw ift z :
  z = false
  \/ (ift <> "converge_in_category_first"
      /\ ift <> "converge_out_category_first") ->
  hoare (fun w => trace w = [])
        (fit np X rows cols vad None theta cw ift z)
        (fun _ w => always C w) (fun _ w => snapshots C w).
Proof.
  intros Hz. unfold fit. cbv zeta.
  apply hoare_bind with
    (Mid := fun _ w => trace w = [] /\ hpmf_items_ok np (self w)).
  { intros w Hw.
    pose proof (HPMF_expect._init_items_expect_h np (fst (X_shape X)) w) as H.
    destruct (_init_items _ _ _ w) as [[] w'|e w'].
    - destruct H as [Hi [_ Htr]]. split; [congruence | exact Hi].
    - unfold snapshots. rewrite H, Hw. constructor. }
  intros ?.
  apply hoare_bind with (Mid := fun _ w => always C w).
  { intros w [Hw Hi].
    pose proof (HPMF_expect._init_users_expect_h np (snd (X_shape X)) w) as H.
    destruct (_init_users _ _ w) as [[] w'|e w'].
    - destruct H as [Hu [Hs Htr]].
      split; [split; eauto using HPMF_expect.items_ok_same_h|].
      rewrite Htr, Hw. constructor.
    - unfold snapshots. rewrite H, Hw. constructor. }
  intros ?. apply _update_consistent_h.
  destruct Hz as [-> | [H1 H2]]; [now left | right].
  cbn [item_fit_type]. split; now apply streq_neq.
Qed.

End WithNumpy.

End HPMF_policies.

(** X19.  A fit that fits both sides and reloads no cached shape or rate
    keeps the expectations in step with them.  For [PoissonMF.fit] with no
    [theta], the default [user_fit_type], and [beta] either absent or a
    category mask ([categorywise]), under every [item_fit_type] when
    [zero_untrained_components] is off and under every one but the two
    category-first policies when it is on: at every observation point, and
    in the object the fit leaves when it returns, both sides satisfy
    [(E, Elog) = _compute_expectations(shape, rate)].  The same for
    [HPoissonMF.fit] with no [beta]. *)
Theorem fit_without_reload_keeps_expectations (np : numpy) :
  (forall X rows cols vad beta cw ift z (p : PMF.PoissonMF),
      beta = None \/ cw = true ->
      z = false
      \/ (ift <> "converge_in_category_first"
          /\ ift <> "converge_out_category_first") ->
      match PMF.fit np X rows cols vad beta None cw ift "default" z
                    {| self := p; trace := [] |} with
      | Ok _ w' => always (pmf_consistent np) w'
      | Raise _ w' => snapshots (pmf_consistent np) w'
      end)
  /\ (forall X rows cols vad theta cw ift z (h : HPMF.HPoissonMF),
         z = false
         \/ (ift <> "converge_in_category_first"
             /\ ift <> "converge_out_category_first") ->
         match HPMF.fit np X rows cols vad None theta cw ift z
                        {| self := h; trace := [] |} with
         | Ok _ w' => always (hpmf_consistent np) w'
         | Raise _ w' => snapshots (hpmf_consistent np) w'
         end).
Proof.
  split.
  - intros X rows cols vad beta cw ift z p Hb Hz.
    apply (@PMF_policies.fit_consistent np X rows cols vad beta cw ift z
             Hb Hz {| self := p; trace := [] |} eq_refl).
  - intros X rows cols vad theta cw ift z h Hz.
    apply (@HPMF_policies.fit_consistent_h np X rows cols vad theta cw ift z
             Hz {| self := h; trace := [] |} eq_refl).
Qed.

Lemma fit_without_reload_keeps_expectations_witness :
  match PMF.fit Ref.np Ex.X Ex.rows Ex.cols Ex.vad (Some Ex.mask) None true
                "alternating_updates" "default" true (Ex.pmf 50) with
  | Ok _ w' => always (pmf_consistent Ref.np) w'
  | Raise _ w' => snapshots (pmf_consistent Ref.np) w'
  end.
Proof.
  apply (proj1 (fit_without_reload_keeps_expectations Ref.np)
           Ex.X Ex.rows Ex.cols Ex.vad (Some Ex.mask) true
           "alternating_updates" true (self (Ex.pmf 50))).
  - right. reflexivity.
  - right. split; discriminate.
Defined.
